(** * makefmt: a shallow embedding of the parser, writer, rule pipeline
      and diff engine, with the properties stated about them.

    Go strings are byte sequences and are modelled as [list ascii]; Go
    [int] values are modelled in [Z] (every integer the program computes
    is bounded by the length of a slice or string held in memory, so the
    64-bit wrap-around is never reached).  An operation that panics at
    run time in Go (indexing or slicing out of range) returns [None];
    loops that are not structurally recursive carry a fuel argument and
    also return [None] when it runs out. *)

From Stdlib Require Import String Ascii List ZArith Lia Bool Arith.
From Stdlib Require Import DecimalString Permutation.

#[local] Set Warnings "-register-all".
Import ListNotations.

Open Scope string_scope.
Open Scope list_scope.
Open Scope Z_scope.

(** ** Go strings and slices *)

Definition gostring := list ascii.

Coercion list_ascii_of_string : string >-> list.

Definition strs (l : list string) : list gostring :=
  map list_ascii_of_string l.

Definition len {A : Type} (l : list A) : Z := Z.of_nat (length l).

(** [l[i]], with the bounds check. *)
Definition index {A : Type} (l : list A) (i : Z) : option A :=
  if i <? 0 then None else nth_error l (Z.to_nat i).

(** [l[lo:hi]], with the bounds check. *)
Definition slice {A : Type} (l : list A) (lo hi : Z) : option (list A) :=
  if (0 <=? lo) && (lo <=? hi) && (hi <=? len l)
  then Some (firstn (Z.to_nat (hi - lo)) (skipn (Z.to_nat lo) l))
  else None.

Definition sliceFrom {A : Type} (l : list A) (lo : Z) : option (list A) :=
  slice l lo (len l).

Definition sliceTo {A : Type} (l : list A) (hi : Z) : option (list A) :=
  slice l 0 hi.

(** [l[i] = x]: assignment to an element, with the bounds check. *)
Fixpoint set_nth {A : Type} (l : list A) (i : nat) (x : A) : option (list A) :=
  match l, i with
  | [], _ => None
  | _ :: t, O => Some (x :: t)
  | h :: t, S j =>
      match set_nth t j x with
      | Some t' => Some (h :: t')
      | None => None
      end
  end.

Definition store {A : Type} (l : list A) (i : Z) (x : A) : option (list A) :=
  if i <? 0 then None else set_nth l (Z.to_nat i) x.

(** A small option monad for code that may panic. *)
Definition bind {A B : Type} (m : option A) (f : A -> option B) : option B :=
  match m with
  | Some a => f a
  | None => None
  end.

Notation "x <- m ;; k" := (bind m (fun x => k))
  (at level 61, m at next level, right associativity).
Notation "' pat <- m ;; k" := (bind m (fun x => match x with pat => k end))
  (at level 61, pat pattern, m at next level, right associativity).

Module Strings.

Definition byte (n : nat) : ascii := ascii_of_nat n.

Definition NL : ascii := byte 10.
Definition TAB : ascii := byte 9.
Definition SP : ascii := " "%char.
Definition BSL : ascii := byte 92.

Fixpoint eqs (a b : gostring) : bool :=
  match a, b with
  | [], [] => true
  | x :: a', y :: b' => Ascii.eqb x y && eqs a' b'
  | _, _ => false
  end.

Fixpoint HasPrefix (s prefix : gostring) : bool :=
  match prefix, s with
  | [], _ => true
  | p :: prefix', c :: s' => Ascii.eqb p c && HasPrefix s' prefix'
  | _ :: _, [] => false
  end.

Definition HasSuffix (s suffix : gostring) : bool :=
  HasPrefix (rev s) (rev suffix).

Definition TrimPrefix (s prefix : gostring) : gostring :=
  if HasPrefix s prefix then skipn (length prefix) s else s.

(** [strings.Index]: byte offset of the first occurrence, or -1. *)
Fixpoint Index (s substr : gostring) : Z :=
  if HasPrefix s substr then 0
  else match s with
       | [] => -1
       | _ :: s' => let r := Index s' substr in
                    if r <? 0 then -1 else r + 1
       end.

Definition Contains (s substr : gostring) : bool :=
  0 <=? Index s substr.

Definition inSet (chars : gostring) (c : ascii) : bool :=
  existsb (Ascii.eqb c) chars.

(** [strings.IndexAny] for a set of ASCII characters. *)
Fixpoint IndexAny (s chars : gostring) : Z :=
  match s with
  | [] => -1
  | c :: s' => if inSet chars c then 0
               else let r := IndexAny s' chars in
                    if r <? 0 then -1 else r + 1
  end.

Definition ContainsAny (s chars : gostring) : bool :=
  0 <=? IndexAny s chars.

Fixpoint dropWhile (p : ascii -> bool) (s : gostring) : gostring :=
  match s with
  | [] => []
  | c :: s' => if p c then dropWhile p s' else s
  end.

(** [strings.TrimRight] for a cutset of ASCII characters. *)
Definition TrimRight (s cutset : gostring) : gostring :=
  rev (dropWhile (inSet cutset) (rev s)).

(** The UTF-8 encodings of the runes for which [unicode.IsSpace] holds:
    the six ASCII ones, U+0085, U+00A0, U+1680, U+2000..U+200A, U+2028,
    U+2029, U+202F, U+205F and U+3000.  [utf8.DecodeRune] accepts only
    these shortest encodings. *)
Definition spaceRunes : list gostring :=
  map (map byte)
    [ [9]; [10]; [11]; [12]; [13]; [32];
      [194; 133]; [194; 160]; [225; 154; 128];
      [226; 128; 128]; [226; 128; 129]; [226; 128; 130]; [226; 128; 131];
      [226; 128; 132]; [226; 128; 133]; [226; 128; 134]; [226; 128; 135];
      [226; 128; 136]; [226; 128; 137]; [226; 128; 138];
      [226; 128; 168]; [226; 128; 169]; [226; 128; 175];
      [226; 129; 159]; [227; 128; 128] ]%nat.

(** Width in bytes of the white-space rune with which [s] starts, 0 when
    it starts with none. *)
Definition spaceWidth (s : gostring) : nat :=
  match find (HasPrefix s) spaceRunes with
  | Some r => length r
  | None => O
  end.

(** Same for the rune with which [s] ends; [r] is [s] reversed. *)
Definition spaceWidthRev (r : gostring) : nat :=
  match find (fun e => HasPrefix r (rev e)) spaceRunes with
  | Some e => length e
  | None => O
  end.

Fixpoint trimLeftAux (width : gostring -> nat) (skip : nat) (s : gostring)
  : gostring :=
  match s with
  | [] => []
  | _ :: s' =>
      match skip with
      | S k => trimLeftAux width k s'
      | O => match width s with
             | O => s
             | S k => trimLeftAux width k s'
             end
      end
  end.

(** [strings.TrimSpace]. *)
Definition TrimSpace (s : gostring) : gostring :=
  rev (trimLeftAux spaceWidthRev 0 (rev (trimLeftAux spaceWidth 0 s))).

Definition flush (cur : gostring) : list gostring :=
  match cur with
  | [] => []
  | _ => [cur]
  end.

Fixpoint fieldsAux (skip : nat) (cur : gostring) (s : gostring)
  : list gostring :=
  match s with
  | [] => flush cur
  | c :: s' =>
      match skip with
      | S k => fieldsAux k cur s'
      | O => match spaceWidth s with
             | O => fieldsAux 0 (cur ++ [c]) s'
             | S k => flush cur ++ fieldsAux k [] s'
             end
      end
  end.

(** [strings.Fields]. *)
Definition Fields (s : gostring) : list gostring := fieldsAux 0 [] s.

(** [strings.Split(s, sep)] for a one-byte separator (the program only
    splits at a newline). *)
Fixpoint Split (s : gostring) (sep : ascii) : list gostring :=
  match s with
  | [] => [[]]
  | c :: s' =>
      if Ascii.eqb c sep then [] :: Split s' sep
      else match Split s' sep with
           | [] => [[c]]
           | l :: ls => (c :: l) :: ls
           end
  end.

(** [strings.SplitAfter(s, sep)] for a one-byte separator. *)
Fixpoint SplitAfter (s : gostring) (sep : ascii) : list gostring :=
  match s with
  | [] => [[]]
  | c :: s' =>
      if Ascii.eqb c sep then [c] :: SplitAfter s' sep
      else match SplitAfter s' sep with
           | [] => [[c]]
           | l :: ls => (c :: l) :: ls
           end
  end.

Fixpoint Join (elems : list gostring) (sep : gostring) : gostring :=
  match elems with
  | [] => []
  | [e] => e
  | e :: rest => e ++ sep ++ Join rest sep
  end.

(** [strings.Repeat]; every call site passes a count that is not
    negative. *)
Definition Repeat (s : gostring) (count : Z) : gostring :=
  concat (repeat s (Z.to_nat count)).

End Strings.

(** ** Regular expressions (for the banner pattern)

    Matching by Brzozowski derivatives, over bytes. *)

Module Regexp.

Inductive regex : Type :=
| Void
| Eps
| Class (p : ascii -> bool)
| Seq (r1 r2 : regex)
| Alt (r1 r2 : regex)
| Star (r : regex).

Fixpoint nullable (r : regex) : bool :=
  match r with
  | Void => false
  | Eps => true
  | Class _ => false
  | Seq r1 r2 => nullable r1 && nullable r2
  | Alt r1 r2 => nullable r1 || nullable r2
  | Star _ => true
  end.

Definition seq' (r1 r2 : regex) : regex :=
  match r1, r2 with
  | Void, _ => Void
  | _, Void => Void
  | Eps, _ => r2
  | _, _ => Seq r1 r2
  end.

Definition alt' (r1 r2 : regex) : regex :=
  match r1, r2 with
  | Void, _ => r2
  | _, Void => r1
  | _, _ => Alt r1 r2
  end.

Fixpoint deriv (c : ascii) (r : regex) : regex :=
  match r with
  | Void => Void
  | Eps => Void
  | Class p => if p c then Eps else Void
  | Seq r1 r2 =>
      if nullable r1
      then alt' (seq' (deriv c r1) r2) (deriv c r2)
      else seq' (deriv c r1) r2
  | Alt r1 r2 => alt' (deriv c r1) (deriv c r2)
  | Star r1 => seq' (deriv c r1) (Star r1)
  end.

(** The whole of [s] matches [r] (the pattern is anchored at both
    ends). *)
Fixpoint matches (r : regex) (s : gostring) : bool :=
  match s with
  | [] => nullable r
  | c :: s' => matches (deriv c r) s'
  end.

Definition Plus (r : regex) : regex := Seq r (Star r).
Definition AtLeast2 (r : regex) : regex := Seq r (Plus r).
Definition AtLeast3 (r : regex) : regex := Seq r (AtLeast2 r).

Definition chr (c : ascii) : regex := Class (Ascii.eqb c).

(** [\s] is [[\t\n\f\r ]]. *)
Definition ws : regex :=
  Class (fun c => Strings.inSet (map Strings.byte [9; 10; 12; 13; 32]%nat) c).

(** [.] is any byte but a newline. *)
Definition dot : regex := Class (fun c => negb (Ascii.eqb c Strings.NL)).

End Regexp.

(** ** The node model ([internal/parser/ast.go]) *)

Module Parser.

Import Strings.

Inductive NodeType : Type :=
| NodeComment
| NodeSectionHeader
| NodeBannerComment
| NodeBlankLine
| NodeAssignment
| NodeRule
| NodeRecipe
| NodeConditional
| NodeInclude
| NodeDirective
| NodeRaw.

Definition NodeType_eqb (a b : NodeType) : bool :=
  match a, b with
  | NodeComment, NodeComment
  | NodeSectionHeader, NodeSectionHeader
  | NodeBannerComment, NodeBannerComment
  | NodeBlankLine, NodeBlankLine
  | NodeAssignment, NodeAssignment
  | NodeRule, NodeRule
  | NodeRecipe, NodeRecipe
  | NodeConditional, NodeConditional
  | NodeInclude, NodeInclude
  | NodeDirective, NodeDirective
  | NodeRaw, NodeRaw => true
  | _, _ => false
  end.

Record NodeFields : Type := mkFields {
  VarName : gostring;
  AssignOp : gostring;
  VarValue : gostring;
  Targets : list gostring;
  Prerequisites : list gostring;
  OrderOnly : list gostring;
  InlineHelp : gostring;
  Directive : gostring;
  Condition : gostring;
  IncludeType : gostring;
  Paths : list gostring;
  Text : gostring;
  Inline : bool;
  Prefix : gostring
}.

(** The zero value of [NodeFields]. *)
Definition noFields : NodeFields :=
  mkFields [] [] [] [] [] [] [] [] [] [] [] [] false [].

(** [Typ] is the field [Type] of the source ([Type] is reserved). *)
Inductive Node : Type := mkNode {
  Typ : NodeType;
  Line : Z;
  Raw : gostring;
  Children : list Node;
  Fields : NodeFields
}.

Definition setTyp (n : Node) (t : NodeType) : Node :=
  mkNode t (Line n) (Raw n) (Children n) (Fields n).
Definition setLine (n : Node) (l : Z) : Node :=
  mkNode (Typ n) l (Raw n) (Children n) (Fields n).
Definition setRaw (n : Node) (r : gostring) : Node :=
  mkNode (Typ n) (Line n) r (Children n) (Fields n).
Definition setChildren (n : Node) (c : list Node) : Node :=
  mkNode (Typ n) (Line n) (Raw n) c (Fields n).
Definition setFields (n : Node) (f : NodeFields) : Node :=
  mkNode (Typ n) (Line n) (Raw n) (Children n) f.

Definition setVarName (f : NodeFields) (v : gostring) : NodeFields :=
  mkFields v (AssignOp f) (VarValue f) (Targets f) (Prerequisites f)
    (OrderOnly f) (InlineHelp f) (Directive f) (Condition f)
    (IncludeType f) (Paths f) (Text f) (Inline f) (Prefix f).
Definition setVarValue (f : NodeFields) (v : gostring) : NodeFields :=
  mkFields (VarName f) (AssignOp f) v (Targets f) (Prerequisites f)
    (OrderOnly f) (InlineHelp f) (Directive f) (Condition f)
    (IncludeType f) (Paths f) (Text f) (Inline f) (Prefix f).
Definition setInlineHelp (f : NodeFields) (v : gostring) : NodeFields :=
  mkFields (VarName f) (AssignOp f) (VarValue f) (Targets f)
    (Prerequisites f) (OrderOnly f) v (Directive f) (Condition f)
    (IncludeType f) (Paths f) (Text f) (Inline f) (Prefix f).
Definition setCondition (f : NodeFields) (v : gostring) : NodeFields :=
  mkFields (VarName f) (AssignOp f) (VarValue f) (Targets f)
    (Prerequisites f) (OrderOnly f) (InlineHelp f) (Directive f) v
    (IncludeType f) (Paths f) (Text f) (Inline f) (Prefix f).
Definition setText (f : NodeFields) (v : gostring) : NodeFields :=
  mkFields (VarName f) (AssignOp f) (VarValue f) (Targets f)
    (Prerequisites f) (OrderOnly f) (InlineHelp f) (Directive f)
    (Condition f) (IncludeType f) (Paths f) v (Inline f) (Prefix f).

(** A node of the given type and raw text, every other field zero
    ([&Node{Type: t, Raw: raw, Fields: f}]). *)
Definition newNode (t : NodeType) (raw : gostring) (f : NodeFields) : Node :=
  mkNode t 0 raw [] f.

(** [cloneStrings], [NodeFields.clone] and [Node.Clone]: deep copies.
    On values a copy is equal to its original; the identity of nodes
    is the subject of the store model further down. *)
Definition cloneStrings (s : list gostring) : list gostring :=
  map (fun x => x) s.

Definition cloneFields (f : NodeFields) : NodeFields :=
  mkFields (VarName f) (AssignOp f) (VarValue f) (cloneStrings (Targets f))
    (cloneStrings (Prerequisites f)) (cloneStrings (OrderOnly f))
    (InlineHelp f) (Directive f) (Condition f) (IncludeType f)
    (cloneStrings (Paths f)) (Text f) (Inline f) (Prefix f).

Fixpoint Clone (n : Node) : Node :=
  mkNode (Typ n) (Line n) (Raw n) (map Clone (Children n))
    (cloneFields (Fields n)).

(** ** The parser ([internal/parser/parser.go]) *)

Definition assignOps : list gostring :=
  strs ["::="; "!="; "?="; "+="; ":="; "="].

(** The keyword tables are Go maps; [range] visits them in an
    unspecified order.  At most one keyword can match a line (see
    [keyword_match_unique]), so a list in the order of the source text
    stands for every order. *)
Definition conditionalKeywords : list gostring :=
  strs ["ifeq"; "ifneq"; "ifdef"; "ifndef"; "else"; "endif"].

Definition includeKeywords : list gostring :=
  strs ["include"; "-include"; "sinclude"].

Definition directiveKeywords : list gostring :=
  strs [".PHONY"; ".DEFAULT_GOAL"; ".SUFFIXES"; ".DELETE_ON_ERROR";
        ".SECONDARY"; ".PRECIOUS"; ".INTERMEDIATE"; ".NOTPARALLEL";
        ".ONESHELL"; ".POSIX"; ".SILENT"; ".IGNORE";
        ".EXPORT_ALL_VARIABLES"; "export"; "unexport"; "vpath";
        "override"].

(** [^#+$|^#\s*[=\-#]{3,}\s*$|^#{2,}\s+.*\s+#{2,}$] *)
Definition bannerRe : Regexp.regex :=
  let hash := Regexp.chr "#" in
  let fill := Regexp.Class (inSet "=-#") in
  Regexp.Alt (Regexp.Plus hash)
    (Regexp.Alt
       (Regexp.Seq hash
          (Regexp.Seq (Regexp.Star Regexp.ws)
             (Regexp.Seq (Regexp.AtLeast3 fill) (Regexp.Star Regexp.ws))))
       (Regexp.Seq (Regexp.AtLeast2 hash)
          (Regexp.Seq (Regexp.Plus Regexp.ws)
             (Regexp.Seq (Regexp.Star Regexp.dot)
                (Regexp.Seq (Regexp.Plus Regexp.ws)
                   (Regexp.AtLeast2 hash)))))).

Record state : Type := mkState {
  inRule : bool;
  inDefine : bool;
  nodes : list Node;
  lineNum : Z
}.

Definition setInRule (p : state) (b : bool) : state :=
  mkState b (inDefine p) (nodes p) (lineNum p).
Definition setInDefine (p : state) (b : bool) : state :=
  mkState (inRule p) b (nodes p) (lineNum p).
Definition setNodes (p : state) (ns : list Node) : state :=
  mkState (inRule p) (inDefine p) ns (lineNum p).
Definition setLineNum (p : state) (l : Z) : state :=
  mkState (inRule p) (inDefine p) (nodes p) l.

Definition hasContinuation (line : gostring) : bool :=
  let trimmed := TrimRight line " 	" in
  HasSuffix trimmed [BSL].

(** The loop of [joinContinuations] together with the final line;
    [rest] is [lines[i:]]. *)
Fixpoint joinLoop (rest parts : list gostring) (i : Z)
  : option (list gostring * Z) :=
  match rest with
  | [] => Some (parts, i)
  | l :: rest' =>
      if hasContinuation l then
        let line := TrimRight l " 	" in
        line' <- sliceTo line (len line - 1) ;;
        joinLoop rest' (parts ++ [line']) (i + 1)
      else Some (parts ++ [l], i + 1)
  end.

Definition joinContinuations (lines : list gostring) (start : Z)
  : option (gostring * Z) :=
  first <- index lines start ;;
  if negb (hasContinuation first) then Some (first, 1)
  else
    '(parts, i) <- joinLoop (skipn (Z.to_nat start) lines) [] start ;;
    Some (Join parts " ", i - start).

Definition splitLines (src : gostring) : list gostring :=
  match src with
  | [] => []
  | _ =>
      let lines := Split src NL in
      if (len lines >? 0) && eqs (last lines "x") []
      then removelast lines
      else lines
  end.

Definition isBannerComment (trimmed : gostring) : bool :=
  if negb (HasPrefix trimmed "#") then false
  else if eqs trimmed "#" then false
  else Regexp.matches bannerRe trimmed.

Definition parseComment (trimmed raw : gostring) : Node :=
  let prefix : gostring :=
    if HasPrefix trimmed "##" && negb (HasPrefix trimmed "##@")
    then "##" else "#" in
  let text := TrimPrefix trimmed prefix in
  let text := TrimSpace text in
  newNode NodeComment raw
    (mkFields [] [] [] [] [] [] [] [] [] [] [] text false prefix).

Definition keywordMatches (trimmed keyword : gostring) : bool :=
  eqs trimmed keyword
  || HasPrefix trimmed (keyword ++ " ")
  || HasPrefix trimmed (keyword ++ [TAB]).

(** The text after the keyword, trimmed. *)
Definition afterKeyword (trimmed keyword : gostring) : option gostring :=
  if len trimmed >? len keyword then
    t <- sliceFrom trimmed (len keyword) ;;
    Some (TrimSpace t)
  else Some [].

Fixpoint tryConditionalIn (keywords : list gostring) (trimmed raw : gostring)
  : option (option Node) :=
  match keywords with
  | [] => Some None
  | keyword :: rest =>
      if keywordMatches trimmed keyword then
        condition <- afterKeyword trimmed keyword ;;
        Some (Some (newNode NodeConditional raw
          (mkFields [] [] [] [] [] [] [] keyword condition [] [] []
             false [])))
      else tryConditionalIn rest trimmed raw
  end.

Definition tryConditional := tryConditionalIn conditionalKeywords.

Fixpoint tryIncludeIn (keywords : list gostring) (trimmed raw : gostring)
  : option (option Node) :=
  match keywords with
  | [] => Some None
  | keyword :: rest =>
      if keywordMatches trimmed keyword then
        pathStr <- afterKeyword trimmed keyword ;;
        let paths :=
          if negb (eqs pathStr []) then Strings.Fields pathStr else [] in
        Some (Some (newNode NodeInclude raw
          (mkFields [] [] [] [] [] [] [] [] [] keyword paths []
             false [])))
      else tryIncludeIn rest trimmed raw
  end.

Definition tryInclude := tryIncludeIn includeKeywords.

Definition isByte (c : option ascii) (s : string) : bool :=
  match c with
  | Some c => inSet s c
  | None => false
  end.

Fixpoint tryAssignmentIn (ops : list gostring) (trimmed raw : gostring)
  : option (option Node) :=
  match ops with
  | [] => Some None
  | op :: rest =>
      let continue := tryAssignmentIn rest trimmed raw in
      let idx := Index trimmed op in
      if idx <? 0 then continue
      else
        (* plain "=" that is the tail of ":=", "::=", "?=", "+=", "!=" *)
        skip1 <- (if eqs op "=" && (idx >? 0) then
                    prev <- index trimmed (idx - 1) ;;
                    Some (inSet ":?+!" prev)
                  else Some false) ;;
        if skip1 then continue
        else
          (* ":=" that is the tail of "::=" *)
          skip2 <- (if eqs op ":=" && (idx >? 0) then
                      prev <- index trimmed (idx - 1) ;;
                      Some (Ascii.eqb prev ":")
                    else Some false) ;;
          if skip2 then continue
          else
            before <- sliceTo trimmed idx ;;
            let varName := TrimSpace before in
            if eqs varName [] then continue
            else
              let named : option gostring :=
                if ContainsAny varName " 	" then
                  let parts := Strings.Fields varName in
                  match parts with
                  | [p0; p1] =>
                      if eqs p0 "override" then Some ("override " ++ p1)
                      else None
                  | _ => None
                  end
                else Some varName in
              match named with
              | None => continue
              | Some varName =>
                  if Contains varName ":" && eqs op "=" then continue
                  else
                    let afterOp := idx + len op in
                    varValue <- (if afterOp <? len trimmed then
                                   t <- sliceFrom trimmed afterOp ;;
                                   Some (TrimSpace t)
                                 else Some []) ;;
                    Some (Some (newNode NodeAssignment raw
                      (mkFields varName op varValue [] [] [] [] [] [] []
                         [] [] false [])))
              end
  end.

Definition tryAssignment := tryAssignmentIn assignOps.

(** The scan for the first colon; [i] is the offset of [line] in the
    whole line. *)
Fixpoint firstColon (line : gostring) (i : Z) : Z :=
  match line with
  | [] => -1
  | c :: line' => if Ascii.eqb c ":" then i else firstColon line' (i + 1)
  end.

Definition findRuleColon (line : gostring) : Z :=
  if existsb (Contains line) assignOps then -1
  else firstColon line 0.

Definition tryRule (trimmed raw : gostring) : option (option Node) :=
  let colonIdx := findRuleColon trimmed in
  if colonIdx <? 0 then Some None
  else
    before <- sliceTo trimmed colonIdx ;;
    let targetStr := TrimSpace before in
    if eqs targetStr [] then Some None
    else
      let targets := Strings.Fields targetStr in
      rest <- (if colonIdx + 1 <? len trimmed then
                 t <- sliceFrom trimmed (colonIdx + 1) ;;
                 Some (TrimSpace t)
               else Some []) ;;
      '(inlineHelp, rest) <-
        (let helpIdx := Index rest "##" in
         if helpIdx >=? 0 then
           h <- sliceFrom rest (helpIdx + 2) ;;
           r <- sliceTo rest helpIdx ;;
           Some (TrimSpace h, TrimSpace r)
         else Some ([], rest)) ;;
      '(prerequisites, orderOnly) <-
        (let pipeIdx := Index rest "|" in
         if pipeIdx >=? 0 then
           a <- sliceTo rest pipeIdx ;;
           b <- sliceFrom rest (pipeIdx + 1) ;;
           let prereqStr := TrimSpace a in
           let orderStr := TrimSpace b in
           Some (if negb (eqs prereqStr []) then Strings.Fields prereqStr
                 else [],
                 if negb (eqs orderStr []) then Strings.Fields orderStr else [])
         else if negb (eqs rest []) then Some (Strings.Fields rest, [])
         else Some ([], [])) ;;
      Some (Some (newNode NodeRule raw
        (mkFields [] [] [] targets prerequisites orderOnly inlineHelp
           [] [] [] [] [] false []))).

Definition tryDirective (trimmed raw : gostring) : option (option Node) :=
  firstWord <- (let idx := IndexAny trimmed " 	:" in
                if idx >=? 0 then sliceTo trimmed idx else Some trimmed) ;;
  if existsb (eqs firstWord) directiveKeywords then
    Some (Some (newNode NodeDirective raw
      (mkFields [] [] [] [] [] [] [] [] [] [] [] trimmed false [])))
  else Some None.

(** [orElse]: the chain [if node := try...; node != nil { return node }]. *)
Definition orElse (r : option (option Node)) (k : option Node)
  : option Node :=
  match r with
  | None => None
  | Some (Some n) => Some n
  | Some None => k
  end.

Definition classifyLine (p : state) (joined raw : gostring)
  : option (state * Node) :=
  let trimmed := TrimSpace joined in
  if eqs trimmed [] then
    Some (p, newNode NodeBlankLine raw noFields)
  else if HasPrefix trimmed "define " || eqs trimmed "define" then
    Some (setInDefine p true, newNode NodeRaw raw noFields)
  else if HasPrefix trimmed "##@" then
    t <- sliceFrom trimmed 3 ;;
    let text := TrimSpace t in
    Some (p, newNode NodeSectionHeader raw
               (mkFields [] [] [] [] [] [] [] [] [] [] [] text false "##@"))
  else if isBannerComment trimmed then
    Some (p, newNode NodeBannerComment raw (setText noFields trimmed))
  else if HasPrefix trimmed "#" then
    Some (p, parseComment trimmed raw)
  else if HasPrefix joined [TAB] && inRule p then
    Some (p, newNode NodeRecipe raw
               (setText noFields (TrimPrefix joined [TAB])))
  else
    node <- orElse (tryConditional trimmed raw)
           (orElse (tryInclude trimmed raw)
           (orElse (tryDirective trimmed raw)
           (orElse (tryAssignment trimmed raw)
           (orElse (tryRule trimmed raw)
           (Some (newNode NodeRaw raw noFields)))))) ;;
    Some (p, node).

(** The loop of [findRuleParent], [k] being [i + 1]; the result is the
    index of the parent in [p.nodes]. *)
Fixpoint findRuleParentFrom (ns : list Node) (k : nat)
  : option (option Z) :=
  match k with
  | O => Some None
  | S i =>
      n <- index ns (Z.of_nat i) ;;
      match Typ n with
      | NodeRule => Some (Some (Z.of_nat i))
      | NodeRecipe | NodeComment | NodeBannerComment | NodeSectionHeader
      | NodeBlankLine => findRuleParentFrom ns i
      | _ => Some None
      end
  end.

Definition findRuleParent (p : state) : option (option Z) :=
  findRuleParentFrom (nodes p) (length (nodes p)).

Definition appendNode (p : state) (node : Node) : state :=
  setNodes p (nodes p ++ [node]).

Definition addNode (p : state) (node : Node) : option state :=
  match Typ node with
  | NodeRule => Some (appendNode (setInRule p true) node)
  | NodeRecipe =>
      found <- (if len (nodes p) >? 0 then findRuleParent p
                else Some None) ;;
      match found with
      | Some i =>
          parent <- index (nodes p) i ;;
          ns <- store (nodes p) i
                  (setChildren parent (Children parent ++ [node])) ;;
          Some (setNodes p ns)
      | None => Some (appendNode p (setTyp node NodeRaw))
      end
  | NodeBlankLine => Some (appendNode (setInRule p false) node)
  | NodeComment | NodeSectionHeader | NodeBannerComment =>
      Some (appendNode p node)
  | _ => Some (appendNode (setInRule p false) node)
  end.

(** The loop of [handleDefineBlock]; [rest] is [lines[lineNum:]].  The
    result is the parts collected and the value of [p.lineNum] when the
    function returns. *)
Fixpoint defineLoop (rest rawParts : list gostring) (lineNum : Z)
  : list gostring * Z :=
  match rest with
  | [] => (rawParts, lineNum)
  | line :: rest' =>
      let rawParts := rawParts ++ [line] in
      let trimmed := TrimSpace line in
      if eqs trimmed "endef" then (rawParts, lineNum)
      else defineLoop rest' rawParts (lineNum + 1)
  end.

Definition handleDefineBlock (p : state) (lines : list gostring)
  : option state :=
  defineNode <- index (nodes p) (len (nodes p) - 1) ;;
  let '(rawParts, lineNum') :=
    defineLoop (skipn (Z.to_nat (lineNum p)) lines) [Raw defineNode]
      (lineNum p) in
  ns <- store (nodes p) (len (nodes p) - 1)
          (setRaw defineNode (Join rawParts [NL])) ;;
  Some (mkState (inRule p) false ns lineNum').

(** The loop of [parse]; one unit of fuel per iteration. *)
Fixpoint parseLoop (fuel : nat) (lines : list gostring) (p : state)
  : option state :=
  match fuel with
  | O => None
  | S fuel' =>
      if lineNum p <? len lines then
        if inDefine p then
          p' <- handleDefineBlock p lines ;;
          parseLoop fuel' lines (setLineNum p' (lineNum p' + 1))
        else
          '(joined, count) <- joinContinuations lines (lineNum p) ;;
          rawLines <- slice lines (lineNum p) (lineNum p + count) ;;
          let raw := Join rawLines [NL] in
          '(p1, node) <- classifyLine p joined raw ;;
          let node := setLine node (lineNum p1 + 1) in
          let p2 := if count >? 1
                    then setLineNum p1 (lineNum p1 + (count - 1))
                    else p1 in
          p3 <- addNode p2 node ;;
          parseLoop fuel' lines (setLineNum p3 (lineNum p3 + 1))
      else Some p
  end.

Definition parse (p : state) (src : gostring) : option (list Node) :=
  let lines := splitLines src in
  p' <- parseLoop (S (length lines)) lines (setNodes p []) ;;
  Some (nodes p').

Definition Parse (src : gostring) : option (list Node) :=
  parse (mkState false false [] 0) src.

End Parser.

(** ** The writer ([internal/formatter/writer.go]) *)

Module Formatter.

Import Strings.
Import Parser.

Definition writeComment (n : Node) : gostring :=
  Prefix (Fields n) ++
  (if negb (eqs (Text (Fields n)) []) then " " ++ Text (Fields n) else []).

Definition writeSectionHeader (n : Node) : gostring :=
  Prefix (Fields n) ++
  (if negb (eqs (Text (Fields n)) []) then " " ++ Text (Fields n) else []).

Definition writeAssignment (n : Node) : gostring :=
  VarName (Fields n) ++ " " ++ AssignOp (Fields n) ++
  (if negb (eqs (VarValue (Fields n)) [])
   then " " ++ VarValue (Fields n) else []).

Definition writeRule (n : Node) : gostring :=
  Join (Targets (Fields n)) " " ++ ":" ++
  (if len (Prerequisites (Fields n)) >? 0
   then " " ++ Join (Prerequisites (Fields n)) " " else []) ++
  (if len (OrderOnly (Fields n)) >? 0
   then " | " ++ Join (OrderOnly (Fields n)) " " else []) ++
  (if negb (eqs (InlineHelp (Fields n)) [])
   then " ## " ++ InlineHelp (Fields n) else []).

Definition writeConditional (n : Node) : gostring :=
  Directive (Fields n) ++
  (if negb (eqs (Condition (Fields n)) [])
   then " " ++ Condition (Fields n) else []).

Definition writeInclude (n : Node) : gostring :=
  IncludeType (Fields n) ++
  (if len (Paths (Fields n)) >? 0
   then " " ++ Join (Paths (Fields n)) " " else []).

(** The text a node contributes before its children. *)
Definition writeOwn (n : Node) : gostring :=
  if negb (eqs (Raw n) []) then Raw n
  else match Typ n with
       | NodeBlankLine => []
       | NodeComment => writeComment n
       | NodeSectionHeader => writeSectionHeader n
       | NodeBannerComment => Text (Fields n)
       | NodeAssignment => writeAssignment n
       | NodeRule => writeRule n
       | NodeRecipe => [TAB] ++ Text (Fields n)
       | NodeConditional => writeConditional n
       | NodeInclude => writeInclude n
       | NodeDirective => Text (Fields n)
       | NodeRaw => Text (Fields n)
       end.

(** [writeNode] with [writeChildren] as its inner loop; the builder is
    the string returned. *)
Fixpoint writeNode (n : Node) : gostring :=
  writeOwn n ++
  (fix writeChildren (cs : list Node) : gostring :=
     match cs with
     | [] => []
     | child :: cs' => [NL] ++ writeNode child ++ writeChildren cs'
     end) (Children n).

Fixpoint writeChildrenOf (cs : list Node) : gostring :=
  match cs with
  | [] => []
  | child :: cs' => [NL] ++ writeNode child ++ writeChildrenOf cs'
  end.

Definition writeChildren (n : Node) : gostring :=
  writeChildrenOf (Children n).

Fixpoint Write (nodes : list Node) : gostring :=
  match nodes with
  | [] => []
  | n :: rest => writeNode n ++ [NL] ++ Write rest
  end.

End Formatter.

(** ** Configuration ([internal/config/config.go]) *)

Module Config.

Record FormatterConfig : Type := mkConfig {
  IndentStyle : gostring;
  TabWidth : Z;
  MaxBlankLines : Z;
  InsertFinalNewline : bool;
  TrimTrailingWhitespace : bool;
  AlignAssignments : bool;
  AssignmentSpacing : gostring;
  SortPrerequisites : bool;
  AlignBackslashContinuations : bool;
  BackslashColumn : Z;
  SpaceAfterComment : bool;
  IndentConditionals : bool;
  ConditionalIndent : Z;
  RecipePrefix : gostring
}.

Definition DefaultConfig : FormatterConfig :=
  mkConfig "tab" 4 2 true true true "space" false true 79 true true 2
    "preserve".

Definition setAssignmentSpacing (cfg : FormatterConfig) (mode : gostring)
  : FormatterConfig :=
  mkConfig (IndentStyle cfg) (TabWidth cfg) (MaxBlankLines cfg)
    (InsertFinalNewline cfg) (TrimTrailingWhitespace cfg)
    (AlignAssignments cfg) mode (SortPrerequisites cfg)
    (AlignBackslashContinuations cfg) (BackslashColumn cfg)
    (SpaceAfterComment cfg) (IndentConditionals cfg)
    (ConditionalIndent cfg) (RecipePrefix cfg).


End Config.

(** ** The rule interface and the engine ([internal/formatter]) *)

Module Engine.

Import Parser.
Import Config.

(** A rule transforms the node sequence; [None] is a run-time panic. *)
Record FormatRule : Type := mkRule {
  Name : gostring;
  Format : list Node -> FormatterConfig -> option (list Node)
}.

Fixpoint Run (nodes : list Node) (cfg : FormatterConfig)
  (rules : list FormatRule) : option (list Node) :=
  match rules with
  | [] => Some nodes
  | rule :: rest =>
      result <- Format rule nodes cfg ;;
      Run result cfg rest
  end.

End Engine.

(** ** The rules ([internal/rules/format]) on node values *)

Module Rules.

Import Strings.
Import Parser.
Import Config.
Import Engine.

(** *** trim_trailing_whitespace *)

Definition trimRawLines (raw : gostring) : gostring :=
  let lines := Split raw NL in
  Join (map (fun line => TrimRight line " 	") lines) [NL].

(** The clone of [n] with its text trimmed; the children of the clone
    are copies of the children of [n]. *)
Fixpoint trimNode (n : Node) : Node :=
  let f := cloneFields (Parser.Fields n) in
  let f := setText f (TrimRight (Text f) " 	") in
  let f := setVarValue f (TrimRight (VarValue f) " 	") in
  let f := setInlineHelp f (TrimRight (InlineHelp f) " 	") in
  let f := setCondition f (TrimRight (Condition f) " 	") in
  mkNode (Typ n) (Line n)
    (if negb (eqs (Raw n) []) then trimRawLines (Raw n) else Raw n)
    (map trimNode (Children n)) f.

Definition TrailingWhitespace_Format (nodes : list Node)
  (cfg : FormatterConfig) : list Node :=
  if negb (TrimTrailingWhitespace cfg) then nodes
  else map trimNode nodes.

(** *** insert_final_newline *)

Definition isBlank (n : Node) : bool :=
  NodeType_eqb (Typ n) NodeBlankLine.

(** The loop that cuts blank nodes off the end of the slice. *)
Fixpoint dropTrailingBlank (nodes : list Node) : list Node :=
  match nodes with
  | [] => []
  | n :: rest =>
      match dropTrailingBlank rest with
      | [] => if isBlank n then [] else [n]
      | rest' => n :: rest'
      end
  end.

Definition FinalNewline_Format (nodes : list Node) (cfg : FormatterConfig)
  : list Node :=
  if negb (InsertFinalNewline cfg) then nodes
  else if len nodes =? 0 then nodes
  else dropTrailingBlank nodes.

(** *** max_blank_lines *)

Fixpoint blankLinesLoop (nodes : list Node) (maxBlank blankCount : Z)
  : list Node :=
  match nodes with
  | [] => []
  | n :: rest =>
      if isBlank n then
        let blankCount := blankCount + 1 in
        if blankCount <=? maxBlank
        then n :: blankLinesLoop rest maxBlank blankCount
        else blankLinesLoop rest maxBlank blankCount
      else n :: blankLinesLoop rest maxBlank 0
  end.

Definition BlankLines_Format (nodes : list Node) (cfg : FormatterConfig)
  : list Node :=
  if MaxBlankLines cfg <? 0 then nodes
  else blankLinesLoop nodes (MaxBlankLines cfg) 0.

(** *** assignment_spacing *)

Definition isAssignment (n : Node) : bool :=
  NodeType_eqb (Typ n) NodeAssignment.

Definition normalizeAssignment (n : Node) (mode : gostring) : Node :=
  let clone := Clone n in
  if eqs mode "space" then setRaw clone []
  else if eqs mode "no_space" then
    let raw := VarName (Parser.Fields clone) ++ AssignOp (Parser.Fields clone) in
    let raw := if negb (eqs (VarValue (Parser.Fields clone)) [])
               then raw ++ VarValue (Parser.Fields clone) else raw in
    setRaw clone raw
  else clone.

Definition AssignmentSpacing_Format (nodes : list Node)
  (cfg : FormatterConfig) : list Node :=
  if eqs (AssignmentSpacing cfg) "preserve" then nodes
  else map (fun n => if isAssignment n
                     then normalizeAssignment n (AssignmentSpacing cfg)
                     else n) nodes.

(** *** align_assignments *)

Definition bareName (n : Node) : gostring :=
  TrimRight (VarName (Parser.Fields n)) " ".

Fixpoint maxNameLen (group : list Node) (maxLen : Z) : Z :=
  match group with
  | [] => maxLen
  | n :: rest =>
      let l := len (bareName n) in
      maxNameLen rest (if l >? maxLen then l else maxLen)
  end.

Definition alignOne (maxLen : Z) (spacingMode : gostring) (n : Node)
  : Node :=
  let clone := Clone n in
  let name := bareName clone in
  let padded := name ++ Repeat " " (maxLen - len name) in
  if eqs spacingMode "no_space" then
    let raw := padded ++ AssignOp (Parser.Fields clone) in
    let raw := if negb (eqs (VarValue (Parser.Fields clone)) [])
               then raw ++ VarValue (Parser.Fields clone) else raw in
    setRaw clone raw
  else
    setRaw (setFields clone (setVarName (Parser.Fields clone) padded)) [].

Definition alignGroup (group : list Node) (spacingMode : gostring)
  : list Node :=
  let maxLen := maxNameLen group 0 in
  map (alignOne maxLen spacingMode) group.

(** The run of assignment nodes with which [nodes] starts, and what
    follows it (the inner loop of [Format]). *)
Fixpoint spanAssignments (nodes : list Node) : list Node * list Node :=
  match nodes with
  | [] => ([], [])
  | n :: rest =>
      if isAssignment n then
        let '(g, r) := spanAssignments rest in (n :: g, r)
      else ([], nodes)
  end.

(** The outer loop of [Format]; [nodes] is [result[i:]], and one unit
    of fuel is spent per iteration. *)
Fixpoint alignLoop (fuel : nat) (nodes : list Node) (spacingMode : gostring)
  : list Node :=
  match fuel with
  | O => nodes
  | S fuel' =>
      match nodes with
      | [] => []
      | n :: rest =>
          if negb (isAssignment n) then n :: alignLoop fuel' rest spacingMode
          else
            let '(group, rest') := spanAssignments nodes in
            (if len group >? 1 then alignGroup group spacingMode
             else group) ++ alignLoop fuel' rest' spacingMode
      end
  end.

Definition AlignAssignments_Format (nodes : list Node)
  (cfg : FormatterConfig) : list Node :=
  if negb (AlignAssignments cfg) then nodes
  else alignLoop (length nodes) nodes (AssignmentSpacing cfg).

(** *** align_backslash_continuations *)

Definition endsWithBackslash (line : gostring) : bool :=
  HasSuffix (TrimRight line " 	") [BSL].

(** [hasContinuation] of the rule: some line of [raw] ends with a
    backslash. *)
Definition hasContinuation (raw : gostring) : bool :=
  existsb endsWithBackslash (Split raw NL).

(** Everything before the trailing backslash, trimmed. *)
Definition contentOf (line : gostring) : gostring :=
  let trimmed := TrimRight line " 	" in
  TrimRight (removelast trimmed) " 	".

Fixpoint maxContentWidth (lines : list gostring) (acc : Z) : Z :=
  match lines with
  | [] => acc
  | line :: rest =>
      if negb (endsWithBackslash line) then maxContentWidth rest acc
      else
        let content := contentOf line in
        maxContentWidth rest (if len content >? acc then len content
                              else acc)
  end.

Definition targetColumn (lines : list gostring) (backslashCol : Z) : Z :=
  if backslashCol =? 0 then maxContentWidth lines 0 + 2 else backslashCol.

Definition alignLine (targetCol : Z) (line : gostring) : gostring :=
  if negb (endsWithBackslash line) then line
  else
    let content := contentOf line in
    let padWidth := Z.max (targetCol - 1 - len content) 1 in
    content ++ Repeat " " padWidth ++ [BSL].

Definition alignBackslashes (n : Node) (backslashCol : Z) : Node :=
  let clone := Clone n in
  let lines := Split (Raw clone) NL in
  let targetCol := targetColumn lines backslashCol in
  setRaw clone (Join (map (alignLine targetCol) lines) [NL]).

Definition BackslashAlign_Format (nodes : list Node) (cfg : FormatterConfig)
  : list Node :=
  if negb (AlignBackslashContinuations cfg) then nodes
  else map (fun n => if negb (hasContinuation (Raw n)) then n
                     else alignBackslashes n (BackslashColumn cfg)) nodes.

(** *** space_after_comment *)

Definition shouldNormalize (n : Node) : bool :=
  if negb (eqs (Prefix (Parser.Fields n)) "#") then false
  else
    let raw := TrimSpace (Raw n) in
    if HasPrefix raw "#!" then false
    else if eqs raw "#" then false
    else true.

(** [raw[1:]] panics when the trimmed raw text is empty. *)
Definition normalizeComment (n : Node) : option Node :=
  let raw := TrimSpace (Raw n) in
  if (len raw >? 1) && isByte (index raw 1) " " then Some n
  else
    tail <- sliceFrom raw 1 ;;
    let clone := Clone n in
    Some (setFields (setRaw clone ("# " ++ tail))
            (setText (Parser.Fields clone) (TrimSpace tail))).

Fixpoint commentSpacingLoop (nodes : list Node) : option (list Node) :=
  match nodes with
  | [] => Some []
  | n :: rest =>
      n' <- (if NodeType_eqb (Typ n) NodeComment && shouldNormalize n
             then normalizeComment n else Some n) ;;
      rest' <- commentSpacingLoop rest ;;
      Some (n' :: rest')
  end.

Definition CommentSpacing_Format (nodes : list Node) (cfg : FormatterConfig)
  : option (list Node) :=
  if negb (SpaceAfterComment cfg) then Some nodes
  else commentSpacingLoop nodes.

(** *** indent_conditionals *)

Definition isConditionalOpen (directive : gostring) : bool :=
  existsb (eqs directive) (strs ["ifeq"; "ifneq"; "ifdef"; "ifndef"]).

Definition reconstructRaw (n : Node) : gostring :=
  let f := Parser.Fields n in
  match Typ n with
  | NodeAssignment =>
      let s := VarName f ++ " " ++ AssignOp f in
      if negb (eqs (VarValue f) []) then s ++ " " ++ VarValue f else s
  | NodeComment =>
      if negb (eqs (Text f) []) then Prefix f ++ " " ++ Text f
      else Prefix f
  | NodeConditional =>
      if negb (eqs (Condition f) []) then Directive f ++ " " ++ Condition f
      else Directive f
  | NodeInclude =>
      if len (Paths f) >? 0 then IncludeType f ++ " " ++ Join (Paths f) " "
      else IncludeType f
  | NodeRule =>
      let s := Join (Targets f) " " ++ ":" in
      let s := if len (Prerequisites f) >? 0
               then s ++ " " ++ Join (Prerequisites f) " " else s in
      if negb (eqs (InlineHelp f) []) then s ++ " ## " ++ InlineHelp f
      else s
  | NodeBlankLine => []
  | _ => Text f
  end.

Definition applyIndent (n : Node) (indent : gostring) (level : Z) : Node :=
  if level <=? 0 then n
  else
    let prefix := Repeat indent level in
    let clone := Clone n in
    let raw := if eqs (Raw clone) [] then reconstructRaw clone
               else Raw clone in
    setRaw clone (prefix ++ raw).

Fixpoint indentConditionals (nodes : list Node) (indent : gostring)
  (level : Z) : list Node :=
  match nodes with
  | [] => []
  | n :: rest =>
      let isCond := NodeType_eqb (Typ n) NodeConditional in
      if isCond && isConditionalOpen (Directive (Parser.Fields n)) then
        applyIndent n indent level
        :: indentConditionals rest indent (level + 1)
      else if isCond && eqs (Directive (Parser.Fields n)) "else" then
        applyIndent n indent (level - 1)
        :: indentConditionals rest indent level
      else if isCond && eqs (Directive (Parser.Fields n)) "endif" then
        let level := level - 1 in
        let level := if level <? 0 then 0 else level in
        applyIndent n indent level :: indentConditionals rest indent level
      else
        (if level >? 0 then applyIndent n indent level else n)
        :: indentConditionals rest indent level
  end.

Definition ConditionalIndent_Format (nodes : list Node)
  (cfg : FormatterConfig) : list Node :=
  if negb (IndentConditionals cfg) || (ConditionalIndent cfg <=? 0)
  then nodes
  else
    let indent := Repeat " " (ConditionalIndent cfg) in
    indentConditionals nodes indent 0.

(** *** preserve_banner_comments *)

Definition BannerPreserve_Format (nodes : list Node) (_ : FormatterConfig)
  : list Node := nodes.

(** *** The rules as [FormatRule] values, and the registry *)

Definition total (f : list Node -> FormatterConfig -> list Node)
  : list Node -> FormatterConfig -> option (list Node) :=
  fun nodes cfg => Some (f nodes cfg).

Definition TrailingWhitespace : FormatRule :=
  mkRule "trim_trailing_whitespace" (total TrailingWhitespace_Format).
Definition FinalNewline : FormatRule :=
  mkRule "insert_final_newline" (total FinalNewline_Format).
Definition BlankLines : FormatRule :=
  mkRule "max_blank_lines" (total BlankLines_Format).
Definition AssignmentSpacingRule : FormatRule :=
  mkRule "assignment_spacing" (total AssignmentSpacing_Format).
Definition AlignAssignmentsRule : FormatRule :=
  mkRule "align_assignments" (total AlignAssignments_Format).
Definition BackslashAlign : FormatRule :=
  mkRule "align_backslash_continuations" (total BackslashAlign_Format).
Definition CommentSpacing : FormatRule :=
  mkRule "space_after_comment" CommentSpacing_Format.
Definition ConditionalIndentRule : FormatRule :=
  mkRule "indent_conditionals" (total ConditionalIndent_Format).
Definition BannerPreserve : FormatRule :=
  mkRule "preserve_banner_comments" (total BannerPreserve_Format).

(** The rules in the order in which [init] registers them. *)
Definition FormatRules : list FormatRule :=
  [TrailingWhitespace; FinalNewline; BlankLines; AssignmentSpacingRule;
   BackslashAlign; CommentSpacing; ConditionalIndentRule; BannerPreserve].

(** The order of [docs/RULES.md], with [align_assignments] after
    [assignment_spacing]. *)
Definition FormatRulesDocumented : list FormatRule :=
  [TrailingWhitespace; FinalNewline; BlankLines; AssignmentSpacingRule;
   AlignAssignmentsRule; BackslashAlign; CommentSpacing;
   ConditionalIndentRule; BannerPreserve].

End Rules.

(** ** The pipeline ([internal/runner]) *)

Module Runner.

Import Parser.
Import Config.
Import Engine.

Definition formatInput (input : gostring) (cfg : FormatterConfig)
  (formatRules : list FormatRule) : option gostring :=
  nodes <- Parse input ;;
  formatted <- Run nodes cfg formatRules ;;
  Some (Formatter.Write formatted).

End Runner.

(** ** The diff engine ([pkg/diff/diff.go]) *)

Module Diff.

Import Strings.

Definition contextLines : Z := 3.

Definition splitLines (s : gostring) : option (list gostring) :=
  match s with
  | [] => Some []
  | _ =>
      let lines := SplitAfter s NL in
      l <- index lines (len lines - 1) ;;
      if eqs l [] then slice lines 0 (len lines - 1) else Some lines
  end.

Inductive editKind : Type :=
| editEqual
| editInsert
| editDelete.

Record edit : Type := mkEdit {
  kind : editKind;
  oldIdx : Z;
  newIdx : Z
}.

(** [k == -d || (k != d && v[k-1+total] < v[k+1+total])], with the
    short-circuit evaluation of the source. *)
Definition movesDown (v : list Z) (k d total : Z) : option bool :=
  if k =? - d then Some true
  else if negb (k =? d) then
    l <- index v (k - 1 + total) ;;
    r <- index v (k + 1 + total) ;;
    Some (l <? r)
  else Some false.

(** The loop that follows a diagonal; the result is the final [x]. *)
Fixpoint snake (fuel : nat) (a b : list gostring) (x y : Z) : option Z :=
  match fuel with
  | O => None
  | S fuel' =>
      if (x <? len a) && (y <? len b) then
        ax <- index a x ;;
        by_ <- index b y ;;
        if eqs ax by_ then snake fuel' a b (x + 1) (y + 1) else Some x
      else Some x
  end.

(** The loop [for x > prevX && y > prevY] of [backtrack]. *)
Fixpoint diagBack (fuel : nat) (x y prevX prevY : Z) (edits : list edit)
  : option (Z * Z * list edit) :=
  match fuel with
  | O => None
  | S fuel' =>
      if (x >? prevX) && (y >? prevY) then
        diagBack fuel' (x - 1) (y - 1) prevX prevY
          (edits ++ [mkEdit editEqual (x - 1) (y - 1)])
      else Some (x, y, edits)
  end.

(** The loop [for step := d; step > 0; step--] of [backtrack]. *)
Fixpoint backLoop (step : nat) (trace : list (list Z)) (total x y : Z)
  (edits : list edit) : option (Z * Z * list edit) :=
  match step with
  | O => Some (x, y, edits)
  | S step' =>
      v <- index trace (Z.of_nat step) ;;
      let k := x - y in
      down <- movesDown v k (Z.of_nat step) total ;;
      let prevK := if down then k + 1 else k - 1 in
      prevX <- index v (prevK + total) ;;
      let prevY := prevX - prevK in
      '(x, y, edits) <-
        diagBack (S (Z.to_nat (x - prevX))) x y prevX prevY edits ;;
      if down then
        backLoop step' trace total x (y - 1)
          (edits ++ [mkEdit editInsert (-1) (y - 1)])
      else
        backLoop step' trace total (x - 1) y
          (edits ++ [mkEdit editDelete (x - 1) (-1)])
  end.

Definition backtrack (trace : list (list Z)) (a b : list gostring)
  (d total : Z) : option (list edit) :=
  let n := len a in
  let m := len b in
  '(x, y, edits) <- backLoop (Z.to_nat d) trace total n m [] ;;
  '(_, _, edits) <- diagBack (S (Z.to_nat x)) x y 0 0 edits ;;
  Some (rev edits).

Inductive stepResult : Type :=
| Found (edits : list edit)
| Next (v : list Z).

(** The loop [for k := -d; k <= d; k += 2] of [myers]. *)
Fixpoint innerLoop (fuel : nat) (a b : list gostring) (total d k : Z)
  (v : list Z) (trace : list (list Z)) : option stepResult :=
  match fuel with
  | O => None
  | S fuel' =>
      if k <=? d then
        down <- movesDown v k d total ;;
        x <- (if down then index v (k + 1 + total)
              else l <- index v (k - 1 + total) ;; Some (l + 1)) ;;
        let y := x - k in
        x <- snake (S (length a)) a b x y ;;
        let y := x - k in
        v <- store v (k + total) x ;;
        if (x >=? len a) && (y >=? len b) then
          edits <- backtrack trace a b d total ;;
          Some (Found edits)
        else innerLoop fuel' a b total d (k + 2) v trace
      else Some (Next v)
  end.

(** The loop [for d := 0; d <= total; d++] of [myers]. *)
Fixpoint outerLoop (fuel : nat) (a b : list gostring) (total d : Z)
  (v : list Z) (trace : list (list Z)) : option (list edit) :=
  match fuel with
  | O => None
  | S fuel' =>
      if d <=? total then
        let trace := trace ++ [v] in
        r <- innerLoop (Z.to_nat d + 2) a b total d (- d) v trace ;;
        match r with
        | Found edits => Some edits
        | Next v => outerLoop fuel' a b total (d + 1) v trace
        end
      else Some []
  end.

Definition myers (a b : list gostring) : option (list edit) :=
  let n := len a in
  let m := len b in
  let total := n + m in
  if total =? 0 then Some []
  else
    let v := repeat 0 (Z.to_nat (2 * total + 1)) in
    outerLoop (Z.to_nat total + 2) a b total 0 v [].

Record region : Type := mkRegion {
  start : Z;
  end_ : Z
}.

Record hunk : Type := mkHunk {
  oldStart : Z;
  oldCount : Z;
  newStart : Z;
  newCount : Z;
  edits : list edit
}.

Definition isEqualEdit (e : edit) : bool :=
  match kind e with
  | editEqual => true
  | _ => false
  end.

Definition lastRegion (regions : list region) : region :=
  last regions (mkRegion 0 0).

(** [regions[len(regions)-1].end = e]. *)
Definition setLastEnd (regions : list region) (e : Z) : list region :=
  removelast regions ++ [mkRegion (start (lastRegion regions)) e].

Fixpoint findChangeRegionsFrom (es : list edit) (i : Z)
  (regions : list region) : list region :=
  match es with
  | [] => regions
  | e :: rest =>
      if isEqualEdit e then findChangeRegionsFrom rest (i + 1) regions
      else if (len regions =? 0) || (i >? end_ (lastRegion regions) + 1)
      then findChangeRegionsFrom rest (i + 1) (regions ++ [mkRegion i i])
      else findChangeRegionsFrom rest (i + 1) (setLastEnd regions i)
  end.

Definition findChangeRegions (es : list edit) : list region :=
  findChangeRegionsFrom es 0 [].

Fixpoint mergeRegionsInto (regions merged : list region) : list region :=
  match regions with
  | [] => merged
  | r :: rest =>
      if (len merged >? 0)
         && (start r - end_ (lastRegion merged) <=? 2 * contextLines)
      then mergeRegionsInto rest (setLastEnd merged (end_ r))
      else mergeRegionsInto rest (merged ++ [r])
  end.

Definition mergeRegions (regions : list region) : list region :=
  mergeRegionsInto regions [].

Fixpoint findOldStart (es : list edit) : Z :=
  match es with
  | [] => 0
  | e :: rest => if oldIdx e >=? 0 then oldIdx e else findOldStart rest
  end.

Fixpoint findNewStart (es : list edit) : Z :=
  match es with
  | [] => 0
  | e :: rest => if newIdx e >=? 0 then newIdx e else findNewStart rest
  end.

Definition findHunkStarts (es : list edit) : Z * Z :=
  (findOldStart es, findNewStart es).

Fixpoint countHunkLines (es : list edit) : Z * Z :=
  match es with
  | [] => (0, 0)
  | e :: rest =>
      let '(oldCount, newCount) := countHunkLines rest in
      match kind e with
      | editEqual => (oldCount + 1, newCount + 1)
      | editDelete => (oldCount + 1, newCount)
      | editInsert => (oldCount, newCount + 1)
      end
  end.

Fixpoint regionsToHunks (regions : list region) (es : list edit)
  : option (list hunk) :=
  match regions with
  | [] => Some []
  | r :: rest =>
      let s := Z.max (start r - contextLines) 0 in
      let e := Z.min (end_ r + contextLines) (len es - 1) in
      hes <- slice es s (e + 1) ;;
      let '(os, ns) := findHunkStarts hes in
      let '(oc, nc) := countHunkLines hes in
      hs <- regionsToHunks rest es ;;
      Some (mkHunk os oc ns nc hes :: hs)
  end.

Definition buildHunks (es : list edit) : option (list hunk) :=
  if len es =? 0 then Some []
  else
    let regions := findChangeRegions es in
    let merged := mergeRegions regions in
    regionsToHunks merged es.

Definition ensureNewline (line : gostring) : gostring :=
  if HasSuffix line [NL] then line else line ++ [NL].

(** [%d]. *)
Definition itoa (z : Z) : gostring :=
  NilZero.string_of_int (Z.to_int z).

Definition writeEdit (e : edit) (oldLines newLines : list gostring)
  : option gostring :=
  match kind e with
  | editEqual =>
      l <- index oldLines (oldIdx e) ;; Some (" " ++ ensureNewline l)
  | editDelete =>
      l <- index oldLines (oldIdx e) ;; Some ("-" ++ ensureNewline l)
  | editInsert =>
      l <- index newLines (newIdx e) ;; Some ("+" ++ ensureNewline l)
  end.

Fixpoint writeEdits (es : list edit) (oldLines newLines : list gostring)
  : option gostring :=
  match es with
  | [] => Some []
  | e :: rest =>
      l <- writeEdit e oldLines newLines ;;
      ls <- writeEdits rest oldLines newLines ;;
      Some (l ++ ls)
  end.

Definition writeTo (h : hunk) (oldLines newLines : list gostring)
  : option gostring :=
  body <- writeEdits (edits h) oldLines newLines ;;
  Some ("@@ -" ++ itoa (oldStart h + 1) ++ "," ++ itoa (oldCount h)
        ++ " +" ++ itoa (newStart h + 1) ++ "," ++ itoa (newCount h)
        ++ " @@" ++ [NL] ++ body).

Fixpoint writeHunks (hs : list hunk) (oldLines newLines : list gostring)
  : option gostring :=
  match hs with
  | [] => Some []
  | h :: rest =>
      t <- writeTo h oldLines newLines ;;
      ts <- writeHunks rest oldLines newLines ;;
      Some (t ++ ts)
  end.

Definition Unified (filename oldText newText : gostring) : option gostring :=
  if eqs oldText newText then Some []
  else
    oldLines <- splitLines oldText ;;
    newLines <- splitLines newText ;;
    edits <- myers oldLines newLines ;;
    hunks <- buildHunks edits ;;
    if len hunks =? 0 then Some []
    else
      body <- writeHunks hunks oldLines newLines ;;
      Some ("--- a/" ++ filename ++ [NL] ++ "+++ b/" ++ filename ++ [NL]
            ++ body).

End Diff.

(** ** The rules on a store of nodes

    The rules receive [[]*parser.Node]: a slice of pointers into a
    shared store.  To speak about the identity of nodes and about
    mutation, this model keeps the store explicit: a pointer is an
    address, a cell holds the fields of one node with pointers for its
    children, [Clone] allocates, and an assignment to a field of a node
    is an update of its cell.  A computation is a function from the
    store to a result and a new store; [None] is a run-time panic (or
    the fuel of a recursion over the tree of children running out). *)

Module Store.

Import Strings.
Import Parser.
Import Config.

Definition ptr := nat.

Record Cell : Type := mkCell {
  cTyp : NodeType;
  cLine : Z;
  cRaw : gostring;
  cChildren : list ptr;
  cFields : NodeFields
}.

Definition heap := list Cell.

Definition M (A : Type) : Type := heap -> option (A * heap).

Definition ret {A : Type} (a : A) : M A := fun h => Some (a, h).

Definition fail {A : Type} : M A := fun _ => None.

Definition mbind {A B : Type} (m : M A) (f : A -> M B) : M B :=
  fun h => match m h with
           | Some (a, h') => f a h'
           | None => None
           end.

Notation "x <~ m ;; k" := (mbind m (fun x => k))
  (at level 61, m at next level, right associativity).

(** [*p] *)
Definition deref (p : ptr) : M Cell :=
  fun h => match nth_error h p with
           | Some c => Some (c, h)
           | None => None
           end.

(** [&Node{...}] *)
Definition alloc (c : Cell) : M ptr :=
  fun h => Some (length h, h ++ [c]).

(** [*p = c] *)
Definition update (p : ptr) (c : Cell) : M unit :=
  fun h => match set_nth h p c with
           | Some h' => Some (tt, h')
           | None => None
           end.

Definition withRaw (c : Cell) (r : gostring) : Cell :=
  mkCell (cTyp c) (cLine c) r (cChildren c) (cFields c).
Definition withChildren (c : Cell) (k : list ptr) : Cell :=
  mkCell (cTyp c) (cLine c) (cRaw c) k (cFields c).
Definition withFields (c : Cell) (f : NodeFields) : Cell :=
  mkCell (cTyp c) (cLine c) (cRaw c) (cChildren c) f.

(** [p.Raw = r] and the like. *)
Definition setRawAt (p : ptr) (r : gostring) : M unit :=
  c <~ deref p ;; update p (withRaw c r).
Definition setChildrenAt (p : ptr) (k : list ptr) : M unit :=
  c <~ deref p ;; update p (withChildren c k).
Definition setFieldsAt (p : ptr) (f : NodeFields) : M unit :=
  c <~ deref p ;; update p (withFields c f).

Fixpoint mapM {A B : Type} (f : A -> M B) (l : list A) : M (list B) :=
  match l with
  | [] => ret []
  | a :: rest =>
      b <~ f a ;;
      bs <~ mapM f rest ;;
      ret (b :: bs)
  end.

(** [Node.Clone]; the fuel bounds the depth of the tree. *)
Fixpoint Clone (fuel : nat) (n : ptr) : M ptr :=
  match fuel with
  | O => fail
  | S fuel' =>
      c <~ deref n ;;
      clone <~ alloc (mkCell (cTyp c) (cLine c) (cRaw c) []
                        (cloneFields (cFields c))) ;;
      kids <~ mapM (Clone fuel') (cChildren c) ;;
      _ <~ setChildrenAt clone kids ;;
      ret clone
  end.

(** The depth given to a recursion over a tree: no path in a store
    without cycles is longer than the store. *)
Definition depthOf (h : heap) : nat := S (length h).

Definition clone (n : ptr) : M ptr :=
  fun h => Clone (depthOf h) n h.

(** *** trim_trailing_whitespace *)

Fixpoint trimNode (fuel : nat) (n : ptr) : M ptr :=
  match fuel with
  | O => fail
  | S fuel' =>
      q <~ clone n ;;
      c <~ deref q ;;
      _ <~ (if negb (eqs (cRaw c) [])
            then setRawAt q (Rules.trimRawLines (cRaw c)) else ret tt) ;;
      c <~ deref q ;;
      let f := cFields c in
      let f := setText f (TrimRight (Text f) " 	") in
      let f := setVarValue f (TrimRight (VarValue f) " 	") in
      let f := setInlineHelp f (TrimRight (InlineHelp f) " 	") in
      let f := setCondition f (TrimRight (Condition f) " 	") in
      _ <~ setFieldsAt q f ;;
      kids <~ mapM (trimNode fuel') (cChildren c) ;;
      _ <~ setChildrenAt q kids ;;
      ret q
  end.

Definition TrailingWhitespace_Format (nodes : list ptr)
  (cfg : FormatterConfig) : M (list ptr) :=
  if negb (TrimTrailingWhitespace cfg) then ret nodes
  else fun h => mapM (trimNode (depthOf h)) nodes h.

(** *** insert_final_newline *)

Definition typeOf (n : ptr) : M NodeType :=
  c <~ deref n ;; ret (cTyp c).

(** The loop that cuts blank nodes off the end; [rs] is the slice
    reversed. *)
Fixpoint dropBlank (rs : list ptr) : M (list ptr) :=
  match rs with
  | [] => ret []
  | n :: rest =>
      t <~ typeOf n ;;
      if NodeType_eqb t NodeBlankLine then dropBlank rest else ret rs
  end.

Definition FinalNewline_Format (nodes : list ptr) (cfg : FormatterConfig)
  : M (list ptr) :=
  if negb (InsertFinalNewline cfg) then ret nodes
  else if len nodes =? 0 then ret nodes
  else rs <~ dropBlank (rev nodes) ;; ret (rev rs).

(** *** max_blank_lines *)

Fixpoint blankLinesLoop (nodes : list ptr) (maxBlank blankCount : Z)
  : M (list ptr) :=
  match nodes with
  | [] => ret []
  | n :: rest =>
      t <~ typeOf n ;;
      if NodeType_eqb t NodeBlankLine then
        let blankCount := blankCount + 1 in
        if blankCount <=? maxBlank then
          r <~ blankLinesLoop rest maxBlank blankCount ;; ret (n :: r)
        else blankLinesLoop rest maxBlank blankCount
      else r <~ blankLinesLoop rest maxBlank 0 ;; ret (n :: r)
  end.

Definition BlankLines_Format (nodes : list ptr) (cfg : FormatterConfig)
  : M (list ptr) :=
  if MaxBlankLines cfg <? 0 then ret nodes
  else blankLinesLoop nodes (MaxBlankLines cfg) 0.

(** *** assignment_spacing *)

Definition normalizeAssignment (n : ptr) (mode : gostring) : M ptr :=
  q <~ clone n ;;
  c <~ deref q ;;
  _ <~ (if eqs mode "space" then setRawAt q []
        else if eqs mode "no_space" then
          let raw := VarName (cFields c) ++ AssignOp (cFields c) in
          let raw := if negb (eqs (VarValue (cFields c)) [])
                     then raw ++ VarValue (cFields c) else raw in
          setRawAt q raw
        else ret tt) ;;
  ret q.

Definition AssignmentSpacing_Format (nodes : list ptr)
  (cfg : FormatterConfig) : M (list ptr) :=
  if eqs (AssignmentSpacing cfg) "preserve" then ret nodes
  else mapM (fun n =>
               t <~ typeOf n ;;
               if NodeType_eqb t NodeAssignment
               then normalizeAssignment n (AssignmentSpacing cfg)
               else ret n) nodes.

(** *** align_assignments *)

Fixpoint maxNameLen (group : list ptr) (maxLen : Z) : M Z :=
  match group with
  | [] => ret maxLen
  | n :: rest =>
      c <~ deref n ;;
      let l := len (TrimRight (VarName (cFields c)) " ") in
      maxNameLen rest (if l >? maxLen then l else maxLen)
  end.

Definition alignOne (maxLen : Z) (spacingMode : gostring) (n : ptr)
  : M ptr :=
  q <~ clone n ;;
  c <~ deref q ;;
  let name := TrimRight (VarName (cFields c)) " " in
  let padded := name ++ Repeat " " (maxLen - len name) in
  _ <~ (if eqs spacingMode "no_space" then
          let raw := padded ++ AssignOp (cFields c) in
          let raw := if negb (eqs (VarValue (cFields c)) [])
                     then raw ++ VarValue (cFields c) else raw in
          setRawAt q raw
        else
          _ <~ setFieldsAt q (setVarName (cFields c) padded) ;;
          setRawAt q []) ;;
  ret q.

Definition alignGroup (group : list ptr) (spacingMode : gostring)
  : M (list ptr) :=
  maxLen <~ maxNameLen group 0 ;;
  mapM (alignOne maxLen spacingMode) group.

Fixpoint spanAssignments (nodes : list ptr) : M (list ptr * list ptr) :=
  match nodes with
  | [] => ret ([], [])
  | n :: rest =>
      t <~ typeOf n ;;
      if NodeType_eqb t NodeAssignment then
        gr <~ spanAssignments rest ;;
        ret (n :: fst gr, snd gr)
      else ret ([], nodes)
  end.

Fixpoint alignLoop (fuel : nat) (nodes : list ptr) (spacingMode : gostring)
  : M (list ptr) :=
  match fuel with
  | O => ret nodes
  | S fuel' =>
      match nodes with
      | [] => ret []
      | n :: rest =>
          t <~ typeOf n ;;
          if negb (NodeType_eqb t NodeAssignment) then
            r <~ alignLoop fuel' rest spacingMode ;; ret (n :: r)
          else
            gr <~ spanAssignments nodes ;;
            g <~ (if len (fst gr) >? 1
                  then alignGroup (fst gr) spacingMode
                  else ret (fst gr)) ;;
            r <~ alignLoop fuel' (snd gr) spacingMode ;;
            ret (g ++ r)
      end
  end.

Definition AlignAssignments_Format (nodes : list ptr)
  (cfg : FormatterConfig) : M (list ptr) :=
  if negb (AlignAssignments cfg) then ret nodes
  else alignLoop (length nodes) nodes (AssignmentSpacing cfg).

(** *** align_backslash_continuations *)

Definition alignBackslashes (n : ptr) (backslashCol : Z) : M ptr :=
  q <~ clone n ;;
  c <~ deref q ;;
  let lines := Split (cRaw c) NL in
  let targetCol := Rules.targetColumn lines backslashCol in
  _ <~ setRawAt q (Join (map (Rules.alignLine targetCol) lines) [NL]) ;;
  ret q.

Definition BackslashAlign_Format (nodes : list ptr) (cfg : FormatterConfig)
  : M (list ptr) :=
  if negb (AlignBackslashContinuations cfg) then ret nodes
  else mapM (fun n =>
               c <~ deref n ;;
               if negb (Rules.hasContinuation (cRaw c)) then ret n
               else alignBackslashes n (BackslashColumn cfg)) nodes.

(** *** space_after_comment *)

Definition shouldNormalize (c : Cell) : bool :=
  if negb (eqs (Prefix (cFields c)) "#") then false
  else
    let raw := TrimSpace (cRaw c) in
    if HasPrefix raw "#!" then false
    else if eqs raw "#" then false
    else true.

Definition normalizeComment (n : ptr) : M ptr :=
  c <~ deref n ;;
  let raw := TrimSpace (cRaw c) in
  if (len raw >? 1) && isByte (index raw 1) " " then ret n
  else
    match sliceFrom raw 1 with
    | None => fail
    | Some tail =>
        q <~ clone n ;;
        _ <~ setRawAt q ("# " ++ tail) ;;
        c' <~ deref q ;;
        _ <~ setFieldsAt q (setText (cFields c') (TrimSpace tail)) ;;
        ret q
    end.

Definition CommentSpacing_Format (nodes : list ptr) (cfg : FormatterConfig)
  : M (list ptr) :=
  if negb (SpaceAfterComment cfg) then ret nodes
  else mapM (fun n =>
               c <~ deref n ;;
               if NodeType_eqb (cTyp c) NodeComment && shouldNormalize c
               then normalizeComment n else ret n) nodes.

(** *** indent_conditionals *)

(** [reconstructRaw] reads the node only; the cell is viewed as a node
    without children. *)
Definition nodeOfCell (c : Cell) : Node :=
  mkNode (cTyp c) (cLine c) (cRaw c) [] (cFields c).

Definition applyIndent (n : ptr) (indent : gostring) (level : Z) : M ptr :=
  if level <=? 0 then ret n
  else
    let prefix := Repeat indent level in
    q <~ clone n ;;
    c <~ deref q ;;
    let raw := if eqs (cRaw c) [] then Rules.reconstructRaw (nodeOfCell c)
               else cRaw c in
    _ <~ setRawAt q (prefix ++ raw) ;;
    ret q.

Fixpoint indentConditionals (nodes : list ptr) (indent : gostring)
  (level : Z) : M (list ptr) :=
  match nodes with
  | [] => ret []
  | n :: rest =>
      c <~ deref n ;;
      let isCond := NodeType_eqb (cTyp c) NodeConditional in
      if isCond && Rules.isConditionalOpen (Directive (cFields c)) then
        q <~ applyIndent n indent level ;;
        r <~ indentConditionals rest indent (level + 1) ;;
        ret (q :: r)
      else if isCond && eqs (Directive (cFields c)) "else" then
        q <~ applyIndent n indent (level - 1) ;;
        r <~ indentConditionals rest indent level ;;
        ret (q :: r)
      else if isCond && eqs (Directive (cFields c)) "endif" then
        let level := level - 1 in
        let level := if level <? 0 then 0 else level in
        q <~ applyIndent n indent level ;;
        r <~ indentConditionals rest indent level ;;
        ret (q :: r)
      else
        q <~ (if level >? 0 then applyIndent n indent level else ret n) ;;
        r <~ indentConditionals rest indent level ;;
        ret (q :: r)
  end.

Definition ConditionalIndent_Format (nodes : list ptr)
  (cfg : FormatterConfig) : M (list ptr) :=
  if negb (IndentConditionals cfg) || (ConditionalIndent cfg <=? 0)
  then ret nodes
  else
    let indent := Repeat " " (ConditionalIndent cfg) in
    indentConditionals nodes indent 0.

(** *** preserve_banner_comments *)

Definition BannerPreserve_Format (nodes : list ptr) (_ : FormatterConfig)
  : M (list ptr) := ret nodes.

(** *** The rules with their enable flags *)

Record FormatRule : Type := mkRule {
  Name : gostring;
  Format : list ptr -> FormatterConfig -> M (list ptr);
  enabled : FormatterConfig -> bool
}.

Definition FormatRules : list FormatRule :=
  [ mkRule "trim_trailing_whitespace" TrailingWhitespace_Format
      TrimTrailingWhitespace;
    mkRule "insert_final_newline" FinalNewline_Format InsertFinalNewline;
    mkRule "max_blank_lines" BlankLines_Format
      (fun cfg => negb (MaxBlankLines cfg <? 0));
    mkRule "assignment_spacing" AssignmentSpacing_Format
      (fun cfg => negb (eqs (AssignmentSpacing cfg) "preserve"));
    mkRule "align_assignments" AlignAssignments_Format AlignAssignments;
    mkRule "align_backslash_continuations" BackslashAlign_Format
      AlignBackslashContinuations;
    mkRule "space_after_comment" CommentSpacing_Format SpaceAfterComment;
    mkRule "indent_conditionals" ConditionalIndent_Format
      (fun cfg => IndentConditionals cfg && negb (ConditionalIndent cfg <=? 0));
    mkRule "preserve_banner_comments" BannerPreserve_Format
      (fun _ => true) ].

(** The node value a pointer stands for. *)
Fixpoint nodeAt (fuel : nat) (h : heap) (n : ptr) : option Node :=
  match fuel with
  | O => None
  | S fuel' =>
      c <- nth_error h n ;;
      kids <- (fix all (l : list ptr) : option (list Node) :=
                 match l with
                 | [] => Some []
                 | k :: l' =>
                     x <- nodeAt fuel' h k ;;
                     xs <- all l' ;;
                     Some (x :: xs)
                 end) (cChildren c) ;;
      Some (mkNode (cTyp c) (cLine c) (cRaw c) kids (cFields c))
  end.

End Store.

(** ** Notions used to state the properties *)

Module Spec.

Import Strings.
Import Parser.

(** The text made of the given lines, each ended by a newline. *)
Definition text (ls : list string) : gostring :=
  concat (map (fun l : string => (l : gostring) ++ [NL]) ls).

(** [sub] occurs in [line] at byte offset [col]; columns count from
    0, so that a name of width [w] followed by one space puts what
    follows at column [1 + w]. *)
Definition beginsAt (line sub : gostring) (col : Z) : Prop :=
  exists pre post, line = pre ++ sub ++ post /\ len pre = col.

(** The greatest width of a variable name of the group, trailing
    padding not counted. *)
Definition maxTrimmedName (group : list Node) : Z :=
  fold_right Z.max 0
    (map (fun n => len (TrimRight (VarName (Fields n)) " ")) group).

(** [group] is a maximal run of consecutive assignment nodes of
    [pre ++ group ++ post]. *)
Definition maximalRun (pre group post : list Node) : Prop :=
  forallb Rules.isAssignment group = true
  /\ (forall pre' n, pre = pre' ++ [n] -> Rules.isAssignment n = false)
  /\ (forall n post', post = n :: post' -> Rules.isAssignment n = false).



(** The given lines joined by newlines. *)
Definition joined (ls : list string) : gostring :=
  Join (strs ls) [NL].

(** An assignment node as the parser builds it. *)
Definition assignment (name op value raw : gostring) : Node :=
  newNode NodeAssignment raw
    (mkFields name op value [] [] [] [] [] [] [] [] [] false []).


(** What [AlignAssignments.Format] puts in the place of a run. *)
Definition alignedGroup (g : list Node) (m : gostring) : list Node :=
  if len g >? 1 then Rules.alignGroup g m else g.

(** Inputs of the examples. *)
Definition indented : gostring := text ["ifdef A"; "foo: bar"; "endif"].

Definition twoAssignments : list Node :=
  [assignment "A" "=" "1" "A=1"; assignment "BBB" "=" "2" "BBB=2"].


(** What holds of the parser state at the head of its loop. *)
Definition loopInvariant (lines : list gostring) (p : state) : Prop :=
  0 <= lineNum p /\ (inDefine p = true -> nodes p <> []).


(** The first word of a line: what precedes its first space or tab. *)
Fixpoint firstWord (s : gostring) : gostring :=
  match s with
  | [] => []
  | c :: s' => if inSet " 	" c then [] else c :: firstWord s'
  end.


Fixpoint increasingb (l : list Z) : bool :=
  match l with
  | [] => true
  | a :: t =>
      match t with
      | [] => true
      | b :: _ => (a <? b) && increasingb t
      end
  end.


(** The text is empty or ends with a newline. *)
Definition newlineTerminated (src : gostring) : Prop :=
  src = [] \/ exists s, src = s ++ [NL].

(** The lines written each with its newline. *)
Definition unlines (ls : list gostring) : gostring :=
  concat (map (fun l => l ++ [NL]) ls).


(** A node as the classifier builds it from the raw text. *)
Definition shaped (raw : gostring) (n : Node) : Prop :=
  Raw n = raw /\ Children n = [].



End Spec.

(** ** Notions used to reason about the Myers search *)

Module MyersSpec.

Import Strings.
Import Diff.

(** The end of the diagonal run that starts at [(x, y)]. *)
Definition snakeX (a b : list gostring) (x y : Z) : Z :=
  match snake (S (length a)) a b x y with
  | Some r => r
  | None => x
  end.

(** [k] is one of the diagonals visited in step [s]. *)
Definition valid (s : nat) (k : Z) : Prop :=
  exists j, 0 <= j <= Z.of_nat s /\ k = 2 * j - Z.of_nat s.

(** The furthest [x] reached on diagonal [k] after step [s], as the
    search computes it from the values of the previous step. *)
Fixpoint V (a b : list gostring) (s : nat) (k : Z) : Z :=
  match s with
  | O => snakeX a b 0 0
  | S s' =>
      let d := Z.of_nat s in
      let down :=
        if k =? - d then true
        else if negb (k =? d) then V a b s' (k - 1) <? V a b s' (k + 1)
             else false in
      let x := if down then V a b s' (k + 1) else V a b s' (k - 1) + 1 in
      snakeX a b x (x - k)
  end.

(** Whether step [s] moves down (an insertion) into diagonal [k]. *)
Definition downV (a b : list gostring) (s : nat) (k : Z) : bool :=
  match s with
  | O => true
  | S s' =>
      if k =? - Z.of_nat s then true
      else if negb (k =? Z.of_nat s)
           then V a b s' (k - 1) <? V a b s' (k + 1)
           else false
  end.

(** The point before the diagonal run of step [S s] on diagonal
    [k]. *)
Definition moved (a b : list gostring) (s : nat) (k : Z) : Z :=
  if downV a b (S s) k then V a b s (k + 1) else V a b s (k - 1) + 1.

(** The point [(x, x - k)] is at or beyond the end of both sequences. *)
Definition isEnd (a b : list gostring) (x k : Z) : bool :=
  (x >=? len a) && (x - k >=? len b).

(** No diagonal of step [s] has reached the end. *)
Definition NoEnd (a b : list gostring) (s : nat) : Prop :=
  forall k, valid s k -> isEnd a b (V a b s k) k = false.

(** The array [v] holds the values of step [s]. *)
Definition get (total : Z) (v : list Z) (k : Z) : option Z :=
  index v (k + total).

Definition Agree (a b : list gostring) (s : nat) (v : list Z) : Prop :=
  len v = 2 * (len a + len b) + 1
  /\ forall k, valid s k -> get (len a + len b) v k = Some (V a b s k).

(** The array at the start of step [d]: the values of step [d - 1], or
    zeros before the first step. *)
Definition Start (a b : list gostring) (d : nat) (v : list Z) : Prop :=
  match d with
  | O => v = repeat 0 (Z.to_nat (2 * (len a + len b) + 1))
  | S s => Agree a b s v
  end.

(** The array while step [d] is under way, the first [j] diagonals
    done. *)
Definition Mid (a b : list gostring) (d : nat) (j : Z) (v : list Z)
  : Prop :=
  len v = 2 * (len a + len b) + 1
  /\ (forall s k, d = S s -> valid s k ->
      get (len a + len b) v k = Some (V a b s k))
  /\ (d = O -> j = 0 -> get (len a + len b) v 1 = Some 0)
  /\ (forall j', 0 <= j' < j ->
      get (len a + len b) v (2 * j' - Z.of_nat d)
      = Some (V a b d (2 * j' - Z.of_nat d))).

(** The trace when step [d] has saved its copy: entry [s] is the
    array at the start of step [s]. *)
Definition TraceOK (a b : list gostring) (d : nat) (trace : list (list Z))
  : Prop :=
  length trace = S d
  /\ forall s v, (s <= d)%nat -> nth_error trace s = Some v ->
                 Start a b s v.

(** An edit refers to lines that exist. *)
Definition validEdit (a b : list gostring) (e : edit) : Prop :=
  match kind e with
  | editEqual => 0 <= oldIdx e < len a /\ 0 <= newIdx e < len b
  | editInsert => 0 <= newIdx e < len b
  | editDelete => 0 <= oldIdx e < len a
  end.

(** Regions in increasing order, within [0, bound). *)
Fixpoint chain (lo bound : Z) (rs : list region) : Prop :=
  match rs with
  | [] => True
  | r :: rest =>
      lo <= start r /\ start r <= end_ r /\ end_ r < bound
      /\ chain (end_ r) bound rest
  end.

(** The edit at index [i] of the script is an insertion or a deletion. *)
Definition changeAt (es : list edit) (i : Z) : Prop :=
  exists e, index es i = Some e /\ isEqualEdit e = false.

(** A text after which a new line begins. *)
Definition atLineStart (pre : gostring) : Prop :=
  pre = [] \/ exists pre', pre = pre' ++ [NL].

(** [line] occurs in [out] at the start of a line. *)
Definition occurs (out line : gostring) : Prop :=
  exists pre post, out = pre ++ line ++ post /\ atLineStart pre.

(** [line], with its final newline, is one of the lines of the text
    [out]. *)
Definition hasLine (out line : gostring) : Prop :=
  In line (SplitAfter out NL).

(** The output line for a deleted line of [old] or an inserted line of
    [new]. *)
Definition deletedLine (old : list gostring) (line : gostring) : Prop :=
  exists l, In l old /\ line = "-" ++ ensureNewline l.

Definition insertedLine (new : list gostring) (line : gostring) : Prop :=
  exists l, In l new /\ line = "+" ++ ensureNewline l.

End MyersSpec.

(** ** Notions used to state what a rule does to the store *)

Module StoreSpec.

Import Parser.
Import Store.

(** The cell of a node whose children are stored at [kids]. *)
Definition cellOf (n : Node) (kids : list ptr) : Cell :=
  mkCell (Typ n) (Line n) (Raw n) kids (Fields n).

(** A store that holds the given nodes, none of which has children:
    node [i] is at address [i]. *)
Definition flatStore (ns : list Node) : heap :=
  map (fun n => cellOf n []) ns.

(** The computation [m], run in a store whose first [L] cells belong
    to the caller, leaves these cells as they are, only lets the store
    grow, and returns a result that satisfies [Q]. *)
Definition preserves {A : Type} (L : nat) (m : M A) (Q : A -> Prop) : Prop :=
  forall h a h',
    (L <= length h)%nat -> m h = Some (a, h') ->
    (length h <= length h')%nat
    /\ (forall p, (p < L)%nat -> nth_error h' p = nth_error h p)
    /\ Q a.

(** A pointer of the output is one of the input pointers, or points to
    a cell that the rule allocated. *)
Definition inputOrFresh (L : nat) (nodes : list ptr) (q : ptr) : Prop :=
  In q nodes \/ (L <= q)%nat.

End StoreSpec.

(** ** Notions used to state what the rules keep *)

Module RuleSpec.

Import Parser.

(** [l1] is [l2] with some of its elements left out. *)
Inductive Subseq {A : Type} : list A -> list A -> Prop :=
| Subseq_nil : Subseq [] []
| Subseq_keep : forall x l1 l2, Subseq l1 l2 -> Subseq (x :: l1) (x :: l2)
| Subseq_drop : forall x l1 l2, Subseq l1 l2 -> Subseq l1 (x :: l2).

(** The type of a node and the source line it starts at. *)
Definition kindOf (n : Node) : NodeType * Z := (Typ n, Line n).

End RuleSpec.

(** ** Notions used to state what an edit script does *)

Module DiffSpec.

Import Strings.
Import Diff.

(** The lines at the position [(x, y)] exist and are equal. *)
Definition sameLine (a b : list gostring) (x y : Z) : bool :=
  match index a x, index b y with
  | Some l, Some l' => eqs l l'
  | _, _ => false
  end.

Definition inRange {A : Type} (l : list A) (i : Z) : bool :=
  (0 <=? i) && (i <? len l).

(** Replaying a script from the position [(x, y)], [x] lines of [a]
    and [y] lines of [b] being done: an equal edit must name the two
    lines at the position, which must be equal; a deletion must name
    the line of [a] at the position and an insertion that of [b].
    The result is the position reached. *)
Fixpoint replay (a b : list gostring) (es : list edit) (x y : Z)
  : option (Z * Z) :=
  match es with
  | [] => Some (x, y)
  | e :: rest =>
      match kind e with
      | editEqual =>
          if (oldIdx e =? x) && (newIdx e =? y) && sameLine a b x y
          then replay a b rest (x + 1) (y + 1) else None
      | editDelete =>
          if (oldIdx e =? x) && (newIdx e =? -1) && inRange a x
          then replay a b rest (x + 1) y else None
      | editInsert =>
          if (oldIdx e =? -1) && (newIdx e =? y) && inRange b y
          then replay a b rest x (y + 1) else None
      end
  end.

(** The lines a script reads from [a]: those of its equal edits and
    of its deletions. *)
Fixpoint consumed (a : list gostring) (es : list edit)
  : option (list gostring) :=
  match es with
  | [] => Some []
  | e :: rest =>
      match kind e with
      | editInsert => consumed a rest
      | _ =>
          l <- index a (oldIdx e) ;;
          ls <- consumed a rest ;;
          Some (l :: ls)
      end
  end.

(** The lines a script produces: equal edits copy the line of [a],
    insertions take the line of [b], deletions give nothing. *)
Fixpoint patched (a b : list gostring) (es : list edit)
  : option (list gostring) :=
  match es with
  | [] => Some []
  | e :: rest =>
      match kind e with
      | editEqual =>
          l <- index a (oldIdx e) ;;
          ls <- patched a b rest ;;
          Some (l :: ls)
      | editInsert =>
          l <- index b (newIdx e) ;;
          ls <- patched a b rest ;;
          Some (l :: ls)
      | editDelete => patched a b rest
      end
  end.

(** The index [i] of the script lies in one of the regions. *)
Definition covered (rs : list region) (i : Z) : Prop :=
  exists r, In r rs /\ start r <= i <= end_ r.

End DiffSpec.

(** ** Notions used to state what the parser builds *)

Module ParserSpec.

Import Parser.
Import Spec.

(** A node as the parser links it: it is no recipe line at the top
    level, only a rule has children, and the children are recipe
    lines, which have no children themselves. *)
Definition wellFormed (n : Node) : Prop :=
  Typ n <> NodeRecipe
  /\ (Children n <> [] -> Typ n = NodeRule)
  /\ Forall (fun c => Typ c = NodeRecipe /\ Children c = []) (Children n).

(** The line numbers of the nodes, up to line [k]: they start at 1
    and increase along the sequence, and those of the recipe lines of
    a rule increase from the line of the rule. *)
Definition linesOrdered (ns : list Node) (k : Z) : Prop :=
  increasingb (map Line ns) = true
  /\ Forall (fun n =>
               1 <= Line n <= k
               /\ increasingb (Line n :: map Line (Children n)) = true
               /\ Forall (fun c => Line c <= k) (Children n)) ns.

End ParserSpec.

(** ** Notions used to state what the writer emits *)

Module WriterSpec.

Import Strings.
Import Parser.

(** The pieces of text the writer emits for a node, each with the
    newline that ends it: the text of the node itself, then that of
    each child. *)
Definition nodeChunks (n : Node) : list gostring :=
  (Formatter.writeOwn n ++ [NL])
  :: map (fun c => Formatter.writeNode c ++ [NL]) (Children n).

Definition chunks (ns : list Node) : list gostring :=
  flat_map nodeChunks ns.

(** A text that ends with a newline. *)
Definition wholeLines (b : gostring) : Prop := exists s, b = s ++ [NL].

(** What the parser loop maintains: the lines consumed so far, cut
    into blocks of whole lines, are the pieces the writer emits for
    the nodes built so far, in some order; inside a [define] block the
    last block is the text of the last node. *)
Definition chunkInvariant (lines : list gostring) (p : state) : Prop :=
  0 <= lineNum p
  /\ exists blocks,
       concat blocks = Spec.unlines (firstn (Z.to_nat (lineNum p)) lines)
       /\ Forall wholeLines blocks
       /\ Permutation blocks (chunks (nodes p))
       /\ (inDefine p = true ->
           exists ns d b0,
             nodes p = ns ++ [d] /\ Children d = [] /\ Raw d <> []
             /\ blocks = b0 ++ [Raw d ++ [NL]]
             /\ Permutation b0 (chunks ns)).

End WriterSpec.

(** ** Notions used to state what [Clone] builds in the store *)

Module CloneSpec.

Import Parser.
Import Store.

(** The trees at the pointers of [l]. *)
Fixpoint nodesAt (fuel : nat) (h : heap) (l : list ptr)
  : option (list Node) :=
  match l with
  | [] => Some []
  | k :: l' =>
      x <- nodeAt fuel h k ;;
      xs <- nodesAt fuel h l' ;;
      Some (x :: xs)
  end.

(** [h'] holds the cells of [h] at the addresses from [lo] up to
    [hi]. *)
Definition agree (lo hi : nat) (h h' : heap) : Prop :=
  forall a, (lo <= a < hi)%nat -> nth_error h' a = nth_error h a.

(** [q] is a copy of the tree [n], made in [h'] from the store [h]:
    it is a new address, the cells of [h] are as they were, and the
    tree at [q] is [n] in every store that holds the new cells of
    [h'], whatever its other cells hold. *)
Definition copies (fuel : nat) (h : heap) (n : Node) (q : ptr) (h' : heap)
  : Prop :=
  (length h <= q < length h')%nat
  /\ agree 0 (length h) h h'
  /\ forall h'', agree (length h) (length h') h' h'' ->
                 nodeAt fuel h'' q = Some n.

Definition copiesAll (fuel : nat) (h : heap) (ns : list Node)
  (qs : list ptr) (h' : heap) : Prop :=
  (length h <= length h')%nat
  /\ Forall (fun q => (length h <= q < length h')%nat) qs
  /\ agree 0 (length h) h h'
  /\ forall h'', agree (length h) (length h') h' h'' ->
                 nodesAt fuel h'' qs = Some ns.

End CloneSpec.

(** ** Notions used to state that the pipeline returns *)

Module PipelineSpec.

Import Strings.
Import Parser.



End PipelineSpec.

(** ** The runner with its input and output ([internal/runner])

    [Run], [runStdin] and [runFile] read the standard input and files,
    print on the standard output and the standard error, and write
    files.  The model makes that explicit: the world holds what reading
    a path gives (the content, or the text of the error), whether
    writing a path fails (and with what error), and what reading the
    standard input gives; the functions return the exit code, the
    events in the order in which they happen, and the world they leave.
    A file that was written reads as what was written.  The writers
    [opts.Stdout] and [opts.Stderr] are the two kinds of print events,
    so the record of options has no field for them.  [None] is a
    run-time panic in the pipeline. *)

Module RunnerIO.

Import Strings.
Import Config.
Import Engine.

Definition ExitOK : Z := 0.
Definition ExitFormatDiff : Z := 1.
Definition ExitError : Z := 2.

Record Options : Type := mkOptions {
  Files : list gostring;
  Check : bool;
  Diff : bool;
  Write : bool;
  ConfigPath : gostring;
  Quiet : bool;
  Verbose : bool
}.

Inductive event : Type :=
| Stdout (s : gostring)
| Stderr (s : gostring)
| Written (path content : gostring).

Record World : Type := mkWorld {
  readFile : gostring -> gostring + gostring;
  writeError : gostring -> option gostring;
  stdin : gostring + gostring
}.

(** [os.WriteFile] that succeeds. *)
Definition afterWrite (w : World) (path content : gostring) : World :=
  mkWorld (fun p => if eqs p path then inl content else readFile w p)
    (writeError w) (stdin w).

Definition runStdin (opts : Options) (cfg : FormatterConfig)
  (formatRules : list FormatRule) (w : World)
  : option (Z * list event * World) :=
  match stdin w with
  | inr err =>
      Some (ExitError,
            [Stderr ("makefmt: reading stdin: " ++ err ++ [NL])], w)
  | inl input =>
      output <- Runner.formatInput input cfg formatRules ;;
      if Check opts then
        if negb (eqs input output) then Some (ExitFormatDiff, [], w)
        else Some (ExitOK, [], w)
      else if Diff opts then
        d <- Diff.Unified "<stdin>" input output ;;
        if negb (eqs d []) then Some (ExitFormatDiff, [Stdout d], w)
        else Some (ExitOK, [], w)
      else Some (ExitOK, [Stdout output], w)
  end.

Definition runFile (opts : Options) (cfg : FormatterConfig)
  (formatRules : list FormatRule) (path : gostring) (w : World)
  : option (Z * list event * World) :=
  match readFile w path with
  | inr err => Some (ExitError, [Stderr ("makefmt: " ++ err ++ [NL])], w)
  | inl input =>
      output <- Runner.formatInput input cfg formatRules ;;
      let verbose := if Verbose opts then [Stderr (path ++ [NL])] else [] in
      if Check opts then
        if negb (eqs input output) then
          Some (ExitFormatDiff,
                verbose ++ (if negb (Quiet opts)
                            then [Stderr (path ++ [NL])] else []), w)
        else Some (ExitOK, verbose, w)
      else if Diff opts then
        d <- Diff.Unified path input output ;;
        if negb (eqs d []) then
          Some (ExitFormatDiff, verbose ++ [Stdout d], w)
        else Some (ExitOK, verbose, w)
      else if eqs input output then Some (ExitOK, verbose, w)
      else
        match writeError w path with
        | Some err =>
            Some (ExitError,
                  verbose ++ [Stderr ("makefmt: writing " ++ path ++ ": "
                                      ++ err ++ [NL])], w)
        | None =>
            Some (ExitOK, verbose ++ [Written path output],
                  afterWrite w path output)
        end
  end.

(** The loop over [opts.Files] of [Run]. *)
Fixpoint runFiles (opts : Options) (cfg : FormatterConfig)
  (formatRules : list FormatRule) (paths : list gostring) (exitCode : Z)
  (w : World) : option (Z * list event * World) :=
  match paths with
  | [] => Some (exitCode, [], w)
  | path :: rest =>
      '(code, events, w1) <- runFile opts cfg formatRules path w ;;
      let exitCode := if code >? exitCode then code else exitCode in
      '(final, events', w2) <-
        runFiles opts cfg formatRules rest exitCode w1 ;;
      Some (final, events ++ events', w2)
  end.

(** [Run]; [loaded] is what [config.Load(opts.ConfigPath)] returns (the
    [Formatter] part of the configuration, the only part the runner
    uses, or the text of the error); the rules are those of the
    registry. *)
Definition Run (opts : Options) (loaded : FormatterConfig + gostring)
  (w : World) : option (Z * list event * World) :=
  match loaded with
  | inr err => Some (ExitError, [Stderr ("makefmt: " ++ err ++ [NL])], w)
  | inl cfg =>
      let formatRules := Rules.FormatRules in
      if len (Files opts) =? 0 then runStdin opts cfg formatRules w
      else runFiles opts cfg formatRules (Files opts) ExitOK w
  end.





(** The file at [path] can be read and formatting leaves it as it is. *)
Definition formatted (cfg : FormatterConfig) (w : World) (path : gostring)
  : Prop :=
  exists s, readFile w path = inl s
            /\ Runner.formatInput s cfg Rules.FormatRules = Some s.


End RunnerIO.

(** * Facts about the string and slice primitives *)

Module SliceFacts.

Lemma len_nonneg : forall (A : Type) (l : list A), 0 <= len l.
Proof. intros; unfold len; lia. Qed.

Lemma len_app : forall (A : Type) (l1 l2 : list A),
  len (l1 ++ l2) = len l1 + len l2.
Proof. intros; unfold len; rewrite length_app; lia. Qed.

Lemma len_cons : forall (A : Type) (x : A) (l : list A),
  len (x :: l) = 1 + len l.
Proof. intros; unfold len; simpl length; lia. Qed.

Lemma len_nil : forall (A : Type), len (@nil A) = 0.
Proof. reflexivity. Qed.

Lemma len_zero : forall (A : Type) (l : list A), len l = 0 -> l = [].
Proof. intros A [| x l] H; [reflexivity | rewrite len_cons in H].
  pose proof (len_nonneg A l). lia. Qed.

Lemma index_some : forall (A : Type) (l : list A) (i : Z),
  0 <= i < len l -> exists x, index l i = Some x.
Proof.
  intros A l i H. unfold index.
  destruct (Z.ltb_spec i 0); [lia |].
  destruct (nth_error l (Z.to_nat i)) eqn:E; [eauto |].
  apply nth_error_None in E. unfold len in H. lia.
Qed.

Lemma index_bounds : forall (A : Type) (l : list A) (i : Z) (x : A),
  index l i = Some x -> 0 <= i < len l.
Proof.
  intros A l i x H. unfold index in H.
  destruct (Z.ltb_spec i 0); [discriminate |].
  assert (Z.to_nat i < length l)%nat by (apply nth_error_Some; congruence).
  unfold len. lia.
Qed.

Lemma index_nat : forall (A : Type) (l : list A) (i : nat),
  index l (Z.of_nat i) = nth_error l i.
Proof.
  intros. unfold index. destruct (Z.ltb_spec (Z.of_nat i) 0); [lia |].
  rewrite Nat2Z.id. reflexivity.
Qed.

Lemma index_app_l : forall (A : Type) (l1 l2 : list A) (i : Z),
  i < len l1 -> index (l1 ++ l2) i = index l1 i.
Proof.
  intros A l1 l2 i H. unfold index.
  destruct (Z.ltb_spec i 0); [reflexivity |].
  apply nth_error_app1. unfold len in H. lia.
Qed.

Lemma index_app_r : forall (A : Type) (l1 l2 : list A) (i : Z),
  len l1 <= i -> index (l1 ++ l2) i = index l2 (i - len l1).
Proof.
  intros A l1 l2 i H. unfold index. pose proof (len_nonneg A l1).
  destruct (Z.ltb_spec i 0); [lia |].
  destruct (Z.ltb_spec (i - len l1) 0); [lia |].
  rewrite nth_error_app2 by (unfold len in H; lia).
  f_equal. unfold len. lia.
Qed.

Lemma index_last : forall (A : Type) (l : list A) (x : A),
  index (l ++ [x]) (len l) = Some x.
Proof.
  intros. rewrite index_app_r by lia. rewrite Z.sub_diag. reflexivity.
Qed.

Lemma slice_some : forall (A : Type) (l : list A) (lo hi : Z),
  0 <= lo -> lo <= hi -> hi <= len l ->
  slice l lo hi = Some (firstn (Z.to_nat (hi - lo)) (skipn (Z.to_nat lo) l)).
Proof.
  intros A l lo hi H1 H2 H3. unfold slice.
  destruct (Z.leb_spec 0 lo); [| lia].
  destruct (Z.leb_spec lo hi); [| lia].
  destruct (Z.leb_spec hi (len l)); [| lia]. reflexivity.
Qed.

Lemma slice_inv : forall (A : Type) (l s : list A) (lo hi : Z),
  slice l lo hi = Some s ->
  0 <= lo /\ lo <= hi /\ hi <= len l
  /\ s = firstn (Z.to_nat (hi - lo)) (skipn (Z.to_nat lo) l).
Proof.
  intros A l s lo hi H. unfold slice in H.
  destruct (Z.leb_spec 0 lo); [| discriminate].
  destruct (Z.leb_spec lo hi); [| discriminate].
  destruct (Z.leb_spec hi (len l)); [| discriminate].
  injection H as <-. auto.
Qed.

Lemma sliceFrom_some : forall (A : Type) (l : list A) (lo : Z),
  0 <= lo <= len l -> sliceFrom l lo = Some (skipn (Z.to_nat lo) l).
Proof.
  intros A l lo H. unfold sliceFrom. rewrite slice_some by lia.
  f_equal. apply firstn_all2. rewrite length_skipn. unfold len. lia.
Qed.

Lemma sliceTo_some : forall (A : Type) (l : list A) (hi : Z),
  0 <= hi <= len l -> sliceTo l hi = Some (firstn (Z.to_nat hi) l).
Proof.
  intros A l hi H. unfold sliceTo. rewrite slice_some by lia.
  rewrite Z.sub_0_r. reflexivity.
Qed.

Lemma set_nth_some : forall (A : Type) (l : list A) (i : nat) (x : A),
  (i < length l)%nat -> exists l', set_nth l i x = Some l'.
Proof.
  induction l as [| h t IH]; intros i x H; simpl in H; [lia |].
  destruct i; simpl; [eauto |].
  destruct (IH i x) as [t' ->]; [lia | eauto].
Qed.

Lemma set_nth_spec : forall (A : Type) (l l' : list A) (i : nat) (x : A),
  set_nth l i x = Some l' ->
  exists pre old post, l = pre ++ old :: post /\ l' = pre ++ x :: post
                       /\ length pre = i.
Proof.
  induction l as [| h t IH]; intros l' i x H; simpl in H; [discriminate |].
  destruct i.
  - injection H as <-. exists [], h, t. auto.
  - destruct (set_nth t i x) eqn:E; [| discriminate]. injection H as <-.
    destruct (IH _ _ _ E) as (pre & old & post & -> & -> & <-).
    exists (h :: pre), old, post. auto.
Qed.

Lemma set_nth_length : forall (A : Type) (l l' : list A) (i : nat) (x : A),
  set_nth l i x = Some l' -> length l' = length l.
Proof.
  intros A l l' i x H.
  destruct (set_nth_spec _ _ _ _ _ H) as (pre & old & post & -> & -> & _).
  rewrite !length_app. reflexivity.
Qed.

Lemma set_nth_same : forall (A : Type) (l l' : list A) (i : nat) (x : A),
  set_nth l i x = Some l' -> nth_error l' i = Some x.
Proof.
  intros A l l' i x H.
  destruct (set_nth_spec _ _ _ _ _ H) as (pre & old & post & -> & -> & <-).
  rewrite nth_error_app2 by lia. rewrite Nat.sub_diag. reflexivity.
Qed.

Lemma set_nth_other : forall (A : Type) (l l' : list A) (i j : nat) (x : A),
  set_nth l i x = Some l' -> j <> i -> nth_error l' j = nth_error l j.
Proof.
  intros A l l' i j x H Hj.
  destruct (set_nth_spec _ _ _ _ _ H) as (pre & old & post & -> & -> & <-).
  destruct (Nat.lt_ge_cases j (length pre)).
  - rewrite !nth_error_app1 by lia. reflexivity.
  - rewrite !nth_error_app2 by lia.
    destruct (j - length pre)%nat eqn:E; [lia | reflexivity].
Qed.

Lemma store_some : forall (A : Type) (l : list A) (i : Z) (x : A),
  0 <= i < len l -> exists l', store l i x = Some l'.
Proof.
  intros A l i x H. unfold store.
  destruct (Z.ltb_spec i 0); [lia |].
  apply set_nth_some. unfold len in H. lia.
Qed.

Lemma set_nth_last : forall (A : Type) (l : list A) (y x : A),
  set_nth (l ++ [y]) (length l) x = Some (l ++ [x]).
Proof.
  induction l as [| h t IH]; intros; simpl; [reflexivity |].
  rewrite IH. reflexivity.
Qed.

Lemma store_last : forall (A : Type) (l : list A) (y x : A),
  store (l ++ [y]) (len (l ++ [y]) - 1) x = Some (l ++ [x]).
Proof.
  intros. rewrite len_app, len_cons, len_nil.
  replace (len l + (1 + 0) - 1) with (len l) by lia.
  unfold store. pose proof (len_nonneg A l).
  destruct (Z.ltb_spec (len l) 0); [lia |].
  unfold len. rewrite Nat2Z.id. apply set_nth_last.
Qed.

End SliceFacts.

Module StringFacts.

Import Strings SliceFacts.

Lemma eqs_spec : forall a b, eqs a b = true <-> a = b.
Proof.
  induction a as [| x a IH]; destruct b as [| y b]; simpl;
    try (split; [reflexivity || discriminate | reflexivity || discriminate]).
  split.
  - intros H. apply andb_true_iff in H as [H1 H2].
    apply Ascii.eqb_eq in H1. apply IH in H2. congruence.
  - intros H. injection H as -> ->. rewrite Ascii.eqb_refl.
    apply IH. reflexivity.
Qed.

Lemma eqs_refl : forall a, eqs a a = true.
Proof. intros; apply eqs_spec; reflexivity. Qed.

Lemma eqs_false : forall a b, eqs a b = false <-> a <> b.
Proof.
  intros a b. split.
  - intros H E. apply eqs_spec in E. congruence.
  - intros H. destruct (eqs a b) eqn:E; [| reflexivity].
    apply eqs_spec in E. contradiction.
Qed.

Lemma HasPrefix_spec : forall p s,
  HasPrefix s p = true <-> exists t, s = p ++ t.
Proof.
  induction p as [| c p IH]; intros s; cbn [HasPrefix].
  - destruct s; (split; [intros _; eexists; reflexivity | reflexivity]).
  - destruct s as [| d s]; cbn [HasPrefix]; split.
    + discriminate.
    + intros [t H]. discriminate.
    + intros H. apply andb_true_iff in H as [H1 H2].
      apply Ascii.eqb_eq in H1. apply IH in H2 as [t ->].
      exists t. subst. reflexivity.
    + intros [t H]. injection H as -> ->. rewrite Ascii.eqb_refl.
      apply IH. eauto.
Qed.

Lemma HasPrefix_len : forall p s, HasPrefix s p = true -> len p <= len s.
Proof.
  intros p s H. apply HasPrefix_spec in H as [t ->].
  rewrite len_app. pose proof (len_nonneg _ t). lia.
Qed.

Lemma HasSuffix_spec : forall s suf,
  HasSuffix s suf = true <-> exists t, s = t ++ suf.
Proof.
  intros s suf. unfold HasSuffix. rewrite HasPrefix_spec. split.
  - intros [t H]. exists (rev t).
    rewrite <- (rev_involutive s), H, rev_app_distr, rev_involutive.
    reflexivity.
  - intros [t ->]. exists (rev t). apply rev_app_distr.
Qed.

Lemma Index_bounds : forall s sub, -1 <= Index s sub
  /\ (0 <= Index s sub -> Index s sub + len sub <= len s).
Proof.
  induction s as [| c s IH]; intros sub.
  - cbn [Index]. destruct (HasPrefix [] sub) eqn:E.
    + split; [lia |]. intros _. apply HasPrefix_len in E. lia.
    + split; lia.
  - cbn [Index]. destruct (HasPrefix (c :: s) sub) eqn:E.
    + split; [lia |]. intros _. apply HasPrefix_len in E. lia.
    + destruct (IH sub) as [H1 H2].
      destruct (Z.ltb_spec (Index s sub) 0); [split; lia |].
      rewrite len_cons. split; lia.
Qed.

Lemma Index_upper : forall s sub,
  0 <= Index s sub -> Index s sub + len sub <= len s.
Proof. intros; apply Index_bounds; assumption. Qed.

Lemma IndexAny_bounds : forall s chars,
  -1 <= IndexAny s chars < len s \/ (IndexAny s chars = -1 /\ s = []).
Proof.
  induction s as [| c s IH]; intros chars; simpl.
  - right; auto.
  - left. rewrite len_cons. pose proof (len_nonneg _ s).
    destruct (inSet chars c); [lia |].
    destruct (IH chars) as [H1 | [H1 _]];
      destruct (Z.ltb_spec (IndexAny s chars) 0); lia.
Qed.

Lemma IndexAny_upper : forall s chars,
  0 <= IndexAny s chars -> IndexAny s chars < len s.
Proof.
  intros s chars H. destruct (IndexAny_bounds s chars) as [? | [? _]]; lia.
Qed.

Lemma firstColon_bounds : forall line i,
  0 <= i ->
  Parser.firstColon line i = -1
  \/ i <= Parser.firstColon line i < i + len line.
Proof.
  induction line as [| c line IH]; intros i Hi; simpl.
  - left; reflexivity.
  - rewrite len_cons. pose proof (len_nonneg _ line).
    destruct (Ascii.eqb c ":"); [right; lia |].
    destruct (IH (i + 1)) as [-> | H']; [lia | left; reflexivity | right; lia].
Qed.

(** *** Trimming *)

Lemma dropWhile_suffix : forall p s,
  exists t, s = t ++ dropWhile p s /\ forallb p t = true.
Proof.
  induction s as [| c s IH]; simpl.
  - exists []. auto.
  - destruct (p c) eqn:E.
    + destruct IH as [t [H1 H2]]. exists (c :: t). simpl.
      rewrite E, H2. split; [congruence | reflexivity].
    + exists []. auto.
Qed.

Lemma dropWhile_head : forall p s c t,
  dropWhile p s = c :: t -> p c = false.
Proof.
  induction s as [| d s IH]; simpl; intros c t H; [discriminate |].
  destruct (p d) eqn:E; [eauto | congruence].
Qed.

Lemma dropWhile_stop : forall p c t,
  p c = false -> dropWhile p (c :: t) = c :: t.
Proof. intros p c t H. simpl. rewrite H. reflexivity. Qed.

Lemma TrimRight_prefix : forall s cut,
  exists t, s = TrimRight s cut ++ t /\ forallb (inSet cut) t = true.
Proof.
  intros s cut. unfold TrimRight.
  destruct (dropWhile_suffix (inSet cut) (rev s)) as [t [H1 H2]].
  exists (rev t). split.
  - rewrite <- (rev_involutive s) at 1. rewrite H1 at 1.
    apply rev_app_distr.
  - rewrite forallb_forall in *. intros x Hx. apply H2.
    apply in_rev. exact Hx.
Qed.

Lemma TrimRight_len : forall s cut, len (TrimRight s cut) <= len s.
Proof.
  intros s cut. destruct (TrimRight_prefix s cut) as [t [H _]].
  rewrite H at 2. rewrite len_app. pose proof (len_nonneg _ t). lia.
Qed.

Lemma TrimRight_In : forall s cut c, In c (TrimRight s cut) -> In c s.
Proof.
  intros s cut c H. destruct (TrimRight_prefix s cut) as [t [E _]].
  rewrite E. apply in_or_app. left. exact H.
Qed.

Lemma TrimRight_nil : forall cut, TrimRight [] cut = [].
Proof. reflexivity. Qed.


Lemma TrimRight_last : forall s cut t c,
  TrimRight s cut = t ++ [c] -> inSet cut c = false.
Proof.
  intros s cut t c H. unfold TrimRight in H.
  apply (f_equal (@rev ascii)) in H.
  rewrite rev_involutive, rev_app_distr in H. simpl in H.
  eapply dropWhile_head. exact H.
Qed.

Lemma trimLeftAux_nil : forall w k, trimLeftAux w k [] = [].
Proof. intros; destruct k; reflexivity. Qed.

Lemma TrimSpace_nil : TrimSpace [] = [].
Proof. reflexivity. Qed.

Lemma trimLeftAux_suffix : forall w s k,
  exists t, s = t ++ trimLeftAux w k s.
Proof.
  induction s as [| c s IH]; intros k; simpl.
  - exists []. reflexivity.
  - destruct k as [| k].
    + destruct (w (c :: s)) as [| j].
      * exists []. reflexivity.
      * destruct (IH j) as [t H]. exists (c :: t). simpl. congruence.
    + destruct (IH k) as [t H]. exists (c :: t). simpl. congruence.
Qed.

(** The trimmed string is a segment of the string. *)
Lemma TrimSpace_segment : forall s,
  exists a b, s = a ++ TrimSpace s ++ b.
Proof.
  intros s. unfold TrimSpace.
  destruct (trimLeftAux_suffix spaceWidth s 0) as [a Ha].
  set (m := trimLeftAux spaceWidth 0 s) in *.
  destruct (trimLeftAux_suffix spaceWidthRev (rev m) 0) as [b Hb].
  exists a, (rev b). rewrite Ha at 1. f_equal.
  rewrite <- (rev_involutive m) at 1. rewrite Hb at 1.
  apply rev_app_distr.
Qed.

Lemma TrimSpace_len : forall s, len (TrimSpace s) <= len s.
Proof.
  intros s. destruct (TrimSpace_segment s) as (a & b & H).
  rewrite H at 2. rewrite !len_app.
  pose proof (len_nonneg _ a). pose proof (len_nonneg _ b). lia.
Qed.

Lemma TrimSpace_nonempty : forall s, TrimSpace s <> [] -> s <> [].
Proof. intros s H ->. apply H. reflexivity. Qed.

(** *** Splitting and joining *)

Lemma Split_nonempty : forall s sep, Split s sep <> [].
Proof.
  induction s as [| c s IH]; intros sep; simpl; [discriminate |].
  destruct (Ascii.eqb c sep); [discriminate |].
  destruct (Split s sep); discriminate.
Qed.

Lemma SplitAfter_nonempty : forall s sep, SplitAfter s sep <> [].
Proof.
  induction s as [| c s IH]; intros sep; simpl; [discriminate |].
  destruct (Ascii.eqb c sep); [discriminate |].
  destruct (SplitAfter s sep); discriminate.
Qed.

Lemma Join_cons : forall e rest sep,
  rest <> [] -> Join (e :: rest) sep = e ++ sep ++ Join rest sep.
Proof. intros e [| r rest] sep H; [contradiction | reflexivity]. Qed.

Lemma Join_Split : forall s sep, Join (Split s sep) [sep] = s.
Proof.
  induction s as [| c s IH]; intros sep; simpl; [reflexivity |].
  destruct (Ascii.eqb_spec c sep) as [-> | Hne].
  - rewrite Join_cons by apply Split_nonempty. rewrite IH. reflexivity.
  - specialize (IH sep). pose proof (Split_nonempty s sep) as Hn.
    destruct (Split s sep) as [| l ls]; [contradiction |].
    destruct ls as [| l' ls].
    + simpl in IH. simpl. rewrite IH. reflexivity.
    + rewrite Join_cons in IH by discriminate.
      rewrite Join_cons by discriminate. rewrite <- IH. reflexivity.
Qed.

Lemma Split_no_sep : forall s sep l,
  In l (Split s sep) -> ~ In sep l.
Proof.
  induction s as [| c s IH]; intros sep l H; simpl in H.
  - destruct H as [<- | []]. intros Hc. destruct Hc.
  - destruct (Ascii.eqb_spec c sep) as [-> | Hne].
    + destruct H as [<- | H]; [intros Hc; destruct Hc | eauto].
    + pose proof (Split_nonempty s sep) as Hn.
      destruct (Split s sep) as [| l0 ls] eqn:E; [contradiction |].
      destruct H as [<- | H].
      * intros Hc. destruct Hc as [Hc | Hc]; [congruence |].
        apply (IH sep l0); [rewrite E; left; reflexivity | exact Hc].
      * apply (IH sep l). rewrite E. right. exact H.
Qed.

Lemma Split_single : forall l sep, ~ In sep l -> Split l sep = [l].
Proof.
  induction l as [| c l IH]; intros sep H; simpl; [reflexivity |].
  destruct (Ascii.eqb_spec c sep) as [-> | Hne].
  - exfalso. apply H. left. reflexivity.
  - rewrite IH; [reflexivity |]. intros Hc. apply H. right. exact Hc.
Qed.

Lemma Split_app_sep : forall l rest sep,
  ~ In sep l -> Split (l ++ sep :: rest) sep = l :: Split rest sep.
Proof.
  induction l as [| c l IH]; intros rest sep H; simpl.
  - rewrite Ascii.eqb_refl. reflexivity.
  - destruct (Ascii.eqb_spec c sep) as [-> | Hne].
    + exfalso. apply H. left. reflexivity.
    + rewrite IH; [reflexivity |]. intros Hc. apply H. right. exact Hc.
Qed.

Lemma Split_Join : forall ls sep,
  ls <> [] -> (forall l, In l ls -> ~ In sep l) ->
  Split (Join ls [sep]) sep = ls.
Proof.
  induction ls as [| l ls IH]; intros sep Hne H; [contradiction |].
  destruct ls as [| l' ls].
  - simpl. apply Split_single. apply H. left. reflexivity.
  - rewrite Join_cons by discriminate. simpl app.
    rewrite Split_app_sep by (apply H; left; reflexivity).
    f_equal. apply IH; [discriminate |].
    intros x Hx. apply H. right. exact Hx.
Qed.

Lemma concat_SplitAfter : forall s sep, concat (SplitAfter s sep) = s.
Proof.
  induction s as [| c s IH]; intros sep; simpl; [reflexivity |].
  destruct (Ascii.eqb c sep).
  - simpl. rewrite IH. reflexivity.
  - specialize (IH sep). destruct (SplitAfter s sep); simpl in *; congruence.
Qed.

Lemma len_Repeat_char : forall c k,
  len (Repeat [c] k) = Z.max 0 k.
Proof.
  intros c k. unfold Repeat, len.
  assert (H : forall n, length (concat (repeat [c] n)) = n).
  { induction n; simpl; congruence. }
  rewrite H. lia.
Qed.


End StringFacts.

(** * Properties *)

(** ** The pipeline on concrete inputs *)

Module PipelineFacts.

Import Strings Parser Config Engine Rules Runner Spec.

(** C1.  Formatting is not idempotent: under the default configuration
    the text [ifdef A / foo: bar / endif] is formatted to a text whose
    body line is indented by two spaces, and formatting that result
    again indents the body line by four.  This holds for the rules as
    registered and for the documented order with [align_assignments]. *)
Theorem format_twice_differs :
  let once := text ["ifdef A"; "  foo: bar"; "endif"] in
  let twice := text ["ifdef A"; "    foo: bar"; "endif"] in
  formatInput indented DefaultConfig FormatRules = Some once
  /\ formatInput once DefaultConfig FormatRules = Some twice
  /\ formatInput indented DefaultConfig FormatRulesDocumented = Some once
  /\ formatInput once DefaultConfig FormatRulesDocumented = Some twice
  /\ once <> twice.
Proof.
  repeat split; try (vm_compute; reflexivity). discriminate.
Qed.

(** C9.  A line of the form [override NAME = value] is classified as a
    directive node (the keyword table is consulted before the
    assignment operators), its text kept whole in [Text]; the fields
    of an assignment stay empty. *)
Theorem override_line_is_directive :
  Parse "override NAME = value"
    = Some [mkNode NodeDirective 1 "override NAME = value" []
              (setText noFields "override NAME = value")]
  /\ tryAssignment "override NAME = value" "override NAME = value"
    = Some (Some (newNode NodeAssignment "override NAME = value"
         (mkFields "override NAME" "=" "value" [] [] [] [] [] [] [] [] []
            false []))).
Proof.
  split; vm_compute; reflexivity.
Qed.





End PipelineFacts.

(** ** Nodes *)

Module NodeFacts.

Import Strings Parser.

Lemma Node_induction : forall P : Node -> Prop,
  (forall t l r cs f, Forall P cs -> P (mkNode t l r cs f)) ->
  forall n, P n.
Proof.
  intros P step. fix IH 1. intros [t l r cs f]. apply step.
  revert cs. fix IHcs 1. intros [| c cs].
  - constructor.
  - constructor; [apply IH | apply IHcs].
Qed.

Lemma cloneStrings_id : forall s, cloneStrings s = s.
Proof. intros; unfold cloneStrings; apply map_id. Qed.

Lemma cloneFields_id : forall f, cloneFields f = f.
Proof.
  intros []; unfold cloneFields; simpl; rewrite !cloneStrings_id.
  reflexivity.
Qed.

(** A clone is equal to its original as a value. *)
Lemma Clone_id : forall n, Clone n = n.
Proof.
  induction n as [t l r cs f IH] using Node_induction.
  simpl. rewrite cloneFields_id. f_equal.
  induction IH as [| c cs Hc _ IHcs]; simpl; congruence.
Qed.

Lemma NodeType_eqb_spec : forall a b, NodeType_eqb a b = true <-> a = b.
Proof. intros [] []; simpl; split; congruence. Qed.

End NodeFacts.

(** ** Alignment of assignments *)

Module AlignFacts.

Import Strings Parser Config Rules Spec SliceFacts StringFacts NodeFacts.

Lemma maxTrimmedName_nonneg : forall group, 0 <= maxTrimmedName group.
Proof.
  induction group as [| n group IH]; unfold maxTrimmedName in *;
    cbn [map fold_right]; lia.
Qed.

Lemma maxNameLen_spec : forall group acc,
  0 <= acc -> maxNameLen group acc = Z.max acc (maxTrimmedName group).
Proof.
  induction group as [| n group IH]; intros acc Hacc; simpl.
  - unfold maxTrimmedName; cbn [map fold_right]. lia.
  - rewrite IH.
    + unfold maxTrimmedName, bareName; cbn [map fold_right].
      destruct (Z.gtb_spec
                  (len (TrimRight (VarName (Parser.Fields n)) " ")) acc); lia.
    + pose proof (len_nonneg _ (bareName n)).
      destruct (len (bareName n) >? acc); lia.
Qed.

Lemma maxTrimmedName_ge : forall group n,
  In n group -> len (bareName n) <= maxTrimmedName group.
Proof.
  induction group as [| m group IH]; intros n H; [contradiction |].
  unfold maxTrimmedName in *; cbn [map fold_right]. destruct H as [-> | H].
  - unfold bareName. lia.
  - specialize (IH n H). lia.
Qed.

Lemma spanAssignments_spec : forall ns g r,
  spanAssignments ns = (g, r) ->
  ns = g ++ r /\ forallb isAssignment g = true
  /\ (forall n r', r = n :: r' -> isAssignment n = false).
Proof.
  induction ns as [| n ns IH]; intros g r H; simpl in H.
  - injection H as <- <-.
    split; [reflexivity | split; [reflexivity | intros; discriminate]].
  - destruct (isAssignment n) eqn:E.
    + destruct (spanAssignments ns) as [g0 r0] eqn:E0.
      injection H as <- <-.
      destruct (IH _ _ eq_refl) as (H1 & H2 & H3).
      split; [simpl; congruence | split; [| exact H3]].
      simpl. rewrite E. exact H2.
    + injection H as <- <-.
      split; [reflexivity | split; [reflexivity |]].
      intros n0 r' H. injection H as <- <-. exact E.
Qed.

Lemma spanAssignments_app : forall g post,
  forallb isAssignment g = true ->
  (forall n post', post = n :: post' -> isAssignment n = false) ->
  spanAssignments (g ++ post) = (g, post).
Proof.
  induction g as [| n g IH]; intros post Hg Hp; simpl.
  - destruct post as [| m post]; [reflexivity |]. simpl.
    rewrite (Hp m post eq_refl). reflexivity.
  - simpl in Hg. apply andb_true_iff in Hg as [H1 H2].
    rewrite H1, (IH post H2 Hp). reflexivity.
Qed.

Lemma alignGroup_length : forall g m, length (alignGroup g m) = length g.
Proof. intros; unfold alignGroup; apply length_map. Qed.

Lemma alignLoop_fuel : forall f1 f2 ns m,
  (length ns <= f1)%nat -> (length ns <= f2)%nat ->
  alignLoop f1 ns m = alignLoop f2 ns m.
Proof.
  induction f1 as [| f1 IH]; intros f2 ns m H1 H2.
  - destruct ns; [| simpl in H1; lia]. destruct f2; reflexivity.
  - destruct f2 as [| f2].
    + destruct ns; [reflexivity | simpl in H2; lia].
    + destruct ns as [| n rest]; [reflexivity |].
      cbn [alignLoop]. simpl in H1, H2.
      destruct (isAssignment n) eqn:E; cbn [negb].
      * destruct (spanAssignments (n :: rest)) as [g r] eqn:Es.
        destruct (spanAssignments_spec _ _ _ Es) as (Hl & _ & _).
        assert (g <> []).
        { simpl in Es. rewrite E in Es.
          destruct (spanAssignments rest). injection Es as <- _.
          discriminate. }
        apply (f_equal (@length Node)) in Hl. rewrite length_app in Hl.
        simpl in Hl. destruct g; [contradiction |]. simpl in Hl.
        f_equal. apply IH; lia.
      * f_equal. apply IH; lia.
Qed.

Lemma alignedGroup_length : forall g m,
  length (alignedGroup g m) = length g.
Proof.
  intros; unfold alignedGroup. destruct (len g >? 1);
    [apply alignGroup_length | reflexivity].
Qed.

Lemma alignLoop_group : forall g post m fuel,
  g <> [] -> forallb isAssignment g = true ->
  (forall n post', post = n :: post' -> isAssignment n = false) ->
  (length (g ++ post) <= fuel)%nat ->
  alignLoop fuel (g ++ post) m
  = alignedGroup g m ++ alignLoop (length post) post m.
Proof.
  intros g post m fuel Hne Hg Hp Hf.
  destruct g as [| n g]; [contradiction |].
  destruct fuel as [| fuel]; [simpl in Hf; lia |].
  change ((n :: g) ++ post) with (n :: (g ++ post)).
  cbn [alignLoop].
  assert (E : isAssignment n = true).
  { simpl in Hg. apply andb_true_iff in Hg. tauto. }
  rewrite E. cbn [negb].
  change (n :: g ++ post) with ((n :: g) ++ post).
  rewrite (spanAssignments_app (n :: g) post Hg Hp).
  unfold alignedGroup. f_equal.
  apply alignLoop_fuel; [| lia].
  simpl in Hf. rewrite length_app in Hf. lia.
Qed.

Lemma alignLoop_prefix : forall k pre m,
  (length pre <= k)%nat ->
  (forall pre' n, pre = pre' ++ [n] -> isAssignment n = false) ->
  exists out, length out = length pre
    /\ forall rest, alignLoop (length (pre ++ rest)) (pre ++ rest) m
                    = out ++ alignLoop (length rest) rest m.
Proof.
  induction k as [| k IH]; intros pre m Hk Hlast.
  - destruct pre; [| simpl in Hk; lia]. exists []. split; reflexivity.
  - destruct pre as [| n pre1].
    { exists []. split; reflexivity. }
    destruct (isAssignment n) eqn:E.
    + destruct (spanAssignments (n :: pre1)) as [g r] eqn:Es.
      destruct (spanAssignments_spec _ _ _ Es) as (Hl & Hg & Hr).
      assert (Hgne : g <> []).
      { simpl in Es. rewrite E in Es.
        destruct (spanAssignments pre1). injection Es as <- _.
        discriminate. }
      assert (Hrne : r <> []).
      { intros ->. rewrite app_nil_r in Hl.
        destruct (exists_last Hgne) as (g' & x & Hx).
        rewrite Hl, Hx in Hlast. specialize (Hlast g' x eq_refl).
        rewrite Hx, forallb_app in Hg. simpl in Hg.
        rewrite Hlast in Hg. rewrite andb_false_r in Hg. discriminate. }
      destruct (IH r m) as (out & Hout & Hrest).
      { apply (f_equal (@length Node)) in Hl. rewrite length_app in Hl.
        simpl in Hl, Hk. destruct g; [contradiction |]. simpl in Hl. lia. }
      { intros pre' x ->. apply (Hlast (g ++ pre') x).
        rewrite Hl, app_assoc. reflexivity. }
      exists (alignedGroup g m ++ out). split.
      { rewrite length_app, alignedGroup_length, Hout, Hl, length_app.
        reflexivity. }
      intros rest. rewrite Hl, <- !app_assoc.
      rewrite alignLoop_group; try assumption.
      * rewrite Hrest. reflexivity.
      * intros x post' Hx. destruct r as [| y r']; [contradiction |].
        simpl in Hx. injection Hx as <- _. apply (Hr y r' eq_refl).
      * lia.
    + destruct (IH pre1 m) as (out & Hout & Hrest).
      { simpl in Hk. lia. }
      { intros pre' x ->. apply (Hlast (n :: pre') x). reflexivity. }
      exists (n :: out). split; [simpl; congruence |].
      intros rest. simpl length. cbn [alignLoop app]. rewrite E. cbn [negb].
      rewrite Hrest. reflexivity.
Qed.

(** The output of the rule at a maximal run: the nodes before the run
    keep their number, and the run is replaced by [alignedGroup]. *)
Lemma alignLoop_at_run : forall pre g post m,
  g <> [] -> maximalRun pre g post ->
  exists out1 out2,
    length out1 = length pre
    /\ alignLoop (length (pre ++ g ++ post)) (pre ++ g ++ post) m
       = out1 ++ alignedGroup g m ++ out2.
Proof.
  intros pre g post m Hne (Hg & Hpre & Hpost).
  destruct (alignLoop_prefix (length pre) pre m (Nat.le_refl _) Hpre)
    as (out1 & Hlen & Hrest).
  exists out1, (alignLoop (length post) post m). split; [exact Hlen |].
  rewrite Hrest. f_equal. apply alignLoop_group; auto.
Qed.

End AlignFacts.

Module AlignClaims.

Import Strings Parser Config Rules Spec SliceFacts StringFacts NodeFacts
  AlignFacts.

Lemma writeNode_eq : forall n,
  Formatter.writeNode n
  = Formatter.writeOwn n ++ Formatter.writeChildrenOf (Children n).
Proof.
  intros [t l r cs f]. reflexivity.
Qed.

Lemma beginsAt_HasPrefix : forall line sub col,
  beginsAt line sub col ->
  HasPrefix (skipn (Z.to_nat col) line) sub = true.
Proof.
  intros line sub col (pre & post & -> & <-).
  unfold len. rewrite Nat2Z.id, skipn_app, skipn_all, Nat.sub_diag.
  simpl. apply HasPrefix_spec. eauto.
Qed.

Lemma padded_len : forall name w,
  len name <= w -> len (name ++ Repeat " " (w - len name)) = w.
Proof.
  intros name w H. rewrite len_app.
  change (list_ascii_of_string " ") with [SP].
  rewrite len_Repeat_char. lia.
Qed.

(** The written form of an aligned node. *)
Lemma alignOne_column : forall w mode n,
  isAssignment n = true -> len (bareName n) <= w ->
  beginsAt (Formatter.writeNode (alignOne w mode n))
    (AssignOp (Parser.Fields n))
    (if eqs mode "no_space" then w else 1 + w).
Proof.
  intros w mode n Ha Hw. unfold alignOne. rewrite Clone_id.
  apply NodeType_eqb_spec in Ha.
  rewrite writeNode_eq. unfold Formatter.writeOwn.
  destruct (eqs mode "no_space").
  - set (padded := bareName n ++ Repeat " " (w - len (bareName n))).
    set (raw := if negb (eqs (VarValue (Parser.Fields n)) [])
                then (padded ++ AssignOp (Parser.Fields n))
                       ++ VarValue (Parser.Fields n)
                else padded ++ AssignOp (Parser.Fields n)).
    cbn [Raw setRaw Typ Children].
    assert (Hp : len padded = w) by (apply padded_len; exact Hw).
    destruct (eqs raw []) eqn:Er; cbn [negb].
    + apply eqs_spec in Er.
      assert (padded ++ AssignOp (Parser.Fields n) = []) as E.
      { subst raw. destruct (negb (eqs (VarValue (Parser.Fields n)) [])).
        - apply app_eq_nil in Er. tauto.
        - exact Er. }
      apply app_eq_nil in E as [E1 E2]. rewrite E2.
      eexists [], _. split; [reflexivity |].
      rewrite E1 in Hp. rewrite <- Hp. reflexivity.
    + subst raw. destruct (negb (eqs (VarValue (Parser.Fields n)) [])).
      * exists padded, (VarValue (Parser.Fields n)
                         ++ Formatter.writeChildrenOf (Children n)).
        split; [rewrite <- !app_assoc; reflexivity | exact Hp].
      * exists padded, (Formatter.writeChildrenOf (Children n)).
        split; [rewrite <- !app_assoc; reflexivity | exact Hp].
  - set (padded := bareName n ++ Repeat " " (w - len (bareName n))).
    assert (Hp : len padded = w) by (apply padded_len; exact Hw).
    cbn [Raw setRaw setFields Typ Children Parser.Fields eqs negb].
    rewrite Ha. unfold Formatter.writeAssignment.
    cbn [Parser.Fields setVarName VarName AssignOp VarValue].
    eexists (padded ++ " "), _. split.
    + rewrite <- !app_assoc. reflexivity.
    + rewrite len_app, Hp. change (len (list_ascii_of_string " ")) with 1.
      lia.
Qed.

(** C7 (amended).  With alignment enabled, in every maximal run of
    assignment nodes of length two or more, the operator of every
    node of the run begins, in the text written for the node, at
    column [1 + w], [w] being the greatest trimmed name width of the
    run -- unless the spacing mode is [no_space], where it begins at
    column [w].  A run of length one is returned as it is. *)
Theorem assignment_operator_column :
  forall cfg pre g post i n,
  AlignAssignments cfg = true ->
  maximalRun pre g post ->
  nth_error g i = Some n ->
  let out := AlignAssignments_Format (pre ++ g ++ post) cfg in
  let w := maxTrimmedName g in
  ((2 <= length g)%nat ->
   exists n', nth_error out (length pre + i) = Some n'
     /\ beginsAt (Formatter.writeNode n') (AssignOp (Parser.Fields n))
          (if eqs (AssignmentSpacing cfg) "no_space" then w else 1 + w))
  /\ (length g = 1%nat -> nth_error out (length pre + i) = Some n).
Proof.
  intros cfg pre g post i n Hen Hrun Hn out w.
  assert (Hne : g <> []) by (intros ->; destruct i; discriminate).
  destruct (alignLoop_at_run pre g post (AssignmentSpacing cfg) Hne Hrun)
    as (out1 & out2 & Hlen & Hout).
  assert (Hnth : nth_error out (length pre + i)
                 = nth_error (alignedGroup g (AssignmentSpacing cfg)) i).
  { unfold out, AlignAssignments_Format. rewrite Hen. cbn [negb].
    rewrite Hout, nth_error_app2 by lia.
    replace (length pre + i - length out1)%nat with i by lia.
    apply nth_error_app1. rewrite alignedGroup_length.
    apply nth_error_Some. congruence. }
  split.
  - intros H2. rewrite Hnth. unfold alignedGroup.
    destruct (Z.gtb_spec (len g) 1) as [_ | Hc]; [| unfold len in Hc; lia].
    unfold alignGroup. rewrite nth_error_map, Hn. cbn [option_map].
    eexists. split; [reflexivity |].
    rewrite maxNameLen_spec by lia.
    pose proof (maxTrimmedName_nonneg g).
    rewrite Z.max_r by lia.
    apply alignOne_column.
    + destruct Hrun as (Hg & _). rewrite forallb_forall in Hg.
      apply Hg. eapply nth_error_In. exact Hn.
    + apply maxTrimmedName_ge. eapply nth_error_In. exact Hn.
  - intros H1. rewrite Hnth. unfold alignedGroup.
    destruct (Z.gtb_spec (len g) 1) as [Hc | _]; [unfold len in Hc; lia |].
    exact Hn.
Qed.

Lemma twoAssignments_run : maximalRun [] twoAssignments [].
Proof.
  split; [reflexivity |]. split.
  - intros pre' x H. destruct pre'; discriminate.
  - intros x post' H; discriminate.
Qed.

Lemma assignment_operator_column_witness :
  exists n',
    nth_error (AlignAssignments_Format twoAssignments DefaultConfig) 0
    = Some n'
    /\ beginsAt (Formatter.writeNode n') "=" (1 + 3).
Proof.
  destruct (assignment_operator_column DefaultConfig [] twoAssignments []
              0%nat (assignment "A" "=" "1" "A=1") eq_refl
              twoAssignments_run eq_refl) as [H _].
  apply H. simpl. lia.
Defined.

(** C7 as stated fails in [no_space] mode: the names [A] and [BBB]
    give the greatest width 3, and the operator of the first line is
    written at column 3, not at column 1 + 3. *)
Lemma assignment_column_counterexample :
  let cfg := setAssignmentSpacing DefaultConfig "no_space" in
  maxTrimmedName twoAssignments = 3
  /\ exists n',
       nth_error (AlignAssignments_Format twoAssignments cfg) 0 = Some n'
       /\ Formatter.writeNode n' = "A  =1"
       /\ ~ beginsAt (Formatter.writeNode n') "="
              (1 + maxTrimmedName twoAssignments)
       /\ Runner.formatInput (text ["A=1"; "BBB=2"]) cfg
            FormatRulesDocumented
          = Some (text ["A  =1"; "BBB=2"]).
Proof.
  split; [reflexivity |].
  eexists. split; [vm_compute; reflexivity |].
  split; [reflexivity |]. split.
  - intros H. apply beginsAt_HasPrefix in H. vm_compute in H. discriminate.
  - vm_compute. reflexivity.
Qed.

End AlignClaims.

(** ** Alignment of continuation backslashes *)

Module BackslashFacts.

Import Strings Parser Config Rules Spec SliceFacts StringFacts NodeFacts.









End BackslashFacts.

Module BackslashClaims.

Import Strings Parser Config Rules Spec SliceFacts StringFacts NodeFacts
  BackslashFacts.




End BackslashClaims.

(** ** The parser never fails *)

Module ParserTotal.

Import Strings Parser Spec SliceFacts StringFacts NodeFacts.

Ltac boolz :=
  repeat match goal with
    | H : (_ <? _) = true |- _ => apply Z.ltb_lt in H
    | H : (_ <? _) = false |- _ => apply Z.ltb_ge in H
    | H : (_ <=? _) = true |- _ => apply Z.leb_le in H
    | H : (_ <=? _) = false |- _ => apply Z.leb_gt in H
    | H : (_ >? _) = true |- _ => rewrite Z.gtb_ltb in H; apply Z.ltb_lt in H
    | H : (_ >? _) = false |- _ => rewrite Z.gtb_ltb in H; apply Z.ltb_ge in H
    | H : (_ >=? _) = true |- _ => rewrite Z.geb_leb in H; apply Z.leb_le in H
    | H : (_ >=? _) = false |- _ => rewrite Z.geb_leb in H; apply Z.leb_gt in H
    | H : (_ =? _) = true |- _ => apply Z.eqb_eq in H
    | H : (_ =? _) = false |- _ => apply Z.eqb_neq in H
    | H : _ && _ = true |- _ => apply andb_true_iff in H; destruct H
    end.

Lemma afterKeyword_total : forall trimmed keyword,
  exists r, afterKeyword trimmed keyword = Some r.
Proof.
  intros trimmed keyword. unfold afterKeyword.
  destruct (len trimmed >? len keyword) eqn:E; [| eauto].
  boolz. pose proof (len_nonneg _ keyword).
  rewrite sliceFrom_some by lia. cbn [bind]. eauto.
Qed.

Lemma tryConditionalIn_total : forall keywords trimmed raw,
  exists r, tryConditionalIn keywords trimmed raw = Some r.
Proof.
  induction keywords as [| k ks IH]; intros trimmed raw;
    cbn [tryConditionalIn]; [eauto |].
  destruct (keywordMatches trimmed k); [| apply IH].
  destruct (afterKeyword_total trimmed k) as [r ->]. cbn [bind]. eauto.
Qed.

Lemma tryIncludeIn_total : forall keywords trimmed raw,
  exists r, tryIncludeIn keywords trimmed raw = Some r.
Proof.
  induction keywords as [| k ks IH]; intros trimmed raw;
    cbn [tryIncludeIn]; [eauto |].
  destruct (keywordMatches trimmed k); [| apply IH].
  destruct (afterKeyword_total trimmed k) as [r ->]. cbn [bind]. eauto.
Qed.

Lemma tryDirective_total : forall trimmed raw,
  exists r, tryDirective trimmed raw = Some r.
Proof.
  intros trimmed raw. unfold tryDirective.
  destruct (IndexAny trimmed " 	:" >=? 0) eqn:E.
  - boolz. pose proof (IndexAny_upper _ _ E).
    rewrite sliceTo_some by lia. cbn [bind].
    destruct (existsb _ directiveKeywords); eauto.
  - cbn [bind]. destruct (existsb _ directiveKeywords); eauto.
Qed.

Lemma tryAssignmentIn_total : forall ops trimmed raw,
  exists r, tryAssignmentIn ops trimmed raw = Some r.
Proof.
  induction ops as [| op ops IH]; intros trimmed raw;
    cbn [tryAssignmentIn]; [eauto |].
  cbv zeta.
  destruct (Index trimmed op <? 0) eqn:E; [apply IH |].
  boolz. pose proof (Index_upper _ _ E) as Hu.
  pose proof (len_nonneg _ op).
  assert (Hprev : Index trimmed op > 0 ->
                  exists c, index trimmed (Index trimmed op - 1) = Some c).
  { intros Hp. apply index_some. lia. }
  assert (S1 : exists b,
    (if eqs op "=" && (Index trimmed op >? 0)
     then prev <- index trimmed (Index trimmed op - 1) ;;
          Some (inSet ":?+!" prev)
     else Some false) = Some b).
  { destruct (eqs op "=" && (Index trimmed op >? 0)) eqn:E1; [| eauto].
    boolz. destruct Hprev as [c ->]; [lia |]. cbn [bind]. eauto. }
  destruct S1 as [b1 ->]. cbn [bind].
  destruct b1; [apply IH |].
  assert (S2 : exists b,
    (if eqs op ":=" && (Index trimmed op >? 0)
     then prev <- index trimmed (Index trimmed op - 1) ;;
          Some (Ascii.eqb prev ":")
     else Some false) = Some b).
  { destruct (eqs op ":=" && (Index trimmed op >? 0)) eqn:E1; [| eauto].
    boolz. destruct Hprev as [c ->]; [lia |]. cbn [bind]. eauto. }
  destruct S2 as [b2 ->]. cbn [bind].
  destruct b2; [apply IH |].
  rewrite sliceTo_some by lia. cbn [bind].
  match goal with |- context [eqs ?v []] => destruct (eqs v []) end;
    [apply IH |].
  match goal with
  | |- context [match ?named with Some _ => _ | None => _ end] =>
      destruct named as [varName |]
  end; [| apply IH].
  destruct (Contains varName ":" && eqs op "="); [apply IH |].
  destruct (Index trimmed op + len op <? len trimmed) eqn:E3.
  - boolz. rewrite sliceFrom_some by lia. cbn [bind]. eauto.
  - cbn [bind]. eauto.
Qed.

Lemma findRuleColon_bounds : forall line,
  findRuleColon line < len line.
Proof.
  intros line. unfold findRuleColon. pose proof (len_nonneg _ line).
  destruct (existsb (Contains line) assignOps); [lia |].
  destruct (firstColon_bounds line 0) as [-> | ?]; lia.
Qed.

Lemma tryRule_total : forall trimmed raw,
  exists r, tryRule trimmed raw = Some r.
Proof.
  intros trimmed raw. unfold tryRule. cbv zeta.
  pose proof (findRuleColon_bounds trimmed) as Hc.
  destruct (findRuleColon trimmed <? 0) eqn:E; [eauto |]. boolz.
  rewrite sliceTo_some by lia. cbn [bind].
  match goal with |- context [eqs ?v []] => destruct (eqs v []) end;
    [eauto |].
  assert (S1 : exists rest,
    (if findRuleColon trimmed + 1 <? len trimmed
     then t <- sliceFrom trimmed (findRuleColon trimmed + 1) ;;
          Some (TrimSpace t)
     else Some []) = Some rest).
  { destruct (findRuleColon trimmed + 1 <? len trimmed) eqn:E1; [| eauto].
    boolz. rewrite sliceFrom_some by lia. cbn [bind]. eauto. }
  destruct S1 as [rest ->]. cbn [bind].
  assert (S2 : exists hr,
    (if Index rest "##" >=? 0
     then h <- sliceFrom rest (Index rest "##" + 2) ;;
          r <- sliceTo rest (Index rest "##") ;;
          Some (TrimSpace h, TrimSpace r)
     else Some ([], rest)) = Some hr).
  { destruct (Index rest "##" >=? 0) eqn:E1; [| eauto].
    boolz. pose proof (Index_upper _ _ E1) as Hu.
    change (len (list_ascii_of_string "##")) with 2 in Hu.
    rewrite sliceFrom_some by lia. cbn [bind].
    rewrite sliceTo_some by lia. cbn [bind]. eauto. }
  destruct S2 as [[inlineHelp rest'] ->]. cbn [bind].
  assert (S3 : exists po,
    (if Index rest' "|" >=? 0
     then a <- sliceTo rest' (Index rest' "|") ;;
          b <- sliceFrom rest' (Index rest' "|" + 1) ;;
          Some (if negb (eqs (TrimSpace a) [])
                then Strings.Fields (TrimSpace a) else [],
                if negb (eqs (TrimSpace b) [])
                then Strings.Fields (TrimSpace b) else [])
     else if negb (eqs rest' []) then Some (Strings.Fields rest', [])
          else Some ([], [])) = Some po).
  { destruct (Index rest' "|" >=? 0) eqn:E1.
    - boolz. pose proof (Index_upper _ _ E1) as Hu.
      change (len (list_ascii_of_string "|")) with 1 in Hu.
      rewrite sliceTo_some by lia. cbn [bind].
      rewrite sliceFrom_some by lia. cbn [bind]. eauto.
    - destruct (negb (eqs rest' [])); eauto. }
  destruct S3 as [[prerequisites orderOnly] ->]. cbn [bind]. eauto.
Qed.

Lemma orElse_total : forall r k,
  (exists x, r = Some x) -> (exists n, k = Some n) ->
  exists n, orElse r k = Some n.
Proof.
  intros r k [x ->] [n ->]. destruct x; simpl; eauto.
Qed.

Lemma classifyLine_total : forall p joined_ raw,
  exists p' n, classifyLine p joined_ raw = Some (p', n).
Proof.
  intros p joined_ raw. unfold classifyLine. cbv zeta.
  destruct (eqs (TrimSpace joined_) []); [eauto |].
  destruct (HasPrefix (TrimSpace joined_) "define "
            || eqs (TrimSpace joined_) "define"); [eauto |].
  destruct (HasPrefix (TrimSpace joined_) "##@") eqn:E.
  { apply HasPrefix_len in E.
    change (len (list_ascii_of_string "##@")) with 3 in E.
    rewrite sliceFrom_some by lia. cbn [bind]. eauto. }
  destruct (isBannerComment (TrimSpace joined_)); [eauto |].
  destruct (HasPrefix (TrimSpace joined_) "#"); [eauto |].
  destruct (HasPrefix joined_ [TAB] && inRule p); [eauto |].
  match goal with
  | |- exists p' n, bind ?m _ = _ =>
      assert (H : exists n, m = Some n)
  end.
  { repeat apply orElse_total; eauto.
    - apply tryConditionalIn_total.
    - apply tryIncludeIn_total.
    - apply tryDirective_total.
    - apply tryAssignmentIn_total.
    - apply tryRule_total. }
  destruct H as [n ->]. cbn [bind]. eauto.
Qed.

Lemma hasContinuation_nonempty : forall l,
  hasContinuation l = true -> 1 <= len (TrimRight l " 	").
Proof.
  intros l H. unfold hasContinuation in H.
  apply HasSuffix_spec in H as [t ->]. rewrite len_app.
  pose proof (len_nonneg _ t). change (len [BSL]) with 1. lia.
Qed.

Lemma joinLoop_total : forall rest parts i,
  exists parts' i',
    joinLoop rest parts i = Some (parts', i')
    /\ i <= i' <= i + len rest /\ (rest <> [] -> i < i').
Proof.
  induction rest as [| l rest IH]; intros parts i; cbn [joinLoop].
  - exists parts, i. rewrite len_nil. repeat split; try lia.
    intros H; contradiction.
  - rewrite len_cons. pose proof (len_nonneg _ rest).
    destruct (hasContinuation l) eqn:E.
    + apply hasContinuation_nonempty in E. cbv zeta.
      rewrite sliceTo_some by lia. cbn [bind].
      destruct (IH (parts ++ [firstn (Z.to_nat (len (TrimRight l " 	") - 1))
                                (TrimRight l " 	")]) (i + 1))
        as (parts' & i' & -> & Hb & _).
      exists parts', i'. repeat split; lia.
    + eexists _, _. repeat split; lia.
Qed.

Lemma len_skipn : forall (A : Type) (l : list A) (k : Z),
  0 <= k <= len l -> len (skipn (Z.to_nat k) l) = len l - k.
Proof. intros A l k H. unfold len in *. rewrite length_skipn. lia. Qed.

Lemma joinContinuations_total : forall lines start,
  0 <= start < len lines ->
  exists j c, joinContinuations lines start = Some (j, c)
              /\ 1 <= c /\ start + c <= len lines.
Proof.
  intros lines start H. unfold joinContinuations.
  destruct (index_some _ lines start H) as [first ->]. cbn [bind].
  destruct (hasContinuation first); cbn [negb].
  - destruct (joinLoop_total (skipn (Z.to_nat start) lines) [] start)
      as (parts & i & -> & Hb & Hlt).
    cbn [bind]. rewrite len_skipn in Hb by lia.
    assert (skipn (Z.to_nat start) lines <> []).
    { intros E. apply (f_equal (@len gostring)) in E.
      rewrite len_skipn, len_nil in E; lia. }
    specialize (Hlt H0). eexists _, _. repeat split; lia.
  - eexists _, _. repeat split; lia.
Qed.

Lemma findRuleParentFrom_total : forall ns k,
  (k <= length ns)%nat ->
  exists r, findRuleParentFrom ns k = Some r
            /\ forall i, r = Some i -> 0 <= i < len ns.
Proof.
  intros ns k. induction k as [| k IH]; intros Hk;
    cbn [findRuleParentFrom].
  - eexists. split; [reflexivity | intros; discriminate].
  - rewrite index_nat.
    destruct (nth_error ns k) as [n |] eqn:E;
      [| apply nth_error_None in E; lia].
    cbn [bind].
    destruct (Typ n);
      try (apply IH; lia);
      try (eexists; split; [reflexivity | intros; discriminate]).
    eexists. split; [reflexivity |].
    intros i Hi. injection Hi as <-. unfold len. lia.
Qed.

Lemma addNode_total : forall p n,
  exists p', addNode p n = Some p'
             /\ nodes p' <> [] /\ lineNum p' = lineNum p
             /\ inDefine p' = inDefine p.
Proof.
  intros p n. unfold addNode.
  assert (A : forall q x, nodes (appendNode q x) <> []).
  { intros q x. unfold appendNode. cbn. intros E.
    apply app_eq_nil in E as [_ E]. discriminate. }
  destruct (Typ n);
    try (eexists; split; [reflexivity | split; [apply A | split; reflexivity]]).
  assert (F : exists r,
    (if len (nodes p) >? 0 then findRuleParent p else Some None) = Some r
    /\ forall i, r = Some i -> 0 <= i < len (nodes p)).
  { destruct (len (nodes p) >? 0).
    - apply findRuleParentFrom_total. lia.
    - eexists. split; [reflexivity | intros; discriminate]. }
  destruct F as (r & -> & Hr). cbn [bind].
  destruct r as [i |].
  - specialize (Hr i eq_refl).
    destruct (index_some _ (nodes p) i Hr) as [parent ->]. cbn [bind].
    destruct (store_some _ (nodes p) i
                (setChildren parent (Children parent ++ [n])) Hr)
      as [ns Hs].
    rewrite Hs. cbn [bind]. eexists. split; [reflexivity |].
    split; [| split; reflexivity].
    cbn. unfold store in Hs. destruct (i <? 0); [discriminate |].
    apply set_nth_length in Hs. intros ->.
    destruct (nodes p); [unfold len in Hr; simpl in Hr; lia | discriminate].
  - eexists. split; [reflexivity | split; [apply A | split; reflexivity]].
Qed.

Lemma defineLoop_bounds : forall rest parts ln,
  ln <= snd (defineLoop rest parts ln) <= ln + len rest.
Proof.
  induction rest as [| l rest IH]; intros parts ln; cbn [defineLoop].
  - rewrite len_nil. cbn [snd]. lia.
  - rewrite len_cons. pose proof (len_nonneg _ rest). cbv zeta.
    destruct (eqs (TrimSpace l) "endef").
    + cbn [snd]. lia.
    + specialize (IH (parts ++ [l]) (ln + 1)). lia.
Qed.

Lemma handleDefineBlock_total : forall p lines,
  nodes p <> [] -> 0 <= lineNum p <= len lines ->
  exists p', handleDefineBlock p lines = Some p'
             /\ inDefine p' = false /\ nodes p' <> []
             /\ lineNum p <= lineNum p' <= len lines.
Proof.
  intros p lines Hne Hl. unfold handleDefineBlock.
  destruct (exists_last Hne) as (ns & d & E). rewrite E.
  rewrite len_app, len_cons, len_nil.
  replace (len ns + (1 + 0) - 1) with (len ns) by lia.
  rewrite index_last. cbn [bind].
  pose proof (defineLoop_bounds (skipn (Z.to_nat (lineNum p)) lines)
                [Raw d] (lineNum p)) as Hb.
  destruct (defineLoop (skipn (Z.to_nat (lineNum p)) lines) [Raw d]
              (lineNum p)) as [rawParts ln'].
  pose proof (store_last _ ns d (setRaw d (Join rawParts [NL]))) as Hs.
  rewrite len_app, len_cons, len_nil in Hs.
  replace (len ns + (1 + 0) - 1) with (len ns) in Hs by lia.
  rewrite Hs. cbn [bind]. eexists. split; [reflexivity |].
  cbn. rewrite len_skipn in Hb by lia. simpl in Hb.
  repeat split; try lia.
  intros X. apply app_eq_nil in X as [_ X]. discriminate.
Qed.

Lemma parseLoop_total : forall fuel lines p,
  loopInvariant lines p ->
  (Z.to_nat (len lines - lineNum p) < fuel)%nat ->
  exists p', parseLoop fuel lines p = Some p'.
Proof.
  induction fuel as [| fuel IH]; intros lines p [H0 Hd] Hf; [lia |].
  cbn [parseLoop].
  destruct (lineNum p <? len lines) eqn:E; [| eauto]. boolz.
  destruct (inDefine p) eqn:Ed.
  - destruct (handleDefineBlock_total p lines (Hd eq_refl)) as
      (p' & -> & Hd' & Hn' & Hb); [lia |].
    cbn [bind]. apply IH.
    + split; cbn; [lia | intros _; exact Hn'].
    + cbn. lia.
  - destruct (joinContinuations_total lines (lineNum p)) as
      (j & c & -> & Hc1 & Hc2); [lia |].
    cbn [bind]. rewrite slice_some by lia. cbn [bind].
    match goal with
    | |- context [classifyLine p j ?raw] =>
        destruct (classifyLine_total p j raw) as (p1 & n & Hcl)
    end.
    rewrite Hcl. cbn [bind]. cbv zeta.
    assert (Hln : lineNum p1 = lineNum p).
    { unfold classifyLine in Hcl. cbv zeta in Hcl.
      repeat match type of Hcl with
             | (if ?b then _ else _) = _ => destruct b
             | bind ?m _ = _ => destruct m; cbn [bind] in Hcl
             | Some _ = Some _ => injection Hcl as <- <-
             | None = Some _ => discriminate Hcl
             end; reflexivity. }
    match goal with
    | |- context [addNode ?q ?x] =>
        destruct (addNode_total q x) as (p3 & -> & Hn3 & Hl3 & _)
    end.
    cbn [bind]. apply IH.
    + split; cbn; [| intros _; exact Hn3].
      rewrite Hl3. destruct (c >? 1); cbn; lia.
    + cbn. rewrite Hl3. destruct (c >? 1) eqn:Ec; cbn; boolz; lia.
Qed.

Lemma Parse_total : forall src, exists ns, Parse src = Some ns.
Proof.
  intros src. unfold Parse, parse. cbv zeta.
  destruct (parseLoop_total (S (length (splitLines src))) (splitLines src)
              (setNodes (mkState false false [] 0) [])) as [p' ->].
  - split; cbn; [lia | intros; discriminate].
  - cbn. unfold len. lia.
  - cbn [bind]. eauto.
Qed.




Lemma firstWord_app : forall k rest,
  forallb (fun c => negb (inSet " 	" c)) k = true ->
  (rest = [] \/ exists c r, rest = c :: r /\ inSet " 	" c = true) ->
  firstWord (k ++ rest) = k.
Proof.
  induction k as [| c k IH]; intros rest Hk Hr; cbn [app firstWord].
  - destruct Hr as [-> | (c & r & -> & Hc)]; [reflexivity |].
    cbn [firstWord]. rewrite Hc. reflexivity.
  - cbn [forallb] in Hk. apply andb_true_iff in Hk as [Hc Hk].
    apply negb_true_iff in Hc. rewrite Hc. f_equal. apply IH; assumption.
Qed.

Lemma firstWord_keyword : forall k t,
  forallb (fun c => negb (inSet " 	" c)) k = true ->
  keywordMatches t k = true -> firstWord t = k.
Proof.
  intros k t Hk Hm.
  pose proof (fun rest => firstWord_app k rest Hk) as A.
  unfold keywordMatches in Hm.
  apply orb_true_iff in Hm as [Hm | Hm];
    [apply orb_true_iff in Hm as [Hm | Hm] |].
  - apply eqs_spec in Hm. subst t.
    rewrite <- (app_nil_r k) at 1. apply A. left. reflexivity.
  - apply HasPrefix_spec in Hm as [r ->]. rewrite <- app_assoc.
    apply A. right. exists " "%char, r. split; reflexivity.
  - apply HasPrefix_spec in Hm as [r ->]. rewrite <- app_assoc.
    apply A. right. exists TAB, r. split; reflexivity.
Qed.

(** At most one keyword of a table matches a line, so the order in
    which the table is visited does not matter. *)
Lemma keyword_match_unique : forall t k1 k2,
  In k1 (conditionalKeywords ++ includeKeywords) ->
  In k2 (conditionalKeywords ++ includeKeywords) ->
  keywordMatches t k1 = true -> keywordMatches t k2 = true -> k1 = k2.
Proof.
  intros t k1 k2 H1 H2 M1 M2.
  assert (A : forall k, In k (conditionalKeywords ++ includeKeywords) ->
              forallb (fun c => negb (inSet " 	" c)) k = true).
  { apply forallb_forall. reflexivity. }
  rewrite <- (firstWord_keyword k1 t (A k1 H1) M1).
  apply firstWord_keyword; [apply A; exact H2 | exact M2].
Qed.



End ParserTotal.

(** ** Parsing and writing back *)

Module RoundTrip.

Import Strings Parser Spec SliceFacts StringFacts NodeFacts ParserTotal.

(** *** The shape of the nodes the classifier builds *)

Lemma tryConditionalIn_shape : forall keywords trimmed raw n,
  tryConditionalIn keywords trimmed raw = Some (Some n) -> shaped raw n.
Proof.
  induction keywords as [| k ks IH]; intros trimmed raw n H;
    cbn [tryConditionalIn] in H; [discriminate |].
  destruct (keywordMatches trimmed k); [| eauto].
  destruct (afterKeyword trimmed k); cbn [bind] in H; [| discriminate].
  injection H as <-. split; reflexivity.
Qed.

Lemma tryIncludeIn_shape : forall keywords trimmed raw n,
  tryIncludeIn keywords trimmed raw = Some (Some n) -> shaped raw n.
Proof.
  induction keywords as [| k ks IH]; intros trimmed raw n H;
    cbn [tryIncludeIn] in H; [discriminate |].
  destruct (keywordMatches trimmed k); [| eauto].
  destruct (afterKeyword trimmed k); cbn [bind] in H; [| discriminate].
  injection H as <-. split; reflexivity.
Qed.

Lemma tryDirective_shape : forall trimmed raw n,
  tryDirective trimmed raw = Some (Some n) -> shaped raw n.
Proof.
  intros trimmed raw n H. unfold tryDirective in H.
  match type of H with bind ?m _ = _ => destruct m end;
    cbn [bind] in H; [| discriminate].
  destruct (existsb _ directiveKeywords); [| discriminate].
  injection H as <-. split; reflexivity.
Qed.

Ltac crunch H :=
  repeat match type of H with
    | (if ?b then _ else _) = _ => destruct b
    | bind ?m _ = _ => destruct m; cbn [bind] in H
    | match ?x with Some _ => _ | None => _ end = _ => destruct x
    | (let (_, _) := ?x in _) = _ => destruct x
    | None = Some _ => discriminate H
    | Some None = Some (Some _) => discriminate H
    end.

Lemma tryAssignmentIn_shape : forall ops trimmed raw n,
  tryAssignmentIn ops trimmed raw = Some (Some n) -> shaped raw n.
Proof.
  induction ops as [| op ops IH]; intros trimmed raw n H;
    cbn [tryAssignmentIn] in H; [discriminate |].
  cbv zeta in H.
  crunch H; eauto; injection H as <-; split; reflexivity.
Qed.

Lemma tryRule_shape : forall trimmed raw n,
  tryRule trimmed raw = Some (Some n) -> shaped raw n.
Proof.
  intros trimmed raw n H. unfold tryRule in H. cbv zeta in H.
  crunch H; injection H as <-; split; reflexivity.
Qed.

Lemma orElse_shape : forall (Q : Node -> Prop) r k n,
  (forall x, r = Some (Some x) -> Q x) ->
  (forall x, k = Some x -> Q x) ->
  orElse r k = Some n -> Q n.
Proof.
  intros Q r k n Hr Hk H. destruct r as [[x |] |]; simpl in H;
    [injection H as <-; auto | auto | discriminate].
Qed.

Lemma classifyLine_shape : forall p joined_ raw p' n,
  classifyLine p joined_ raw = Some (p', n) ->
  (raw = [] -> joined_ = []) ->
  shaped raw n
  /\ nodes p' = nodes p /\ lineNum p' = lineNum p
  /\ (raw = [] -> Typ n = NodeBlankLine)
  /\ (inDefine p' = true ->
      inDefine p = true \/ (Typ n = NodeRaw /\ raw <> [])).
Proof.
  intros p joined_ raw p' n H Hraw.
  unfold classifyLine in H. cbv zeta in H.
  destruct (eqs (TrimSpace joined_) []) eqn:E1.
  { injection H as <- <-. repeat split; auto. }
  assert (Hne : raw <> []).
  { intros X. rewrite (Hraw X) in E1. discriminate. }
  assert (G : forall t f, shaped raw (newNode t raw f)).
  { intros; split; reflexivity. }
  destruct (HasPrefix (TrimSpace joined_) "define "
            || eqs (TrimSpace joined_) "define").
  { injection H as <- <-. repeat split; auto; contradiction. }
  destruct (HasPrefix (TrimSpace joined_) "##@").
  { destruct (sliceFrom (TrimSpace joined_) 3); cbn [bind] in H;
      [| discriminate].
    injection H as <- <-. repeat split; auto; contradiction. }
  destruct (isBannerComment (TrimSpace joined_)).
  { injection H as <- <-. repeat split; auto; contradiction. }
  destruct (HasPrefix (TrimSpace joined_) "#").
  { injection H as <- <-. repeat split; auto; contradiction. }
  destruct (HasPrefix joined_ [TAB] && inRule p).
  { injection H as <- <-. repeat split; auto; contradiction. }
  match type of H with bind ?m _ = _ => destruct m as [x |] eqn:E end;
    cbn [bind] in H; [| discriminate].
  injection H as <- <-.
  assert (shaped raw x).
  { revert E. apply orElse_shape; [apply tryConditionalIn_shape |].
    intros y. apply orElse_shape; [apply tryIncludeIn_shape |].
    intros z. apply orElse_shape; [apply tryDirective_shape |].
    intros u. apply orElse_shape; [apply tryAssignmentIn_shape |].
    intros v. apply orElse_shape; [apply tryRule_shape |].
    intros w Hw. injection Hw as <-. apply G. }
  repeat split; auto; try contradiction; apply H.
Qed.

(** *** Writing *)



Lemma writeNode_unfold : forall n,
  Formatter.writeNode n
  = Formatter.writeOwn n ++ Formatter.writeChildrenOf (Children n).
Proof. intros [t l r cs f]. reflexivity. Qed.

Lemma writeOwn_raw : forall n,
  (Raw n = [] -> Typ n = NodeBlankLine) -> Formatter.writeOwn n = Raw n.
Proof.
  intros n H. unfold Formatter.writeOwn.
  destruct (eqs (Raw n) []) eqn:E; [| reflexivity].
  apply eqs_spec in E. rewrite (H E), E. reflexivity.
Qed.

Lemma writeNode_leaf : forall n,
  Children n = [] -> (Raw n = [] -> Typ n = NodeBlankLine) ->
  Formatter.writeNode n = Raw n.
Proof.
  intros n Hc H. rewrite writeNode_unfold, Hc, writeOwn_raw by exact H.
  apply app_nil_r.
Qed.

Lemma writeOwn_setChildren : forall n cs,
  Formatter.writeOwn (setChildren n cs) = Formatter.writeOwn n.
Proof. intros [t l r c f] cs. reflexivity. Qed.


Lemma unlines_app : forall a b, unlines (a ++ b) = unlines a ++ unlines b.
Proof. intros. unfold unlines. rewrite map_app, concat_app. reflexivity. Qed.

Lemma Join_unlines : forall ls,
  ls <> [] -> Join ls [NL] ++ [NL] = unlines ls.
Proof.
  induction ls as [| l ls IH]; intros H; [contradiction |].
  destruct ls as [| l' ls].
  - unfold unlines. simpl. rewrite app_nil_r. reflexivity.
  - rewrite Join_cons by discriminate.
    change (unlines (l :: l' :: ls)) with ((l ++ [NL]) ++ unlines (l' :: ls)).
    rewrite <- IH by discriminate. rewrite <- !app_assoc. reflexivity.
Qed.

(** *** Line numbers in increasing order *)



(** *** Joining continuation lines *)

Lemma skipn_index : forall (A : Type) (l : list A) (i : Z) (x : A),
  index l i = Some x ->
  skipn (Z.to_nat i) l = x :: skipn (S (Z.to_nat i)) l.
Proof.
  intros A l i x H. unfold index in H.
  destruct (i <? 0); [discriminate |].
  revert l H. generalize (Z.to_nat i) as k.
  induction k as [| k IH]; intros [| y l] H; try discriminate.
  - injection H as ->. reflexivity.
  - simpl in H. cbn [skipn]. apply IH. exact H.
Qed.

Lemma Join_nil : forall l ls sep, Join (l :: ls) sep = [] -> l = [].
Proof.
  intros l [| l' ls] sep H; [exact H |].
  rewrite Join_cons in H by discriminate.
  apply app_eq_nil in H. tauto.
Qed.

Lemma firstn_add : forall (A : Type) (l : list A) (a b : nat),
  firstn (a + b) l = firstn a l ++ firstn b (skipn a l).
Proof.
  intros A l a. revert l. induction a as [| a IH]; intros l b.
  - reflexivity.
  - destruct l as [| x l]; [destruct b; reflexivity |].
    cbn [Nat.add firstn skipn app]. rewrite IH. reflexivity.
Qed.

Lemma joinContinuations_raw : forall lines start j c,
  joinContinuations lines start = Some (j, c) ->
  1 <= c ->
  Join (firstn (Z.to_nat c) (skipn (Z.to_nat start) lines)) [NL] = [] ->
  j = [].
Proof.
  intros lines start j c H Hc Hraw. unfold joinContinuations in H.
  destruct (index lines start) as [first |] eqn:E; cbn [bind] in H;
    [| discriminate].
  rewrite (skipn_index _ _ _ _ E) in Hraw.
  destruct (Z.to_nat c) as [| k] eqn:Ek; [lia |].
  cbn [firstn] in Hraw. apply Join_nil in Hraw. subst first.
  change (hasContinuation []) with false in H. cbn [negb] in H.
  injection H as <- _. reflexivity.
Qed.

(** *** The effect of [addNode] *)







(** *** [define] blocks *)

Lemma defineLoop_spec : forall rest parts ln,
  fst (defineLoop rest parts ln)
  = parts ++ firstn (Z.to_nat (snd (defineLoop rest parts ln) + 1 - ln)) rest.
Proof.
  induction rest as [| l rest IH]; intros parts ln; cbn [defineLoop].
  - cbn [fst snd]. rewrite firstn_nil, app_nil_r. reflexivity.
  - cbv zeta. destruct (eqs (TrimSpace l) "endef").
    + cbn [fst snd]. replace (ln + 1 - ln) with 1 by lia. reflexivity.
    + rewrite IH.
      pose proof (defineLoop_bounds rest (parts ++ [l]) (ln + 1)) as Hb.
      set (ln' := snd (defineLoop rest (parts ++ [l]) (ln + 1))) in *.
      replace (Z.to_nat (ln' + 1 - ln))
        with (S (Z.to_nat (ln' + 1 - (ln + 1)))) by lia.
      cbn [firstn]. rewrite <- app_assoc. reflexivity.
Qed.

Lemma unlines_firstn : forall lines a b,
  0 <= a <= b ->
  unlines (firstn (Z.to_nat b) lines)
  = unlines (firstn (Z.to_nat a) lines)
    ++ unlines (firstn (Z.to_nat (b - a)) (skipn (Z.to_nat a) lines)).
Proof.
  intros lines a b H. rewrite <- unlines_app, <- firstn_add.
  f_equal. f_equal. lia.
Qed.


(** *** The parser loop *)


Lemma Split_snoc : forall s sep,
  Split (s ++ [sep]) sep = Split s sep ++ [[]].
Proof.
  induction s as [| c s IH]; intros sep; cbn [app Split].
  - rewrite Ascii.eqb_refl. reflexivity.
  - rewrite IH. destruct (Ascii.eqb c sep); [reflexivity |].
    pose proof (Split_nonempty s sep).
    destruct (Split s sep); [contradiction | reflexivity].
Qed.

Lemma splitLines_unlines : forall src,
  newlineTerminated src -> unlines (splitLines src) = src.
Proof.
  intros src [-> | [s ->]]; [reflexivity |].
  unfold splitLines.
  destruct (s ++ [NL]) as [| c r] eqn:E;
    [apply app_eq_nil in E as [_ E]; discriminate |].
  rewrite <- E, Split_snoc.
  assert (L : (len (Split s NL ++ [[]]) >? 0) = true).
  { rewrite len_app, len_cons, len_nil.
    pose proof (len_nonneg _ (Split s NL)). apply Z.gtb_lt. lia. }
  rewrite L, last_last. cbn [eqs andb]. rewrite removelast_last.
  rewrite <- Join_unlines by apply Split_nonempty.
  rewrite Join_Split. reflexivity.
Qed.


End RoundTrip.

Module RoundTripClaims.

Import Strings Parser Config Engine Rules Spec RoundTrip ParserTotal.




End RoundTripClaims.

(** ** The Myers search *)

Module MyersFacts.

Import Strings Diff MyersSpec SliceFacts StringFacts.
Import ParserTotal.

Section Search.

Variables a b : list gostring.

Let n := len a.
Let m := len b.

(** *** Following a diagonal *)

Lemma snake_spec : forall fuel x y,
  0 <= x -> 0 <= y -> (Z.to_nat (n - x) < fuel)%nat ->
  exists r, snake fuel a b x y = Some r
    /\ x <= r
    /\ (x <= n -> r <= n)
    /\ (y <= m -> r - x + y <= m)
    /\ (n <= x \/ m <= y -> r = x)
    /\ (forall i, 0 <= i < r - x -> index a (x + i) = index b (y + i)).
Proof.
  induction fuel as [| fuel IH]; intros x y Hx Hy Hf; [lia |].
  cbn [snake]. fold n m.
  destruct ((x <? n) && (y <? m)) eqn:E.
  - boolz.
    destruct (index_some _ a x) as [ax Ea]; [fold n; lia |].
    destruct (index_some _ b y) as [by_ Eb]; [fold m; lia |].
    rewrite Ea, Eb. cbn [bind].
    destruct (eqs ax by_) eqn:Eq.
    + apply eqs_spec in Eq. subst by_.
      destruct (IH (x + 1) (y + 1)) as (r & Hr & H1 & H2 & H3 & H4 & H5);
        try lia.
      exists r. split; [exact Hr |].
      split; [lia |]. split; [lia |]. split; [lia |]. split; [lia |].
      intros i Hi. destruct (Z.eq_dec i 0) as [-> | Hne].
      * rewrite !Z.add_0_r. congruence.
      * replace (x + i) with (x + 1 + (i - 1)) by lia.
        replace (y + i) with (y + 1 + (i - 1)) by lia.
        apply H5. lia.
    + exists x. split; [reflexivity |]. repeat split; try lia.
  - exists x. split; [reflexivity |]. repeat split; try lia.
Qed.

Lemma snakeX_spec : forall x y,
  0 <= x -> 0 <= y ->
  snake (S (length a)) a b x y = Some (snakeX a b x y)
  /\ x <= snakeX a b x y
  /\ (x <= n -> snakeX a b x y <= n)
  /\ (y <= m -> snakeX a b x y - x + y <= m)
  /\ (n <= x \/ m <= y -> snakeX a b x y = x)
  /\ (forall i, 0 <= i < snakeX a b x y - x ->
      index a (x + i) = index b (y + i)).
Proof.
  intros x y Hx Hy. unfold snakeX.
  destruct (snake_spec (S (length a)) x y Hx Hy) as (r & -> & H);
    [unfold n, len; lia | exact (conj eq_refl H)].
Qed.

(** *** The values of a step *)

Lemma valid_bounds : forall s k,
  valid s k -> - Z.of_nat s <= k <= Z.of_nat s.
Proof. intros s k (j & Hj & ->). lia. Qed.

Lemma valid_prev_down : forall s k,
  valid (S s) k -> k <> Z.of_nat (S s) -> valid s (k + 1).
Proof.
  intros s k (j & Hj & ->) Hk. exists j. lia.
Qed.

Lemma valid_prev_right : forall s k,
  valid (S s) k -> k <> - Z.of_nat (S s) -> valid s (k - 1).
Proof.
  intros s k (j & Hj & ->) Hk. exists (j - 1). lia.
Qed.

Lemma valid_next_down : forall s k, valid s k -> valid (S s) (k - 1).
Proof. intros s k (j & Hj & ->). exists j. lia. Qed.

Lemma valid_next_right : forall s k, valid s k -> valid (S s) (k + 1).
Proof. intros s k (j & Hj & ->). exists (j + 1). lia. Qed.

Lemma V_succ : forall s k,
  V a b (S s) k = snakeX a b (moved a b s k) (moved a b s k - k).
Proof. intros. reflexivity. Qed.

Lemma downV_cases : forall s k,
  valid (S s) k ->
  (downV a b (S s) k = true /\ valid s (k + 1)
   /\ moved a b s k = V a b s (k + 1))
  \/ (downV a b (S s) k = false /\ valid s (k - 1)
      /\ moved a b s k = V a b s (k - 1) + 1).
Proof.
  intros s k Hv. unfold moved.
  pose proof (valid_bounds _ _ Hv) as Hb.
  destruct (downV a b (S s) k) eqn:E; [left | right];
    (split; [reflexivity | split; [| reflexivity]]).
  - apply valid_prev_down; [exact Hv |].
    intros ->. cbn [downV] in E.
    destruct (Z.eqb_spec (Z.of_nat (S s)) (- Z.of_nat (S s))); [lia |].
    rewrite Z.eqb_refl in E. discriminate.
  - apply valid_prev_right; [exact Hv |].
    intros ->. cbn [downV] in E. rewrite Z.eqb_refl in E. discriminate.
Qed.

Lemma V_nonneg : forall s k,
  valid s k -> 0 <= V a b s k /\ 0 <= V a b s k - k.
Proof.
  induction s as [| s IH]; intros k Hv.
  - destruct Hv as (j & Hj & ->). cbn [V].
    destruct (snakeX_spec 0 0) as (_ & H1 & _); lia.
  - rewrite V_succ.
    assert (Hm : 0 <= moved a b s k /\ 0 <= moved a b s k - k).
    { destruct (downV_cases s k Hv) as [(_ & Hp & ->) | (_ & Hp & ->)];
        destruct (IH _ Hp); lia. }
    destruct (snakeX_spec (moved a b s k) (moved a b s k - k)) as (_ & H1 & _);
      lia.
Qed.

Lemma moved_nonneg : forall s k,
  valid (S s) k -> 0 <= moved a b s k /\ 0 <= moved a b s k - k.
Proof.
  intros s k Hv.
  destruct (downV_cases s k Hv) as [(_ & Hp & ->) | (_ & Hp & ->)];
    destruct (V_nonneg _ _ Hp); lia.
Qed.

Lemma V_ge_moved : forall s k,
  valid (S s) k -> moved a b s k <= V a b (S s) k.
Proof.
  intros s k Hv. rewrite V_succ.
  destruct (moved_nonneg s k Hv) as [M1 M2].
  destruct (snakeX_spec (moved a b s k) (moved a b s k - k))
    as (_ & H1 & _); lia.
Qed.

(** Beyond the sequences there is no diagonal run. *)
Lemma V_beyond_x : forall s k,
  valid (S s) k -> n < V a b (S s) k -> V a b (S s) k = moved a b s k.
Proof.
  intros s k Hv H. rewrite V_succ in *.
  destruct (moved_nonneg s k Hv) as [M1 M2].
  destruct (snakeX_spec (moved a b s k) (moved a b s k - k))
    as (_ & H1 & H2 & H3 & H4 & _); lia.
Qed.

Lemma V_beyond_y : forall s k,
  valid (S s) k -> m < V a b (S s) k - k -> V a b (S s) k = moved a b s k.
Proof.
  intros s k Hv H. rewrite V_succ in *.
  destruct (moved_nonneg s k Hv) as [M1 M2].
  destruct (snakeX_spec (moved a b s k) (moved a b s k - k))
    as (_ & H1 & H2 & H3 & H4 & _); lia.
Qed.

Lemma V_progress : forall s k,
  valid s k -> Z.of_nat s <= V a b s k + (V a b s k - k).
Proof.
  induction s as [| s IH]; intros k Hv.
  - destruct (V_nonneg 0 k Hv). simpl Z.of_nat. lia.
  - pose proof (V_ge_moved s k Hv).
    destruct (downV_cases s k Hv) as [(_ & Hp & E) | (_ & Hp & E)];
      specialize (IH _ Hp); lia.
Qed.

(** A step never falls behind the step before it. *)
Lemma V_down_mono : forall s k,
  valid s k -> V a b s k <= V a b (S s) (k - 1).
Proof.
  intros s k Hv. pose proof (valid_next_down s k Hv) as Hv'.
  pose proof (V_ge_moved s _ Hv') as H. unfold moved in H.
  cbn [downV] in H. pose proof (valid_bounds _ _ Hv).
  destruct (Z.eqb_spec (k - 1) (- Z.of_nat (S s))).
  - replace (k - 1 + 1) with k in H by lia. exact H.
  - destruct (Z.eqb_spec (k - 1) (Z.of_nat (S s))); [lia |].
    cbn [negb] in H. replace (k - 1 + 1) with k in H by lia.
    destruct (Z.ltb_spec (V a b s (k - 1 - 1)) (V a b s k)); lia.
Qed.

Lemma V_right_mono : forall s k,
  valid s k -> V a b s k + 1 <= V a b (S s) (k + 1).
Proof.
  intros s k Hv. pose proof (valid_next_right s k Hv) as Hv'.
  pose proof (V_ge_moved s _ Hv') as H. unfold moved in H.
  cbn [downV] in H. pose proof (valid_bounds _ _ Hv).
  destruct (Z.eqb_spec (k + 1) (- Z.of_nat (S s))); [lia |].
  replace (k + 1 - 1) with k in H by lia.
  destruct (Z.eqb_spec (k + 1) (Z.of_nat (S s))); cbn [negb] in H;
    [lia |].
  destruct (Z.ltb_spec (V a b s k) (V a b s (k + 1 + 1))); lia.
Qed.

(** A point beyond the end of the first sequence is matched, on a
    diagonal to its left, by a point that is not before that end;
    likewise for the second sequence, to the right. *)
Lemma V_beyond_left : forall s k,
  valid s k -> n < V a b s k ->
  valid s (k - 2 * (V a b s k - n))
  /\ n <= V a b s (k - 2 * (V a b s k - n)).
Proof.
  induction s as [| s IH]; intros k Hv H.
  - exfalso. cbn [V] in H.
    destruct (snakeX_spec 0 0) as (_ & _ & H2 & _); try lia.
    pose proof (len_nonneg _ a). unfold n in *. lia.
  - pose proof (V_beyond_x s k Hv H) as Em. rewrite Em in H |- *.
    destruct (downV_cases s k Hv) as [(_ & Hp & E) | (_ & Hp & E)];
      rewrite E in H |- *.
    + destruct (IH _ Hp H) as [Hv2 H2].
      replace (k - 2 * (V a b s (k + 1) - n))
        with (k + 1 - 2 * (V a b s (k + 1) - n) - 1) by lia.
      split; [apply valid_next_down; exact Hv2 |].
      pose proof (V_down_mono s _ Hv2). lia.
    + destruct (Z.eq_dec (V a b s (k - 1)) n) as [En | Hne].
      * rewrite En. replace (k - 2 * (n + 1 - n)) with (k - 1 - 1) by lia.
        split; [apply valid_next_down; exact Hp |].
        pose proof (V_down_mono s _ Hp). lia.
      * assert (Hgt : n < V a b s (k - 1)) by lia.
        destruct (IH _ Hp Hgt) as [Hv2 H2].
        replace (k - 2 * (V a b s (k - 1) + 1 - n))
          with (k - 1 - 2 * (V a b s (k - 1) - n) - 1) by lia.
        split; [apply valid_next_down; exact Hv2 |].
        pose proof (V_down_mono s _ Hv2). lia.
Qed.

Lemma V_beyond_right : forall s k,
  valid s k -> m < V a b s k - k ->
  valid s (k + 2 * (V a b s k - k - m))
  /\ m <= V a b s (k + 2 * (V a b s k - k - m))
          - (k + 2 * (V a b s k - k - m)).
Proof.
  induction s as [| s IH]; intros k Hv H.
  - exfalso. cbn [V] in H. destruct Hv as (j & Hj & ->).
    destruct (snakeX_spec 0 0) as (_ & _ & _ & H3 & _); try lia.
    pose proof (len_nonneg _ b). unfold m in *. simpl Z.of_nat in *. lia.
  - pose proof (V_beyond_y s k Hv H) as Em. rewrite Em in H |- *.
    destruct (downV_cases s k Hv) as [(_ & Hp & E) | (_ & Hp & E)];
      rewrite E in H |- *.
    + destruct (Z.eq_dec (V a b s (k + 1) - (k + 1)) m) as [En | Hne].
      * replace (k + 2 * (V a b s (k + 1) - k - m)) with (k + 1 + 1)
          by lia.
        split; [apply valid_next_right; exact Hp |].
        pose proof (V_right_mono s _ Hp). lia.
      * assert (Hgt : m < V a b s (k + 1) - (k + 1)) by lia.
        destruct (IH _ Hp Hgt) as [Hv2 H2].
        replace (k + 2 * (V a b s (k + 1) - k - m))
          with (k + 1 + 2 * (V a b s (k + 1) - (k + 1) - m) + 1) by lia.
        split; [apply valid_next_right; exact Hv2 |].
        pose proof (V_right_mono s _ Hv2). lia.
    + assert (Hgt : m < V a b s (k - 1) - (k - 1)) by lia.
      destruct (IH _ Hp Hgt) as [Hv2 H2].
      replace (k + 2 * (V a b s (k - 1) + 1 - k - m))
        with (k - 1 + 2 * (V a b s (k - 1) - (k - 1) - m) + 1) by lia.
      split; [apply valid_next_right; exact Hv2 |].
      pose proof (V_right_mono s _ Hv2). lia.
Qed.

Lemma isEnd_true : forall x k,
  isEnd a b x k = true <-> n <= x /\ m <= x - k.
Proof.
  intros x k. unfold isEnd. fold n m.
  rewrite andb_true_iff, !Z.geb_leb, !Z.leb_le. tauto.
Qed.

Lemma isEnd_false : forall x k,
  isEnd a b x k = false <-> x < n \/ x - k < m.
Proof.
  intros x k. unfold isEnd. fold n m.
  rewrite andb_false_iff, !Z.geb_leb, !Z.leb_gt. tauto.
Qed.

(** The first point found at or beyond both ends is the end itself. *)
Lemma first_end_exact : forall s k,
  NoEnd a b s -> valid (S s) k ->
  isEnd a b (V a b (S s) k) k = true ->
  V a b (S s) k = n /\ k = n - m.
Proof.
  intros s k Hno Hv He. apply isEnd_true in He as [Hx Hy].
  assert (Hxn : V a b (S s) k <= n).
  { destruct (Z_le_gt_dec (V a b (S s) k) n) as [l | g]; [exact l |].
    exfalso. apply Z.gt_lt in g.
    pose proof (V_beyond_x s k Hv g) as Em.
    destruct (downV_cases s k Hv) as [(_ & Hp & E) | (_ & Hp & E)].
    - rewrite E in Em. rewrite Em in g, Hy.
      destruct (V_beyond_left s _ Hp g) as [Hv2 H2].
      specialize (Hno _ Hv2). apply isEnd_false in Hno. lia.
    - rewrite E in Em. specialize (Hno _ Hp).
      apply isEnd_false in Hno. lia. }
  assert (Hym : V a b (S s) k - k <= m).
  { destruct (Z_le_gt_dec (V a b (S s) k - k) m) as [l | g]; [exact l |].
    exfalso. apply Z.gt_lt in g.
    pose proof (V_beyond_y s k Hv g) as Em.
    destruct (downV_cases s k Hv) as [(_ & Hp & E) | (_ & Hp & E)].
    - rewrite E in Em. specialize (Hno _ Hp).
      apply isEnd_false in Hno. lia.
    - rewrite E in Em. rewrite Em in g, Hx.
      assert (Hgt : m < V a b s (k - 1) - (k - 1)) by lia.
      destruct (V_beyond_right s _ Hp Hgt) as [Hv2 H2].
      specialize (Hno _ Hv2). apply isEnd_false in Hno. lia. }
  lia.
Qed.

Lemma first_end_exact_0 : forall k,
  valid 0 k -> isEnd a b (V a b 0 k) k = true ->
  V a b 0 k = n /\ k = n - m.
Proof.
  intros k (j & Hj & ->) He. apply isEnd_true in He as [Hx Hy].
  cbn [V] in *. simpl Z.of_nat in *.
  pose proof (len_nonneg _ a). pose proof (len_nonneg _ b).
  unfold n, m in *.
  destruct (snakeX_spec 0 0) as (_ & H1 & H2 & H3 & _); lia.
Qed.

(** Step [n + m] reaches the end on diagonal [n - m]. *)
Lemma end_by_total :
  valid (Z.to_nat (n + m)) (n - m)
  /\ isEnd a b (V a b (Z.to_nat (n + m)) (n - m)) (n - m) = true.
Proof.
  pose proof (len_nonneg _ a). pose proof (len_nonneg _ b).
  assert (Hv : valid (Z.to_nat (n + m)) (n - m)).
  { exists n. unfold n, m in *. lia. }
  split; [exact Hv |]. apply isEnd_true.
  pose proof (V_progress _ _ Hv). unfold n, m in *. lia.
Qed.

(** If the first step already ends, the sequences are equal. *)
Lemma end_at_0_equal :
  isEnd a b (V a b 0 0) 0 = true -> a = b.
Proof.
  intros He.
  destruct (first_end_exact_0 0) as [Hx Hk]; [exists 0; simpl; lia | exact He |].
  cbn [V] in Hx.
  destruct (snakeX_spec 0 0) as (_ & _ & _ & _ & _ & H5); try lia.
  rewrite Hx in H5.
  apply nth_error_ext. intros i.
  destruct (Nat.lt_ge_cases i (length a)) as [Hi | Hi].
  - specialize (H5 (Z.of_nat i)). rewrite !Z.add_0_l, !index_nat in H5.
    apply H5. unfold n, len. lia.
  - rewrite (proj2 (nth_error_None a i)) by exact Hi.
    symmetry. apply nth_error_None. unfold n, m, len in Hk. lia.
Qed.

(** *** The array of the search *)

Let total := n + m.

Lemma get_store : forall v k x,
  len v = 2 * total + 1 -> - total <= k <= total ->
  exists v', store v (k + total) x = Some v'
    /\ len v' = 2 * total + 1
    /\ get total v' k = Some x
    /\ forall k', k' <> k -> get total v' k' = get total v k'.
Proof.
  intros v k x Hl Hk.
  destruct (store_some _ v (k + total) x) as [v' Hs]; [lia |].
  exists v'. split; [exact Hs |].
  unfold store in Hs. destruct (Z.ltb_spec (k + total) 0); [lia |].
  split; [unfold len in *; rewrite (set_nth_length _ _ _ _ _ Hs); exact Hl |].
  split.
  - unfold get, index. destruct (Z.ltb_spec (k + total) 0); [lia |].
    eapply set_nth_same. exact Hs.
  - intros k' Hne. unfold get, index.
    destruct (Z.ltb_spec (k' + total) 0); [reflexivity |].
    eapply set_nth_other; [exact Hs | lia].
Qed.

Lemma movesDown_agree : forall v s k,
  Agree a b s v -> valid (S s) k ->
  movesDown v k (Z.of_nat (S s)) total = Some (downV a b (S s) k).
Proof.
  intros v s k [Hl Hg] Hv. unfold movesDown. cbn [downV].
  destruct (Z.eqb_spec k (- Z.of_nat (S s))); [reflexivity |].
  destruct (Z.eqb_spec k (Z.of_nat (S s))); cbn [negb]; [reflexivity |].
  fold (get total v (k - 1)). fold (get total v (k + 1)).
  unfold total, n, m.
  rewrite (Hg (k - 1)) by (apply valid_prev_right; assumption).
  rewrite (Hg (k + 1)) by (apply valid_prev_down; assumption).
  reflexivity.
Qed.

Lemma Mid_of_Start : forall d v,
  0 < total -> Start a b d v -> Mid a b d 0 v.
Proof.
  intros d v Ht H. destruct d as [| s]; cbn [Start] in H.
  - subst v. unfold Mid.
    assert (Hl : len (repeat 0 (Z.to_nat (2 * (len a + len b) + 1)))
                 = 2 * (len a + len b) + 1).
    { unfold len. rewrite repeat_length. unfold total, n, m, len in Ht.
      lia. }
    split; [exact Hl |]. split; [intros; discriminate |].
    split; [| intros; lia].
    intros _ _. unfold get, index.
    unfold total, n, m in Ht.
    destruct (Z.ltb_spec (1 + (len a + len b)) 0); [lia |].
    apply nth_error_repeat. lia.
  - destruct H as [Hl Hg]. unfold Mid.
    split; [exact Hl |]. split.
    + intros s' k E. injection E as <-. apply Hg.
    + split; [intros; discriminate | intros; lia].
Qed.

Lemma Agree_of_Mid : forall d v,
  Mid a b d (Z.of_nat d + 1) v -> Agree a b d v.
Proof.
  intros d v (Hl & _ & _ & Hg). split; [exact Hl |].
  intros k (j & Hj & ->). apply Hg. lia.
Qed.

(** One diagonal of step [d]. *)
Lemma diagonal_step : forall d j v,
  Mid a b d j v -> 0 <= j <= Z.of_nat d -> Z.of_nat d <= total ->
  let k := 2 * j - Z.of_nat d in
  exists x0 v',
    movesDown v k (Z.of_nat d) total = Some (downV a b d k)
    /\ (if downV a b d k then index v (k + 1 + total)
        else l <- index v (k - 1 + total) ;; Some (l + 1)) = Some x0
    /\ snake (S (length a)) a b x0 (x0 - k) = Some (V a b d k)
    /\ store v (k + total) (V a b d k) = Some v'
    /\ Mid a b d (j + 1) v'.
Proof.
  intros d j v (Hl & Hprev & Hzero & Hdone) Hj Hd k.
  assert (Hv : valid d k) by (exists j; split; [lia | reflexivity]).
  assert (Hx0 : exists x0,
    movesDown v k (Z.of_nat d) total = Some (downV a b d k)
    /\ (if downV a b d k then index v (k + 1 + total)
        else l <- index v (k - 1 + total) ;; Some (l + 1)) = Some x0
    /\ 0 <= x0 /\ 0 <= x0 - k
    /\ snakeX a b x0 (x0 - k) = V a b d k).
  { destruct d as [| s].
    - assert (k = 0) by (unfold k; simpl Z.of_nat in *; lia).
      assert (j = 0) by (simpl Z.of_nat in *; lia).
      exists 0. rewrite H. cbn [downV]. split; [reflexivity |].
      split; [apply (Hzero eq_refl H0) |]. repeat split; try lia.
    - exists (moved a b s k).
      assert (Ha : Agree a b s v).
      { split; [exact Hl |]. intros k' Hk'. apply (Hprev s k' eq_refl Hk'). }
      split; [apply movesDown_agree; assumption |].
      destruct (moved_nonneg s k Hv) as [M1 M2].
      split; [| repeat split; try assumption].
      destruct (downV_cases s k Hv) as [(Ed & Hp & E) | (Ed & Hp & E)];
        rewrite Ed, E.
      + replace (k + 1 + total) with ((k + 1) + total) by lia.
        apply (Hprev s _ eq_refl Hp).
      + replace (k - 1 + total) with ((k - 1) + total) by lia.
        fold (get total v (k - 1)). unfold total, n, m.
        rewrite (Hprev s _ eq_refl Hp). reflexivity. }
  destruct Hx0 as (x0 & Hm & Hi & H0 & H1 & Hs).
  destruct (snakeX_spec x0 (x0 - k) H0 H1) as (Hsn & _).
  rewrite Hs in Hsn.
  pose proof (valid_bounds _ _ Hv) as Hb.
  destruct (get_store v k (V a b d k)) as (v' & Hst & Hl' & Hsame & Hoth);
    [exact Hl | lia |].
  exists x0, v'. repeat split; try assumption.
  - intros s k' E Hk'. unfold total, n, m in Hoth. rewrite Hoth.
    + apply (Hprev s k' E Hk').
    + subst d. destruct Hk' as (j' & Hj' & ->). unfold k. lia.
  - intros E Hj0. lia.
  - intros j' Hj'. destruct (Z.eq_dec j' j) as [-> | Hne].
    + exact Hsame.
    + unfold total, n, m in Hoth. rewrite Hoth by (unfold k; lia).
      apply Hdone. lia.
Qed.

Lemma innerLoop_unfold : forall fuel d j v trace,
  Mid a b d j v -> 0 <= j <= Z.of_nat d -> Z.of_nat d <= total ->
  let k := 2 * j - Z.of_nat d in
  exists v',
    Mid a b d (j + 1) v'
    /\ innerLoop (S fuel) a b total (Z.of_nat d) k v trace
       = if isEnd a b (V a b d k) k
         then edits <- backtrack trace a b (Z.of_nat d) total ;;
              Some (Found edits)
         else innerLoop fuel a b total (Z.of_nat d)
                (2 * (j + 1) - Z.of_nat d) v' trace.
Proof.
  intros fuel d j v trace HM Hj Hd k.
  destruct (diagonal_step d j v HM Hj Hd)
    as (x0 & v' & Hm & Hx & Hs & Hst & HM').
  fold k in Hm, Hx, Hs, Hst.
  exists v'. split; [exact HM' |].
  cbn [innerLoop].
  destruct (Z.leb_spec k (Z.of_nat d)); [| unfold k in *; lia].
  rewrite Hm. cbn [bind]. rewrite Hx. cbn [bind]. rewrite Hs. cbn [bind].
  rewrite Hst. cbn [bind]. unfold isEnd.
  replace (k + 2) with (2 * (j + 1) - Z.of_nat d) by (unfold k; lia).
  reflexivity.
Qed.

Lemma innerLoop_next : forall fuel d j v trace,
  Mid a b d j v -> 0 <= j <= Z.of_nat d + 1 -> Z.of_nat d <= total ->
  Z.of_nat d + 1 - j < Z.of_nat fuel ->
  (forall j', j <= j' <= Z.of_nat d ->
     isEnd a b (V a b d (2 * j' - Z.of_nat d)) (2 * j' - Z.of_nat d)
     = false) ->
  exists v',
    innerLoop fuel a b total (Z.of_nat d) (2 * j - Z.of_nat d) v trace
    = Some (Next v')
    /\ Agree a b d v'.
Proof.
  induction fuel as [| fuel IH]; intros d j v trace HM Hj Hd Hf Hno;
    [lia |].
  destruct (Z.eq_dec j (Z.of_nat d + 1)) as [-> | Hne].
  - exists v. split; [| apply Agree_of_Mid; exact HM].
    cbn [innerLoop].
    destruct (Z.leb_spec (2 * (Z.of_nat d + 1) - Z.of_nat d) (Z.of_nat d));
      [lia | reflexivity].
  - destruct (innerLoop_unfold fuel d j v trace HM) as (v' & HM' & E);
      [lia | exact Hd |].
    rewrite E. rewrite Hno by lia.
    apply IH; try assumption; try lia.
    intros j' Hj'. apply Hno. lia.
Qed.

Lemma innerLoop_found : forall fuel d j je v trace,
  Mid a b d j v -> 0 <= j <= je -> je <= Z.of_nat d ->
  Z.of_nat d <= total ->
  Z.of_nat d + 1 - j < Z.of_nat fuel ->
  (forall j', j <= j' < je ->
     isEnd a b (V a b d (2 * j' - Z.of_nat d)) (2 * j' - Z.of_nat d)
     = false) ->
  isEnd a b (V a b d (2 * je - Z.of_nat d)) (2 * je - Z.of_nat d) = true ->
  innerLoop fuel a b total (Z.of_nat d) (2 * j - Z.of_nat d) v trace
  = (edits <- backtrack trace a b (Z.of_nat d) total ;;
     Some (Found edits)).
Proof.
  induction fuel as [| fuel IH]; intros d j je v trace HM Hj Hje Hd Hf Hno He;
    [lia |].
  destruct (innerLoop_unfold fuel d j v trace HM) as (v' & HM' & E);
    [lia | exact Hd |].
  rewrite E.
  destruct (Z.eq_dec j je) as [-> | Hne].
  - rewrite He. reflexivity.
  - rewrite Hno by lia.
    apply (IH d (j + 1) je); try assumption; try lia.
    intros j' Hj'. apply Hno. lia.
Qed.

(** The diagonals of a step either all fall short of the end, or there
    is a first one that reaches it. *)
Lemma first_end : forall d (c : nat),
  (forall j', 0 <= j' < Z.of_nat c ->
     isEnd a b (V a b d (2 * j' - Z.of_nat d)) (2 * j' - Z.of_nat d)
     = false)
  \/ exists je, 0 <= je < Z.of_nat c
      /\ isEnd a b (V a b d (2 * je - Z.of_nat d)) (2 * je - Z.of_nat d)
         = true
      /\ forall j', 0 <= j' < je ->
           isEnd a b (V a b d (2 * j' - Z.of_nat d)) (2 * j' - Z.of_nat d)
           = false.
Proof.
  intros d c. induction c as [| c IH].
  - left. intros. lia.
  - destruct IH as [Hno | (je & Hje & He & Hbefore)].
    + destruct (isEnd a b (V a b d (2 * Z.of_nat c - Z.of_nat d))
                  (2 * Z.of_nat c - Z.of_nat d)) eqn:E.
      * right. exists (Z.of_nat c). split; [lia |]. split; [exact E |].
        exact Hno.
      * left. intros j' Hj'.
        destruct (Z.eq_dec j' (Z.of_nat c)) as [-> | Hne];
          [exact E | apply Hno; lia].
    + right. exists je. split; [lia |]. split; assumption.
Qed.

(** The search stops at the first step [D] that reaches the end, with
    the trace of the steps up to it. *)
Lemma outerLoop_spec : forall fuel d v trace,
  0 < total ->
  Start a b d v ->
  length trace = d ->
  (forall s v', (s < d)%nat -> nth_error trace s = Some v' ->
                Start a b s v') ->
  (forall s, (s < d)%nat -> NoEnd a b s) ->
  Z.of_nat d <= total ->
  total + 1 - Z.of_nat d < Z.of_nat fuel ->
  exists D trace',
    Z.of_nat D <= total
    /\ TraceOK a b D trace'
    /\ (forall s, (s < D)%nat -> NoEnd a b s)
    /\ (exists k, valid D k /\ isEnd a b (V a b D k) k = true)
    /\ outerLoop fuel a b total (Z.of_nat d) v trace
       = backtrack trace' a b (Z.of_nat D) total.
Proof.
  induction fuel as [| fuel IH];
    intros d v trace Ht HS Hlen Htr Hno Hd Hf; [lia |].
  cbn [outerLoop].
  destruct (Z.leb_spec (Z.of_nat d) total); [| lia].
  assert (HT : TraceOK a b d (trace ++ [v])).
  { split; [rewrite length_app; simpl; lia |].
    intros s v' Hs E.
    destruct (Nat.eq_dec s d) as [-> | Hne].
    - rewrite nth_error_app2 in E by lia.
      rewrite Hlen, Nat.sub_diag in E. injection E as <-. exact HS.
    - rewrite nth_error_app1 in E by lia. apply (Htr s); [lia | exact E]. }
  pose proof (Mid_of_Start d v Ht HS) as HM.
  replace (- Z.of_nat d) with (2 * 0 - Z.of_nat d) by lia.
  destruct (first_end d (S d)) as [Hall | (je & Hje & He & Hbefore)].
  - destruct (innerLoop_next (Z.to_nat (Z.of_nat d) + 2) d 0 v (trace ++ [v]))
      as (v' & E & HA); try assumption; try lia.
    { intros j' Hj'. apply Hall. lia. }
    rewrite E. cbn [bind].
    assert (Hnd : NoEnd a b d).
    { intros k (j & Hj & ->). apply Hall. lia. }
    assert (Hlt : Z.of_nat d < total).
    { destruct (Z.eq_dec (Z.of_nat d) total) as [Ed | Hne]; [| lia].
      exfalso. destruct end_by_total as [Hv He].
      fold total in Hv, He. rewrite <- Ed, Nat2Z.id in Hv, He.
      rewrite (Hnd _ Hv) in He. discriminate. }
    replace (Z.of_nat d + 1) with (Z.of_nat (S d)) by lia.
    destruct (IH (S d) v' (trace ++ [v])) as (D & trace' & R);
      try assumption; try lia.
    + rewrite length_app; simpl; lia.
    + intros s v0 Hs. apply (proj2 HT). lia.
    + intros s Hs. destruct (Nat.eq_dec s d) as [-> | Hne];
        [exact Hnd | apply Hno; lia].
    + exists D, trace'. exact R.
  - rewrite (innerLoop_found (Z.to_nat (Z.of_nat d) + 2) d 0 je v (trace ++ [v]));
      try assumption; try lia.
    exists d, (trace ++ [v]).
    split; [lia |]. split; [exact HT |]. split; [exact Hno |].
    split.
    + exists (2 * je - Z.of_nat d). split; [| exact He].
      exists je. split; [lia | reflexivity].
    + destruct (backtrack (trace ++ [v]) a b (Z.of_nat d) total);
        reflexivity.
Qed.

(** *** Walking back through the trace *)

Lemma diagBack_spec : forall fuel x y px py es,
  (Z.to_nat (x - px) < fuel)%nat ->
  let j := Z.max 0 (Z.min (x - px) (y - py)) in
  exists extra,
    diagBack fuel x y px py es = Some (x - j, y - j, es ++ extra)
    /\ Forall (fun e => kind e = editEqual
                        /\ x - j <= oldIdx e < x
                        /\ y - j <= newIdx e < y) extra.
Proof.
  induction fuel as [| fuel IH]; intros x y px py es Hf j; [lia |].
  subst j. cbn [diagBack].
  destruct (Z.gtb_spec x px) as [Hx | Hx]; cbn [andb].
  - destruct (Z.gtb_spec y py) as [Hy | Hy].
    + destruct (IH (x - 1) (y - 1) px py
                  (es ++ [mkEdit editEqual (x - 1) (y - 1)]))
        as (extra & E & HF); [lia |].
      exists (mkEdit editEqual (x - 1) (y - 1) :: extra).
      rewrite E. split.
      * rewrite <- app_assoc. cbn [app]. f_equal. f_equal. f_equal; lia.
      * constructor; [cbn; split; [reflexivity | lia] |].
        eapply Forall_impl; [| exact HF]. cbn beta.
        intros e (Ek & Ho & Hn). split; [exact Ek | lia].
    + exists []. rewrite app_nil_r. split; [| constructor].
      f_equal. f_equal. f_equal; lia.
  - exists []. rewrite app_nil_r. split; [| constructor].
    f_equal. f_equal. f_equal; lia.
Qed.

Lemma validEdit_equal : forall e x y j,
  0 <= x - j -> x <= n -> 0 <= y - j -> y <= m ->
  kind e = editEqual /\ x - j <= oldIdx e < x /\ y - j <= newIdx e < y ->
  validEdit a b e.
Proof.
  intros e x y j H1 H2 H3 H4 (Ek & Ho & Hn). unfold validEdit.
  rewrite Ek. unfold n, m in *. lia.
Qed.

Lemma backLoop_spec : forall D trace,
  TraceOK a b D trace ->
  forall st x y es,
    (st <= D)%nat -> valid st (x - y) -> x = V a b st (x - y) ->
    x <= n -> y <= m ->
    exists x' y' extra,
      backLoop st trace total x y es = Some (x', y', es ++ extra)
      /\ 0 <= x' <= n /\ 0 <= y' <= m
      /\ Forall (validEdit a b) extra
      /\ ((0 < st)%nat -> exists e, In e extra /\ isEqualEdit e = false).
Proof.
  intros D trace [Hlen Htr].
  induction st as [| s IH]; intros x y es Hst Hv Hx Hxn Hym.
  - exists x, y, []. rewrite app_nil_r. cbn [backLoop].
    destruct (V_nonneg _ _ Hv) as [V1 V2]. rewrite <- Hx in V1, V2.
    split; [reflexivity |]. split; [lia |]. split; [lia |].
    split; [constructor | intros; lia].
  - cbn [backLoop]. rewrite index_nat.
    destruct (nth_error trace (S s)) as [v |] eqn:Ev;
      [| apply nth_error_None in Ev; lia].
    cbn [bind].
    assert (HA : Agree a b s v) by (apply (Htr (S s) v Hst Ev)).
    rewrite (movesDown_agree v s (x - y) HA Hv). cbn [bind].
    pose proof (V_ge_moved s (x - y) Hv) as Hge. rewrite <- Hx in Hge.
    destruct (V_nonneg _ _ Hv) as [V1 V2]. rewrite <- Hx in V1, V2.
    destruct HA as [Hl Hg].
    destruct (downV_cases s (x - y) Hv) as [(Ed & Hp & Em) | (Ed & Hp & Em)];
      rewrite Ed; fold (get total v (x - y + 1));
      fold (get total v (x - y - 1)); unfold total, n, m;
      rewrite (Hg _ Hp); cbn [bind];
      destruct (V_nonneg _ _ Hp) as [P1 P2]; rewrite Em in Hge.
    + set (px := V a b s (x - y + 1)) in *.
      destruct (diagBack_spec (S (Z.to_nat (x - px))) x y px
                  (px - (x - y + 1)) es) as (ex1 & E1 & F1); [lia |].
      rewrite E1. cbn [bind].
      replace (Z.max 0 (Z.min (x - px) (y - (px - (x - y + 1)))))
        with (x - px) in * by lia.
      destruct (IH (x - (x - px)) (y - (x - px) - 1)
                  ((es ++ ex1) ++ [mkEdit editInsert (-1) (y - (x - px) - 1)]))
        as (x' & y' & ex2 & E2 & Bx & By & F2 & _);
        [lia | | | unfold n, m in *; lia | unfold n, m in *; lia |].
      { replace (x - (x - px) - (y - (x - px) - 1)) with (x - y + 1) by lia.
        exact Hp. }
      { replace (x - (x - px) - (y - (x - px) - 1)) with (x - y + 1) by lia.
        unfold px. lia. }
      unfold total, n, m in E2, Bx, By |- *. rewrite E2.
      exists x', y', (ex1 ++ mkEdit editInsert (-1) (y - (x - px) - 1) :: ex2).
      split; [f_equal; f_equal; repeat rewrite <- app_assoc; reflexivity |].
      split; [exact Bx |]. split; [exact By |]. split.
      * apply Forall_app. split.
        -- eapply Forall_impl; [| exact F1]. cbn beta. intros e He.
           apply (validEdit_equal e x y (x - px)); try assumption; lia.
        -- constructor; [| exact F2]. unfold validEdit. cbn [kind newIdx].
           unfold n, m in *. lia.
      * intros _. exists (mkEdit editInsert (-1) (y - (x - px) - 1)).
        split; [apply in_or_app; right; left; reflexivity | reflexivity].
    + set (px := V a b s (x - y - 1)) in *.
      destruct (diagBack_spec (S (Z.to_nat (x - px))) x y px
                  (px - (x - y - 1)) es) as (ex1 & E1 & F1); [lia |].
      rewrite E1. cbn [bind].
      replace (Z.max 0 (Z.min (x - px) (y - (px - (x - y - 1)))))
        with (x - px - 1) in * by lia.
      destruct (IH (x - (x - px - 1) - 1) (y - (x - px - 1))
                  ((es ++ ex1)
                     ++ [mkEdit editDelete (x - (x - px - 1) - 1) (-1)]))
        as (x' & y' & ex2 & E2 & Bx & By & F2 & _);
        [lia | | | unfold n, m in *; lia | unfold n, m in *; lia |].
      { replace (x - (x - px - 1) - 1 - (y - (x - px - 1)))
          with (x - y - 1) by lia.
        exact Hp. }
      { replace (x - (x - px - 1) - 1 - (y - (x - px - 1)))
          with (x - y - 1) by lia.
        unfold px. lia. }
      unfold total, n, m in E2, Bx, By |- *. rewrite E2.
      exists x', y',
        (ex1 ++ mkEdit editDelete (x - (x - px - 1) - 1) (-1) :: ex2).
      split; [f_equal; f_equal; repeat rewrite <- app_assoc; reflexivity |].
      split; [exact Bx |]. split; [exact By |]. split.
      * apply Forall_app. split.
        -- eapply Forall_impl; [| exact F1]. cbn beta. intros e He.
           apply (validEdit_equal e x y (x - px - 1)); try assumption; lia.
        -- constructor; [| exact F2]. unfold validEdit. cbn [kind oldIdx].
           unfold n, m in *. lia.
      * intros _. exists (mkEdit editDelete (x - (x - px - 1) - 1) (-1)).
        split; [apply in_or_app; right; left; reflexivity | reflexivity].
Qed.

Lemma backtrack_spec : forall D trace,
  TraceOK a b D trace -> valid D (n - m) -> V a b D (n - m) = n ->
  exists es,
    backtrack trace a b (Z.of_nat D) total = Some es
    /\ Forall (validEdit a b) es
    /\ ((0 < D)%nat -> exists e, In e es /\ isEqualEdit e = false).
Proof.
  intros D trace HT Hv HV. unfold backtrack. rewrite Nat2Z.id.
  destruct (backLoop_spec D trace HT D (len a) (len b) [])
    as (x & y & ex1 & E1 & Bx & By & F1 & Hne);
    [lia | exact Hv | symmetry; exact HV | unfold n; lia | unfold m; lia |].
  rewrite E1. cbn [bind app].
  destruct (diagBack_spec (S (Z.to_nat x)) x y 0 0 ex1) as (ex2 & E2 & F2);
    [lia |].
  rewrite E2. cbn [bind].
  exists (rev (ex1 ++ ex2)). split; [reflexivity |]. split.
  - apply Forall_rev. apply Forall_app. split; [exact F1 |].
    eapply Forall_impl; [| exact F2]. cbn beta. intros e He.
    apply (validEdit_equal e x y (Z.max 0 (Z.min (x - 0) (y - 0))));
      try assumption; lia.
  - intros HD. destruct (Hne HD) as (e & Hin & He). exists e.
    split; [| exact He]. rewrite <- in_rev. apply in_or_app. left.
    exact Hin.
Qed.

(** The search returns a script of edits that refer to existing lines,
    and that holds an insertion or a deletion unless the sequences are
    equal. *)
Lemma myers_spec :
  exists es,
    myers a b = Some es
    /\ Forall (validEdit a b) es
    /\ (a <> b -> exists e, In e es /\ isEqualEdit e = false).
Proof.
  unfold myers. fold n m total.
  pose proof (len_nonneg _ a) as Ha. pose proof (len_nonneg _ b) as Hb.
  destruct (Z.eqb_spec total 0) as [E0 | Hne].
  - exists []. split; [reflexivity |]. split; [constructor |].
    intros Hab. exfalso. apply Hab.
    assert (length a = 0%nat) by (unfold total, n, m, len in *; lia).
    assert (length b = 0%nat) by (unfold total, n, m, len in *; lia).
    destruct a; [| discriminate]. destruct b; [reflexivity | discriminate].
  - assert (Ht : 0 < total) by (unfold total, n, m in *; lia).
    destruct (outerLoop_spec (Z.to_nat total + 2) 0
                (repeat 0 (Z.to_nat (2 * total + 1))) [])
      as (D & trace & HD & HT & Hno & (k & Hv & He) & E);
      try (simpl; lia); try assumption; try reflexivity;
      try (intros; lia).
    change (Z.of_nat 0) with 0 in E. rewrite E.
    assert (Hend : V a b D k = n /\ k = n - m).
    { destruct D as [| s].
      - apply first_end_exact_0; assumption.
      - apply first_end_exact; try assumption. apply Hno. lia. }
    destruct Hend as [HV ->].
    destruct (backtrack_spec D trace HT Hv HV) as (es & Eb & F & Hne').
    exists es. split; [exact Eb |]. split; [exact F |].
    intros Hab. apply Hne'.
    destruct D as [| s]; [| lia].
    exfalso. apply Hab. apply end_at_0_equal.
    destruct Hv as (j & Hj & Ek). simpl Z.of_nat in *.
    replace (n - m) with 0 in He by lia. exact He.
Qed.

End Search.

End MyersFacts.

(** ** From the edit script to the hunks *)

Module HunkFacts.

Import Strings Diff MyersSpec SliceFacts StringFacts.

(** *** Regions *)

Lemma last_default : forall (A : Type) (l : list A) (d d' : A),
  l <> [] -> last l d = last l d'.
Proof.
  induction l as [| x l IH]; intros d d' H; [congruence |].
  destruct l as [| y l]; [reflexivity |].
  cbn [last]. apply IH. discriminate.
Qed.

Lemma last_cons_end : forall r0 rs d,
  end_ (last (r0 :: rs) d) = end_ (last rs (mkRegion (end_ r0) (end_ r0))).
Proof.
  intros r0 rs d. destruct rs as [| r1 rs]; [reflexivity |].
  change (last (r0 :: r1 :: rs) d) with (last (r1 :: rs) d).
  f_equal. apply last_default. discriminate.
Qed.

Lemma chain_mono : forall rs lo bound bound',
  chain lo bound rs -> bound <= bound' -> chain lo bound' rs.
Proof.
  induction rs as [| r rs IH]; intros lo bound bound' H Hb; [exact I |].
  cbn [chain] in *. destruct H as (H1 & H2 & H3 & H4).
  repeat split; try lia. eapply IH; eassumption.
Qed.

Lemma chain_snoc : forall rs lo bound r,
  chain lo bound (rs ++ [r])
  <-> chain lo bound rs
      /\ end_ (last rs (mkRegion lo lo)) <= start r
      /\ start r <= end_ r /\ end_ r < bound.
Proof.
  induction rs as [| r0 rs IH]; intros lo bound r.
  - cbn [app chain last end_]. tauto.
  - change ((r0 :: rs) ++ [r]) with (r0 :: (rs ++ [r])).
    cbn [chain]. rewrite IH. rewrite last_cons_end. tauto.
Qed.

Lemma chain_Forall : forall rs lo bound,
  chain lo bound rs ->
  Forall (fun r => lo <= start r /\ start r <= end_ r /\ end_ r < bound) rs.
Proof.
  induction rs as [| r rs IH]; intros lo bound H; [constructor |].
  cbn [chain] in H. destruct H as (H1 & H2 & H3 & H4).
  constructor; [lia |].
  eapply Forall_impl; [| apply (IH _ _ H4)]. cbn beta. intros r'. lia.
Qed.

Lemma chain_last : forall rs lo bound,
  chain lo bound rs -> lo <= bound ->
  lo <= end_ (last rs (mkRegion lo lo)) <= bound.
Proof.
  intros rs lo bound H Hb.
  destruct rs as [| r0 rs']; [cbn; lia |].
  destruct (exists_last (l := r0 :: rs')) as (rs & r & E); [discriminate |].
  rewrite E in *. rewrite last_last.
  apply chain_Forall in H. apply Forall_app in H as [_ H].
  inversion H as [| ? ? Hr _]; subst. lia.
Qed.

Lemma len_zero_nil : forall (A : Type) (l : list A),
  (len l =? 0) = true <-> l = [].
Proof.
  intros A l. rewrite Z.eqb_eq. unfold len.
  destruct l; cbn [length]; split; intros; try reflexivity; try discriminate;
    lia.
Qed.

Lemma setLastEnd_snoc : forall rs l e,
  setLastEnd (rs ++ [l]) e = rs ++ [mkRegion (start l) e].
Proof.
  intros. unfold setLastEnd, lastRegion.
  rewrite removelast_last, last_last. reflexivity.
Qed.

Lemma findChangeRegionsFrom_spec : forall es' pre regions,
  chain 0 (len pre) regions ->
  Forall (fun r => changeAt (pre ++ es') (start r)) regions ->
  let out := findChangeRegionsFrom es' (len pre) regions in
  chain 0 (len (pre ++ es')) out
  /\ Forall (fun r => changeAt (pre ++ es') (start r)) out
  /\ (regions <> [] \/ (exists e, In e es' /\ isEqualEdit e = false) ->
      out <> []).
Proof.
  induction es' as [| e rest IH]; intros pre regions Hc Hs out; subst out.
  - cbn [findChangeRegionsFrom]. rewrite app_nil_r.
    split; [exact Hc |]. split; [rewrite app_nil_r in Hs; exact Hs |].
    intros [H | (e & [] & _)]. exact H.
  - cbn [findChangeRegionsFrom].
    assert (Ea : pre ++ e :: rest = (pre ++ [e]) ++ rest)
      by (rewrite <- app_assoc; reflexivity).
    assert (El : len pre + 1 = len (pre ++ [e]))
      by (rewrite len_app, len_cons, len_nil; lia).
    pose proof (len_nonneg _ pre) as Hp.
    rewrite Ea in *. rewrite El.
    assert (Hi : changeAt ((pre ++ [e]) ++ rest) (len pre)
                 \/ isEqualEdit e = true).
    { destruct (isEqualEdit e) eqn:Ee; [right; reflexivity | left].
      exists e. split; [| exact Ee].
      rewrite <- Ea. rewrite index_app_r by lia.
      rewrite Z.sub_diag. reflexivity. }
    destruct (isEqualEdit e) eqn:Ee.
    + destruct (IH (pre ++ [e]) regions) as (H1 & H2 & H3);
        [eapply chain_mono; [exact Hc | lia] | exact Hs |].
      split; [exact H1 |]. split; [exact H2 |].
      intros [H | (e' & [<- | Hin] & He')]; apply H3.
      * left; exact H.
      * congruence.
      * right. exists e'. split; assumption.
    + destruct Hi as [Hi | Hi]; [| discriminate].
      destruct (len regions =? 0) eqn:E0; cbn [orb].
      * apply len_zero_nil in E0. subst regions.
        destruct (IH (pre ++ [e]) ([] ++ [mkRegion (len pre) (len pre)]))
          as (H1 & H2 & H3).
        { cbn [app chain start end_]. lia. }
        { constructor; [exact Hi | constructor]. }
        split; [exact H1 |]. split; [exact H2 |].
        intros _. apply H3. left. discriminate.
      * assert (Hne : regions <> []).
        { intros ->. discriminate. }
        destruct (exists_last Hne) as (rs & l & ->).
        apply chain_snoc in Hc as (Hc1 & Hc2 & Hc3 & Hc4).
        apply Forall_app in Hs as [Hs1 Hs2].
        inversion Hs2 as [| ? ? Hl _]; subst.
        destruct (len pre >? end_ (lastRegion (rs ++ [l])) + 1).
        -- destruct (IH (pre ++ [e])
                       ((rs ++ [l]) ++ [mkRegion (len pre) (len pre)]))
             as (H1 & H2 & H3).
           { apply chain_snoc. split.
             - apply chain_snoc. repeat split; try lia.
               eapply chain_mono; [exact Hc1 | lia].
             - rewrite last_last. cbn [start end_]. lia. }
           { apply Forall_app. split.
             - apply Forall_app. split; [exact Hs1 |].
               constructor; [exact Hl | constructor].
             - constructor; [exact Hi | constructor]. }
           split; [exact H1 |]. split; [exact H2 |].
           intros _. apply H3. left.
           intros C. apply app_eq_nil in C as [_ C]. discriminate.
        -- rewrite setLastEnd_snoc.
           destruct (IH (pre ++ [e]) (rs ++ [mkRegion (start l) (len pre)]))
             as (H1 & H2 & H3).
           { apply chain_snoc. cbn [start end_]. repeat split; try lia.
             eapply chain_mono; [exact Hc1 | lia]. }
           { apply Forall_app. split; [exact Hs1 |].
             constructor; [exact Hl | constructor]. }
           split; [exact H1 |]. split; [exact H2 |].
           intros _. apply H3. left.
           intros C. apply app_eq_nil in C as [_ C]. discriminate.
Qed.

Lemma findChangeRegions_spec : forall es,
  let out := findChangeRegions es in
  chain 0 (len es) out
  /\ Forall (fun r => changeAt es (start r)) out
  /\ ((exists e, In e es /\ isEqualEdit e = false) -> out <> []).
Proof.
  intros es. destruct (findChangeRegionsFrom_spec es [] []) as (H1 & H2 & H3).
  - exact I.
  - constructor.
  - cbn [app] in *. split; [exact H1 |]. split; [exact H2 |].
    intros H. apply H3. right. exact H.
Qed.

Lemma mergeRegionsInto_spec : forall (P : region -> Prop) regions merged bound,
  (forall r r', start r = start r' -> P r -> P r') ->
  0 <= bound ->
  chain 0 bound merged ->
  chain (end_ (lastRegion merged)) bound regions ->
  Forall P merged -> Forall P regions ->
  let out := mergeRegionsInto regions merged in
  chain 0 bound out /\ Forall P out
  /\ (regions <> [] \/ merged <> [] -> out <> []).
Proof.
  intros P. induction regions as [| r rest IH];
    intros merged bound HP Hb Hm Hr Fm Fr out; subst out.
  - cbn [mergeRegionsInto]. split; [exact Hm |]. split; [exact Fm |].
    intros [H | H]; [congruence | exact H].
  - cbn [mergeRegionsInto]. cbn [chain] in Hr.
    destruct Hr as (R1 & R2 & R3 & R4).
    inversion Fr as [| ? ? Pr Frest]; subst.
    destruct (len merged >? 0) eqn:E0; cbn [andb].
    + assert (Hne : merged <> []).
      { intros ->. discriminate. }
      destruct (exists_last Hne) as (ms & l & ->).
      unfold lastRegion in *. rewrite last_last in *.
      apply chain_snoc in Hm as (M1 & M2 & M3 & M4).
      apply Forall_app in Fm as [Fm1 Fm2].
      inversion Fm2 as [| ? ? Pl _]; subst.
      destruct (start r - end_ l <=? 2 * contextLines).
      * fold (lastRegion (ms ++ [l])). rewrite setLastEnd_snoc.
        destruct (IH (ms ++ [mkRegion (start l) (end_ r)]) bound)
          as (H1 & H2 & H3); try assumption.
        { apply chain_snoc. cbn [start end_]. repeat split; try lia.
          exact M1. }
        { unfold lastRegion. rewrite last_last. exact R4. }
        { apply Forall_app. split; [exact Fm1 |].
          constructor; [| constructor].
          apply (HP l); [reflexivity | exact Pl]. }
        split; [exact H1 |]. split; [exact H2 |].
        intros _. apply H3. right.
        intros C. apply app_eq_nil in C as [_ C]. discriminate.
      * destruct (IH ((ms ++ [l]) ++ [r]) bound) as (H1 & H2 & H3);
          try assumption.
        { apply chain_snoc. split.
          - apply chain_snoc. repeat split; try lia. exact M1.
          - rewrite last_last. lia. }
        { unfold lastRegion. rewrite last_last. exact R4. }
        { apply Forall_app. split.
          - apply Forall_app. split; [exact Fm1 |].
            constructor; [exact Pl | constructor].
          - constructor; [exact Pr | constructor]. }
        split; [exact H1 |]. split; [exact H2 |].
        intros _. apply H3. right.
        intros C. apply app_eq_nil in C as [_ C]. discriminate.
    + assert (merged = []).
      { destruct merged; [reflexivity |].
        rewrite len_cons in E0. pose proof (len_nonneg _ merged).
        destruct (Z.gtb_spec (1 + len merged) 0); [discriminate | lia]. }
      subst merged. cbn [app].
      destruct (IH [r] bound) as (H1 & H2 & H3); try assumption.
      { cbn [chain]. cbn in R1. lia. }
      { constructor; [exact Pr | constructor]. }
      split; [exact H1 |]. split; [exact H2 |].
      intros _. apply H3. right. discriminate.
Qed.

Lemma mergeRegions_findChangeRegions : forall es,
  let out := mergeRegions (findChangeRegions es) in
  Forall (fun r => 0 <= start r /\ start r <= end_ r /\ end_ r < len es) out
  /\ Forall (fun r => changeAt es (start r)) out
  /\ ((exists e, In e es /\ isEqualEdit e = false) -> out <> []).
Proof.
  intros es out. subst out.
  destruct (findChangeRegions_spec es) as (F1 & F2 & F3).
  destruct (mergeRegionsInto_spec (fun r => changeAt es (start r))
              (findChangeRegions es) [] (len es)) as (H1 & H2 & H3).
  - intros r r' E H. rewrite <- E. exact H.
  - apply len_nonneg.
  - exact I.
  - exact F1.
  - constructor.
  - exact F2.
  - split; [apply chain_Forall; exact H1 |]. split; [exact H2 |].
    intros H. apply H3. left. apply F3. exact H.
Qed.

(** *** Hunks *)

Lemma slice_incl : forall (A : Type) (l s : list A) lo hi,
  slice l lo hi = Some s -> incl s l.
Proof.
  intros A l s lo hi H. apply slice_inv in H as (_ & _ & _ & ->).
  intros x Hx.
  assert (In x (skipn (Z.to_nat lo) l)).
  { rewrite <- (firstn_skipn (Z.to_nat (hi - lo)) (skipn (Z.to_nat lo) l)).
    apply in_or_app. left. exact Hx. }
  rewrite <- (firstn_skipn (Z.to_nat lo) l). apply in_or_app. right.
  assumption.
Qed.

Lemma slice_index : forall (A : Type) (l s : list A) lo hi i,
  slice l lo hi = Some s -> lo <= i < hi -> index s (i - lo) = index l i.
Proof.
  intros A l s lo hi i H Hi. apply slice_inv in H as (H1 & H2 & H3 & ->).
  unfold index.
  destruct (Z.ltb_spec (i - lo) 0); [lia |].
  destruct (Z.ltb_spec i 0); [lia |].
  rewrite nth_error_firstn.
  destruct (Nat.ltb_spec (Z.to_nat (i - lo)) (Z.to_nat (hi - lo))); [| lia].
  rewrite nth_error_skipn. f_equal. lia.
Qed.

Lemma index_In : forall (A : Type) (l : list A) i x,
  index l i = Some x -> In x l.
Proof.
  intros A l i x H. unfold index in H.
  destruct (i <? 0); [discriminate |].
  eapply nth_error_In. exact H.
Qed.

Lemma regionsToHunks_spec : forall es rs,
  Forall (fun r => 0 <= start r /\ start r <= end_ r /\ end_ r < len es) rs ->
  exists hs,
    regionsToHunks rs es = Some hs
    /\ length hs = length rs
    /\ Forall (fun h => incl (edits h) es) hs
    /\ (Exists (fun r => changeAt es (start r)) rs ->
        exists h e, In h hs /\ In e (edits h) /\ isEqualEdit e = false).
Proof.
  intros es. induction rs as [| r rest IH]; intros HF.
  - exists []. cbn [regionsToHunks]. split; [reflexivity |].
    split; [reflexivity |]. split; [constructor |].
    intros H. inversion H.
  - inversion HF as [| ? ? Hr Hrest]; subst.
    destruct (IH Hrest) as (hs & E & El & Fh & Hex).
    cbn [regionsToHunks]. unfold contextLines.
    set (s := Z.max (start r - 3) 0).
    set (e := Z.min (end_ r + 3) (len es - 1)).
    destruct (slice es s (e + 1)) as [hes |] eqn:Es.
    2:{ rewrite slice_some in Es by (unfold s, e; lia). discriminate. }
    cbn [bind]. destruct (findHunkStarts hes) as [os ns].
    destruct (countHunkLines hes) as [oc nc].
    rewrite E. cbn [bind].
    exists (mkHunk os oc ns nc hes :: hs).
    split; [reflexivity |]. split; [cbn [length]; congruence |]. split.
    + constructor; [| exact Fh]. cbn [edits]. eapply slice_incl. exact Es.
    + intros H. inversion H as [? ? Hc | ? ? Hc]; subst.
      * destruct Hc as (x & Hx & Hne).
        exists (mkHunk os oc ns nc hes), x. split; [left; reflexivity |].
        split; [| exact Hne]. cbn [edits].
        apply (index_In _ hes (start r - s)).
        rewrite (slice_index _ _ _ _ _ _ Es); [exact Hx |].
        unfold s, e. lia.
      * destruct (Hex Hc) as (h & x & Hh & Hx & Hne).
        exists h, x. split; [right; exact Hh |]. split; assumption.
Qed.

Lemma buildHunks_spec : forall es,
  exists hs,
    buildHunks es = Some hs
    /\ Forall (fun h => incl (edits h) es) hs
    /\ ((exists e, In e es /\ isEqualEdit e = false) ->
        exists h e, In h hs /\ In e (edits h) /\ isEqualEdit e = false).
Proof.
  intros es. unfold buildHunks.
  destruct (len es =? 0) eqn:E0.
  - exists []. split; [reflexivity |]. split; [constructor |].
    apply len_zero_nil in E0. subst es. intros (e & [] & _).
  - destruct (mergeRegions_findChangeRegions es) as (H1 & H2 & H3).
    destruct (regionsToHunks_spec es _ H1) as (hs & E & El & Fh & Hex).
    exists hs. split; [exact E |]. split; [exact Fh |].
    intros H. apply Hex. specialize (H3 H).
    destruct (mergeRegions (findChangeRegions es)) as [| r rs];
      [congruence |].
    inversion H2; subst. left. assumption.
Qed.

(** *** The text of the hunks *)

Lemma atLineStart_nl : forall t, atLineStart (t ++ [NL]).
Proof. intros t. right. exists t. reflexivity. Qed.

Lemma atLineStart_app : forall p q,
  atLineStart p -> atLineStart q -> atLineStart (p ++ q).
Proof.
  intros p q Hp [-> | (q' & ->)].
  - rewrite app_nil_r. exact Hp.
  - rewrite app_assoc. apply atLineStart_nl.
Qed.

Lemma occurs_here : forall line post, occurs (line ++ post) line.
Proof.
  intros. exists [], post. split; [reflexivity | left; reflexivity].
Qed.

Lemma occurs_app_l : forall t q line, occurs t line -> occurs (t ++ q) line.
Proof.
  intros t q line (pre & post & -> & H). exists pre, (post ++ q).
  split; [repeat rewrite <- app_assoc; reflexivity | exact H].
Qed.

Lemma occurs_app_r : forall p t line,
  atLineStart p -> occurs t line -> occurs (p ++ t) line.
Proof.
  intros p t line Hp (pre & post & -> & H). exists (p ++ pre), post.
  split; [repeat rewrite <- app_assoc; reflexivity |].
  apply atLineStart_app; assumption.
Qed.

Lemma ensureNewline_nl : forall l, exists c, ensureNewline l = c ++ [NL].
Proof.
  intros l. unfold ensureNewline.
  destruct (HasSuffix l [NL]) eqn:E.
  - apply HasSuffix_spec in E. exact E.
  - exists l. reflexivity.
Qed.

Lemma writeEdit_spec : forall old new e,
  validEdit old new e ->
  exists t,
    writeEdit e old new = Some t
    /\ (exists t', t = t' ++ [NL])
    /\ (isEqualEdit e = false -> deletedLine old t \/ insertedLine new t).
Proof.
  intros old new e Hv. unfold validEdit in Hv. unfold writeEdit, isEqualEdit.
  destruct (kind e).
  - destruct (index_some _ old (oldIdx e)) as (l & El); [lia |].
    rewrite El. cbn [bind]. eexists. split; [reflexivity |].
    split; [| discriminate].
    destruct (ensureNewline_nl l) as (c & ->).
    exists (" " ++ c). rewrite <- app_assoc. reflexivity.
  - destruct (index_some _ new (newIdx e)) as (l & El); [lia |].
    rewrite El. cbn [bind]. eexists. split; [reflexivity |]. split.
    + destruct (ensureNewline_nl l) as (c & ->).
      exists ("+" ++ c). rewrite <- app_assoc. reflexivity.
    + intros _. right. exists l. split; [| reflexivity].
      eapply index_In. exact El.
  - destruct (index_some _ old (oldIdx e)) as (l & El); [lia |].
    rewrite El. cbn [bind]. eexists. split; [reflexivity |]. split.
    + destruct (ensureNewline_nl l) as (c & ->).
      exists ("-" ++ c). rewrite <- app_assoc. reflexivity.
    + intros _. left. exists l. split; [| reflexivity].
      eapply index_In. exact El.
Qed.

Lemma writeEdits_spec : forall old new es,
  Forall (validEdit old new) es ->
  exists t,
    writeEdits es old new = Some t
    /\ atLineStart t
    /\ forall e, In e es -> isEqualEdit e = false ->
         exists line,
           (deletedLine old line \/ insertedLine new line) /\ occurs t line.
Proof.
  intros old new. induction es as [| e es IH]; intros HF.
  - exists []. split; [reflexivity |]. split; [left; reflexivity |].
    intros e [].
  - inversion HF as [| ? ? He Hes]; subst.
    destruct (IH Hes) as (ts & E & Hs & Hocc).
    destruct (writeEdit_spec old new e He) as (t & Et & (t' & Hnl) & Hch).
    cbn [writeEdits]. rewrite Et, E. cbn [bind].
    exists (t ++ ts). split; [reflexivity |]. split.
    + apply atLineStart_app; [rewrite Hnl; apply atLineStart_nl | exact Hs].
    + intros x [<- | Hin] Hne.
      * exists t. split; [apply Hch; exact Hne | apply occurs_here].
      * destruct (Hocc x Hin Hne) as (line & Hl & Ho).
        exists line. split; [exact Hl |].
        apply occurs_app_r; [rewrite Hnl; apply atLineStart_nl | exact Ho].
Qed.

Lemma writeTo_spec : forall old new h,
  Forall (validEdit old new) (edits h) ->
  exists t,
    writeTo h old new = Some t
    /\ atLineStart t
    /\ forall e, In e (edits h) -> isEqualEdit e = false ->
         exists line,
           (deletedLine old line \/ insertedLine new line) /\ occurs t line.
Proof.
  intros old new h HF.
  destruct (writeEdits_spec old new (edits h) HF) as (body & E & Hs & Hocc).
  unfold writeTo. rewrite E. cbn [bind].
  eexists. split; [reflexivity |].
  set (hd := "@@ -" ++ itoa (oldStart h + 1) ++ "," ++ itoa (oldCount h)
             ++ " +" ++ itoa (newStart h + 1) ++ "," ++ itoa (newCount h)
             ++ " @@").
  assert (Eh : "@@ -" ++ itoa (oldStart h + 1) ++ "," ++ itoa (oldCount h)
               ++ " +" ++ itoa (newStart h + 1) ++ "," ++ itoa (newCount h)
               ++ " @@" ++ [NL] ++ body
               = (hd ++ [NL]) ++ body).
  { unfold hd. repeat rewrite <- app_assoc. reflexivity. }
  rewrite Eh. split.
  - apply atLineStart_app; [apply atLineStart_nl | exact Hs].
  - intros e Hin Hne. destruct (Hocc e Hin Hne) as (line & Hl & Ho).
    exists line. split; [exact Hl |].
    apply occurs_app_r; [apply atLineStart_nl | exact Ho].
Qed.

Lemma writeHunks_spec : forall old new hs,
  Forall (fun h => Forall (validEdit old new) (edits h)) hs ->
  exists t,
    writeHunks hs old new = Some t
    /\ atLineStart t
    /\ forall h e, In h hs -> In e (edits h) -> isEqualEdit e = false ->
         exists line,
           (deletedLine old line \/ insertedLine new line) /\ occurs t line.
Proof.
  intros old new. induction hs as [| h hs IH]; intros HF.
  - exists []. split; [reflexivity |]. split; [left; reflexivity |].
    intros h e [].
  - inversion HF as [| ? ? Hh Hhs]; subst.
    destruct (IH Hhs) as (ts & E & Hs & Hocc).
    destruct (writeTo_spec old new h Hh) as (t & Et & Ht & Hoh).
    cbn [writeHunks]. rewrite Et, E. cbn [bind].
    exists (t ++ ts). split; [reflexivity |]. split.
    + apply atLineStart_app; assumption.
    + intros h' e [<- | Hin] He Hne.
      * destruct (Hoh e He Hne) as (line & Hl & Ho).
        exists line. split; [exact Hl | apply occurs_app_l; exact Ho].
      * destruct (Hocc h' e Hin He Hne) as (line & Hl & Ho).
        exists line. split; [exact Hl |].
        apply occurs_app_r; assumption.
Qed.

(** *** Lines *)

Lemma splitLines_spec : forall s,
  exists ls,
    splitLines s = Some ls /\ concat ls = s /\ incl ls (SplitAfter s NL).
Proof.
  intros s. destruct s as [| c s'].
  - exists []. split; [reflexivity |]. split; [reflexivity |].
    intros x [].
  - unfold splitLines.
    pose proof (concat_SplitAfter (c :: s') NL) as Hc.
    destruct (exists_last (SplitAfter_nonempty (c :: s') NL)) as (ls & l & E).
    rewrite E in *.
    replace (len (ls ++ [l]) - 1) with (len ls)
      by (rewrite len_app, len_cons, len_nil; lia).
    rewrite index_last. cbn [bind].
    destruct (eqs l []) eqn:El.
    + apply eqs_spec in El. subst l.
      pose proof (len_nonneg _ ls).
      rewrite slice_some
        by (rewrite ?len_app, ?len_cons, ?len_nil; lia).
      rewrite Z.sub_0_r. change (Z.to_nat 0) with 0%nat. cbn [skipn].
      unfold len. rewrite Nat2Z.id.
      rewrite firstn_app, Nat.sub_diag, firstn_all. cbn [firstn].
      rewrite app_nil_r.
      exists ls. split; [reflexivity |]. split.
      * rewrite concat_app in Hc. cbn [concat] in Hc.
        rewrite !app_nil_r in Hc. exact Hc.
      * intros x Hx. apply in_or_app. left. exact Hx.
    + exists (ls ++ [l]). split; [reflexivity |]. split; [exact Hc |].
      apply incl_refl.
Qed.

Lemma SplitAfter_line : forall c rest,
  ~ In NL c ->
  SplitAfter (c ++ NL :: rest) NL = (c ++ [NL]) :: SplitAfter rest NL.
Proof.
  induction c as [| x c IH]; intros rest Hn.
  - cbn [app SplitAfter]. rewrite Ascii.eqb_refl. reflexivity.
  - cbn [app SplitAfter].
    destruct (Ascii.eqb_spec x NL) as [-> | Hne];
      [exfalso; apply Hn; left; reflexivity |].
    rewrite IH by (intros C; apply Hn; right; exact C). reflexivity.
Qed.

Lemma SplitAfter_pre : forall p rest,
  exists ls,
    ls <> [] /\ SplitAfter (p ++ NL :: rest) NL = ls ++ SplitAfter rest NL.
Proof.
  induction p as [| x p IH]; intros rest.
  - exists [[NL]]. split; [discriminate |].
    cbn [app SplitAfter]. rewrite Ascii.eqb_refl. reflexivity.
  - destruct (IH rest) as (ls & Hne & E).
    cbn [app SplitAfter]. rewrite E.
    destruct (Ascii.eqb x NL).
    + exists ([x] :: ls). split; [discriminate | reflexivity].
    + destruct ls as [| l ls]; [congruence |].
      exists ((x :: l) :: ls). split; [discriminate | reflexivity].
Qed.

Lemma occurs_hasLine : forall out c,
  occurs out (c ++ [NL]) -> ~ In NL c -> hasLine out (c ++ [NL]).
Proof.
  intros out c (pre & post & -> & Hs) Hn. unfold hasLine.
  rewrite <- app_assoc. cbn [app].
  destruct Hs as [-> | (pre' & ->)].
  - cbn [app]. rewrite SplitAfter_line by exact Hn. left. reflexivity.
  - rewrite <- app_assoc. cbn [app].
    destruct (SplitAfter_pre pre' (c ++ NL :: post)) as (ls & _ & ->).
    apply in_or_app. right. rewrite SplitAfter_line by exact Hn.
    left. reflexivity.
Qed.

Lemma SplitAfter_lines : forall s l,
  In l (SplitAfter s NL) ->
  exists c, ~ In NL c /\ (l = c ++ [NL] \/ l = c).
Proof.
  induction s as [| x s IH]; intros l Hin.
  - cbn in Hin. destruct Hin as [<- | []]. exists []. split; [| right; reflexivity].
    intros [].
  - cbn [SplitAfter] in Hin.
    destruct (Ascii.eqb_spec x NL) as [-> | Hne].
    + destruct Hin as [<- | Hin]; [| apply IH; exact Hin].
      exists []. split; [intros [] | left; reflexivity].
    + destruct (SplitAfter s NL) as [| h t] eqn:E.
      * destruct Hin as [<- | []]. exists [x].
        split; [| right; reflexivity].
        intros [C | []]. congruence.
      * destruct Hin as [<- | Hin]; [| apply IH; right; exact Hin].
        destruct (IH h (or_introl eq_refl)) as (c & Hc & Hh).
        exists (x :: c). split.
        -- intros [C | C]; [congruence | exact (Hc C)].
        -- destruct Hh as [-> | ->]; [left | right]; reflexivity.
Qed.

Lemma ensureNewline_line : forall c,
  ~ In NL c ->
  ensureNewline (c ++ [NL]) = c ++ [NL] /\ ensureNewline c = c ++ [NL].
Proof.
  intros c Hn. unfold ensureNewline. split.
  - destruct (HasSuffix (c ++ [NL]) [NL]) eqn:E; [reflexivity |].
    assert (HasSuffix (c ++ [NL]) [NL] = true)
      by (apply HasSuffix_spec; exists c; reflexivity).
    congruence.
  - destruct (HasSuffix c [NL]) eqn:E; [| reflexivity].
    apply HasSuffix_spec in E as (t & ->).
    exfalso. apply Hn. apply in_or_app. right. left. reflexivity.
Qed.

(** A line written for an insertion or a deletion is a whole line of
    the output. *)
Lemma changed_line_hasLine : forall out s ls marker l,
  incl ls (SplitAfter s NL) -> In l ls -> marker <> NL ->
  occurs out (marker :: ensureNewline l) ->
  hasLine out (marker :: ensureNewline l).
Proof.
  intros out s ls marker l Hi Hl Hm Ho.
  destruct (SplitAfter_lines s l (Hi l Hl)) as (c & Hc & Hcase).
  destruct (ensureNewline_line c Hc) as [E1 E2].
  assert (E : ensureNewline l = c ++ [NL])
    by (destruct Hcase as [-> | ->]; assumption).
  rewrite E in *.
  change (marker :: c ++ [NL]) with ((marker :: c) ++ [NL]) in *.
  apply occurs_hasLine; [exact Ho |].
  intros [C | C]; [congruence | exact (Hc C)].
Qed.

(** *** The unified diff *)

Lemma Unified_differs : forall name s1 s2,
  s1 <> s2 ->
  exists out l1 l2 line,
    Unified name s1 s2 = Some out
    /\ splitLines s1 = Some l1 /\ splitLines s2 = Some l2
    /\ out <> []
    /\ hasLine out line
    /\ (deletedLine l1 line \/ insertedLine l2 line).
Proof.
  intros name s1 s2 Hne. unfold Unified.
  apply eqs_false in Hne as Eq. rewrite Eq.
  destruct (splitLines_spec s1) as (l1 & E1 & C1 & I1).
  destruct (splitLines_spec s2) as (l2 & E2 & C2 & I2).
  rewrite E1, E2. cbn [bind].
  assert (Hl : l1 <> l2) by (intros ->; apply Hne; congruence).
  destruct (MyersFacts.myers_spec l1 l2) as (es & Em & Fv & Hch).
  rewrite Em. cbn [bind].
  destruct (buildHunks_spec es) as (hs & Eh & Fh & Hex).
  rewrite Eh. cbn [bind].
  destruct (Hex (Hch Hl)) as (h & e & Hh & He & Hnq).
  assert (Hn0 : (len hs =? 0) = false).
  { destruct (len hs =? 0) eqn:E0; [| reflexivity].
    apply len_zero_nil in E0. subst hs. destruct Hh. }
  rewrite Hn0.
  destruct (writeHunks_spec l1 l2 hs) as (body & Eb & Hs & Hocc).
  { eapply Forall_impl; [| exact Fh]. cbn beta. intros h' Hincl.
    apply Forall_forall. intros x Hx.
    apply (proj1 (Forall_forall _ _) Fv). apply Hincl. exact Hx. }
  rewrite Eb. cbn [bind].
  destruct (Hocc h e Hh He Hnq) as (line & Hline & Ho).
  eexists _, l1, l2, line. split; [reflexivity |].
  split; [reflexivity |]. split; [reflexivity |].
  split; [discriminate |]. split; [| exact Hline].
  assert (Ho' : occurs ("--- a/" ++ name ++ [NL] ++ "+++ b/" ++ name ++ [NL]
                        ++ body) line).
  { replace ("--- a/" ++ name ++ [NL] ++ "+++ b/" ++ name ++ [NL] ++ body)
      with ((("--- a/" ++ name ++ [NL] ++ "+++ b/" ++ name) ++ [NL]) ++ body)
      by (repeat rewrite <- app_assoc; reflexivity).
    apply occurs_app_r; [apply atLineStart_nl | exact Ho]. }
  destruct Hline as [(l & Hin & ->) | (l & Hin & ->)].
  - apply (changed_line_hasLine _ s1 l1 "-"%char l I1 Hin);
      [discriminate | exact Ho'].
  - apply (changed_line_hasLine _ s2 l2 "+"%char l I2 Hin);
      [discriminate | exact Ho'].
Qed.

End HunkFacts.

(** ** The claims about the unified diff *)

Module DiffClaims.

Import Strings Diff MyersSpec Spec StringFacts HunkFacts.

(** C4.  For every file name and all texts [old] and [new], [Unified]
    returns (it does not panic, and the search does not run out of
    steps), and the text it returns is empty if and only if
    [old = new]. *)
Theorem unified_empty_iff_equal : forall name old new,
  exists out,
    Unified name old new = Some out /\ (out = [] <-> old = new).
Proof.
  intros name old new.
  destruct (eqs old new) eqn:E.
  - apply eqs_spec in E. subst new. exists [].
    unfold Unified. rewrite eqs_refl. split; [reflexivity |].
    split; reflexivity.
  - apply eqs_false in E.
    destruct (Unified_differs name old new E)
      as (out & l1 & l2 & line & Eu & _ & _ & Hne & _).
    exists out. split; [exact Eu |].
    split; [intros H; contradiction | intros H; contradiction].
Qed.

(** C5, amended.  For every file name and all texts [s1 <> s2],
    [Unified name s1 s2] is not empty and has a whole output line that
    is ['-'] followed by a line of [s1], or ['+'] followed by a line of
    [s2] (the lines as [splitLines] cuts them, the last one given its
    newline). *)
Theorem diff_shows_a_change : forall name s1 s2,
  s1 <> s2 ->
  exists out l1 l2,
    Unified name s1 s2 = Some out
    /\ splitLines s1 = Some l1 /\ splitLines s2 = Some l2
    /\ out <> []
    /\ exists line,
         hasLine out line /\ (deletedLine l1 line \/ insertedLine l2 line).
Proof.
  intros name s1 s2 Hne.
  destruct (Unified_differs name s1 s2 Hne)
    as (out & l1 & l2 & line & Eu & E1 & E2 & Hn & Hl & Hc).
  exists out, l1, l2. repeat (split; [assumption |]).
  exists line. split; assumption.
Qed.

Lemma diff_shows_a_change_witness :
  text ["a"] <> text ["b"]
  /\ exists out l1 l2,
       Unified "f" (text ["a"]) (text ["b"]) = Some out
       /\ splitLines (text ["a"]) = Some l1
       /\ splitLines (text ["b"]) = Some l2
       /\ out <> []
       /\ exists line,
            hasLine out line
            /\ (deletedLine l1 line \/ insertedLine l2 line).
Proof.
  split; [vm_compute; discriminate |].
  apply (diff_shows_a_change "f" (text ["a"]) (text ["b"])).
  vm_compute. discriminate.
Defined.

(** C5 as stated fails when lines are only added: the diff of [a] and
    [a / b] has the line [+b] and no line that is ['-'] followed by a
    line of the old text (the only line that starts with ['-'] is the
    header [--- a/f]). *)
Lemma deleted_line_counterexample :
  text ["a"] <> text ["a"; "b"]
  /\ splitLines (text ["a"]) = Some [text ["a"]]
  /\ Unified "f" (text ["a"]) (text ["a"; "b"])
     = Some (text ["--- a/f"; "+++ b/f"; "@@ -1,1 +1,2 @@"; " a"; "+b"])
  /\ forall line,
       hasLine (text ["--- a/f"; "+++ b/f"; "@@ -1,1 +1,2 @@"; " a"; "+b"])
         line ->
       ~ deletedLine [text ["a"]] line.
Proof.
  split; [vm_compute; discriminate |].
  split; [vm_compute; reflexivity |].
  split; [vm_compute; reflexivity |].
  intros line H (l & [<- | []] & ->).
  vm_compute in H.
  repeat (destruct H as [H | H]; [discriminate |]).
  exact H.
Qed.

End DiffClaims.

(** ** The rules and the store *)

Module StoreFacts.

Import Strings Parser Config Store StoreSpec SliceFacts.

(** *** The operations of the store *)

Lemma preserves_ret : forall (A : Type) L (a : A) (Q : A -> Prop),
  Q a -> preserves L (ret a) Q.
Proof.
  intros A L a Q H h x h' _ E. injection E as <- <-.
  split; [lia |]. split; [reflexivity | exact H].
Qed.

Lemma preserves_fail : forall (A : Type) L (Q : A -> Prop),
  preserves L fail Q.
Proof. intros A L Q h x h' _ E. discriminate. Qed.

Lemma preserves_bind : forall (A B : Type) L (m : M A) (f : A -> M B)
  (Q1 : A -> Prop) (Q2 : B -> Prop),
  preserves L m Q1 ->
  (forall a, Q1 a -> preserves L (f a) Q2) ->
  preserves L (mbind m f) Q2.
Proof.
  intros A B L m f Q1 Q2 Hm Hf h b h' HL E. unfold mbind in E.
  destruct (m h) as [[a h1] |] eqn:Em; [| discriminate].
  destruct (Hm h a h1 HL Em) as (L1 & K1 & Qa).
  destruct (Hf a Qa h1 b h') as (L2 & K2 & Qb); [lia | exact E |].
  split; [lia |]. split; [| exact Qb].
  intros p Hp. rewrite K2, K1 by exact Hp. reflexivity.
Qed.

Lemma preserves_weaken : forall (A : Type) L (m : M A) (Q Q' : A -> Prop),
  preserves L m Q -> (forall a, Q a -> Q' a) -> preserves L m Q'.
Proof.
  intros A L m Q Q' Hm HQ h a h' HL E.
  destruct (Hm h a h' HL E) as (H1 & H2 & H3).
  split; [exact H1 |]. split; [exact H2 | apply HQ; exact H3].
Qed.

(** A computation that first reads something off the store, as the
    depth given to a recursion. *)
Lemma preserves_reading : forall (A X : Type) L (g : heap -> X)
  (m : X -> M A) (Q : A -> Prop),
  (forall x, preserves L (m x) Q) -> preserves L (fun h => m (g h) h) Q.
Proof. intros A X L g m Q H h a h' HL E. exact (H (g h) h a h' HL E). Qed.

Lemma preserves_deref : forall L p, preserves L (deref p) (fun _ => True).
Proof.
  intros L p h c h' _ E. unfold deref in E.
  destruct (nth_error h p); [| discriminate]. injection E as <- <-.
  split; [lia |]. split; [reflexivity | exact I].
Qed.

Lemma preserves_typeOf : forall L p, preserves L (typeOf p) (fun _ => True).
Proof.
  intros L p. unfold typeOf. eapply preserves_bind; [apply preserves_deref |].
  intros c _. apply preserves_ret. exact I.
Qed.

Lemma preserves_alloc : forall L c,
  preserves L (alloc c) (fun q => (L <= q)%nat).
Proof.
  intros L c h q h' HL E. injection E as <- <-.
  split; [rewrite length_app; lia |]. split; [| exact HL].
  intros p Hp. apply nth_error_app1. lia.
Qed.

Lemma preserves_update : forall L p c,
  (L <= p)%nat -> preserves L (update p c) (fun _ => True).
Proof.
  intros L p c Hp h u h' HL E. unfold update in E.
  destruct (set_nth h p c) as [h1 |] eqn:Es; [| discriminate].
  injection E as <- <-.
  split; [rewrite (set_nth_length _ _ _ _ _ Es); lia |].
  split; [| exact I].
  intros q Hq. apply (set_nth_other _ _ _ _ _ _ Es). lia.
Qed.

Lemma preserves_setRawAt : forall L p r,
  (L <= p)%nat -> preserves L (setRawAt p r) (fun _ => True).
Proof.
  intros L p r Hp. unfold setRawAt.
  eapply preserves_bind; [apply preserves_deref |].
  intros c _. apply preserves_update. exact Hp.
Qed.

Lemma preserves_setChildrenAt : forall L p k,
  (L <= p)%nat -> preserves L (setChildrenAt p k) (fun _ => True).
Proof.
  intros L p r Hp. unfold setChildrenAt.
  eapply preserves_bind; [apply preserves_deref |].
  intros c _. apply preserves_update. exact Hp.
Qed.

Lemma preserves_setFieldsAt : forall L p f,
  (L <= p)%nat -> preserves L (setFieldsAt p f) (fun _ => True).
Proof.
  intros L p r Hp. unfold setFieldsAt.
  eapply preserves_bind; [apply preserves_deref |].
  intros c _. apply preserves_update. exact Hp.
Qed.

Lemma preserves_mapM : forall (A B : Type) L (f : A -> M B) (Q : B -> Prop)
  (l : list A),
  (forall a, In a l -> preserves L (f a) Q) ->
  preserves L (mapM f l) (Forall Q).
Proof.
  intros A B L f Q. induction l as [| a l IH]; intros H.
  - apply preserves_ret. constructor.
  - cbn [mapM]. eapply preserves_bind; [apply H; left; reflexivity |].
    intros b Hb. eapply preserves_bind.
    + apply IH. intros x Hx. apply H. right. exact Hx.
    + intros bs Hbs. apply preserves_ret. constructor; assumption.
Qed.

(** The steps of a computation, one after the other. *)
Ltac pres :=
  repeat (cbn beta in *;
    match goal with
    | |- preserves _ (mbind _ _) _ => eapply preserves_bind; [| intros ? ?]
    | |- preserves _ (ret _) _ => apply preserves_ret
    | |- preserves _ fail _ => apply preserves_fail
    | |- preserves _ (deref _) _ => apply preserves_deref
    | |- preserves _ (typeOf _) _ => apply preserves_typeOf
    | |- preserves _ (alloc _) _ => apply preserves_alloc
    | |- preserves _ (setRawAt _ _) _ =>
        apply preserves_setRawAt; assumption
    | |- preserves _ (setFieldsAt _ _) _ =>
        apply preserves_setFieldsAt; assumption
    | |- preserves _ (setChildrenAt _ _) _ =>
        apply preserves_setChildrenAt; assumption
    | |- preserves _ (if ?b then _ else _) _ => destruct b
    | |- True => exact I
    end).

(** *** Clone *)

Lemma preserves_Clone : forall L fuel n,
  preserves L (Clone fuel n) (fun q => (L <= q)%nat).
Proof.
  intros L. induction fuel as [| fuel IH]; intros n; cbn [Clone].
  - apply preserves_fail.
  - pres.
    + apply preserves_mapM. intros k _. apply IH.
    + assumption.
Qed.

Lemma preserves_clone : forall L n,
  preserves L (clone n) (fun q => (L <= q)%nat).
Proof.
  intros L n. unfold clone.
  apply (preserves_reading _ _ L depthOf (fun d => Clone d n)).
  intros d. apply preserves_Clone.
Qed.

(** *** The rules *)

Lemma preserves_trimNode : forall L fuel n,
  preserves L (trimNode fuel n) (fun q => (L <= q)%nat).
Proof.
  intros L. induction fuel as [| fuel IH]; intros n; cbn [trimNode].
  - apply preserves_fail.
  - eapply preserves_bind; [apply preserves_clone |]. intros q Hq.
    pres.
    + apply preserves_mapM. intros k _. apply IH.
    + assumption.
Qed.

Lemma Forall_fresh : forall L ns out,
  Forall (fun q => (L <= q)%nat) out -> Forall (inputOrFresh L ns) out.
Proof.
  intros L ns out H. eapply Forall_impl; [| exact H].
  intros q Hq. right. exact Hq.
Qed.

Lemma Forall_input : forall L (ns : list ptr),
  Forall (inputOrFresh L ns) ns.
Proof.
  intros L ns. apply Forall_forall. intros q Hq. left. exact Hq.
Qed.

Lemma TrailingWhitespace_frame : forall L ns cfg,
  preserves L (TrailingWhitespace_Format ns cfg)
    (Forall (inputOrFresh L ns)).
Proof.
  intros L ns cfg. unfold TrailingWhitespace_Format.
  destruct (negb (TrimTrailingWhitespace cfg)).
  - apply preserves_ret. apply Forall_input.
  - apply (preserves_reading _ _ L depthOf
             (fun d => mapM (trimNode d) ns)).
    intros d. eapply preserves_weaken.
    + apply preserves_mapM. intros n _. apply preserves_trimNode.
    + apply Forall_fresh.
Qed.

Lemma preserves_dropBlank : forall L rs,
  preserves L (dropBlank rs) (fun out => incl out rs).
Proof.
  intros L. induction rs as [| n rest IH]; cbn [dropBlank].
  - apply preserves_ret. apply incl_refl.
  - eapply preserves_bind; [apply preserves_typeOf |]. intros t _.
    destruct (NodeType_eqb t NodeBlankLine).
    + eapply preserves_weaken; [apply IH |].
      intros out H. apply incl_tl. exact H.
    + apply preserves_ret. apply incl_refl.
Qed.

Lemma FinalNewline_frame : forall L ns cfg,
  preserves L (FinalNewline_Format ns cfg)
    (Forall (inputOrFresh L ns)).
Proof.
  intros L ns cfg. unfold FinalNewline_Format.
  destruct (negb (InsertFinalNewline cfg));
    [apply preserves_ret; apply Forall_input |].
  destruct (len ns =? 0); [apply preserves_ret; apply Forall_input |].
  eapply preserves_bind; [apply preserves_dropBlank |].
  intros rs Hrs. apply preserves_ret.
  apply Forall_forall. intros q Hq. left.
  apply in_rev. apply Hrs. apply in_rev in Hq. exact Hq.
Qed.

Lemma preserves_blankLinesLoop : forall L ns maxBlank blankCount,
  preserves L (blankLinesLoop ns maxBlank blankCount)
    (fun out => incl out ns).
Proof.
  intros L. induction ns as [| n rest IH]; intros maxBlank blankCount;
    cbn [blankLinesLoop].
  - apply preserves_ret. apply incl_refl.
  - eapply preserves_bind; [apply preserves_typeOf |]. intros t _.
    destruct (NodeType_eqb t NodeBlankLine).
    + destruct (blankCount + 1 <=? maxBlank).
      * eapply preserves_bind; [apply IH |]. intros r Hr.
        apply preserves_ret. cbn beta. unfold incl. intros x [<- | Hx];
          [left; reflexivity | right; apply Hr; exact Hx].
      * eapply preserves_weaken; [apply IH |].
        intros out H. apply incl_tl. exact H.
    + eapply preserves_bind; [apply IH |]. intros r Hr.
      apply preserves_ret. cbn beta. unfold incl. intros x [<- | Hx];
        [left; reflexivity | right; apply Hr; exact Hx].
Qed.

Lemma Forall_incl_input : forall L (ns out : list ptr),
  incl out ns -> Forall (inputOrFresh L ns) out.
Proof.
  intros L ns out H. apply Forall_forall. intros q Hq. left.
  apply H. exact Hq.
Qed.

Lemma BlankLines_frame : forall L ns cfg,
  preserves L (BlankLines_Format ns cfg)
    (Forall (inputOrFresh L ns)).
Proof.
  intros L ns cfg. unfold BlankLines_Format.
  destruct (MaxBlankLines cfg <? 0);
    [apply preserves_ret; apply Forall_input |].
  eapply preserves_weaken; [apply preserves_blankLinesLoop |].
  apply Forall_incl_input.
Qed.

Lemma preserves_normalizeAssignment : forall L n mode,
  preserves L (normalizeAssignment n mode) (fun q => (L <= q)%nat).
Proof.
  intros L n mode. unfold normalizeAssignment.
  eapply preserves_bind; [apply preserves_clone |]. intros q Hq.
  pres. assumption.
Qed.

Lemma AssignmentSpacing_frame : forall L ns cfg,
  preserves L (AssignmentSpacing_Format ns cfg)
    (Forall (inputOrFresh L ns)).
Proof.
  intros L ns cfg. unfold AssignmentSpacing_Format.
  destruct (eqs (AssignmentSpacing cfg) "preserve");
    [apply preserves_ret; apply Forall_input |].
  apply preserves_mapM. intros n Hn.
  eapply preserves_bind; [apply preserves_typeOf |]. intros t _.
  destruct (NodeType_eqb t NodeAssignment).
  - eapply preserves_weaken; [apply preserves_normalizeAssignment |].
    intros q Hq. right. exact Hq.
  - apply preserves_ret. left. exact Hn.
Qed.

Lemma preserves_maxNameLen : forall L group maxLen,
  preserves L (maxNameLen group maxLen) (fun _ => True).
Proof.
  intros L. induction group as [| n rest IH]; intros maxLen;
    cbn [maxNameLen].
  - apply preserves_ret. exact I.
  - eapply preserves_bind; [apply preserves_deref |]. intros c _. apply IH.
Qed.

Lemma preserves_alignOne : forall L maxLen mode n,
  preserves L (alignOne maxLen mode n) (fun q => (L <= q)%nat).
Proof.
  intros L maxLen mode n. unfold alignOne.
  eapply preserves_bind; [apply preserves_clone |]. intros q Hq.
  pres. assumption.
Qed.

Lemma preserves_alignGroup : forall L group mode,
  preserves L (alignGroup group mode) (Forall (fun q => (L <= q)%nat)).
Proof.
  intros L group mode. unfold alignGroup.
  eapply preserves_bind; [apply preserves_maxNameLen |]. intros maxLen _.
  apply preserves_mapM. intros n _. apply preserves_alignOne.
Qed.

Lemma preserves_spanAssignments : forall L ns,
  preserves L (spanAssignments ns)
    (fun gr => incl (fst gr) ns /\ incl (snd gr) ns
               /\ (length (snd gr) <= length ns)%nat).
Proof.
  intros L. induction ns as [| n rest IH]; cbn [spanAssignments].
  - apply preserves_ret. cbn. split; [apply incl_refl |].
    split; [apply incl_refl | lia].
  - eapply preserves_bind; [apply preserves_typeOf |]. intros t _.
    destruct (NodeType_eqb t NodeAssignment).
    + eapply preserves_bind; [apply IH |]. intros gr (H1 & H2 & H3).
      apply preserves_ret. cbn [fst snd length]. split.
      * intros x [<- | Hx]; [left; reflexivity | right; apply H1; exact Hx].
      * split; [apply incl_tl; exact H2 | lia].
    + apply preserves_ret. cbn [fst snd]. split; [intros x [] |].
      split; [apply incl_refl | lia].
Qed.

Lemma preserves_alignLoop : forall L fuel ns mode,
  preserves L (alignLoop fuel ns mode) (Forall (inputOrFresh L ns)).
Proof.
  intros L. induction fuel as [| fuel IH]; intros ns mode;
    cbn [alignLoop].
  - apply preserves_ret. apply Forall_input.
  - destruct ns as [| n rest]; [apply preserves_ret; constructor |].
    eapply preserves_bind; [apply preserves_typeOf |]. intros t _.
    destruct (negb (NodeType_eqb t NodeAssignment)).
    + eapply preserves_bind; [apply IH |]. intros r Hr.
      apply preserves_ret. constructor; [left; left; reflexivity |].
      eapply Forall_impl; [| exact Hr].
      intros q [Hq | Hq]; [left; right; exact Hq | right; exact Hq].
    + eapply preserves_bind; [apply preserves_spanAssignments |].
      intros gr (H1 & H2 & _).
      eapply preserves_bind with
        (Q1 := Forall (inputOrFresh L (n :: rest))).
      * destruct (len (fst gr) >? 1).
        -- eapply preserves_weaken; [apply preserves_alignGroup |].
           apply Forall_fresh.
        -- apply preserves_ret. apply Forall_incl_input. exact H1.
      * intros g Hg. eapply preserves_bind; [apply IH |]. intros r Hr.
        apply preserves_ret. apply Forall_app. split; [exact Hg |].
        eapply Forall_impl; [| exact Hr].
        intros q [Hq | Hq]; [left; apply H2; exact Hq | right; exact Hq].
Qed.

Lemma AlignAssignments_frame : forall L ns cfg,
  preserves L (AlignAssignments_Format ns cfg)
    (Forall (inputOrFresh L ns)).
Proof.
  intros L ns cfg. unfold AlignAssignments_Format.
  destruct (negb (AlignAssignments cfg));
    [apply preserves_ret; apply Forall_input |].
  apply preserves_alignLoop.
Qed.

Lemma preserves_alignBackslashes : forall L n col,
  preserves L (alignBackslashes n col) (fun q => (L <= q)%nat).
Proof.
  intros L n col. unfold alignBackslashes.
  eapply preserves_bind; [apply preserves_clone |]. intros q Hq.
  pres. assumption.
Qed.

Lemma BackslashAlign_frame : forall L ns cfg,
  preserves L (BackslashAlign_Format ns cfg)
    (Forall (inputOrFresh L ns)).
Proof.
  intros L ns cfg. unfold BackslashAlign_Format.
  destruct (negb (AlignBackslashContinuations cfg));
    [apply preserves_ret; apply Forall_input |].
  apply preserves_mapM. intros n Hn.
  eapply preserves_bind; [apply preserves_deref |]. intros c _.
  destruct (negb (Rules.hasContinuation (cRaw c))).
  - apply preserves_ret. left. exact Hn.
  - eapply preserves_weaken; [apply preserves_alignBackslashes |].
    intros q Hq. right. exact Hq.
Qed.

Lemma preserves_normalizeComment : forall L n,
  preserves L (normalizeComment n) (fun q => q = n \/ (L <= q)%nat).
Proof.
  intros L n. unfold normalizeComment.
  eapply preserves_bind; [apply preserves_deref |]. intros c _.
  destruct ((len (TrimSpace (cRaw c)) >? 1)
            && isByte (index (TrimSpace (cRaw c)) 1) " ").
  - apply preserves_ret. left. reflexivity.
  - destruct (sliceFrom (TrimSpace (cRaw c)) 1) as [tail |];
      [| apply preserves_fail].
    eapply preserves_bind; [apply preserves_clone |]. intros q Hq.
    pres. right. assumption.
Qed.

Lemma CommentSpacing_frame : forall L ns cfg,
  preserves L (CommentSpacing_Format ns cfg)
    (Forall (inputOrFresh L ns)).
Proof.
  intros L ns cfg. unfold CommentSpacing_Format.
  destruct (negb (SpaceAfterComment cfg));
    [apply preserves_ret; apply Forall_input |].
  apply preserves_mapM. intros n Hn.
  eapply preserves_bind; [apply preserves_deref |]. intros c _.
  destruct (NodeType_eqb (cTyp c) NodeComment && shouldNormalize c).
  - eapply preserves_weaken; [apply preserves_normalizeComment |].
    intros q [-> | Hq]; [left; exact Hn | right; exact Hq].
  - apply preserves_ret. left. exact Hn.
Qed.

Lemma preserves_applyIndent : forall L n indent level,
  preserves L (applyIndent n indent level) (fun q => q = n \/ (L <= q)%nat).
Proof.
  intros L n indent level. unfold applyIndent.
  destruct (level <=? 0); [apply preserves_ret; left; reflexivity |].
  eapply preserves_bind; [apply preserves_clone |]. intros q Hq.
  pres. right. assumption.
Qed.

Lemma preserves_indentConditionals : forall L ns indent level,
  preserves L (indentConditionals ns indent level)
    (Forall (inputOrFresh L ns)).
Proof.
  intros L. induction ns as [| n rest IH]; intros indent level;
    cbn [indentConditionals].
  - apply preserves_ret. constructor.
  - assert (Hcons : forall (m : M ptr) lvl,
              preserves L m (fun q => q = n \/ (L <= q)%nat) ->
              preserves L
                (q <~ m ;; r <~ indentConditionals rest indent lvl ;;
                 ret (q :: r))
                (Forall (inputOrFresh L (n :: rest)))).
    { intros m lvl Hm. eapply preserves_bind; [exact Hm |]. intros q Hq.
      eapply preserves_bind; [apply IH |]. intros r Hr.
      apply preserves_ret. constructor.
      - destruct Hq as [-> | Hq]; [left; left; reflexivity | right; exact Hq].
      - eapply Forall_impl; [| exact Hr].
        intros x [Hx | Hx]; [left; right; exact Hx | right; exact Hx]. }
    eapply preserves_bind; [apply preserves_deref |]. intros c _.
    destruct (NodeType_eqb (cTyp c) NodeConditional
              && Rules.isConditionalOpen (Directive (cFields c)));
      [apply Hcons; apply preserves_applyIndent |].
    destruct (NodeType_eqb (cTyp c) NodeConditional
              && eqs (Directive (cFields c)) "else");
      [apply Hcons; apply preserves_applyIndent |].
    destruct (NodeType_eqb (cTyp c) NodeConditional
              && eqs (Directive (cFields c)) "endif");
      [apply Hcons; apply preserves_applyIndent |].
    apply Hcons. destruct (level >? 0); [apply preserves_applyIndent |].
    apply preserves_ret. left. reflexivity.
Qed.

Lemma ConditionalIndent_frame : forall L ns cfg,
  preserves L (ConditionalIndent_Format ns cfg)
    (Forall (inputOrFresh L ns)).
Proof.
  intros L ns cfg. unfold ConditionalIndent_Format.
  destruct (negb (IndentConditionals cfg) || (ConditionalIndent cfg <=? 0));
    [apply preserves_ret; apply Forall_input |].
  apply preserves_indentConditionals.
Qed.

(** Every rule leaves the cells of its input store as they are, and
    returns input pointers and pointers to cells of its own. *)
Lemma rules_frame : forall rule ns cfg h out h',
  In rule FormatRules ->
  Format rule ns cfg h = Some (out, h') ->
  (forall p c, nth_error h p = Some c -> nth_error h' p = Some c)
  /\ Forall (inputOrFresh (length h) ns) out.
Proof.
  intros rule ns cfg h out h' Hin E.
  assert (H : preserves (length h) (Format rule ns cfg)
                (Forall (inputOrFresh (length h) ns))).
  { cbn in Hin.
    repeat (destruct Hin as [<- | Hin]; [cbn [Format] |]);
      try contradiction.
    - apply TrailingWhitespace_frame.
    - apply FinalNewline_frame.
    - apply BlankLines_frame.
    - apply AssignmentSpacing_frame.
    - apply AlignAssignments_frame.
    - apply BackslashAlign_frame.
    - apply CommentSpacing_frame.
    - apply ConditionalIndent_frame.
    - apply preserves_ret. apply Forall_input. }
  destruct (H h out h' (le_n _) E) as (_ & K & Q).
  split; [| exact Q].
  intros p c Hp. rewrite K; [exact Hp |].
  apply nth_error_Some. congruence.
Qed.

(** A rule that the configuration disables returns its input, the same
    pointers, and the store as it was. *)
Lemma disabled_rule_returns_input : forall rule ns cfg h,
  In rule FormatRules -> enabled rule cfg = false ->
  Format rule ns cfg h = Some (ns, h).
Proof.
  intros rule ns cfg h Hin Hd. unfold FormatRules in Hin. cbn [In] in Hin.
  repeat (destruct Hin as [<- | Hin];
            [cbv beta iota delta [Format enabled] in * |]);
    try contradiction.
  - unfold TrailingWhitespace_Format. rewrite Hd. reflexivity.
  - unfold FinalNewline_Format. rewrite Hd. reflexivity.
  - unfold BlankLines_Format. apply negb_false_iff in Hd. rewrite Hd.
    reflexivity.
  - unfold AssignmentSpacing_Format. apply negb_false_iff in Hd.
    rewrite Hd. reflexivity.
  - unfold AlignAssignments_Format. rewrite Hd. reflexivity.
  - unfold BackslashAlign_Format. rewrite Hd. reflexivity.
  - unfold CommentSpacing_Format. rewrite Hd. reflexivity.
  - unfold ConditionalIndent_Format.
    apply andb_false_iff in Hd as [Hd | Hd].
    + rewrite Hd. reflexivity.
    + apply negb_false_iff in Hd. rewrite Hd, orb_true_r. reflexivity.
  - reflexivity.
Qed.

End StoreFacts.

(** ** The claim about the identity of nodes *)

Module StoreClaims.

Import Strings Parser Config Store StoreSpec Spec.

(** C6 does not hold of trim_trailing_whitespace.  The comment [# a]
    has no trailing white space; with the node the parser makes of it
    at address 0, the rule returns address 1, a new cell: the node at
    that address is equal to the input node, the input cell is as it
    was (the rule does not mutate it), yet the node that the rule did
    not change is not in the output by identity. *)
Theorem unchanged_node_is_copied :
  exists n rule h',
    Parse (text ["# a"]) = Some [n]
    /\ In rule FormatRules
    /\ Name rule = "trim_trailing_whitespace"
    /\ enabled rule DefaultConfig = true
    /\ Format rule [0%nat] DefaultConfig (flatStore [n])
       = Some ([1%nat], h')
    /\ nodeAt 2 (flatStore [n]) 0%nat = Some n
    /\ nodeAt 2 h' 1%nat = Some n
    /\ nth_error h' 0%nat = nth_error (flatStore [n]) 0%nat
    /\ 1%nat <> 0%nat.
Proof.
  eexists _, (mkRule "trim_trailing_whitespace" TrailingWhitespace_Format
                TrimTrailingWhitespace), _.
  split; [vm_compute; reflexivity |].
  split; [left; reflexivity |].
  split; [reflexivity |].
  split; [reflexivity |].
  split; [vm_compute; reflexivity |].
  split; [vm_compute; reflexivity |].
  split; [vm_compute; reflexivity |].
  split; [vm_compute; reflexivity | discriminate].
Qed.

End StoreClaims.

(** ** What the rules do to the node sequence *)

Module RuleFacts.

Import Strings Parser Config Engine Rules RuleSpec.
Import SliceFacts StringFacts NodeFacts AlignFacts.

(** *** max_blank_lines *)

(** A run of blank nodes at the head of the output, after [c] blank
    nodes already seen, and a run anywhere in it. *)
Lemma blankLinesLoop_runs : forall ns maxBlank c,
  0 <= c ->
  (forall run post,
     blankLinesLoop ns maxBlank c = run ++ post -> run <> [] ->
     Forall (fun n => isBlank n = true) run -> c + len run <= maxBlank)
  /\ (forall pre run post,
        blankLinesLoop ns maxBlank c = pre ++ run ++ post -> run <> [] ->
        Forall (fun n => isBlank n = true) run -> len run <= maxBlank).
Proof.
  induction ns as [| n rest IH]; intros maxBlank c Hc.
  - cbn [blankLinesLoop]. split.
    + intros run post E Hne. symmetry in E.
      apply app_eq_nil in E as [-> _]. congruence.
    + intros pre run post E Hne. symmetry in E.
      apply app_eq_nil in E as [_ E]. apply app_eq_nil in E as [-> _].
      congruence.
  - cbn [blankLinesLoop]. destruct (isBlank n) eqn:Eb.
    + destruct (Z.leb_spec (c + 1) maxBlank) as [Hle | Hgt].
      * destruct (IH maxBlank (c + 1)) as [IH1 IH2]; [lia |].
        assert (Hlead : forall run post,
                  n :: blankLinesLoop rest maxBlank (c + 1) = run ++ post ->
                  run <> [] ->
                  Forall (fun n => isBlank n = true) run ->
                  c + len run <= maxBlank).
        { intros run post E Hne HF.
          destruct run as [| x run']; [congruence |].
          injection E as <- E. inversion HF as [| ? ? _ HF']; subst.
          rewrite len_cons.
          destruct run' as [| y run''].
          - rewrite len_nil. lia.
          - specialize (IH1 (y :: run'') post E). 
            assert (c + 1 + len (y :: run'') <= maxBlank)
              by (apply IH1; [discriminate | exact HF']).
            lia. }
        split; [exact Hlead |].
        intros pre run post E Hne HF.
        destruct pre as [| x pre'].
        -- specialize (Hlead run post E Hne HF). lia.
        -- injection E as <- E. apply (IH2 pre' run post E Hne HF).
      * destruct (IH maxBlank (c + 1)) as [IH1 IH2]; [lia |].
        split; [| exact IH2].
        intros run post E Hne HF. specialize (IH1 run post E Hne HF). lia.
    + destruct (IH maxBlank 0) as [IH1 IH2]; [lia |].
      assert (Hlead : forall run post,
                n :: blankLinesLoop rest maxBlank 0 = run ++ post ->
                run <> [] ->
                Forall (fun n => isBlank n = true) run -> False).
      { intros run post E Hne HF.
        destruct run as [| x run']; [congruence |].
        injection E as <- E. inversion HF; subst. congruence. }
      split.
      * intros run post E Hne HF. exfalso. exact (Hlead run post E Hne HF).
      * intros pre run post E Hne HF.
        destruct pre as [| x pre'].
        -- exfalso. exact (Hlead run post E Hne HF).
        -- injection E as <- E. apply (IH2 pre' run post E Hne HF).
Qed.

Lemma blankLinesLoop_filter : forall ns maxBlank c,
  filter (fun n => negb (isBlank n)) (blankLinesLoop ns maxBlank c)
  = filter (fun n => negb (isBlank n)) ns.
Proof.
  induction ns as [| n rest IH]; intros maxBlank c; [reflexivity |].
  cbn [blankLinesLoop filter]. destruct (isBlank n) eqn:Eb; cbn [negb].
  - destruct (c + 1 <=? maxBlank); [| apply IH].
    cbn [filter]. rewrite Eb. cbn [negb]. apply IH.
  - cbn [filter]. rewrite Eb. cbn [negb]. f_equal. apply IH.
Qed.

Lemma blankLinesLoop_again : forall ns maxBlank c c',
  c' <= c ->
  blankLinesLoop (blankLinesLoop ns maxBlank c) maxBlank c'
  = blankLinesLoop ns maxBlank c.
Proof.
  induction ns as [| n rest IH]; intros maxBlank c c' Hc; [reflexivity |].
  cbn [blankLinesLoop]. destruct (isBlank n) eqn:Eb.
  - destruct (Z.leb_spec (c + 1) maxBlank) as [Hle | Hgt].
    + cbn [blankLinesLoop]. rewrite Eb.
      destruct (Z.leb_spec (c' + 1) maxBlank); [| lia].
      f_equal. apply IH. lia.
    + apply IH. lia.
  - cbn [blankLinesLoop]. rewrite Eb. f_equal. apply IH. lia.
Qed.

(** *** insert_final_newline *)

Lemma dropTrailingBlank_spec : forall ns,
  exists blanks,
    ns = dropTrailingBlank ns ++ blanks
    /\ Forall (fun n => isBlank n = true) blanks
    /\ (forall front x, dropTrailingBlank ns = front ++ [x] ->
                        isBlank x = false).
Proof.
  induction ns as [| n rest IH].
  - exists []. split; [reflexivity |]. split; [constructor |].
    intros front x E. destruct front; discriminate.
  - destruct IH as (blanks & E & HF & Hlast).
    cbn [dropTrailingBlank].
    destruct (dropTrailingBlank rest) as [| r rest'] eqn:Ed.
    + destruct (isBlank n) eqn:Eb.
      * exists (n :: blanks). cbn [app] in *. split; [congruence |].
        split; [constructor; assumption |].
        intros front x E'. destruct front; discriminate.
      * exists blanks. cbn [app] in *. split; [congruence |].
        split; [exact HF |].
        intros front x E'. destruct front as [| y front].
        -- injection E' as <-. exact Eb.
        -- destruct front; discriminate.
    + exists blanks. split; [cbn [app] in *; rewrite <- E; reflexivity |].
      split; [exact HF |].
      intros front x E'. destruct front as [| y front]; [discriminate |].
      injection E' as <- E'. apply (Hlast front x). exact E'.
Qed.

(** *** trim_trailing_whitespace *)

Lemma dropWhile_again : forall p s,
  dropWhile p (dropWhile p s) = dropWhile p s.
Proof.
  intros p. induction s as [| c s IH]; [reflexivity |].
  cbn [dropWhile]. destruct (p c) eqn:E; [exact IH |].
  cbn [dropWhile]. rewrite E. reflexivity.
Qed.

Lemma TrimRight_again : forall s cut,
  TrimRight (TrimRight s cut) cut = TrimRight s cut.
Proof.
  intros s cut. unfold TrimRight.
  rewrite rev_involutive, dropWhile_again. reflexivity.
Qed.

Lemma trimmed_lines_no_newline : forall raw l,
  In l (map (fun line => TrimRight line " 	") (Split raw NL)) ->
  ~ In NL l.
Proof.
  intros raw l H C. apply in_map_iff in H as (l0 & <- & H0).
  apply TrimRight_In in C. exact (Split_no_sep _ _ _ H0 C).
Qed.

Lemma trimRawLines_lines : forall raw,
  Split (trimRawLines raw) NL
  = map (fun line => TrimRight line " 	") (Split raw NL).
Proof.
  intros raw. unfold trimRawLines. apply Split_Join.
  - pose proof (Split_nonempty raw NL) as Hn.
    destruct (Split raw NL); [congruence | discriminate].
  - apply trimmed_lines_no_newline.
Qed.

Lemma trimRawLines_again : forall raw,
  trimRawLines (trimRawLines raw) = trimRawLines raw.
Proof.
  intros raw. unfold trimRawLines at 1. rewrite trimRawLines_lines.
  rewrite map_map. unfold trimRawLines. f_equal.
  apply map_ext. intros l. apply TrimRight_again.
Qed.

Lemma trimNode_again : forall n, trimNode (trimNode n) = trimNode n.
Proof.
  induction n as [t l r cs f IH] using Node_induction.
  cbn [trimNode Typ Line Raw Children Parser.Fields].
  rewrite !cloneFields_id.
  f_equal.
  - destruct (eqs r []) eqn:Er; cbn [negb].
    + rewrite Er. reflexivity.
    + destruct (eqs (trimRawLines r) []); cbn [negb];
        [reflexivity | apply trimRawLines_again].
  - rewrite map_map. apply map_ext_Forall. exact IH.
  - destruct f.
    cbv beta iota delta [setCondition setInlineHelp setVarValue setText
      VarName AssignOp VarValue Targets Prerequisites OrderOnly InlineHelp
      Directive Condition IncludeType Paths Text Inline Prefix].
    rewrite !TrimRight_again. reflexivity.
Qed.

(** *** indent_conditionals *)


(** *** What every rule keeps *)

Lemma Subseq_refl : forall (A : Type) (l : list A), Subseq l l.
Proof. induction l; constructor; assumption. Qed.

Lemma Subseq_app : forall (A : Type) (a a' b b' : list A),
  Subseq a a' -> Subseq b b' -> Subseq (a ++ b) (a' ++ b').
Proof.
  intros A a a' b b' Ha Hb. induction Ha; cbn [app];
    [exact Hb | constructor; assumption | constructor; assumption].
Qed.

Lemma Subseq_same : forall (A : Type) (l l' : list A),
  l = l' -> Subseq l l'.
Proof. intros A l l' ->. apply Subseq_refl. Qed.

Lemma kindOf_trimNode : forall n, kindOf (trimNode n) = kindOf n.
Proof. intros [t l r cs f]. reflexivity. Qed.

Lemma kindOf_setRaw : forall n r, kindOf (setRaw n r) = kindOf n.
Proof. intros. reflexivity. Qed.

Lemma kindOf_setFields : forall n f, kindOf (setFields n f) = kindOf n.
Proof. intros. reflexivity. Qed.

Lemma kindOf_normalizeAssignment : forall n mode,
  kindOf (normalizeAssignment n mode) = kindOf n.
Proof.
  intros n mode. unfold normalizeAssignment. rewrite Clone_id.
  destruct (eqs mode "space"); [reflexivity |].
  destruct (eqs mode "no_space"); reflexivity.
Qed.

Lemma kindOf_alignOne : forall maxLen mode n,
  kindOf (alignOne maxLen mode n) = kindOf n.
Proof.
  intros maxLen mode n. unfold alignOne. rewrite Clone_id.
  destruct (eqs mode "no_space"); reflexivity.
Qed.

Lemma kindOf_alignBackslashes : forall n col,
  kindOf (alignBackslashes n col) = kindOf n.
Proof. intros n col. unfold alignBackslashes. rewrite Clone_id. reflexivity. Qed.

Lemma kindOf_normalizeComment : forall n n',
  normalizeComment n = Some n' -> kindOf n' = kindOf n.
Proof.
  intros n n' H. unfold normalizeComment in H.
  destruct ((len (TrimSpace (Raw n)) >? 1)
            && isByte (index (TrimSpace (Raw n)) 1) " ").
  - injection H as <-. reflexivity.
  - destruct (sliceFrom (TrimSpace (Raw n)) 1); cbn [bind] in H;
      [| discriminate].
    injection H as <-. rewrite Clone_id. reflexivity.
Qed.

Lemma kindOf_applyIndent : forall n indent level,
  kindOf (applyIndent n indent level) = kindOf n.
Proof.
  intros n indent level. unfold applyIndent.
  destruct (level <=? 0); [reflexivity |]. rewrite Clone_id. reflexivity.
Qed.

Lemma kinds_blankLinesLoop : forall ns maxBlank c,
  Subseq (blankLinesLoop ns maxBlank c) ns.
Proof.
  induction ns as [| n rest IH]; intros maxBlank c; [constructor |].
  cbn [blankLinesLoop]. destruct (isBlank n).
  - destruct (c + 1 <=? maxBlank); constructor; apply IH.
  - constructor. apply IH.
Qed.

Lemma kinds_dropTrailingBlank : forall ns, Subseq (dropTrailingBlank ns) ns.
Proof.
  induction ns as [| n rest IH]; [constructor |].
  cbn [dropTrailingBlank].
  destruct (dropTrailingBlank rest) as [| r rest'].
  - destruct (isBlank n); constructor; exact IH.
  - constructor. exact IH.
Qed.

Lemma Subseq_map : forall (A B : Type) (f : A -> B) (l l' : list A),
  Subseq l l' -> Subseq (map f l) (map f l').
Proof. intros A B f l l' H. induction H; cbn [map]; constructor; assumption. Qed.

Lemma kinds_alignLoop : forall fuel ns mode,
  map kindOf (alignLoop fuel ns mode) = map kindOf ns.
Proof.
  induction fuel as [| fuel IH]; intros ns mode; [reflexivity |].
  cbn [alignLoop]. destruct ns as [| n rest]; [reflexivity |].
  destruct (negb (isAssignment n)).
  - cbn [map]. f_equal. apply IH.
  - destruct (spanAssignments (n :: rest)) as [group rest'] eqn:Es.
    destruct (spanAssignments_spec _ _ _ Es) as (E & _ & _).
    rewrite E, !map_app, IH. f_equal.
    destruct (len group >? 1); [| reflexivity].
    unfold alignGroup. rewrite map_map. apply map_ext.
    intros x. apply kindOf_alignOne.
Qed.

Lemma kinds_commentSpacingLoop : forall ns out,
  commentSpacingLoop ns = Some out -> map kindOf out = map kindOf ns.
Proof.
  induction ns as [| n rest IH]; intros out H; cbn [commentSpacingLoop] in H.
  - injection H as <-. reflexivity.
  - destruct (NodeType_eqb (Typ n) NodeComment && shouldNormalize n).
    + destruct (normalizeComment n) as [n' |] eqn:En; cbn [bind] in H;
        [| discriminate].
      destruct (commentSpacingLoop rest) as [rest' |]; cbn [bind] in H;
        [| discriminate].
      injection H as <-. cbn [map]. f_equal;
        [apply kindOf_normalizeComment; exact En | apply IH; reflexivity].
    + cbn [bind] in H.
      destruct (commentSpacingLoop rest) as [rest' |]; cbn [bind] in H;
        [| discriminate].
      injection H as <-. cbn [map]. f_equal. apply IH. reflexivity.
Qed.

Lemma kinds_indentConditionals : forall ns indent level,
  map kindOf (indentConditionals ns indent level) = map kindOf ns.
Proof.
  induction ns as [| n rest IH]; intros indent level; [reflexivity |].
  cbn [indentConditionals].
  repeat match goal with
         | |- context [if ?b then _ :: _ else _] => destruct b
         end;
    cbn [map]; rewrite ?kindOf_applyIndent, IH; try reflexivity.
  destruct (level >? 0); rewrite ?kindOf_applyIndent; reflexivity.
Qed.

Lemma Subseq_trans : forall (A : Type) (l1 l2 l3 : list A),
  Subseq l1 l2 -> Subseq l2 l3 -> Subseq l1 l3.
Proof.
  intros A l1 l2 l3 H12 H23. revert l1 H12.
  induction H23 as [| x l2 l3 H IH | x l2 l3 H IH]; intros l1 H12.
  - exact H12.
  - inversion H12; subst; constructor; apply IH; assumption.
  - constructor. apply IH. exact H12.
Qed.

Lemma dropTrailingBlank_fixed : forall ns,
  (forall front x, ns = front ++ [x] -> isBlank x = false) ->
  dropTrailingBlank ns = ns.
Proof.
  induction ns as [| n rest IH]; intros H; [reflexivity |].
  cbn [dropTrailingBlank]. rewrite IH.
  - destruct rest as [| r rest']; [| reflexivity].
    rewrite (H [] n eq_refl). reflexivity.
  - intros front x E. apply (H (n :: front) x). rewrite E. reflexivity.
Qed.

Lemma rule_keeps_kinds : forall rule ns cfg out,
  In rule FormatRulesDocumented ->
  Format rule ns cfg = Some out ->
  Subseq (map kindOf out) (map kindOf ns).
Proof.
  intros rule ns cfg out Hin H.
  unfold FormatRulesDocumented in Hin. cbn [In] in Hin.
  repeat (destruct Hin as [<- | Hin]); try contradiction;
    cbv beta iota delta [Format TrailingWhitespace FinalNewline BlankLines
      AssignmentSpacingRule AlignAssignmentsRule BackslashAlign
      CommentSpacing ConditionalIndentRule BannerPreserve total] in H;
    try (injection H as <-).
  - unfold TrailingWhitespace_Format.
    destruct (negb (TrimTrailingWhitespace cfg)); [apply Subseq_refl |].
    apply Subseq_same. rewrite map_map. apply map_ext.
    apply kindOf_trimNode.
  - unfold FinalNewline_Format.
    destruct (negb (InsertFinalNewline cfg)); [apply Subseq_refl |].
    destruct (len ns =? 0); [apply Subseq_refl |].
    apply Subseq_map. apply kinds_dropTrailingBlank.
  - unfold BlankLines_Format.
    destruct (MaxBlankLines cfg <? 0); [apply Subseq_refl |].
    apply Subseq_map. apply kinds_blankLinesLoop.
  - unfold AssignmentSpacing_Format.
    destruct (eqs (AssignmentSpacing cfg) "preserve");
      [apply Subseq_refl |].
    apply Subseq_same. rewrite map_map. apply map_ext. intros n.
    destruct (isAssignment n);
      [apply kindOf_normalizeAssignment | reflexivity].
  - unfold AlignAssignments_Format.
    destruct (negb (AlignAssignments cfg)); [apply Subseq_refl |].
    apply Subseq_same. apply kinds_alignLoop.
  - unfold BackslashAlign_Format.
    destruct (negb (AlignBackslashContinuations cfg));
      [apply Subseq_refl |].
    apply Subseq_same. rewrite map_map. apply map_ext. intros n.
    destruct (negb (hasContinuation (Raw n)));
      [reflexivity | apply kindOf_alignBackslashes].
  - unfold CommentSpacing_Format in H.
    destruct (negb (SpaceAfterComment cfg)).
    + injection H as <-. apply Subseq_refl.
    + apply Subseq_same. apply kinds_commentSpacingLoop. exact H.
  - unfold ConditionalIndent_Format.
    destruct (negb (IndentConditionals cfg) || (ConditionalIndent cfg <=? 0));
      [apply Subseq_refl |].
    apply Subseq_same. apply kinds_indentConditionals.
  - apply Subseq_refl.
Qed.

(** *** The text that indent_conditionals rebuilds *)

(** [reconstructRaw] gives the text that the writer gives for a node
    without raw text, except for section headers, recipe lines and
    rules with order-only prerequisites. *)
Lemma reconstructRaw_writeOwn : forall n,
  Typ n <> NodeSectionHeader -> Typ n <> NodeRecipe ->
  (Typ n = NodeRule -> OrderOnly (Parser.Fields n) = []) ->
  reconstructRaw n = Formatter.writeOwn (setRaw n []).
Proof.
  intros [t l r cs f] H1 H2 H3. cbn [Typ Parser.Fields] in *.
  unfold reconstructRaw, Formatter.writeOwn, setRaw.
  cbn [Typ Raw Line Children Parser.Fields eqs negb].
  destruct t; try reflexivity; try contradiction.
  - unfold Formatter.writeComment. cbn [Parser.Fields].
    destruct (negb (eqs (Text f) [])); [reflexivity |].
    rewrite app_nil_r. reflexivity.
  - unfold Formatter.writeAssignment. cbn [Parser.Fields].
    destruct (negb (eqs (VarValue f) []));
      repeat rewrite <- app_assoc; rewrite ?app_nil_r; reflexivity.
  - unfold Formatter.writeRule. cbn [Parser.Fields].
    rewrite (H3 eq_refl). change (len (@nil gostring) >? 0) with false.
    cbn iota.
    destruct (len (Prerequisites f) >? 0);
      destruct (negb (eqs (InlineHelp f) []));
      repeat rewrite <- app_assoc; cbn [app]; rewrite ?app_nil_r;
      reflexivity.
  - unfold Formatter.writeConditional. cbn [Parser.Fields].
    destruct (negb (eqs (Condition f) [])); [reflexivity |].
    rewrite app_nil_r. reflexivity.
  - unfold Formatter.writeInclude. cbn [Parser.Fields].
    destruct (len (Paths f) >? 0); [reflexivity |].
    rewrite app_nil_r. reflexivity.
Qed.

Lemma writeOwn_setRaw : forall n r,
  r <> [] -> Formatter.writeOwn (setRaw n r) = r.
Proof.
  intros n r Hr. unfold Formatter.writeOwn. cbn [Raw setRaw].
  apply eqs_false in Hr. rewrite Hr. reflexivity.
Qed.

Lemma writeOwn_no_raw : forall n,
  Raw n = [] -> Formatter.writeOwn (setRaw n []) = Formatter.writeOwn n.
Proof. intros [t l r cs f] E. cbn [Raw] in E. subst r. reflexivity. Qed.

End RuleFacts.

(** ** Properties of the rules and of the engine *)

Module RuleProps.

Import Strings Parser Config Engine Rules RuleSpec.
Import SliceFacts StringFacts NodeFacts RuleFacts.

(** X1.  With a limit that is not negative, the output of
    max_blank_lines has no run of consecutive blank-line nodes longer
    than the limit. *)
Theorem blank_runs_bounded : forall ns cfg pre run post,
  0 <= MaxBlankLines cfg ->
  BlankLines_Format ns cfg = pre ++ run ++ post ->
  Forall (fun n => isBlank n = true) run ->
  len run <= MaxBlankLines cfg.
Proof.
  intros ns cfg pre run post Hmax E HF. unfold BlankLines_Format in E.
  destruct (Z.ltb_spec (MaxBlankLines cfg) 0); [lia |].
  destruct run as [| x run']; [rewrite len_nil; exact Hmax |].
  destruct (blankLinesLoop_runs ns (MaxBlankLines cfg) 0) as [_ Hrun];
    [lia |].
  apply (Hrun pre (x :: run') post E); [discriminate | exact HF].
Qed.

Lemma blank_runs_bounded_witness :
  len (BlankLines_Format
         [mkNode NodeBlankLine 1 [] [] noFields; mkNode NodeBlankLine 2 [] [] noFields;
          mkNode NodeBlankLine 3 [] [] noFields] DefaultConfig)
  <= MaxBlankLines DefaultConfig.
Proof.
  apply (blank_runs_bounded
           [mkNode NodeBlankLine 1 [] [] noFields; mkNode NodeBlankLine 2 [] [] noFields;
            mkNode NodeBlankLine 3 [] [] noFields] DefaultConfig []
           (BlankLines_Format
              [mkNode NodeBlankLine 1 [] [] noFields; mkNode NodeBlankLine 2 [] [] noFields;
               mkNode NodeBlankLine 3 [] [] noFields] DefaultConfig) []).
  - vm_compute. discriminate.
  - rewrite app_nil_r. reflexivity.
  - vm_compute. repeat constructor.
Defined.

(** X2.  max_blank_lines removes blank-line nodes only: the other nodes
    of the input are all in the output, in their order. *)
Theorem blank_lines_keeps_other_nodes : forall ns cfg,
  filter (fun n => negb (isBlank n)) (BlankLines_Format ns cfg)
  = filter (fun n => negb (isBlank n)) ns.
Proof.
  intros ns cfg. unfold BlankLines_Format.
  destruct (MaxBlankLines cfg <? 0); [reflexivity |].
  apply blankLinesLoop_filter.
Qed.

(** X3.  With insert_final_newline enabled, the output is the input
    without the blank-line nodes at its end: what is cut off is blank,
    and the last node kept is not. *)
Theorem final_newline_strips_trailing_blanks : forall ns cfg,
  InsertFinalNewline cfg = true ->
  exists blanks,
    ns = FinalNewline_Format ns cfg ++ blanks
    /\ Forall (fun n => isBlank n = true) blanks
    /\ (forall front x, FinalNewline_Format ns cfg = front ++ [x] ->
                        isBlank x = false).
Proof.
  intros ns cfg He. unfold FinalNewline_Format. rewrite He. cbn [negb].
  destruct (len ns =? 0) eqn:E0; [| apply dropTrailingBlank_spec].
  apply Z.eqb_eq in E0. destruct ns as [| n rest];
    [| rewrite len_cons in E0; pose proof (len_nonneg _ rest); lia].
  exists []. split; [reflexivity |]. split; [constructor |].
  intros front x E. destruct front; discriminate.
Qed.

Lemma final_newline_strips_trailing_blanks_witness :
  exists blanks,
    [mkNode NodeRaw 1 "a" [] noFields; mkNode NodeBlankLine 2 [] [] noFields]
    = FinalNewline_Format
        [mkNode NodeRaw 1 "a" [] noFields; mkNode NodeBlankLine 2 [] [] noFields] DefaultConfig
      ++ blanks
    /\ Forall (fun n => isBlank n = true) blanks
    /\ (forall front x,
          FinalNewline_Format
            [mkNode NodeRaw 1 "a" [] noFields; mkNode NodeBlankLine 2 [] [] noFields]
            DefaultConfig = front ++ [x] ->
          isBlank x = false).
Proof.
  apply (final_newline_strips_trailing_blanks
           [mkNode NodeRaw 1 "a" [] noFields; mkNode NodeBlankLine 2 [] [] noFields]
           DefaultConfig).
  reflexivity.
Defined.

(** X4.  [trimRawLines] keeps the lines of a raw text, each without
    the spaces and tabs at its end: no line of the result ends with a
    space or a tab. *)
Theorem trimmed_lines : forall raw,
  Split (trimRawLines raw) NL
  = map (fun line => TrimRight line " 	") (Split raw NL)
  /\ forall l front c,
       In l (Split (trimRawLines raw) NL) -> l = front ++ [c] ->
       c <> SP /\ c <> TAB.
Proof.
  intros raw. split; [apply trimRawLines_lines |].
  intros l front c Hin E. rewrite trimRawLines_lines in Hin.
  apply in_map_iff in Hin as (l0 & El & _). rewrite E in El.
  apply TrimRight_last in El.
  split; intros ->; vm_compute in El; discriminate.
Qed.

(** X5.  trim_trailing_whitespace, insert_final_newline and
    max_blank_lines are idempotent: applied to its own output, each
    returns it as it is. *)
Theorem simple_rules_idempotent : forall rule ns cfg out,
  In rule [TrailingWhitespace; FinalNewline; BlankLines] ->
  Format rule ns cfg = Some out ->
  Format rule out cfg = Some out.
Proof.
  intros rule ns cfg out Hin H. cbn [In] in Hin.
  destruct Hin as [<- | [<- | [<- | []]]];
    cbv beta iota delta [Format TrailingWhitespace FinalNewline BlankLines
      total] in *;
    injection H as <-; f_equal.
  - unfold TrailingWhitespace_Format.
    destruct (negb (TrimTrailingWhitespace cfg)); [reflexivity |].
    rewrite map_map. apply map_ext. apply trimNode_again.
  - unfold FinalNewline_Format.
    destruct (negb (InsertFinalNewline cfg)); [reflexivity |].
    destruct (len ns =? 0) eqn:E0; [rewrite E0; reflexivity |].
    destruct (len (dropTrailingBlank ns) =? 0); [reflexivity |].
    apply dropTrailingBlank_fixed.
    destruct (dropTrailingBlank_spec ns) as (blanks & _ & _ & Hlast).
    exact Hlast.
  - unfold BlankLines_Format.
    destruct (MaxBlankLines cfg <? 0); [reflexivity |].
    apply blankLinesLoop_again. lia.
Qed.

Lemma simple_rules_idempotent_witness :
  Format BlankLines
    [mkNode NodeBlankLine 1 [] [] noFields; mkNode NodeBlankLine 2 [] [] noFields] DefaultConfig
  = Some [mkNode NodeBlankLine 1 [] [] noFields; mkNode NodeBlankLine 2 [] [] noFields].
Proof.
  apply (simple_rules_idempotent BlankLines
           [mkNode NodeBlankLine 1 [] [] noFields; mkNode NodeBlankLine 2 [] [] noFields;
            mkNode NodeBlankLine 3 [] [] noFields] DefaultConfig).
  - right. right. left. reflexivity.
  - vm_compute. reflexivity.
Defined.



(** The engine applies a list of rules one after the other: the
    run of [rs1 ++ rs2] is the run of [rs2] on the result of the run of
    [rs1], and it fails when the first run fails. *)
Theorem run_app : forall rs1 rs2 ns cfg,
  Run ns cfg (rs1 ++ rs2) = (out <- Run ns cfg rs1 ;; Run out cfg rs2).
Proof.
  induction rs1 as [| r rs1 IH]; intros rs2 ns cfg; [reflexivity |].
  cbn [app Run]. destruct (Format r ns cfg) as [out |]; cbn [bind].
  - apply IH.
  - reflexivity.
Qed.

(** X7.  No run of documented rules adds or reorders nodes, or changes
    the type or the source line of a node: the types and lines of the
    output are those of the input, some left out. *)
Theorem run_keeps_kinds : forall rules ns cfg out,
  (forall rule, In rule rules -> In rule FormatRulesDocumented) ->
  Run ns cfg rules = Some out ->
  Subseq (map kindOf out) (map kindOf ns).
Proof.
  induction rules as [| r rules IH]; intros ns cfg out Hin H.
  - injection H as <-. apply Subseq_refl.
  - cbn [Run] in H.
    destruct (Format r ns cfg) as [mid |] eqn:E; cbn [bind] in H;
      [| discriminate].
    apply Subseq_trans with (l2 := map kindOf mid).
    + apply (IH mid cfg out); [| exact H].
      intros rule Hr. apply Hin. right. exact Hr.
    + apply (rule_keeps_kinds r ns cfg mid); [| exact E].
      apply Hin. left. reflexivity.
Qed.

Lemma run_keeps_kinds_witness :
  exists out,
    Run [mkNode NodeBlankLine 1 [] [] noFields; mkNode NodeRaw 2 "a" [] noFields] DefaultConfig
      FormatRules = Some out
    /\ Subseq (map kindOf out)
         (map kindOf [mkNode NodeBlankLine 1 [] [] noFields; mkNode NodeRaw 2 "a" [] noFields]).
Proof.
  eexists. split; [vm_compute; reflexivity |].
  apply (run_keeps_kinds FormatRules
           [mkNode NodeBlankLine 1 [] [] noFields; mkNode NodeRaw 2 "a" [] noFields]
           DefaultConfig).
  - intros rule H. unfold FormatRules in H. cbn [In] in H.
    unfold FormatRulesDocumented. cbn [In]. tauto.
  - vm_compute. reflexivity.
Defined.

(** X8.  Inside a conditional, [applyIndent] puts the indentation
    before the text that the writer gives for the node and changes
    nothing else of it.  For a node without raw text this holds as far
    as [reconstructRaw] agrees with the writer: not for section
    headers, recipe lines and rules with order-only prerequisites. *)
Theorem indent_prefixes_written_text : forall n indent level,
  0 < level ->
  Raw n <> []
  \/ (Typ n <> NodeSectionHeader /\ Typ n <> NodeRecipe
      /\ (Typ n = NodeRule -> OrderOnly (Parser.Fields n) = [])) ->
  Formatter.writeNode (applyIndent n indent level)
  = Repeat indent level ++ Formatter.writeNode n.
Proof.
  intros n indent level Hl Hn. unfold applyIndent.
  destruct (Z.leb_spec level 0); [lia |]. rewrite Clone_id.
  assert (Hw : forall m, Formatter.writeNode m
               = Formatter.writeOwn m
                 ++ Formatter.writeChildrenOf (Children m))
    by (intros [t l r cs f]; reflexivity).
  rewrite !Hw. cbn [Children setRaw]. rewrite app_assoc. f_equal.
  destruct (eqs (Raw n) []) eqn:Er.
  - apply eqs_spec in Er.
    destruct Hn as [Hn | (H1 & H2 & H3)]; [contradiction |].
    rewrite (reconstructRaw_writeOwn n H1 H2 H3).
    rewrite (writeOwn_no_raw n Er).
    destruct (Repeat indent level ++ Formatter.writeOwn n) as [| c t] eqn:E.
    + apply app_eq_nil in E as [E1 E2].
      rewrite (writeOwn_no_raw n Er). exact E2.
    + apply writeOwn_setRaw. discriminate.
  - apply eqs_false in Er.
    assert (Ew : Formatter.writeOwn n = Raw n).
    { unfold Formatter.writeOwn. apply eqs_false in Er. rewrite Er.
      reflexivity. }
    rewrite Ew. apply writeOwn_setRaw.
    intros C. apply app_eq_nil in C as [_ C]. contradiction.
Qed.

Lemma indent_prefixes_written_text_witness :
  Formatter.writeNode
    (applyIndent (mkNode NodeRaw 2 "foo: bar" [] noFields) "  " 1)
  = Repeat "  " 1
    ++ Formatter.writeNode (mkNode NodeRaw 2 "foo: bar" [] noFields).
Proof.
  apply (indent_prefixes_written_text
           (mkNode NodeRaw 2 "foo: bar" [] noFields) "  " 1).
  - lia.
  - left. discriminate.
Defined.

End RuleProps.

(** ** The edit script transforms the old lines into the new ones *)

Module ScriptFacts.

Import Strings Diff MyersSpec DiffSpec SliceFacts StringFacts MyersFacts.

Lemma replay_app : forall a b es1 es2 x y,
  replay a b (es1 ++ es2) x y
  = ('(x', y') <- replay a b es1 x y ;; replay a b es2 x' y').
Proof.
  intros a b. induction es1 as [| e es1 IH]; intros es2 x y;
    [reflexivity |].
  cbn [app replay]. destruct (kind e);
    match goal with
    | |- context [if ?c then _ else _] => destruct c
    end; try reflexivity; apply IH.
Qed.

Lemma sameLine_of_index : forall (a b : list gostring) x y,
  0 <= x < len a -> index a x = index b y -> sameLine a b x y = true.
Proof.
  intros a b x y Hx E. unfold sameLine.
  destruct (index_some _ a x Hx) as (l & El). rewrite <- E, El.
  apply eqs_refl.
Qed.

(** Walking back [j] steps along a diagonal of equal lines. *)
Lemma diagBack_replay : forall a b fuel x y px py es,
  (Z.to_nat (x - px) < fuel)%nat ->
  let j := Z.max 0 (Z.min (x - px) (y - py)) in
  (forall i, 0 < i <= j ->
     0 <= x - i < len a /\ index a (x - i) = index b (y - i)) ->
  exists extra,
    diagBack fuel x y px py es = Some (x - j, y - j, es ++ extra)
    /\ replay a b (rev extra) (x - j) (y - j) = Some (x, y).
Proof.
  intros a b. induction fuel as [| fuel IH]; intros x y px py es Hf j Heq;
    [lia |].
  subst j. cbn [diagBack].
  destruct (Z.gtb_spec x px) as [Hx | Hx]; cbn [andb].
  - destruct (Z.gtb_spec y py) as [Hy | Hy].
    + destruct (IH (x - 1) (y - 1) px py
                  (es ++ [mkEdit editEqual (x - 1) (y - 1)]))
        as (extra & E & R); [lia | |].
      * intros i Hi.
        replace (x - 1 - i) with (x - (i + 1)) by lia.
        replace (y - 1 - i) with (y - (i + 1)) by lia.
        apply Heq. lia.
      * exists (mkEdit editEqual (x - 1) (y - 1) :: extra).
        rewrite E. split.
        -- rewrite <- app_assoc. cbn [app]. f_equal. f_equal. f_equal; lia.
        -- cbn [rev]. rewrite replay_app.
           replace (x - Z.max 0 (Z.min (x - px) (y - py)))
             with (x - 1 - Z.max 0 (Z.min (x - 1 - px) (y - 1 - py)))
             by lia.
           replace (y - Z.max 0 (Z.min (x - px) (y - py)))
             with (y - 1 - Z.max 0 (Z.min (x - 1 - px) (y - 1 - py)))
             by lia.
           rewrite R. cbn [bind replay kind oldIdx newIdx].
           rewrite !Z.eqb_refl. cbn [andb].
           destruct (Heq 1) as [Hr He]; [lia |].
           rewrite (sameLine_of_index a b (x - 1) (y - 1) Hr He).
           f_equal. f_equal; lia.
    + exists []. rewrite app_nil_r. cbn [rev replay]. split.
      * f_equal. f_equal. f_equal; lia.
      * f_equal. f_equal; lia.
  - exists []. rewrite app_nil_r. cbn [rev replay]. split.
    + f_equal. f_equal. f_equal; lia.
    + f_equal. f_equal; lia.
Qed.

(** The lines between the point a step moves to and the point its
    diagonal run ends at are equal. *)
Lemma run_lines_equal : forall a b s k x i,
  valid (S s) k -> x = V a b (S s) k -> x <= len a ->
  0 < i <= x - moved a b s k ->
  0 <= x - i < len a /\ index a (x - i) = index b (x - k - i).
Proof.
  intros a b s k x i Hv Hx Hxn Hi.
  destruct (moved_nonneg a b s k Hv) as [M1 M2].
  rewrite V_succ in Hx.
  destruct (snakeX_spec a b (moved a b s k) (moved a b s k - k) M1 M2)
    as (_ & _ & _ & _ & _ & Heq).
  rewrite <- Hx in Heq.
  split; [lia |].
  specialize (Heq (x - i - moved a b s k)).
  replace (moved a b s k + (x - i - moved a b s k)) with (x - i) in Heq
    by lia.
  replace (moved a b s k - k + (x - i - moved a b s k)) with (x - k - i)
    in Heq by lia.
  apply Heq. lia.
Qed.

Lemma backLoop_replay : forall a b D trace,
  TraceOK a b D trace ->
  forall st x y es,
    (st <= D)%nat -> valid st (x - y) -> x = V a b st (x - y) ->
    x <= len a -> y <= len b ->
    replay a b (rev es) x y = Some (len a, len b) ->
    exists x' es',
      backLoop st trace (len a + len b) x y es = Some (x', x', es')
      /\ x' = V a b 0 0
      /\ replay a b (rev es') x' x' = Some (len a, len b).
Proof.
  intros a b D trace [Hlen Htr].
  induction st as [| s IH]; intros x y es Hst Hv Hx Hxn Hym HR.
  - destruct Hv as (j & Hj & Hk). simpl Z.of_nat in *.
    assert (y = x) by lia. subst y.
    exists x, es. cbn [backLoop]. split; [reflexivity |].
    split; [exact Hx | exact HR].
  - cbn [backLoop]. rewrite index_nat.
    destruct (nth_error trace (S s)) as [v |] eqn:Ev;
      [| apply nth_error_None in Ev; lia].
    cbn [bind].
    assert (HA : Agree a b s v) by (apply (Htr (S s) v Hst Ev)).
    rewrite (movesDown_agree a b v s (x - y) HA Hv). cbn [bind].
    pose proof (V_ge_moved a b s (x - y) Hv) as Hge. rewrite <- Hx in Hge.
    destruct (V_nonneg a b _ _ Hv) as [V1 V2]. rewrite <- Hx in V1, V2.
    pose proof (fun i => run_lines_equal a b s (x - y) x i Hv Hx Hxn)
      as Hrun.
    destruct HA as [Hl Hg].
    destruct (downV_cases a b s (x - y) Hv)
      as [(Ed & Hp & Em) | (Ed & Hp & Em)];
      rewrite Ed; fold (get (len a + len b) v (x - y + 1));
      fold (get (len a + len b) v (x - y - 1));
      rewrite (Hg _ Hp); cbn [bind];
      destruct (V_nonneg a b _ _ Hp) as [P1 P2]; rewrite Em in Hge, Hrun.
    + set (px := V a b s (x - y + 1)) in *.
      destruct (diagBack_replay a b (S (Z.to_nat (x - px))) x y px
                  (px - (x - y + 1)) es) as (ex1 & E1 & R1); [lia | |].
      { intros i Hi.
        replace (y - i) with (x - (x - y) - i) by lia. apply Hrun. lia. }
      rewrite E1. cbn [bind].
      replace (Z.max 0 (Z.min (x - px) (y - (px - (x - y + 1)))))
        with (x - px) in * by lia.
      destruct (IH (x - (x - px)) (y - (x - px) - 1)
                  ((es ++ ex1) ++ [mkEdit editInsert (-1) (y - (x - px) - 1)]))
        as (x' & es' & E2 & Ex & R2); [lia | | | lia | lia | |].
      { replace (x - (x - px) - (y - (x - px) - 1)) with (x - y + 1) by lia.
        exact Hp. }
      { replace (x - (x - px) - (y - (x - px) - 1)) with (x - y + 1) by lia.
        unfold px. lia. }
      { rewrite rev_app_distr. cbn [rev app replay kind oldIdx newIdx].
        rewrite !Z.eqb_refl. cbn [andb]. unfold inRange.
        destruct (Z.leb_spec 0 (y - (x - px) - 1)); [| lia].
        destruct (Z.ltb_spec (y - (x - px) - 1) (len b)); [| lia].
        cbn [andb]. rewrite rev_app_distr, replay_app.
        replace (y - (x - px) - 1 + 1) with (y - (x - px)) by lia.
        rewrite R1. cbn [bind]. exact HR. }
      rewrite E2. exists x', es'. split; [reflexivity |].
      split; assumption.
    + set (px := V a b s (x - y - 1)) in *.
      destruct (diagBack_replay a b (S (Z.to_nat (x - px))) x y px
                  (px - (x - y - 1)) es) as (ex1 & E1 & R1); [lia | |].
      { intros i Hi.
        replace (y - i) with (x - (x - y) - i) by lia. apply Hrun. lia. }
      rewrite E1. cbn [bind].
      replace (Z.max 0 (Z.min (x - px) (y - (px - (x - y - 1)))))
        with (x - px - 1) in * by lia.
      destruct (IH (x - (x - px - 1) - 1) (y - (x - px - 1))
                  ((es ++ ex1)
                     ++ [mkEdit editDelete (x - (x - px - 1) - 1) (-1)]))
        as (x' & es' & E2 & Ex & R2); [lia | | | lia | lia | |].
      { replace (x - (x - px - 1) - 1 - (y - (x - px - 1)))
          with (x - y - 1) by lia.
        exact Hp. }
      { replace (x - (x - px - 1) - 1 - (y - (x - px - 1)))
          with (x - y - 1) by lia.
        unfold px. lia. }
      { rewrite rev_app_distr. cbn [rev app replay kind oldIdx newIdx].
        rewrite !Z.eqb_refl. cbn [andb]. unfold inRange.
        destruct (Z.leb_spec 0 (x - (x - px - 1) - 1)); [| lia].
        destruct (Z.ltb_spec (x - (x - px - 1) - 1) (len a)); [| lia].
        cbn [andb]. rewrite rev_app_distr, replay_app.
        replace (x - (x - px - 1) - 1 + 1) with (x - (x - px - 1)) by lia.
        rewrite R1. cbn [bind]. exact HR. }
      rewrite E2. exists x', es'. split; [reflexivity |].
      split; assumption.
Qed.

Lemma backtrack_replay : forall a b D trace,
  TraceOK a b D trace -> valid D (len a - len b) ->
  V a b D (len a - len b) = len a ->
  exists es,
    backtrack trace a b (Z.of_nat D) (len a + len b) = Some es
    /\ replay a b es 0 0 = Some (len a, len b).
Proof.
  intros a b D trace HT Hv HV. unfold backtrack. rewrite Nat2Z.id.
  destruct (backLoop_replay a b D trace HT D (len a) (len b) [])
    as (x & es1 & E1 & Ex & R1);
    [lia | exact Hv | symmetry; exact HV | lia | lia | reflexivity |].
  rewrite E1. cbn [bind].
  assert (H0 : 0 <= 0) by lia.
  destruct (snakeX_spec a b 0 0 H0 H0) as (_ & S1 & S2 & _ & _ & S5).
  pose proof (len_nonneg _ a) as Ha.
  cbn [V] in Ex. rewrite <- Ex in S1, S2, S5.
  destruct (diagBack_replay a b (S (Z.to_nat x)) x x 0 0 es1)
    as (ex2 & E2 & R2); [lia | |].
  { intros i Hi. split; [lia |].
    specialize (S5 (x - i)). cbn [Z.add] in S5.
    replace (0 + (x - i)) with (x - i) in S5 by lia. apply S5. lia. }
  rewrite E2. cbn [bind].
  replace (x - Z.max 0 (Z.min (x - 0) (x - 0))) with 0 in R2 by lia.
  eexists. split; [reflexivity |].
  rewrite rev_app_distr, replay_app, R2. cbn [bind]. exact R1.
Qed.

(** The script of the search, replayed from the start of both
    sequences, ends at their ends. *)
Lemma myers_replay : forall a b,
  exists es,
    myers a b = Some es /\ replay a b es 0 0 = Some (len a, len b).
Proof.
  intros a b. unfold myers.
  pose proof (len_nonneg _ a) as Ha. pose proof (len_nonneg _ b) as Hb.
  destruct (Z.eqb_spec (len a + len b) 0) as [E0 | Hne].
  - exists []. split; [reflexivity |]. cbn [replay].
    f_equal. f_equal; lia.
  - assert (Ht : 0 < len a + len b) by lia.
    destruct (outerLoop_spec a b (Z.to_nat (len a + len b) + 2) 0
                (repeat 0 (Z.to_nat (2 * (len a + len b) + 1))) [])
      as (D & trace & HD & HT & Hno & (k & Hv & He) & E);
      try (simpl; lia); try assumption; try reflexivity;
      try (intros; lia).
    change (Z.of_nat 0) with 0 in E. rewrite E.
    assert (Hend : V a b D k = len a /\ k = len a - len b).
    { destruct D as [| s].
      - apply first_end_exact_0; assumption.
      - apply first_end_exact; try assumption. apply Hno. lia. }
    destruct Hend as [HV ->].
    apply (backtrack_replay a b D trace HT Hv HV).
Qed.

Lemma skipn_nth_error_cons : forall (A : Type) (l : list A) i x,
  nth_error l i = Some x -> skipn i l = x :: skipn (S i) l.
Proof.
  intros A. induction l as [| h t IH]; intros i x H.
  - destruct i; discriminate.
  - destruct i as [| i].
    + injection H as <-. reflexivity.
    + cbn [nth_error] in H. cbn [skipn]. apply (IH i x H).
Qed.

(** What a replay that succeeds says of the lines read and written. *)
Lemma replay_consumed : forall a b es x y x' y',
  replay a b es x y = Some (x', y') -> 0 <= x ->
  x <= x' /\ (x' <= len a ->
              consumed a es
              = Some (firstn (Z.to_nat (x' - x)) (skipn (Z.to_nat x) a))).
Proof.
  intros a b. induction es as [| e es IH]; intros x y x' y' H Hx.
  - injection H as <- <-. split; [lia |]. intros _.
    rewrite Z.sub_diag. reflexivity.
  - cbn [replay consumed] in *. destruct (kind e).
    + destruct (Z.eqb_spec (oldIdx e) x) as [Eo |]; [| discriminate].
      destruct (newIdx e =? y); [| discriminate]. cbn [andb] in H.
      unfold sameLine in H. rewrite Eo.
      destruct (index a x) as [l |] eqn:El; [| discriminate].
      destruct (index b y); [| discriminate].
      destruct (eqs l g); [| discriminate].
      destruct (IH _ _ _ _ H) as [Hle Hc]; [lia |].
      split; [lia |]. intros Hn. rewrite (Hc Hn). cbn [bind].
      f_equal. apply index_bounds in El as Hb.
      unfold index in El. destruct (x <? 0); [discriminate |].
      replace (Z.to_nat (x' - x)) with (S (Z.to_nat (x' - (x + 1)))) by lia.
      replace (Z.to_nat (x + 1)) with (S (Z.to_nat x)) by lia.
      rewrite (skipn_nth_error_cons _ _ _ _ El). reflexivity.
    + destruct (oldIdx e =? -1); [| discriminate].
      destruct (newIdx e =? y); [| discriminate].
      destruct (inRange b y); [| discriminate]. cbn [andb] in H.
      apply (IH _ _ _ _ H Hx).
    + destruct (Z.eqb_spec (oldIdx e) x) as [Eo |]; [| discriminate].
      destruct (newIdx e =? -1); [| discriminate]. cbn [andb] in H.
      unfold inRange in H. rewrite Eo.
      destruct (Z.leb_spec 0 x); [| discriminate].
      destruct (Z.ltb_spec x (len a)); [| discriminate]. cbn [andb] in H.
      destruct (index_some _ a x) as (l & El); [lia |].
      destruct (IH _ _ _ _ H) as [Hle Hc]; [lia |].
      split; [lia |]. intros Hn. rewrite El, (Hc Hn). cbn [bind].
      f_equal.
      unfold index in El. destruct (x <? 0); [discriminate |].
      replace (Z.to_nat (x' - x)) with (S (Z.to_nat (x' - (x + 1)))) by lia.
      replace (Z.to_nat (x + 1)) with (S (Z.to_nat x)) by lia.
      rewrite (skipn_nth_error_cons _ _ _ _ El). reflexivity.
Qed.

Lemma replay_patched : forall a b es x y x' y',
  replay a b es x y = Some (x', y') -> 0 <= y ->
  y <= y' /\ (y' <= len b ->
              patched a b es
              = Some (firstn (Z.to_nat (y' - y)) (skipn (Z.to_nat y) b))).
Proof.
  intros a b. induction es as [| e es IH]; intros x y x' y' H Hy.
  - injection H as <- <-. split; [lia |]. intros _.
    rewrite Z.sub_diag. reflexivity.
  - cbn [replay patched] in *. destruct (kind e).
    + destruct (Z.eqb_spec (oldIdx e) x) as [Eo |]; [| discriminate].
      destruct (newIdx e =? y); [| discriminate]. cbn [andb] in H.
      unfold sameLine in H. rewrite Eo.
      destruct (index a x) as [l |] eqn:El; [| discriminate].
      destruct (index b y) as [l' |] eqn:El'; [| discriminate].
      destruct (eqs l l') eqn:Eq; [| discriminate].
      apply eqs_spec in Eq. subst l'.
      destruct (IH _ _ _ _ H) as [Hle Hc]; [lia |].
      split; [lia |]. intros Hn. rewrite (Hc Hn). cbn [bind].
      f_equal.
      unfold index in El'. destruct (y <? 0); [discriminate |].
      replace (Z.to_nat (y' - y)) with (S (Z.to_nat (y' - (y + 1)))) by lia.
      replace (Z.to_nat (y + 1)) with (S (Z.to_nat y)) by lia.
      rewrite (skipn_nth_error_cons _ _ _ _ El'). reflexivity.
    + destruct (oldIdx e =? -1); [| discriminate].
      destruct (Z.eqb_spec (newIdx e) y) as [En |]; [| discriminate].
      cbn [andb] in H. unfold inRange in H. rewrite En.
      destruct (Z.leb_spec 0 y); [| discriminate].
      destruct (Z.ltb_spec y (len b)); [| discriminate]. cbn [andb] in H.
      destruct (index_some _ b y) as (l & El); [lia |].
      destruct (IH _ _ _ _ H) as [Hle Hc]; [lia |].
      split; [lia |]. intros Hn. rewrite El, (Hc Hn). cbn [bind].
      f_equal.
      unfold index in El. destruct (y <? 0); [discriminate |].
      replace (Z.to_nat (y' - y)) with (S (Z.to_nat (y' - (y + 1)))) by lia.
      replace (Z.to_nat (y + 1)) with (S (Z.to_nat y)) by lia.
      rewrite (skipn_nth_error_cons _ _ _ _ El). reflexivity.
    + destruct (oldIdx e =? x); [| discriminate].
      destruct (newIdx e =? -1); [| discriminate].
      destruct (inRange a x); [| discriminate]. cbn [andb] in H.
      apply (IH _ _ _ _ H Hy).
Qed.

(** Each line a replay passes is named by an edit of the script. *)
Lemma replay_old_line : forall a b es x y x' y' i,
  replay a b es x y = Some (x', y') -> x <= i < x' ->
  exists e,
    In e es /\ oldIdx e = i
    /\ (kind e = editDelete
        \/ (kind e = editEqual /\ exists l, index a i = Some l
                                           /\ index b (newIdx e) = Some l)).
Proof.
  intros a b. induction es as [| e es IH]; intros x y x' y' i H Hi.
  - injection H as <- <-. lia.
  - cbn [replay] in H. destruct (kind e) eqn:Ek.
    + destruct (Z.eqb_spec (oldIdx e) x) as [Eo |]; [| discriminate].
      destruct (Z.eqb_spec (newIdx e) y) as [En |]; [| discriminate].
      cbn [andb] in H. unfold sameLine in H.
      destruct (index a x) as [l |] eqn:El; [| discriminate].
      destruct (index b y) as [l' |] eqn:El'; [| discriminate].
      destruct (eqs l l') eqn:Eq; [| discriminate].
      apply eqs_spec in Eq. subst l'.
      destruct (Z.eq_dec i x) as [-> | Hne].
      * exists e. split; [left; reflexivity |]. split; [exact Eo |].
        right. split; [exact Ek |]. exists l. rewrite En. split; assumption.
      * destruct (IH _ _ _ _ i H) as (e' & Hin & R); [lia |].
        exists e'. split; [right; exact Hin | exact R].
    + destruct (oldIdx e =? -1); [| discriminate].
      destruct (newIdx e =? y); [| discriminate].
      destruct (inRange b y); [| discriminate]. cbn [andb] in H.
      destruct (IH _ _ _ _ i H Hi) as (e' & Hin & R).
      exists e'. split; [right; exact Hin | exact R].
    + destruct (Z.eqb_spec (oldIdx e) x) as [Eo |]; [| discriminate].
      destruct (newIdx e =? -1); [| discriminate].
      destruct (inRange a x); [| discriminate]. cbn [andb] in H.
      destruct (Z.eq_dec i x) as [-> | Hne].
      * exists e. split; [left; reflexivity |]. split; [exact Eo |].
        left. exact Ek.
      * destruct (IH _ _ _ _ i H) as (e' & Hin & R); [lia |].
        exists e'. split; [right; exact Hin | exact R].
Qed.

Lemma replay_new_line : forall a b es x y x' y' i,
  replay a b es x y = Some (x', y') -> y <= i < y' ->
  exists e,
    In e es /\ newIdx e = i
    /\ (kind e = editInsert
        \/ (kind e = editEqual /\ exists l, index b i = Some l
                                           /\ index a (oldIdx e) = Some l)).
Proof.
  intros a b. induction es as [| e es IH]; intros x y x' y' i H Hi.
  - injection H as <- <-. lia.
  - cbn [replay] in H. destruct (kind e) eqn:Ek.
    + destruct (Z.eqb_spec (oldIdx e) x) as [Eo |]; [| discriminate].
      destruct (Z.eqb_spec (newIdx e) y) as [En |]; [| discriminate].
      cbn [andb] in H. unfold sameLine in H.
      destruct (index a x) as [l |] eqn:El; [| discriminate].
      destruct (index b y) as [l' |] eqn:El'; [| discriminate].
      destruct (eqs l l') eqn:Eq; [| discriminate].
      apply eqs_spec in Eq. subst l'.
      destruct (Z.eq_dec i y) as [-> | Hne].
      * exists e. split; [left; reflexivity |]. split; [exact En |].
        right. split; [exact Ek |]. exists l. rewrite Eo. split; assumption.
      * destruct (IH _ _ _ _ i H) as (e' & Hin & R); [lia |].
        exists e'. split; [right; exact Hin | exact R].
    + destruct (oldIdx e =? -1); [| discriminate].
      destruct (Z.eqb_spec (newIdx e) y) as [En |]; [| discriminate].
      destruct (inRange b y); [| discriminate]. cbn [andb] in H.
      destruct (Z.eq_dec i y) as [-> | Hne].
      * exists e. split; [left; reflexivity |]. split; [exact En |].
        left. exact Ek.
      * destruct (IH _ _ _ _ i H) as (e' & Hin & R); [lia |].
        exists e'. split; [right; exact Hin | exact R].
    + destruct (oldIdx e =? x); [| discriminate].
      destruct (newIdx e =? -1); [| discriminate].
      destruct (inRange a x); [| discriminate]. cbn [andb] in H.
      destruct (IH _ _ _ _ i H Hi) as (e' & Hin & R).
      exists e'. split; [right; exact Hin | exact R].
Qed.

End ScriptFacts.

(** ** Every change of the script is in a hunk *)

Module CoverFacts.

Import Strings Diff MyersSpec DiffSpec SliceFacts StringFacts HunkFacts.

Lemma covered_app_l : forall rs rs' j,
  covered rs j -> covered (rs ++ rs') j.
Proof.
  intros rs rs' j (r & Hin & Hr). exists r.
  split; [apply in_or_app; left; exact Hin | exact Hr].
Qed.

Lemma changeAt_last : forall (pre : list edit) e rest j,
  changeAt ((pre ++ [e]) ++ rest) j -> 0 <= j -> j < len pre + 1 ->
  j < len pre \/ (j = len pre /\ isEqualEdit e = false).
Proof.
  intros pre e rest j (x & Hx & Hne) H0 Hj.
  destruct (Z.eq_dec j (len pre)) as [-> | Hd]; [right | left; lia].
  split; [reflexivity |].
  rewrite <- app_assoc in Hx. cbn [app] in Hx.
  rewrite index_app_r in Hx by lia. rewrite Z.sub_diag in Hx.
  injection Hx as <-. exact Hne.
Qed.

Lemma findChangeRegionsFrom_covers : forall es' pre regions,
  chain 0 (len pre) regions ->
  (forall j, 0 <= j < len pre -> changeAt (pre ++ es') j ->
             covered regions j) ->
  forall j, changeAt (pre ++ es') j ->
            covered (findChangeRegionsFrom es' (len pre) regions) j.
Proof.
  induction es' as [| e rest IH]; intros pre regions Hc Hcov j Hj.
  - cbn [findChangeRegionsFrom]. apply Hcov; [| exact Hj].
    destruct Hj as (x & Hx & _). apply index_bounds in Hx.
    rewrite app_nil_r in Hx. exact Hx.
  - cbn [findChangeRegionsFrom].
    assert (Ea : pre ++ e :: rest = (pre ++ [e]) ++ rest)
      by (rewrite <- app_assoc; reflexivity).
    assert (El : len pre + 1 = len (pre ++ [e]))
      by (rewrite len_app, len_cons, len_nil; lia).
    pose proof (len_nonneg _ pre) as Hp.
    rewrite Ea in *. rewrite El.
    pose proof (chain_last _ _ _ Hc Hp) as Hlast.
    destruct (isEqualEdit e) eqn:Ee.
    + apply IH; [eapply chain_mono; [exact Hc | lia] | | exact Hj].
      intros i Hi Hch.
      destruct (changeAt_last pre e rest i Hch) as [Hlt | [_ C]];
        [lia | lia | apply Hcov; [lia | exact Hch] | congruence].
    + destruct (len regions =? 0) eqn:E0; cbn [orb].
      * apply len_zero_nil in E0. subst regions.
        apply IH; [cbn [app chain start end_]; lia | | exact Hj].
        intros i Hi Hch.
        destruct (changeAt_last pre e rest i Hch) as [Hlt | [-> _]];
          [lia | lia | |].
        -- apply covered_app_l. apply Hcov; [lia | exact Hch].
        -- exists (mkRegion (len pre) (len pre)).
           split; [left; reflexivity | cbn [start end_]; lia].
      * assert (Hne : regions <> []) by (intros ->; discriminate).
        destruct (exists_last Hne) as (rs & l & ->).
        apply chain_snoc in Hc as (Hc1 & Hc2 & Hc3 & Hc4).
        rewrite last_last in Hlast.
        destruct (len pre >? end_ (lastRegion (rs ++ [l])) + 1).
        -- apply IH; [| | exact Hj].
           { apply chain_snoc. split.
             - apply chain_snoc. repeat split; try lia.
               eapply chain_mono; [exact Hc1 | lia].
             - rewrite last_last. cbn [start end_]. lia. }
           intros i Hi Hch.
           destruct (changeAt_last pre e rest i Hch) as [Hlt | [-> _]];
             [lia | lia | |].
           ++ apply covered_app_l. apply Hcov; [lia | exact Hch].
           ++ exists (mkRegion (len pre) (len pre)).
              split; [apply in_or_app; right; left; reflexivity |].
              cbn [start end_]. lia.
        -- rewrite setLastEnd_snoc. apply IH; [| | exact Hj].
           { apply chain_snoc. cbn [start end_]. repeat split; try lia.
             eapply chain_mono; [exact Hc1 | lia]. }
           intros i Hi Hch.
           destruct (changeAt_last pre e rest i Hch) as [Hlt | [-> _]];
             [lia | lia | |].
           ++ destruct (Hcov i) as (r & Hin & Hr); [lia | exact Hch |].
              apply in_app_or in Hin as [Hin | [<- | []]].
              ** exists r. split; [apply in_or_app; left; exact Hin |].
                 exact Hr.
              ** exists (mkRegion (start l) (len pre)).
                 split; [apply in_or_app; right; left; reflexivity |].
                 cbn [start end_]. lia.
           ++ exists (mkRegion (start l) (len pre)).
              split; [apply in_or_app; right; left; reflexivity |].
              cbn [start end_]. lia.
Qed.

Lemma mergeRegionsInto_covers : forall regions merged bound,
  0 <= bound ->
  chain 0 bound merged ->
  chain (end_ (lastRegion merged)) bound regions ->
  forall j, covered (merged ++ regions) j ->
            covered (mergeRegionsInto regions merged) j.
Proof.
  induction regions as [| r rest IH]; intros merged bound Hb Hm Hr j Hj.
  - cbn [mergeRegionsInto]. rewrite app_nil_r in Hj. exact Hj.
  - cbn [mergeRegionsInto]. cbn [chain] in Hr.
    destruct Hr as (R1 & R2 & R3 & R4).
    destruct (len merged >? 0) eqn:E0; cbn [andb].
    + assert (Hne : merged <> []) by (intros ->; discriminate).
      destruct (exists_last Hne) as (ms & l & ->).
      unfold lastRegion in *. rewrite last_last in *.
      apply chain_snoc in Hm as (M1 & M2 & M3 & M4).
      destruct (start r - end_ l <=? 2 * contextLines).
      * fold (lastRegion (ms ++ [l])). rewrite setLastEnd_snoc.
        apply (IH (ms ++ [mkRegion (start l) (end_ r)]) bound Hb).
        { apply chain_snoc. cbn [start end_]. repeat split; try lia.
          exact M1. }
        { unfold lastRegion. rewrite last_last. exact R4. }
        destruct Hj as (x & Hin & Hx).
        apply in_app_or in Hin as [Hin | [<- | Hin]].
        -- apply in_app_or in Hin as [Hin | [<- | []]].
           ++ exists x. split; [| exact Hx].
              apply in_or_app. left. apply in_or_app. left. exact Hin.
           ++ exists (mkRegion (start l) (end_ r)). split.
              ** apply in_or_app. left. apply in_or_app. right.
                 left. reflexivity.
              ** cbn [start end_]. lia.
        -- exists (mkRegion (start l) (end_ r)). split.
           ++ apply in_or_app. left. apply in_or_app. right.
              left. reflexivity.
           ++ cbn [start end_]. lia.
        -- exists x. split; [apply in_or_app; right; exact Hin | exact Hx].
      * apply (IH ((ms ++ [l]) ++ [r]) bound Hb).
        { apply chain_snoc. split.
          - apply chain_snoc. repeat split; try lia. exact M1.
          - rewrite last_last. lia. }
        { unfold lastRegion. rewrite last_last. exact R4. }
        rewrite <- app_assoc. exact Hj.
    + assert (merged = []).
      { destruct merged; [reflexivity |].
        rewrite len_cons in E0. pose proof (len_nonneg _ merged).
        destruct (Z.gtb_spec (1 + len merged) 0); [discriminate | lia]. }
      subst merged. cbn [app] in *.
      apply (IH [r] bound Hb).
      { cbn [chain]. cbn in R1. lia. }
      { exact R4. }
      exact Hj.
Qed.

Lemma regionsToHunks_covers : forall es rs hs j x,
  regionsToHunks rs es = Some hs ->
  covered rs j -> index es j = Some x ->
  exists h, In h hs /\ In x (edits h).
Proof.
  intros es. induction rs as [| r rest IH]; intros hs j x H Hc Hx.
  - destruct Hc as (r & [] & _).
  - cbn [regionsToHunks] in H. unfold contextLines in H.
    set (s := Z.max (start r - 3) 0) in *.
    set (e := Z.min (end_ r + 3) (len es - 1)) in *.
    destruct (slice es s (e + 1)) as [hes |] eqn:Es; cbn [bind] in H;
      [| discriminate].
    destruct (findHunkStarts hes) as [os ns].
    destruct (countHunkLines hes) as [oc nc].
    destruct (regionsToHunks rest es) as [hs' |] eqn:Er; cbn [bind] in H;
      [| discriminate].
    injection H as <-.
    destruct Hc as (r' & [<- | Hin] & Hr).
    + exists (mkHunk os oc ns nc hes). split; [left; reflexivity |].
      cbn [edits]. apply (index_In _ hes (j - s)).
      rewrite (slice_index _ _ _ _ _ _ Es); [exact Hx |].
      apply index_bounds in Hx. unfold s, e. lia.
    + destruct (IH hs' j x eq_refl) as (h & Hh & Hxh); [| exact Hx |].
      * exists r'. split; assumption.
      * exists h. split; [right; exact Hh | exact Hxh].
Qed.

Lemma In_index : forall (A : Type) (l : list A) x,
  In x l -> exists j, index l j = Some x.
Proof.
  intros A l x H. apply In_nth_error in H as (i & Hi).
  exists (Z.of_nat i). rewrite index_nat. exact Hi.
Qed.

Lemma buildHunks_covers : forall es hs e,
  buildHunks es = Some hs -> In e es -> isEqualEdit e = false ->
  exists h, In h hs /\ In e (edits h).
Proof.
  intros es hs e H Hin Hne. unfold buildHunks in H.
  destruct (len es =? 0) eqn:E0.
  - apply len_zero_nil in E0. subst es. destruct Hin.
  - destruct (In_index _ _ _ Hin) as (j & Hj).
    apply (regionsToHunks_covers es _ hs j e H); [| exact Hj].
    unfold mergeRegions.
    apply (mergeRegionsInto_covers _ [] (len es) (len_nonneg _ es)).
    + exact I.
    + destruct (findChangeRegions_spec es) as (F1 & _). exact F1.
    + cbn [app]. unfold findChangeRegions.
      apply (findChangeRegionsFrom_covers es [] []).
      * exact I.
      * intros i Hi. rewrite len_nil in Hi. lia.
      * exists e. split; assumption.
Qed.

(** *** Every edit of a hunk is written *)

Lemma writeEdit_nl : forall e old new t,
  writeEdit e old new = Some t -> exists t', t = t' ++ [NL].
Proof.
  intros e old new t H. unfold writeEdit in H.
  assert (Hnl : forall marker l,
            exists t', marker ++ ensureNewline l = t' ++ [NL]).
  { intros marker l. destruct (ensureNewline_nl l) as (c & ->).
    exists (marker ++ c). rewrite app_assoc. reflexivity. }
  destruct (kind e).
  - destruct (index old (oldIdx e)) as [l |]; cbn [bind] in H;
      [| discriminate].
    injection H as <-. exact (Hnl [" "%char] l).
  - destruct (index new (newIdx e)) as [l |]; cbn [bind] in H;
      [| discriminate].
    injection H as <-. exact (Hnl ["+"%char] l).
  - destruct (index old (oldIdx e)) as [l |]; cbn [bind] in H;
      [| discriminate].
    injection H as <-. exact (Hnl ["-"%char] l).
Qed.

Lemma writeEdits_occurs : forall old new es t e,
  writeEdits es old new = Some t -> In e es ->
  atLineStart t
  /\ exists line, writeEdit e old new = Some line /\ occurs t line.
Proof.
  intros old new. induction es as [| x es IH]; intros t e H Hin;
    [destruct Hin |].
  cbn [writeEdits] in H.
  destruct (writeEdit x old new) as [l |] eqn:El; cbn [bind] in H;
    [| discriminate].
  destruct (writeEdits es old new) as [ls |] eqn:Els; cbn [bind] in H;
    [| discriminate].
  injection H as <-.
  destruct (writeEdit_nl _ _ _ _ El) as (l' & Hl).
  assert (Hs : atLineStart ls).
  { destruct es as [| y es'].
    - injection Els as <-. left. reflexivity.
    - apply (IH ls y eq_refl). left. reflexivity. }
  split; [apply atLineStart_app;
          [rewrite Hl; apply atLineStart_nl | exact Hs] |].
  destruct Hin as [<- | Hin].
  - exists l. split; [exact El | apply occurs_here].
  - destruct (IH ls e eq_refl Hin) as (_ & line & E & Ho).
    exists line. split; [exact E |].
    apply occurs_app_r; [rewrite Hl; apply atLineStart_nl | exact Ho].
Qed.

Lemma writeEdits_start : forall old new es t,
  writeEdits es old new = Some t -> atLineStart t.
Proof.
  intros old new es t H. destruct es as [| y es'].
  - injection H as <-. left. reflexivity.
  - apply (writeEdits_occurs old new (y :: es') t y H). left. reflexivity.
Qed.

Lemma writeTo_occurs : forall old new h t,
  writeTo h old new = Some t ->
  atLineStart t
  /\ forall e, In e (edits h) ->
       exists line, writeEdit e old new = Some line /\ occurs t line.
Proof.
  intros old new h t H. unfold writeTo in H.
  destruct (writeEdits (edits h) old new) as [body |] eqn:E;
    cbn [bind] in H; [| discriminate].
  set (hd := "@@ -" ++ itoa (oldStart h + 1) ++ "," ++ itoa (oldCount h)
             ++ " +" ++ itoa (newStart h + 1) ++ "," ++ itoa (newCount h)
             ++ " @@").
  assert (Eh : t = (hd ++ [NL]) ++ body).
  { injection H as <-. unfold hd. repeat rewrite <- app_assoc.
    reflexivity. }
  rewrite Eh. split.
  - apply atLineStart_app; [apply atLineStart_nl |].
    apply (writeEdits_start _ _ _ _ E).
  - intros e Hin.
    destruct (writeEdits_occurs _ _ _ _ e E Hin) as (_ & line & El & Ho).
    exists line. split; [exact El |].
    apply occurs_app_r; [apply atLineStart_nl | exact Ho].
Qed.

Lemma writeHunks_occurs : forall old new hs t,
  writeHunks hs old new = Some t ->
  atLineStart t
  /\ forall h e, In h hs -> In e (edits h) ->
       exists line, writeEdit e old new = Some line /\ occurs t line.
Proof.
  intros old new. induction hs as [| h hs IH]; intros t H.
  - injection H as <-. split; [left; reflexivity | intros h e []].
  - cbn [writeHunks] in H.
    destruct (writeTo h old new) as [th |] eqn:Eh; cbn [bind] in H;
      [| discriminate].
    destruct (writeHunks hs old new) as [ts |] eqn:Es; cbn [bind] in H;
      [| discriminate].
    injection H as <-.
    destruct (writeTo_occurs _ _ _ _ Eh) as (Hth & Hoh).
    destruct (IH ts eq_refl) as (Hts & Hos).
    split; [apply atLineStart_app; assumption |].
    intros h' e [<- | Hin] He.
    + destruct (Hoh e He) as (line & El & Ho).
      exists line. split; [exact El | apply occurs_app_l; exact Ho].
    + destruct (Hos h' e Hin He) as (line & El & Ho).
      exists line. split; [exact El |].
      apply occurs_app_r; assumption.
Qed.

(** Every insertion and deletion of the script has its line in the
    diff. *)
Lemma Unified_shows_edits : forall name s1 s2 out l1 l2 es,
  Unified name s1 s2 = Some out -> s1 <> s2 ->
  splitLines s1 = Some l1 -> splitLines s2 = Some l2 ->
  myers l1 l2 = Some es ->
  forall e, In e es -> isEqualEdit e = false ->
    exists line, writeEdit e l1 l2 = Some line /\ occurs out line.
Proof.
  intros name s1 s2 out l1 l2 es H Hne E1 E2 Em e Hin Hch.
  unfold Unified in H. apply eqs_false in Hne. rewrite Hne, E1, E2 in H.
  cbn [bind] in H. rewrite Em in H. cbn [bind] in H.
  destruct (buildHunks es) as [hs |] eqn:Eh; cbn [bind] in H;
    [| discriminate].
  destruct (buildHunks_covers es hs e Eh Hin Hch) as (h & Hh & He).
  destruct (len hs =? 0) eqn:E0.
  { apply len_zero_nil in E0. subst hs. destruct Hh. }
  destruct (writeHunks hs l1 l2) as [body |] eqn:Eb; cbn [bind] in H;
    [| discriminate].
  assert (Eo : out = (("--- a/" ++ name ++ [NL] ++ "+++ b/" ++ name)
                      ++ [NL]) ++ body).
  { injection H as <-. repeat rewrite <- app_assoc. reflexivity. }
  destruct (writeHunks_occurs _ _ _ _ Eb) as (_ & Ho).
  destruct (Ho h e Hh He) as (line & El & Hol).
  exists line. split; [exact El |]. rewrite Eo.
  apply occurs_app_r; [apply atLineStart_nl | exact Hol].
Qed.

End CoverFacts.

(** ** Properties of the diff *)

Module DiffProps.

Import Strings Diff MyersSpec DiffSpec SliceFacts StringFacts.
Import MyersFacts HunkFacts ScriptFacts CoverFacts.

Lemma SplitAfter_shape : forall s,
  exists ls final,
    SplitAfter s NL = ls ++ [final]
    /\ ~ In NL final
    /\ Forall (fun l => exists c, l = c ++ [NL] /\ ~ In NL c) ls.
Proof.
  induction s as [| x s IH].
  - exists [], []. split; [reflexivity |]. split; [intros [] | constructor].
  - destruct IH as (ls & final & E & Hf & HF). cbn [SplitAfter]. rewrite E.
    destruct (Ascii.eqb_spec x NL) as [-> | Hne].
    + exists ([NL] :: ls), final. split; [reflexivity |].
      split; [exact Hf |]. constructor; [| exact HF].
      exists []. split; [reflexivity | intros []].
    + destruct ls as [| l ls]; cbn [app].
      * exists [], (x :: final). split; [reflexivity |].
        split; [| constructor].
        intros [C | C]; [congruence | exact (Hf C)].
      * inversion HF as [| ? ? (c & -> & Hc) HF']; subst.
        exists ((x :: c ++ [NL]) :: ls), final. split; [reflexivity |].
        split; [exact Hf |]. constructor; [| exact HF'].
        exists (x :: c). split; [reflexivity |].
        intros [C | C]; [congruence | exact (Hc C)].
Qed.

(** X9.  The script that the Myers search returns transforms the old
    lines into the new ones.  Replayed from the start of both
    sequences it names the lines in order, pairs only equal lines, and
    ends at the end of both; the lines it reads are the old lines, and
    the lines it keeps and inserts are the new lines. *)
Theorem script_transforms_old_into_new : forall a b,
  exists es,
    myers a b = Some es
    /\ replay a b es 0 0 = Some (len a, len b)
    /\ consumed a es = Some a
    /\ patched a b es = Some b.
Proof.
  intros a b. destruct (myers_replay a b) as (es & Em & R).
  exists es. split; [exact Em |]. split; [exact R |].
  assert (H0 : 0 <= 0) by lia.
  destruct (replay_consumed a b es 0 0 _ _ R H0) as [_ Hc].
  destruct (replay_patched a b es 0 0 _ _ R H0) as [_ Hp].
  rewrite Hc, Hp by lia. rewrite !Z.sub_0_r. unfold len.
  rewrite !Nat2Z.id. change (Z.to_nat 0) with 0%nat. cbn [skipn].
  rewrite !firstn_all. split; reflexivity.
Qed.

(** X10.  A line of the old text that is no line of the new text is
    in the diff as a ['-'] line, and a line of the new text that is no
    line of the old text is in it as a ['+'] line. *)
Theorem diff_shows_lines_of_one_text : forall name s1 s2,
  exists out l1 l2,
    Unified name s1 s2 = Some out
    /\ splitLines s1 = Some l1 /\ splitLines s2 = Some l2
    /\ (forall l, In l l1 -> ~ In l l2 ->
                  hasLine out ("-" ++ ensureNewline l))
    /\ (forall l, In l l2 -> ~ In l l1 ->
                  hasLine out ("+" ++ ensureNewline l)).
Proof.
  intros name s1 s2.
  destruct (splitLines_spec s1) as (l1 & E1 & _ & I1).
  destruct (splitLines_spec s2) as (l2 & E2 & _ & I2).
  destruct (eqs s1 s2) eqn:Eq.
  - apply eqs_spec in Eq. subst s2.
    assert (l2 = l1) by congruence. subst l2.
    exists [], l1, l1. unfold Unified. rewrite eqs_refl.
    split; [reflexivity |]. split; [exact E1 |]. split; [exact E1 |].
    split; intros l Hin Hn; contradiction.
  - apply eqs_false in Eq.
    destruct (Unified_differs name s1 s2 Eq)
      as (out & l1' & l2' & _ & Eu & E1' & E2' & _).
    assert (l1' = l1) by congruence. assert (l2' = l2) by congruence.
    subst l1' l2'.
    destruct (myers_replay l1 l2) as (es & Em & R).
    pose proof (Unified_shows_edits name s1 s2 out l1 l2 es Eu Eq E1 E2 Em)
      as Hshow.
    exists out, l1, l2. split; [exact Eu |]. split; [exact E1 |].
    split; [exact E2 |]. split.
    + intros l Hin Hn. destruct (In_index _ _ _ Hin) as (i & Hi).
      apply index_bounds in Hi as Hb.
      destruct (replay_old_line l1 l2 es 0 0 _ _ i R Hb)
        as (e & He & Eo & [Ek | (Ek & l' & H1 & H2)]).
      * destruct (Hshow e He) as (line & El & Ho);
          [unfold isEqualEdit; rewrite Ek; reflexivity |].
        unfold writeEdit in El. rewrite Ek, Eo, Hi in El.
        cbn [bind] in El. injection El as <-.
        apply (changed_line_hasLine out s1 l1 "-"%char l I1 Hin);
          [discriminate | exact Ho].
      * exfalso. apply Hn. rewrite Hi in H1. injection H1 as <-.
        apply (index_In _ _ _ _ H2).
    + intros l Hin Hn. destruct (In_index _ _ _ Hin) as (i & Hi).
      apply index_bounds in Hi as Hb.
      destruct (replay_new_line l1 l2 es 0 0 _ _ i R Hb)
        as (e & He & Eo & [Ek | (Ek & l' & H1 & H2)]).
      * destruct (Hshow e He) as (line & El & Ho);
          [unfold isEqualEdit; rewrite Ek; reflexivity |].
        unfold writeEdit in El. rewrite Ek, Eo, Hi in El.
        cbn [bind] in El. injection El as <-.
        apply (changed_line_hasLine out s2 l2 "+"%char l I2 Hin);
          [discriminate | exact Ho].
      * exfalso. apply Hn. rewrite Hi in H1. injection H1 as <-.
        apply (index_In _ _ _ _ H2).
Qed.

(** X11.  [splitLines] cuts a text into its lines and loses nothing:
    the lines put together are the text again, no line is empty, and
    a newline is only ever the last character of a line. *)
Theorem split_lines_round_trip : forall s,
  exists ls,
    splitLines s = Some ls
    /\ concat ls = s
    /\ forall l, In l ls ->
         l <> [] /\ exists c, ~ In NL c /\ (l = c ++ [NL] \/ l = c).
Proof.
  intros s. destruct s as [| x s'].
  - exists []. split; [reflexivity |]. split; [reflexivity |].
    intros l [].
  - unfold splitLines.
    pose proof (concat_SplitAfter (x :: s') NL) as Hc.
    destruct (SplitAfter_shape (x :: s')) as (ls & final & E & Hf & HF).
    rewrite E in *.
    replace (len (ls ++ [final]) - 1) with (len ls)
      by (rewrite len_app, len_cons, len_nil; lia).
    rewrite index_last. cbn [bind].
    assert (Hls : forall l, In l ls ->
              l <> [] /\ exists c, ~ In NL c /\ (l = c ++ [NL] \/ l = c)).
    { intros l Hl.
      destruct (proj1 (Forall_forall _ _) HF l Hl) as (c & -> & Hcn).
      split; [destruct c; discriminate |].
      exists c. split; [exact Hcn | left; reflexivity]. }
    destruct (eqs final []) eqn:El.
    + apply eqs_spec in El. subst final.
      pose proof (len_nonneg _ ls).
      rewrite slice_some by (rewrite ?len_app, ?len_cons, ?len_nil; lia).
      rewrite Z.sub_0_r. change (Z.to_nat 0) with 0%nat. cbn [skipn].
      unfold len. rewrite Nat2Z.id.
      rewrite firstn_app, Nat.sub_diag, firstn_all. cbn [firstn].
      rewrite app_nil_r.
      exists ls. split; [reflexivity |]. split; [| exact Hls].
      rewrite concat_app in Hc. cbn [concat] in Hc.
      rewrite !app_nil_r in Hc. exact Hc.
    + exists (ls ++ [final]). split; [reflexivity |].
      split; [exact Hc |].
      intros l Hl. apply in_app_or in Hl as [Hl | [<- | []]];
        [apply Hls; exact Hl |].
      split; [apply eqs_false in El; exact El |].
      exists final. split; [exact Hf | right; reflexivity].
Qed.

End DiffProps.

(** ** What the parser builds *)

Module TreeFacts.

Import Strings Parser Spec ParserSpec.
Import SliceFacts StringFacts NodeFacts ParserTotal RoundTrip.

Lemma classifyLine_leaf : forall p joined_ raw p' n,
  classifyLine p joined_ raw = Some (p', n) ->
  Children n = [] /\ nodes p' = nodes p /\ lineNum p' = lineNum p.
Proof.
  intros p joined_ raw p' n H.
  unfold classifyLine in H. cbv zeta in H.
  destruct (eqs (TrimSpace joined_) []).
  { injection H as <- <-. repeat split. }
  destruct (HasPrefix (TrimSpace joined_) "define "
            || eqs (TrimSpace joined_) "define").
  { injection H as <- <-. repeat split. }
  destruct (HasPrefix (TrimSpace joined_) "##@").
  { destruct (sliceFrom (TrimSpace joined_) 3); cbn [bind] in H;
      [| discriminate].
    injection H as <- <-. repeat split. }
  destruct (isBannerComment (TrimSpace joined_)).
  { injection H as <- <-. repeat split. }
  destruct (HasPrefix (TrimSpace joined_) "#").
  { injection H as <- <-. repeat split. }
  destruct (HasPrefix joined_ [TAB] && inRule p).
  { injection H as <- <-. repeat split. }
  match type of H with bind ?m _ = _ => destruct m as [x |] eqn:E end;
    cbn [bind] in H; [| discriminate].
  injection H as <- <-.
  assert (shaped raw x).
  { revert E. apply orElse_shape; [apply tryConditionalIn_shape |].
    intros y. apply orElse_shape; [apply tryIncludeIn_shape |].
    intros z. apply orElse_shape; [apply tryDirective_shape |].
    intros u. apply orElse_shape; [apply tryAssignmentIn_shape |].
    intros v. apply orElse_shape; [apply tryRule_shape |].
    intros w Hw. injection Hw as <-. split; reflexivity. }
  repeat split. apply H.
Qed.

Lemma findRuleParentFrom_rule : forall ns k i,
  findRuleParentFrom ns k = Some (Some i) ->
  exists n, index ns i = Some n /\ Typ n = NodeRule.
Proof.
  intros ns. induction k as [| k IH]; intros i H;
    cbn [findRuleParentFrom] in H; [discriminate |].
  destruct (index ns (Z.of_nat k)) as [n |] eqn:E; cbn [bind] in H;
    [| discriminate].
  destruct (Typ n) eqn:Et; try discriminate; try (apply IH; exact H).
  injection H as <-. exists n. split; assumption.
Qed.

Lemma store_Forall : forall (A : Type) (P : A -> Prop) (l l' : list A) i x,
  store l i x = Some l' -> Forall P l -> P x -> Forall P l'.
Proof.
  intros A P l l' i x H HF Hx. unfold store in H.
  destruct (i <? 0); [discriminate |].
  destruct (set_nth_spec _ _ _ _ _ H) as (pre & old & post & -> & -> & _).
  apply Forall_app in HF as [H1 H2]. inversion H2; subst.
  apply Forall_app. split; [exact H1 |]. constructor; assumption.
Qed.

Lemma index_Forall : forall (A : Type) (P : A -> Prop) (l : list A) i x,
  index l i = Some x -> Forall P l -> P x.
Proof.
  intros A P l i x H HF. unfold index in H.
  destruct (i <? 0); [discriminate |].
  apply nth_error_In in H. exact (proj1 (Forall_forall _ _) HF x H).
Qed.

Lemma wellFormed_leaf : forall n,
  Children n = [] -> Typ n <> NodeRecipe -> wellFormed n.
Proof.
  intros n Hc Ht. split; [exact Ht |]. rewrite Hc.
  split; [congruence | constructor].
Qed.

Lemma addNode_wellFormed : forall p n p',
  Children n = [] -> Forall wellFormed (nodes p) ->
  addNode p n = Some p' -> Forall wellFormed (nodes p').
Proof.
  intros p n p' Hc HF H. unfold addNode in H.
  assert (A : forall q x, nodes q = nodes p -> wellFormed x ->
              Forall wellFormed (nodes (appendNode q x))).
  { intros q x Eq Hx. unfold appendNode. cbn [nodes setNodes].
    rewrite Eq. apply Forall_app. split; [exact HF |].
    constructor; [exact Hx | constructor]. }
  destruct (Typ n) eqn:Et;
    try (injection H as <-; apply A; [reflexivity |];
         apply wellFormed_leaf; [exact Hc | congruence]).
  destruct (if len (nodes p) >? 0 then findRuleParent p else Some None)
    as [found |] eqn:Ef; cbn [bind] in H; [| discriminate].
  destruct found as [i |].
  - destruct (len (nodes p) >? 0); [| discriminate].
    destruct (findRuleParentFrom_rule _ _ _ Ef) as (par & Ei & Ep).
    rewrite Ei in H. cbn [bind] in H.
    destruct (store (nodes p) i
                (setChildren par (Children par ++ [n]))) as [ns |] eqn:Es;
      cbn [bind] in H; [| discriminate].
    injection H as <-. cbn [nodes setNodes].
    apply (store_Forall _ _ _ _ _ _ Es HF).
    destruct (index_Forall _ _ _ _ _ Ei HF) as (W1 & W2 & W3).
    split; [exact W1 |]. cbn [Children setChildren Typ].
    split; [intros _; exact Ep |].
    apply Forall_app. split; [exact W3 |].
    constructor; [split; assumption | constructor].
  - injection H as <-. apply A; [reflexivity |].
    apply wellFormed_leaf; [exact Hc | discriminate].
Qed.

Lemma handleDefineBlock_wellFormed : forall p lines p',
  Forall wellFormed (nodes p) ->
  handleDefineBlock p lines = Some p' -> Forall wellFormed (nodes p').
Proof.
  intros p lines p' HF H. unfold handleDefineBlock in H.
  destruct (index (nodes p) (len (nodes p) - 1)) as [d |] eqn:Ed;
    cbn [bind] in H; [| discriminate].
  destruct (defineLoop (skipn (Z.to_nat (lineNum p)) lines) [Raw d]
              (lineNum p)) as [rawParts lineNum'].
  match type of H with
  | bind (store ?l ?i ?x) _ = _ =>
      destruct (store l i x) as [ns |] eqn:Es; cbn [bind] in H;
        [| discriminate]
  end.
  injection H as <-. cbn [nodes].
  apply (store_Forall _ _ _ _ _ _ Es HF).
  exact (index_Forall _ _ _ _ _ Ed HF).
Qed.

Lemma parseLoop_wellFormed : forall fuel lines p p',
  Forall wellFormed (nodes p) ->
  parseLoop fuel lines p = Some p' -> Forall wellFormed (nodes p').
Proof.
  induction fuel as [| fuel IH]; intros lines p p' HF H; [discriminate |].
  cbn [parseLoop] in H.
  destruct (lineNum p <? len lines); [| injection H as <-; exact HF].
  destruct (inDefine p).
  - destruct (handleDefineBlock p lines) as [p1 |] eqn:Eh;
      cbn [bind] in H; [| discriminate].
    apply (IH lines (setLineNum p1 (lineNum p1 + 1)) p'
             (handleDefineBlock_wellFormed _ _ _ HF Eh) H).
  - destruct (joinContinuations lines (lineNum p)) as [[joined_ count] |];
      cbn [bind] in H; [| discriminate].
    destruct (slice lines (lineNum p) (lineNum p + count)) as [rawLines |];
      cbn [bind] in H; [| discriminate].
    destruct (classifyLine p joined_ (Join rawLines [NL]))
      as [[p1 node] |] eqn:Ec; cbn [bind] in H; [| discriminate].
    destruct (classifyLine_leaf _ _ _ _ _ Ec) as (Hc & En & _).
    match type of H with
    | bind (addNode ?q ?x) _ = _ =>
        destruct (addNode q x) as [p3 |] eqn:Ea; cbn [bind] in H;
          [| discriminate];
        assert (HF3 : Forall wellFormed (nodes p3))
    end.
    { eapply addNode_wellFormed; [| | exact Ea].
      - cbn [Children setLine]. exact Hc.
      - destruct (count >? 1); cbn [nodes setLineNum]; rewrite En;
          exact HF. }
    apply (IH lines (setLineNum p3 (lineNum p3 + 1)) p' HF3 H).
Qed.

(** *** Line numbers *)

Lemma increasingb_snoc : forall l y,
  increasingb l = true -> (forall x, In x l -> x < y) ->
  increasingb (l ++ [y]) = true.
Proof.
  induction l as [| a l IH]; intros y H Hlt; [reflexivity |].
  destruct l as [| b l].
  - cbn [app increasingb]. rewrite andb_true_r. apply Z.ltb_lt.
    apply Hlt. left. reflexivity.
  - cbn [app increasingb] in *. apply andb_true_iff in H as [H1 H2].
    rewrite H1. cbn [andb]. apply (IH y H2).
    intros x Hx. apply Hlt. right. exact Hx.
Qed.

Lemma linesOrdered_weaken : forall ns k k',
  linesOrdered ns k -> k <= k' -> linesOrdered ns k'.
Proof.
  intros ns k k' [H1 H2] Hk. split; [exact H1 |].
  eapply Forall_impl; [| exact H2]. cbn beta.
  intros n (L & I & C). split; [lia |]. split; [exact I |].
  eapply Forall_impl; [| exact C]. cbn beta. intros c Hc. lia.
Qed.

Lemma linesOrdered_snoc : forall ns n k,
  0 <= k -> linesOrdered ns k -> Children n = [] -> Line n = k + 1 ->
  linesOrdered (ns ++ [n]) (k + 1).
Proof.
  intros ns n k Hk H Hc Hl.
  destruct (linesOrdered_weaken ns k (k + 1) H) as [H1 H2]; [lia |].
  destruct H as [_ H3].
  split.
  - rewrite map_app. cbn [map]. apply increasingb_snoc; [exact H1 |].
    intros x Hx. apply in_map_iff in Hx as (m & <- & Hm).
    destruct (proj1 (Forall_forall _ _) H3 m Hm) as (L & _). lia.
  - apply Forall_app. split; [exact H2 |].
    constructor; [| constructor]. rewrite Hc. cbn [map increasingb].
    split; [lia |]. split; [reflexivity | constructor].
Qed.

Lemma store_map : forall (A B : Type) (f : A -> B) (l l' : list A) i x old,
  store l i x = Some l' -> index l i = Some old -> f x = f old ->
  map f l' = map f l.
Proof.
  intros A B f l l' i x old H Hi Hf. unfold store in H. unfold index in Hi.
  destruct (i <? 0); [discriminate |].
  destruct (set_nth_spec _ _ _ _ _ H) as (pre & o & post & -> & -> & E).
  rewrite <- E in Hi. rewrite nth_error_app2 in Hi by lia.
  rewrite Nat.sub_diag in Hi. injection Hi as ->.
  rewrite !map_app. cbn [map]. rewrite Hf. reflexivity.
Qed.

Lemma addNode_lines : forall p n p' k,
  0 <= k -> linesOrdered (nodes p) k ->
  Children n = [] -> Line n = k + 1 ->
  addNode p n = Some p' -> linesOrdered (nodes p') (k + 1).
Proof.
  intros p n p' k Hk HL Hc Hl H. unfold addNode in H.
  assert (A : forall q x, nodes q = nodes p -> Children x = [] ->
              Line x = k + 1 ->
              linesOrdered (nodes (appendNode q x)) (k + 1)).
  { intros q x Eq Hcx Hlx. unfold appendNode. cbn [nodes setNodes].
    rewrite Eq. apply linesOrdered_snoc; assumption. }
  destruct (Typ n) eqn:Et;
    try (injection H as <-; apply A; [reflexivity | exact Hc | exact Hl]).
  destruct (if len (nodes p) >? 0 then findRuleParent p else Some None)
    as [found |] eqn:Ef; cbn [bind] in H; [| discriminate].
  destruct found as [i |].
  - destruct (index (nodes p) i) as [par |] eqn:Ei; cbn [bind] in H;
      [| discriminate].
    destruct (store (nodes p) i
                (setChildren par (Children par ++ [n]))) as [ns |] eqn:Es;
      cbn [bind] in H; [| discriminate].
    injection H as <-. cbn [nodes setNodes].
    destruct (linesOrdered_weaken _ k (k + 1) HL) as [H1 H2]; [lia |].
    destruct HL as [_ H3].
    destruct (index_Forall _ _ _ _ _ Ei H3) as (L & I & C).
    split.
    + rewrite (store_map _ _ Line _ _ _ _ par Es Ei); [exact H1 |].
      reflexivity.
    + apply (store_Forall _ _ _ _ _ _ Es H2).
      cbn [Line Children setChildren]. split; [lia |]. split.
      * rewrite map_app. cbn [map].
        change (Line par :: map Line (Children par) ++ [Line n])
          with ((Line par :: map Line (Children par)) ++ [Line n]).
        apply increasingb_snoc; [exact I |].
        intros x [<- | Hx]; [lia |].
        apply in_map_iff in Hx as (c & <- & Hcin).
        pose proof (proj1 (Forall_forall _ _) C c Hcin). cbn beta in *. lia.
      * apply Forall_app. split.
        -- eapply Forall_impl; [| exact C]. cbn beta. intros c Hcl. lia.
        -- constructor; [lia | constructor].
  - injection H as <-. apply A; [reflexivity | exact Hc | exact Hl].
Qed.

Lemma handleDefineBlock_lines : forall p lines p' k,
  linesOrdered (nodes p) k ->
  handleDefineBlock p lines = Some p' ->
  linesOrdered (nodes p') k /\ lineNum p <= lineNum p'.
Proof.
  intros p lines p' k [H1 H2] H. unfold handleDefineBlock in H.
  destruct (index (nodes p) (len (nodes p) - 1)) as [d |] eqn:Ed;
    cbn [bind] in H; [| discriminate].
  pose proof (defineLoop_bounds (skipn (Z.to_nat (lineNum p)) lines)
                [Raw d] (lineNum p)) as Hb.
  destruct (defineLoop (skipn (Z.to_nat (lineNum p)) lines) [Raw d]
              (lineNum p)) as [rawParts lineNum'].
  match type of H with
  | bind (store ?l ?i ?x) _ = _ =>
      destruct (store l i x) as [ns |] eqn:Es; cbn [bind] in H;
        [| discriminate]
  end.
  injection H as <-. cbn [nodes lineNum snd] in *.
  split; [| lia]. split.
  - rewrite (store_map _ _ Line _ _ _ _ d Es Ed); [exact H1 | reflexivity].
  - apply (store_Forall _ _ _ _ _ _ Es H2).
    exact (index_Forall _ _ _ _ _ Ed H2).
Qed.

Lemma parseLoop_lines : forall fuel lines p p',
  0 <= lineNum p ->
  linesOrdered (nodes p) (Z.min (lineNum p) (len lines)) ->
  parseLoop fuel lines p = Some p' ->
  linesOrdered (nodes p') (len lines).
Proof.
  induction fuel as [| fuel IH]; intros lines p p' H0 HL H;
    [discriminate |].
  cbn [parseLoop] in H.
  destruct (Z.ltb_spec (lineNum p) (len lines)) as [Hlt | Hge].
  2:{ injection H as <-. eapply linesOrdered_weaken; [exact HL | lia]. }
  replace (Z.min (lineNum p) (len lines)) with (lineNum p) in HL by lia.
  destruct (inDefine p).
  - destruct (handleDefineBlock p lines) as [p1 |] eqn:Eh;
      cbn [bind] in H; [| discriminate].
    destruct (handleDefineBlock_lines _ _ _ _ HL Eh) as [HL1 Hle].
    apply (IH lines (setLineNum p1 (lineNum p1 + 1)) p');
      [cbn [lineNum setLineNum]; lia | | exact H].
    cbn [lineNum nodes setLineNum].
    eapply linesOrdered_weaken; [exact HL1 | lia].
  - destruct (joinContinuations lines (lineNum p)) as [[joined_ count] |];
      cbn [bind] in H; [| discriminate].
    destruct (slice lines (lineNum p) (lineNum p + count)) as [rawLines |];
      cbn [bind] in H; [| discriminate].
    destruct (classifyLine p joined_ (Join rawLines [NL]))
      as [[p1 node] |] eqn:Ec; cbn [bind] in H; [| discriminate].
    destruct (classifyLine_leaf _ _ _ _ _ Ec) as (Hc & En & Eln).
    match type of H with
    | bind (addNode ?q ?x) _ = _ =>
        destruct (addNode q x) as [p3 |] eqn:Ea; cbn [bind] in H;
          [| discriminate];
        assert (HL3 : linesOrdered (nodes p3) (lineNum p + 1)
                      /\ lineNum p <= lineNum p3)
    end.
    { split.
      - eapply addNode_lines; [exact H0 | | | | exact Ea].
        + destruct (count >? 1); cbn [nodes setLineNum]; rewrite En;
            exact HL.
        + cbn [Children setLine]. exact Hc.
        + cbn [Line setLine]. rewrite Eln. reflexivity.
      - destruct (addNode_total
                    (if count >? 1
                     then setLineNum p1 (lineNum p1 + (count - 1)) else p1)
                    (setLine node (lineNum p1 + 1)))
          as (p3' & Ea' & _ & Eq & _).
        rewrite Ea in Ea'. injection Ea' as <-. rewrite Eq.
        destruct (Z.gtb_spec count 1); cbn [lineNum setLineNum]; lia. }
    destruct HL3 as [HL3 Hle].
    apply (IH lines (setLineNum p3 (lineNum p3 + 1)) p');
      [cbn [lineNum setLineNum]; lia | | exact H].
    cbn [lineNum nodes setLineNum].
    eapply linesOrdered_weaken; [exact HL3 | lia].
Qed.

(** *** Assignments *)

Lemma Index_split : forall s sub,
  0 <= Index s sub ->
  exists pre post, s = pre ++ sub ++ post /\ len pre = Index s sub.
Proof.
  induction s as [| c s IH]; intros sub H.
  - cbn [Index] in *. destruct (HasPrefix [] sub) eqn:E; [| lia].
    apply HasPrefix_spec in E as (t & E). exists [], t.
    split; [exact E | reflexivity].
  - cbn [Index] in *. destruct (HasPrefix (c :: s) sub) eqn:E.
    + apply HasPrefix_spec in E as (t & E). exists [], t.
      split; [exact E | reflexivity].
    + destruct (Z.ltb_spec (Index s sub) 0); [lia |].
      destruct (IH sub) as (pre & post & E' & Hl); [lia |].
      exists (c :: pre), post. split; [rewrite E' at 1; reflexivity |].
      rewrite len_cons. lia.
Qed.

Lemma sliceTo_prefix : forall (A : Type) (pre rest b : list A),
  sliceTo (pre ++ rest) (len pre) = Some b -> b = pre.
Proof.
  intros A pre rest b H. unfold sliceTo in H.
  apply slice_inv in H as (_ & _ & _ & ->).
  rewrite Z.sub_0_r. change (Z.to_nat 0) with 0%nat. cbn [skipn].
  unfold len. rewrite Nat2Z.id.
  rewrite firstn_app, Nat.sub_diag, firstn_all. cbn [firstn].
  apply app_nil_r.
Qed.

Lemma sliceFrom_suffix : forall (A : Type) (pre rest b : list A),
  sliceFrom (pre ++ rest) (len pre) = Some b -> b = rest.
Proof.
  intros A pre rest b H. unfold sliceFrom in H.
  apply slice_inv in H as (_ & _ & _ & ->).
  unfold len. rewrite Nat2Z.id.
  rewrite skipn_app, Nat.sub_diag, skipn_all. cbn [skipn app].
  apply firstn_all2. rewrite length_app. lia.
Qed.

Lemma value_after : forall (pre op post : gostring) v,
  (if len pre + len op <? len (pre ++ op ++ post)
   then t <- sliceFrom (pre ++ op ++ post) (len pre + len op) ;;
        Some (TrimSpace t)
   else Some []) = Some v ->
  v = TrimSpace post.
Proof.
  intros pre op post v Hv.
  destruct (Z.ltb_spec (len pre + len op) (len (pre ++ op ++ post)))
    as [Hlt | Hge].
  - destruct (sliceFrom (pre ++ op ++ post) (len pre + len op))
      as [t |] eqn:Es; cbn [bind] in Hv; [| discriminate].
    injection Hv as <-. f_equal.
    rewrite app_assoc, <- len_app in Es.
    apply sliceFrom_suffix in Es. exact Es.
  - injection Hv as <-.
    rewrite !len_app in Hge. pose proof (len_nonneg _ post).
    destruct post; [reflexivity |].
    rewrite len_cons in *. pose proof (len_nonneg _ post). lia.
Qed.

Lemma tryAssignmentIn_decode : forall ops trimmed raw n,
  tryAssignmentIn ops trimmed raw = Some (Some n) ->
  Typ n = NodeAssignment /\ Raw n = raw
  /\ In (AssignOp (Parser.Fields n)) ops
  /\ VarName (Parser.Fields n) <> []
  /\ exists before after,
       trimmed = before ++ AssignOp (Parser.Fields n) ++ after
       /\ VarValue (Parser.Fields n) = TrimSpace after
       /\ (VarName (Parser.Fields n) = TrimSpace before
           \/ exists p1,
                Strings.Fields (TrimSpace before) = ["override" : gostring; p1]
                /\ VarName (Parser.Fields n) = "override " ++ p1).
Proof.
  induction ops as [| op ops IH]; intros trimmed raw n H;
    cbn [tryAssignmentIn] in H; [discriminate |].
  cbv zeta in H.
  assert (K : tryAssignmentIn ops trimmed raw = Some (Some n) ->
              Typ n = NodeAssignment /\ Raw n = raw
              /\ In (AssignOp (Parser.Fields n)) (op :: ops)
              /\ VarName (Parser.Fields n) <> []
              /\ exists before after,
                   trimmed = before ++ AssignOp (Parser.Fields n) ++ after
                   /\ VarValue (Parser.Fields n) = TrimSpace after
                   /\ (VarName (Parser.Fields n) = TrimSpace before
                       \/ exists p1,
                            Strings.Fields (TrimSpace before)
                            = ["override" : gostring; p1]
                            /\ VarName (Parser.Fields n)
                               = "override " ++ p1)).
  { intros H'. destruct (IH _ _ _ H') as (A1 & A2 & A3 & A4 & A5).
    split; [exact A1 |]. split; [exact A2 |].
    split; [right; exact A3 |]. split; [exact A4 | exact A5]. }
  destruct (Z.ltb_spec (Index trimmed op) 0) as [Hneg | Hidx];
    [exact (K H) |].
  destruct (Index_split trimmed op Hidx) as (pre & post & Et & Hl).
  rewrite <- Hl in H. clear Hl Hidx. subst trimmed.
  match type of H with bind ?m _ = _ => destruct m as [skip1 |] end;
    cbn [bind] in H; [| discriminate].
  destruct skip1; [exact (K H) |].
  match type of H with bind ?m _ = _ => destruct m as [skip2 |] end;
    cbn [bind] in H; [| discriminate].
  destruct skip2; [exact (K H) |].
  destruct (sliceTo (pre ++ op ++ post) (len pre)) as [before |] eqn:Eb;
    cbn [bind] in H; [| discriminate].
  apply sliceTo_prefix in Eb. subst before.
  destruct (eqs (TrimSpace pre) []) eqn:Ev; [exact (K H) |].
  apply eqs_false in Ev.
  destruct (ContainsAny (TrimSpace pre) " 	").
  - destruct (Strings.Fields (TrimSpace pre)) as [| p0 [| p1 [| p2 parts]]]
      eqn:Ef; try exact (K H).
    destruct (eqs p0 "override") eqn:Eo; [| exact (K H)].
    apply eqs_spec in Eo. subst p0.
    match type of H with
    | (if ?c then _ else _) = _ => destruct c; [exact (K H) |]
    end.
    match type of H with bind ?m _ = _ => destruct m as [v |] eqn:Em end;
      cbn [bind] in H; [| discriminate].
    apply value_after in Em. injection H as <-.
    split; [reflexivity |]. split; [reflexivity |].
    split; [left; reflexivity |]. split; [discriminate |].
    exists pre, post. split; [reflexivity |]. split; [exact Em |].
    right. exists p1. split; [exact Ef | reflexivity].
  - match type of H with
    | (if ?c then _ else _) = _ => destruct c; [exact (K H) |]
    end.
    match type of H with bind ?m _ = _ => destruct m as [v |] eqn:Em end;
      cbn [bind] in H; [| discriminate].
    apply value_after in Em. injection H as <-.
    split; [reflexivity |]. split; [reflexivity |].
    split; [left; reflexivity |]. split; [exact Ev |].
    exists pre, post. split; [reflexivity |]. split; [exact Em |].
    left. reflexivity.
Qed.

End TreeFacts.

(** ** Properties of the parser *)

Module ParserProps.

Import Strings Parser Spec ParserSpec.
Import SliceFacts StringFacts ParserTotal TreeFacts.

(** X12.  In the sequence the parser returns no recipe line stands at
    the top level, only rules have children, and the children of a
    rule are recipe lines without children. *)
Theorem parse_links_recipes_to_rules : forall src,
  exists ns, Parse src = Some ns /\ Forall wellFormed ns.
Proof.
  intros src. destruct (Parse_total src) as (ns & E).
  exists ns. split; [exact E |].
  unfold Parse, parse in E. cbv zeta in E.
  match type of E with
  | bind (parseLoop ?f ?l ?q) _ = _ =>
      destruct (parseLoop f l q) as [p' |] eqn:El; cbn [bind] in E;
        [| discriminate]
  end.
  injection E as <-.
  eapply parseLoop_wellFormed; [| exact El]. constructor.
Qed.

(** X13.  The line numbers the parser gives the nodes start at 1, do
    not exceed the number of lines of the text, and increase along the
    sequence; the recipe lines of a rule have increasing line numbers
    after that of the rule. *)
Theorem parse_numbers_lines_in_order : forall src,
  exists ns,
    Parse src = Some ns /\ linesOrdered ns (len (splitLines src)).
Proof.
  intros src. destruct (Parse_total src) as (ns & E).
  exists ns. split; [exact E |].
  unfold Parse, parse in E. cbv zeta in E.
  match type of E with
  | bind (parseLoop ?f ?l ?q) _ = _ =>
      destruct (parseLoop f l q) as [p' |] eqn:El; cbn [bind] in E;
        [| discriminate]
  end.
  injection E as <-.
  eapply parseLoop_lines; [| | exact El].
  - cbn. lia.
  - split; [reflexivity | constructor].
Qed.

(** X14.  A line that [tryAssignment] takes for an assignment is cut
    at one of the assignment operators: the node holds the operator,
    the text before it as the name (without the white space around
    it, and not empty; [override NAME] is kept as two words with one
    space) and the text after it, without the white space around it,
    as the value. *)
Theorem assignment_fields_decode_the_line : forall trimmed raw n,
  tryAssignment trimmed raw = Some (Some n) ->
  Typ n = NodeAssignment /\ Raw n = raw
  /\ In (AssignOp (Parser.Fields n)) assignOps
  /\ VarName (Parser.Fields n) <> []
  /\ exists before after,
       trimmed = before ++ AssignOp (Parser.Fields n) ++ after
       /\ VarValue (Parser.Fields n) = TrimSpace after
       /\ (VarName (Parser.Fields n) = TrimSpace before
           \/ exists p1,
                Strings.Fields (TrimSpace before) = ["override" : gostring; p1]
                /\ VarName (Parser.Fields n) = "override " ++ p1).
Proof.
  intros trimmed raw n H. unfold tryAssignment in H.
  destruct (tryAssignmentIn_decode assignOps trimmed raw n H)
    as (A1 & A2 & A3 & A4 & A5).
  repeat (split; [assumption |]). exact A5.
Qed.

Lemma assignment_fields_decode_the_line_witness :
  exists n,
    tryAssignment "CC := gcc" "CC := gcc" = Some (Some n)
    /\ AssignOp (Parser.Fields n) = ":="
    /\ exists before after,
         ("CC := gcc" : gostring)
         = before ++ AssignOp (Parser.Fields n) ++ after
         /\ VarValue (Parser.Fields n) = TrimSpace after.
Proof.
  eexists. split; [vm_compute; reflexivity |].
  split; [reflexivity |].
  destruct (assignment_fields_decode_the_line "CC := gcc" "CC := gcc"
              (newNode NodeAssignment "CC := gcc"
                 (mkFields "CC" ":=" "gcc" [] [] [] [] [] [] [] [] []
                    false [])))
    as (_ & _ & _ & _ & before & after & E & V & _).
  - vm_compute. reflexivity.
  - exists before, after. split; [exact E | exact V].
Defined.

End ParserProps.

(** ** The pipeline returns *)

Module TotalFacts.

Import Strings Parser Config Engine Rules Runner Spec PipelineSpec.
Import RuleSpec.
Import SliceFacts StringFacts NodeFacts ParserTotal RoundTrip TreeFacts.
Import RuleFacts.

(** *** Bytes that trimming keeps *)
















(** *** The parser puts a number sign in every comment node *)














(** *** The rules that run before [space_after_comment] keep it *)









(** *** [space_after_comment] returns on such nodes *)





End TotalFacts.

Module PipelineProps.

Import Strings Parser Config Engine Rules Runner Spec PipelineSpec.
Import TotalFacts.


End PipelineProps.

(** ** The runner *)

Module RunnerFacts.

Import Strings Config Rules Runner RunnerIO.
Import SliceFacts StringFacts HunkFacts TotalFacts.

















End RunnerFacts.

Module RunnerProps.

Import Strings Config Rules Runner RunnerIO.
Import SliceFacts StringFacts RunnerFacts.









End RunnerProps.

(** ** Copies in the store *)

Module CloneFacts.

Import Strings Parser Config Store StoreSpec CloneSpec.
Import SliceFacts NodeFacts StoreFacts.

Lemma nodeAt_S : forall fuel h p,
  nodeAt (S fuel) h p
  = (c <- nth_error h p ;;
     kids <- nodesAt fuel h (cChildren c) ;;
     Some (mkNode (cTyp c) (cLine c) (cRaw c) kids (cFields c))).
Proof.
  intros fuel h p. cbn [nodeAt].
  destruct (nth_error h p) as [c |]; cbn [bind]; [| reflexivity].
  assert (E : forall l,
             (fix all (l : list ptr) : option (list Node) :=
                match l with
                | [] => Some []
                | k :: l' =>
                    x <- nodeAt fuel h k ;;
                    xs <- all l' ;;
                    Some (x :: xs)
                end) l = nodesAt fuel h l).
  { induction l as [| k l IH]; [reflexivity |].
    cbn [nodesAt]. rewrite <- IH. reflexivity. }
  rewrite E. reflexivity.
Qed.

(** Reading a tree needs only the cells it is made of. *)
Lemma nodeAt_ext : forall fuel h h',
  (forall a c, nth_error h a = Some c -> nth_error h' a = Some c) ->
  (forall p n, nodeAt fuel h p = Some n -> nodeAt fuel h' p = Some n)
  /\ (forall l ns, nodesAt fuel h l = Some ns ->
                   nodesAt fuel h' l = Some ns).
Proof.
  intros fuel h h' Hext. induction fuel as [| fuel [IH1 IH2]].
  - assert (A : forall p n, nodeAt 0 h p = Some n -> nodeAt 0 h' p = Some n)
      by (intros p n H; discriminate H).
    split; [exact A |].
    induction l as [| k l IHl]; intros ns H; [exact H |].
    cbn [nodesAt nodeAt bind] in H. discriminate H.
  - assert (A : forall p n, nodeAt (S fuel) h p = Some n ->
                            nodeAt (S fuel) h' p = Some n).
    { intros p n H. rewrite nodeAt_S in *.
      destruct (nth_error h p) as [c |] eqn:Ec; cbn [bind] in H;
        [| discriminate].
      rewrite (Hext _ _ Ec). cbn [bind].
      destruct (nodesAt fuel h (cChildren c)) as [kids |] eqn:Ek;
        cbn [bind] in H; [| discriminate].
      rewrite (IH2 _ _ Ek). exact H. }
    split; [exact A |].
    induction l as [| k l IHl]; intros ns H; [exact H |].
    cbn [nodesAt] in *.
    destruct (nodeAt (S fuel) h k) as [x |] eqn:Ex; cbn [bind] in H;
      [| discriminate].
    rewrite (A _ _ Ex). cbn [bind].
    destruct (nodesAt (S fuel) h l) as [xs |] eqn:Exs; cbn [bind] in H;
      [| discriminate].
    rewrite (IHl _ eq_refl). exact H.
Qed.

Lemma agree_ext : forall h h',
  (length h <= length h')%nat -> agree 0 (length h) h h' ->
  forall a c, nth_error h a = Some c -> nth_error h' a = Some c.
Proof.
  intros h h' _ Ha a c H. rewrite Ha; [exact H |].
  assert (a < length h)%nat; [| lia].
  apply nth_error_Some. rewrite H. discriminate.
Qed.

Lemma mapM_Clone_copies : forall fuel,
  (forall h p n, nodeAt fuel h p = Some n ->
     exists q h', Clone fuel p h = Some (q, h') /\ copies fuel h n q h') ->
  forall l h ns,
    nodesAt fuel h l = Some ns ->
    exists qs h',
      mapM (Clone fuel) l h = Some (qs, h') /\ copiesAll fuel h ns qs h'.
Proof.
  intros fuel IH. induction l as [| k l IHl]; intros h ns H.
  - cbn [nodesAt] in H. injection H as <-. exists [], h.
    split; [reflexivity |]. split; [lia |]. split; [constructor |].
    split; [intros a _; reflexivity |]. intros h'' _. reflexivity.
  - cbn [nodesAt] in H.
    destruct (nodeAt fuel h k) as [x |] eqn:Ex; cbn [bind] in H;
      [| discriminate].
    destruct (nodesAt fuel h l) as [xs |] eqn:Exs; cbn [bind] in H;
      [| discriminate].
    injection H as <-.
    destruct (IH h k x Ex) as (q & h1 & Eq & (Rq & Aq & Fq)).
    assert (Exs1 : nodesAt fuel h1 l = Some xs).
    { apply (proj2 (nodeAt_ext fuel h h1
                      (agree_ext h h1 ltac:(lia) Aq)) l xs Exs). }
    destruct (IHl h1 xs Exs1) as (qs & h2 & Eqs & (L2 & R2 & A2 & F2)).
    exists (q :: qs), h2. split.
    + cbn [mapM]. unfold mbind at 1. rewrite Eq.
      unfold mbind at 1. rewrite Eqs. reflexivity.
    + split; [lia |]. split.
      * constructor; [lia |].
        eapply Forall_impl; [| exact R2]. cbv beta. intros a Ha. lia.
      * split.
        -- intros a Ha. rewrite A2 by lia. apply Aq. lia.
        -- intros h'' Hh. cbn [nodesAt].
           rewrite Fq.
           ++ cbn [bind]. rewrite F2; [reflexivity |].
              intros a Ha. apply Hh. lia.
           ++ intros a Ha. rewrite Hh by lia. apply A2. lia.
Qed.

Lemma Clone_copies : forall fuel h p n,
  nodeAt fuel h p = Some n ->
  exists q h', Clone fuel p h = Some (q, h') /\ copies fuel h n q h'.
Proof.
  induction fuel as [| fuel IH]; intros h p n H; [discriminate H |].
  rewrite nodeAt_S in H.
  destruct (nth_error h p) as [c |] eqn:Ec; cbn [bind] in H;
    [| discriminate].
  destruct (nodesAt fuel h (cChildren c)) as [kids |] eqn:Ek;
    cbn [bind] in H; [| discriminate].
  injection H as <-.
  set (c0 := mkCell (cTyp c) (cLine c) (cRaw c) []
               (cloneFields (cFields c))).
  set (h0 := h ++ [c0]).
  assert (L0 : length h0 = S (length h))
    by (subst h0; rewrite length_app; cbn [length]; lia).
  assert (A0 : forall a x, nth_error h a = Some x ->
                           nth_error h0 a = Some x).
  { intros a x Ha. subst h0. rewrite nth_error_app1; [exact Ha |].
    apply nth_error_Some. rewrite Ha. discriminate. }
  assert (Ek0 : nodesAt fuel h0 (cChildren c) = Some kids)
    by (apply (proj2 (nodeAt_ext fuel h h0 A0) _ _ Ek)).
  destruct (mapM_Clone_copies fuel IH _ h0 kids Ek0)
    as (qs & h1 & Em & (L1 & R1 & A1 & F1)).
  assert (Eq0 : nth_error h1 (length h) = Some c0).
  { rewrite A1 by lia. subst h0.
    rewrite nth_error_app2, Nat.sub_diag by lia. reflexivity. }
  destruct (set_nth_some _ h1 (length h) (withChildren c0 qs))
    as [h' Eh']; [lia |].
  pose proof (set_nth_length _ _ _ _ _ Eh') as Lh'.
  exists (length h), h'. split.
  - cbn [Clone]. unfold mbind at 1. unfold deref. rewrite Ec.
    unfold mbind at 1. unfold alloc. fold c0. fold h0.
    unfold mbind at 1. rewrite Em.
    unfold mbind at 1. unfold setChildrenAt, mbind, deref.
    rewrite Eq0. unfold update. rewrite Eh'. reflexivity.
  - split; [lia |]. split.
    + intros a Ha.
      rewrite (set_nth_other _ _ _ _ _ _ Eh') by lia.
      rewrite A1 by lia. subst h0. apply nth_error_app1. lia.
    + intros h'' Hh. rewrite nodeAt_S.
      rewrite Hh by lia. rewrite (set_nth_same _ _ _ _ _ Eh').
      cbn [bind cChildren withChildren].
      rewrite F1.
      * cbn [bind]. subst c0. cbn [cTyp cLine cRaw cFields].
        rewrite cloneFields_id. reflexivity.
      * intros a Ha. rewrite Hh by lia.
        apply (set_nth_other _ _ _ _ _ _ Eh'). lia.
Qed.

(** More fuel changes nothing. *)
Lemma Clone_mono : forall fuel p h r,
  Clone fuel p h = Some r -> Clone (S fuel) p h = Some r.
Proof.
  induction fuel as [| fuel IH]; intros p h r H; [discriminate H |].
  assert (Hm : forall l h0 r0,
             mapM (Clone fuel) l h0 = Some r0 ->
             mapM (Clone (S fuel)) l h0 = Some r0).
  { induction l as [| k l IHl]; intros h0 r0 H0; [exact H0 |].
    cbn [mapM] in *. unfold mbind at 1 in H0. unfold mbind at 1.
    destruct (Clone fuel k h0) as [[q h1] |] eqn:Eq; [| discriminate].
    rewrite (IH _ _ _ Eq).
    unfold mbind at 1 in H0. unfold mbind at 1.
    destruct (mapM (Clone fuel) l h1) as [[qs h2] |] eqn:Eqs;
      [| discriminate].
    rewrite (IHl _ _ Eqs). exact H0. }
  remember (S fuel) as f eqn:Ef. cbn [Clone]. subst f.
  cbn [Clone] in H.
  unfold mbind at 1 in H. unfold mbind at 1.
  destruct (deref p h) as [[c h0] |]; [| discriminate].
  unfold mbind at 1 in H. unfold mbind at 1.
  destruct (alloc _ h0) as [[q h1] |]; [| discriminate].
  unfold mbind at 1 in H. unfold mbind at 1.
  destruct (mapM (Clone fuel) (cChildren c) h1) as [[qs h2] |] eqn:Eqs;
    [| discriminate].
  rewrite (Hm _ _ _ Eqs). exact H.
Qed.

Lemma Clone_more : forall k fuel p h r,
  Clone fuel p h = Some r -> Clone (k + fuel) p h = Some r.
Proof.
  induction k as [| k IH]; intros fuel p h r H; [exact H |].
  cbn [Nat.add]. apply Clone_mono. apply IH. exact H.
Qed.

End CloneFacts.

Module StoreProps.

Import Strings Parser Config Store StoreSpec CloneSpec.
Import SliceFacts NodeFacts StoreFacts CloneFacts.

(** X21.  [Clone] makes a deep copy: if the tree at [p] is [n] (read
    to a depth that the store allows), [clone p] returns a new address
    [q] and a store in which every cell of the old store is as it was,
    the tree at [p] is still [n], the tree at [q] is [n], and the tree
    at [q] is read from the new cells alone: it stays [n] whatever is
    written later to the cells of the original. *)
Theorem clone_is_a_deep_copy : forall fuel h p n,
  nodeAt fuel h p = Some n -> (fuel <= depthOf h)%nat ->
  exists q h',
    clone p h = Some (q, h')
    /\ (length h <= q < length h')%nat
    /\ (forall a c, nth_error h a = Some c -> nth_error h' a = Some c)
    /\ nodeAt fuel h' p = Some n
    /\ nodeAt fuel h' q = Some n
    /\ forall h'', agree (length h) (length h') h' h'' ->
                   nodeAt fuel h'' q = Some n.
Proof.
  intros fuel h p n H Hf.
  destruct (Clone_copies fuel h p n H) as (q & h' & E & (R & A & F)).
  exists q, h'. split.
  - unfold clone. replace (depthOf h) with ((depthOf h - fuel) + fuel)%nat
      by lia.
    apply Clone_more. exact E.
  - split; [exact R |].
    assert (X : forall a c, nth_error h a = Some c ->
                            nth_error h' a = Some c)
      by (apply agree_ext; [lia | exact A]).
    split; [exact X |].
    split; [exact (proj1 (nodeAt_ext fuel h h' X) p n H) |].
    split; [| exact F].
    apply F. intros a _. reflexivity.
Qed.

Lemma clone_is_a_deep_copy_witness :
  exists q h',
    clone 0%nat
      [mkCell NodeRule 1 "all: app" [1%nat] noFields;
       mkCell NodeRecipe 2 "	cc -o app app.c" [] noFields]
    = Some (q, h')
    /\ (2 <= q < length h')%nat
    /\ (forall a c,
          nth_error
            [mkCell NodeRule 1 "all: app" [1%nat] noFields;
             mkCell NodeRecipe 2 "	cc -o app app.c" [] noFields] a
          = Some c -> nth_error h' a = Some c)
    /\ nodeAt 2 h' 0%nat
       = Some (mkNode NodeRule 1 "all: app"
                 [mkNode NodeRecipe 2 "	cc -o app app.c" [] noFields]
                 noFields)
    /\ nodeAt 2 h' q
       = Some (mkNode NodeRule 1 "all: app"
                 [mkNode NodeRecipe 2 "	cc -o app app.c" [] noFields]
                 noFields)
    /\ forall h'', agree 2 (length h') h' h'' ->
                   nodeAt 2 h'' q
                   = Some (mkNode NodeRule 1 "all: app"
                             [mkNode NodeRecipe 2 "	cc -o app app.c" []
                                noFields] noFields).
Proof.
  apply (clone_is_a_deep_copy 2
           [mkCell NodeRule 1 "all: app" [1%nat] noFields;
            mkCell NodeRecipe 2 "	cc -o app app.c" [] noFields]
           0%nat
           (mkNode NodeRule 1 "all: app"
              [mkNode NodeRecipe 2 "	cc -o app app.c" [] noFields]
              noFields)).
  - reflexivity.
  - unfold depthOf. cbn [length]. lia.
Defined.

(** X22.  No rule writes to the nodes it is given: when a registered
    rule returns, every cell of the store it started from is as it
    was, so every tree that could be read before reads the same after,
    and each pointer it returns is one of its input pointers or the
    address of a cell it allocated. *)
Theorem rules_leave_their_input : forall rule ns cfg h out h',
  In rule FormatRules ->
  Format rule ns cfg h = Some (out, h') ->
  (forall p c, nth_error h p = Some c -> nth_error h' p = Some c)
  /\ (forall fuel p n, nodeAt fuel h p = Some n ->
                       nodeAt fuel h' p = Some n)
  /\ Forall (inputOrFresh (length h) ns) out.
Proof.
  intros rule ns cfg h out h' Hin E.
  destruct (rules_frame rule ns cfg h out h' Hin E) as (K & Q).
  split; [exact K |]. split; [| exact Q].
  intros fuel p n H. exact (proj1 (nodeAt_ext fuel h h' K) p n H).
Qed.

Lemma rules_leave_their_input_witness :
  exists out h',
    Format (mkRule "trim_trailing_whitespace" TrailingWhitespace_Format
              TrimTrailingWhitespace)
      [0%nat] DefaultConfig
      [mkCell NodeComment 1 "# build  " [] noFields]
    = Some (out, h')
    /\ (forall p c,
          nth_error [mkCell NodeComment 1 "# build  " [] noFields] p
          = Some c -> nth_error h' p = Some c)
    /\ (forall fuel p n,
          nodeAt fuel [mkCell NodeComment 1 "# build  " [] noFields] p
          = Some n -> nodeAt fuel h' p = Some n)
    /\ Forall (inputOrFresh 1 [0%nat]) out.
Proof.
  eexists _, _. split; [vm_compute; reflexivity |].
  apply (rules_leave_their_input
           (mkRule "trim_trailing_whitespace" TrailingWhitespace_Format
              TrimTrailingWhitespace)
           [0%nat] DefaultConfig
           [mkCell NodeComment 1 "# build  " [] noFields]).
  - left. reflexivity.
  - vm_compute. reflexivity.
Defined.

End StoreProps.

(** ** The headers of the hunks *)

Module HeaderFacts.

Import Strings Diff MyersSpec DiffSpec.
Import SliceFacts StringFacts MyersFacts HunkFacts ScriptFacts.

Ltac step H :=
  match type of H with
  | (if ?c then _ else _) = _ =>
      let E := fresh "E" in
      destruct c eqn:E; [| discriminate H];
      repeat (apply andb_true_iff in E;
              let E' := fresh "E" in destruct E as [E E'])
  end.

Lemma replay_mono : forall a b es x y x' y',
  replay a b es x y = Some (x', y') -> x <= x' /\ y <= y'.
Proof.
  intros a b. induction es as [| e es IH]; intros x y x' y' H;
    cbn [replay] in H.
  - injection H as <- <-. lia.
  - destruct (kind e); step H; apply IH in H; lia.
Qed.

Lemma replay_count : forall a b es x y x' y',
  replay a b es x y = Some (x', y') ->
  countHunkLines es = (x' - x, y' - y).
Proof.
  intros a b. induction es as [| e es IH]; intros x y x' y' H;
    cbn [replay] in H; cbn [countHunkLines].
  - injection H as <- <-. f_equal; lia.
  - destruct (kind e); step H; rewrite (IH _ _ _ _ H); f_equal; lia.
Qed.

Lemma replay_starts : forall a b es x y x' y',
  0 <= x -> 0 <= y ->
  replay a b es x y = Some (x', y') ->
  (x < x' -> findOldStart es = x) /\ (x = x' -> findOldStart es = 0)
  /\ (y < y' -> findNewStart es = y) /\ (y = y' -> findNewStart es = 0).
Proof.
  intros a b. induction es as [| e es IH]; intros x y x' y' Hx Hy H;
    cbn [replay] in H.
  - injection H as <- <-. cbn [findOldStart findNewStart].
    repeat split; intros; try reflexivity; lia.
  - cbn [findOldStart findNewStart].
    destruct (kind e); step H; pose proof (replay_mono _ _ _ _ _ _ _ H) as M.
    + apply Z.eqb_eq in E, E1. rewrite E, E1.
      destruct (Z.geb_spec x 0); [| lia]. destruct (Z.geb_spec y 0); [| lia].
      repeat split; intros; try reflexivity; lia.
    + apply Z.eqb_eq in E, E1. rewrite E, E1.
      destruct (Z.geb_spec (-1) 0); [lia |].
      destruct (Z.geb_spec y 0); [| lia].
      assert (Hy1 : 0 <= y + 1) by lia.
      destruct (IH x (y + 1) x' y' Hx Hy1 H) as (A & B & C & D).
      repeat split; intros; try reflexivity; try lia; auto.
    + apply Z.eqb_eq in E, E1. rewrite E, E1.
      destruct (Z.geb_spec (-1) 0); [lia |].
      destruct (Z.geb_spec x 0); [| lia].
      assert (Hx1 : 0 <= x + 1) by lia.
      destruct (IH (x + 1) y x' y' Hx1 Hy H) as (A & B & C & D).
      repeat split; intros; try reflexivity; try lia; auto.
Qed.

Lemma replay_segment : forall a b es s k x' y',
  replay a b es 0 0 = Some (x', y') ->
  exists x y x2 y2,
    0 <= x /\ 0 <= y
    /\ replay a b (firstn k (skipn s es)) x y = Some (x2, y2)
    /\ x2 <= x' /\ y2 <= y'.
Proof.
  intros a b es s k x' y' H.
  assert (D : es = firstn s es
                   ++ firstn k (skipn s es) ++ skipn k (skipn s es))
    by (rewrite !firstn_skipn; reflexivity).
  rewrite D, replay_app in H.
  destruct (replay a b (firstn s es) 0 0) as [[x y] |] eqn:E1;
    cbn [bind] in H; [| discriminate].
  rewrite replay_app in H.
  destruct (replay a b (firstn k (skipn s es)) x y) as [[x2 y2] |] eqn:E2;
    cbn [bind] in H; [| discriminate].
  apply replay_mono in E1, H.
  exists x, y, x2, y2.
  split; [lia |]. split; [lia |]. split; [exact E2 | lia].
Qed.

Lemma regionsToHunks_shape : forall es rs hs,
  regionsToHunks rs es = Some hs ->
  Forall (fun h =>
            (exists s e, slice es s e = Some (edits h))
            /\ oldStart h = findOldStart (edits h)
            /\ newStart h = findNewStart (edits h)
            /\ (oldCount h, newCount h) = countHunkLines (edits h)) hs.
Proof.
  intros es. induction rs as [| r rest IH]; intros hs H;
    cbn [regionsToHunks] in H.
  - injection H as <-. constructor.
  - cbv zeta in H.
    match type of H with
    | bind (slice es ?s ?e) _ = _ =>
        destruct (slice es s e) as [hes |] eqn:Es
    end; cbn [bind] in H; [| discriminate].
    unfold findHunkStarts in H.
    destruct (countHunkLines hes) as [oc nc] eqn:Ec.
    destruct (regionsToHunks rest es) as [hs' |]; cbn [bind] in H;
      [| discriminate].
    injection H as <-. constructor; [| apply IH; reflexivity].
    cbn [edits oldStart newStart oldCount newCount].
    split; [eauto |]. split; [reflexivity |]. split; [reflexivity |].
    symmetry. exact Ec.
Qed.

End HeaderFacts.

Module HunkProps.

Import Strings Diff MyersSpec DiffSpec.
Import SliceFacts StringFacts HunkFacts ScriptFacts HeaderFacts.

(** X23.  The header of a hunk agrees with its body: for all line
    lists [a] and [b], the script of [myers] is cut into hunks, and
    each hunk is a stretch of the script that replays from a position
    [(x, y)] over exactly [oldCount] lines of [a] and [newCount] lines
    of [b], inside both lists; [oldStart] is [x] when the hunk has a
    line of [a] (and 0 when it has none), [newStart] is [y] when it has
    a line of [b] (and 0 when it has none). *)
Theorem hunk_headers_match_bodies : forall a b,
  exists es hs,
    myers a b = Some es
    /\ buildHunks es = Some hs
    /\ Forall (fun h =>
         exists x y,
           0 <= x /\ 0 <= y
           /\ 0 <= oldCount h /\ 0 <= newCount h
           /\ x + oldCount h <= len a /\ y + newCount h <= len b
           /\ replay a b (edits h) x y
              = Some (x + oldCount h, y + newCount h)
           /\ (0 < oldCount h -> oldStart h = x)
           /\ (oldCount h = 0 -> oldStart h = 0)
           /\ (0 < newCount h -> newStart h = y)
           /\ (newCount h = 0 -> newStart h = 0)) hs.
Proof.
  intros a b. destruct (myers_replay a b) as (es & Em & Er).
  destruct (buildHunks_spec es) as (hs & Eb & _).
  exists es, hs. split; [exact Em |]. split; [exact Eb |].
  assert (Hs : Forall (fun h =>
            (exists s e, slice es s e = Some (edits h))
            /\ oldStart h = findOldStart (edits h)
            /\ newStart h = findNewStart (edits h)
            /\ (oldCount h, newCount h) = countHunkLines (edits h)) hs).
  { unfold buildHunks in Eb. destruct (len es =? 0).
    - injection Eb as <-. constructor.
    - apply (regionsToHunks_shape _ _ _ Eb). }
  eapply Forall_impl; [| exact Hs]. cbv beta.
  intros h ((s & e & Hsl) & Hos & Hns & Hc).
  apply slice_inv in Hsl as (_ & _ & _ & Hseg).
  destruct (replay_segment a b es (Z.to_nat s) (Z.to_nat (e - s))
              (len a) (len b) Er)
    as (x & y & x2 & y2 & Hx & Hy & R & Bx & By).
  rewrite <- Hseg in R.
  pose proof (replay_mono _ _ _ _ _ _ _ R) as M.
  rewrite (replay_count _ _ _ _ _ _ _ R) in Hc.
  injection Hc as Hoc Hnc.
  destruct (replay_starts _ _ _ _ _ _ _ Hx Hy R) as (S1 & S2 & S3 & S4).
  exists x, y. rewrite Hoc, Hnc, Hos, Hns.
  split; [exact Hx |]. split; [exact Hy |].
  split; [lia |]. split; [lia |]. split; [lia |]. split; [lia |].
  split; [rewrite R; f_equal; f_equal; lia |].
  split; [intros; apply S1; lia |]. split; [intros; apply S2; lia |].
  split; [intros; apply S3; lia | intros; apply S4; lia].
Qed.

End HunkProps.

(** ** Parsing and writing keep every line *)

Module ChunkFacts.

Import Strings Parser Spec WriterSpec.
Import SliceFacts StringFacts NodeFacts ParserTotal RoundTrip.

Lemma writeChildrenOf_chunks : forall own cs,
  own ++ Formatter.writeChildrenOf cs ++ [NL]
  = concat ((own ++ [NL])
            :: map (fun c => Formatter.writeNode c ++ [NL]) cs).
Proof.
  intros own cs. revert own.
  induction cs as [| c cs IH]; intros own.
  - cbn. rewrite app_nil_r. reflexivity.
  - cbn [Formatter.writeChildrenOf map concat].
    specialize (IH (Formatter.writeNode c)). cbn [concat] in IH.
    rewrite <- IH, <- !app_assoc. reflexivity.
Qed.

(** The writer emits the pieces of the nodes one after the other. *)
Lemma Write_chunks : forall ns,
  Formatter.Write ns = concat (chunks ns).
Proof.
  induction ns as [| n ns IH]; [reflexivity |].
  cbn [Formatter.Write]. unfold chunks in *. cbn [flat_map].
  rewrite concat_app, <- IH. unfold nodeChunks.
  rewrite <- writeChildrenOf_chunks, writeNode_unfold, <- !app_assoc.
  reflexivity.
Qed.

Lemma chunks_app : forall a b, chunks (a ++ b) = chunks a ++ chunks b.
Proof. intros. unfold chunks. apply flat_map_app. Qed.

Lemma chunks_leaf : forall n raw,
  shaped raw n -> (raw = [] -> Typ n = NodeBlankLine) ->
  chunks [n] = [raw ++ [NL]].
Proof.
  intros n raw [Hr Hc] Hb. unfold chunks, nodeChunks. cbn [flat_map].
  rewrite Hc, writeOwn_raw by (rewrite Hr; exact Hb).
  rewrite Hr. reflexivity.
Qed.

Lemma wholeLines_unlines : forall ls, ls <> [] -> wholeLines (unlines ls).
Proof.
  intros ls H. rewrite <- Join_unlines by exact H.
  eexists. reflexivity.
Qed.

Lemma addNode_chunks : forall p n raw p',
  shaped raw n -> (raw = [] -> Typ n = NodeBlankLine) ->
  addNode p n = Some p' ->
  lineNum p' = lineNum p /\ inDefine p' = inDefine p
  /\ Permutation (chunks (nodes p) ++ [raw ++ [NL]]) (chunks (nodes p'))
  /\ (Typ n <> NodeRecipe -> nodes p' = nodes p ++ [n]).
Proof.
  intros p n raw p' Hs Hb H. unfold addNode in H.
  assert (A : chunks (nodes p ++ [n]) = chunks (nodes p) ++ [raw ++ [NL]]).
  { rewrite chunks_app, (chunks_leaf n raw Hs Hb). reflexivity. }
  destruct (Typ n) eqn:Et;
    try (injection H as <-;
         cbn [lineNum inDefine nodes appendNode setNodes setInRule];
         split; [reflexivity |]; split; [reflexivity |];
         split; [rewrite A; apply Permutation_refl
                | intros _; reflexivity]).
  match type of H with bind ?m _ = _ => destruct m as [found |] end;
    cbn [bind] in H; [| discriminate].
  destruct found as [i |].
  - destruct (index (nodes p) i) as [parent |] eqn:Ei; cbn [bind] in H;
      [| discriminate].
    destruct (store (nodes p) i
                (setChildren parent (Children parent ++ [n]))) as [ns |]
      eqn:Es; cbn [bind] in H; [| discriminate].
    injection H as <-. cbn [nodes lineNum inDefine setNodes].
    unfold store in Es. unfold index in Ei.
    destruct (i <? 0); [discriminate |].
    destruct (set_nth_spec _ _ _ _ _ Es) as (a & old & b & Ea & -> & Hi).
    rewrite Ea, nth_error_app2, Hi, Nat.sub_diag in Ei by lia.
    cbn [nth_error] in Ei. injection Ei as ->.
    split; [reflexivity |]. split; [reflexivity |].
    split; [| intros X; congruence].
    rewrite Ea.
    change (a ++ parent :: b) with (a ++ [parent] ++ b).
    change (a ++ setChildren parent (Children parent ++ [n]) :: b)
      with (a ++ [setChildren parent (Children parent ++ [n])] ++ b).
    rewrite !chunks_app.
    assert (E : chunks [setChildren parent (Children parent ++ [n])]
                = chunks [parent] ++ [raw ++ [NL]]).
    { unfold chunks, nodeChunks. cbn [flat_map].
      rewrite !app_nil_r, writeOwn_setChildren.
      cbn [Children setChildren]. rewrite map_app. cbn [map app].
      destruct Hs as [Hr Hc].
      rewrite (writeNode_leaf n Hc) by (rewrite Hr, Et; exact Hb).
      rewrite Hr. reflexivity. }
    rewrite E, <- !app_assoc.
    apply Permutation_app_head. apply Permutation_app_head.
    apply Permutation_app_comm.
  - injection H as <-.
    cbn [lineNum inDefine nodes appendNode setNodes].
    split; [reflexivity |]. split; [reflexivity |].
    split; [| intros X; congruence].
    rewrite chunks_app, (chunks_leaf (setTyp n NodeRaw) raw).
    + apply Permutation_refl.
    + destruct Hs as [Hr Hc]. split; [exact Hr | exact Hc].
    + intros X. discriminate (Hb X).
Qed.

Lemma handleDefineBlock_chunks : forall lines p p',
  chunkInvariant lines p -> inDefine p = true ->
  handleDefineBlock p lines = Some p' ->
  chunkInvariant lines (setLineNum p' (lineNum p' + 1)).
Proof.
  intros lines p p' (H0 & blocks & Hc & Hw & Hp & Hd) Hin H.
  destruct (Hd Hin) as (ns & d & b0 & E & Hch & Hraw & Eb & Hp0).
  unfold handleDefineBlock in H. rewrite E in H.
  rewrite len_app, len_cons, len_nil in H.
  replace (len ns + (1 + 0) - 1) with (len ns) in H by lia.
  rewrite index_last in H. cbn [bind] in H.
  pose proof (defineLoop_bounds (skipn (Z.to_nat (lineNum p)) lines)
                [Raw d] (lineNum p)) as Hb.
  pose proof (defineLoop_spec (skipn (Z.to_nat (lineNum p)) lines)
                [Raw d] (lineNum p)) as Hs.
  destruct (defineLoop (skipn (Z.to_nat (lineNum p)) lines) [Raw d]
              (lineNum p)) as [rawParts ln'].
  cbn [fst snd] in Hb, Hs.
  pose proof (store_last _ ns d (setRaw d (Join rawParts [NL]))) as Hst.
  rewrite len_app, len_cons, len_nil in Hst.
  replace (len ns + (1 + 0) - 1) with (len ns) in Hst by lia.
  rewrite Hst in H. cbn [bind] in H. injection H as <-.
  set (more := firstn (Z.to_nat (ln' + 1 - lineNum p))
                 (skipn (Z.to_nat (lineNum p)) lines)) in *.
  assert (Eraw : Join rawParts [NL] ++ [NL]
                 = (Raw d ++ [NL]) ++ unlines more).
  { rewrite Hs. cbn [app]. rewrite Join_unlines by discriminate.
    reflexivity. }
  unfold chunkInvariant. cbn [lineNum nodes inDefine setLineNum].
  split; [lia |].
  exists (b0 ++ [(Raw d ++ [NL]) ++ unlines more]).
  split; [| split; [| split]].
  - rewrite (unlines_firstn lines (lineNum p) (ln' + 1)) by lia.
    fold more. rewrite <- Hc, Eb, !concat_app. cbn [concat].
    rewrite !app_nil_r, <- !app_assoc. reflexivity.
  - rewrite Eb in Hw. apply Forall_app in Hw as [Hw1 _].
    apply Forall_app. split; [exact Hw1 |].
    constructor; [| constructor].
    rewrite <- Eraw. eexists. reflexivity.
  - rewrite chunks_app. apply Permutation_app; [exact Hp0 |].
    rewrite (chunks_leaf (setRaw d (Join rawParts [NL]))
               (Join rawParts [NL])).
    + rewrite Eraw. apply Permutation_refl.
    + split; [reflexivity | exact Hch].
    + intros X. rewrite Hs in X. apply Join_nil in X. contradiction.
  - intros X. discriminate.
Qed.

Lemma parseLoop_chunks : forall fuel lines p p',
  chunkInvariant lines p ->
  parseLoop fuel lines p = Some p' ->
  chunkInvariant lines p' /\ len lines <= lineNum p'.
Proof.
  induction fuel as [| fuel IH]; intros lines p p' Hinv H;
    [discriminate |].
  cbn [parseLoop] in H.
  destruct (lineNum p <? len lines) eqn:E;
    [| injection H as <-; split; [exact Hinv | boolz; lia]].
  boolz. destruct (inDefine p) eqn:Ed.
  - destruct (handleDefineBlock p lines) as [p1 |] eqn:Eh;
      cbn [bind] in H; [| discriminate].
    apply (IH _ _ _ (handleDefineBlock_chunks _ _ _ Hinv Ed Eh) H).
  - destruct Hinv as (H0 & blocks & Hc & Hw & Hp & Hd).
    destruct (joinContinuations lines (lineNum p)) as [[j c] |] eqn:Ej;
      cbn [bind] in H; [| discriminate].
    destruct (joinContinuations_total lines (lineNum p)) as
      (j' & c' & Ej' & Hc1 & Hc2); [lia |].
    rewrite Ej in Ej'. injection Ej' as <- <-.
    rewrite slice_some in H by lia. cbn [bind] in H.
    replace (lineNum p + c - lineNum p) with c in H by lia.
    set (rawLines := firstn (Z.to_nat c)
                       (skipn (Z.to_nat (lineNum p)) lines)) in *.
    assert (Hne : rawLines <> []).
    { unfold rawLines. intros X.
      apply (f_equal (@length gostring)) in X.
      rewrite length_firstn, length_skipn in X. unfold len in *.
      simpl in X. lia. }
    destruct (classifyLine p j (Join rawLines [NL])) as [[p1 n] |] eqn:Ec;
      cbn [bind] in H; [| discriminate].
    cbv zeta in H.
    destruct (classifyLine_shape _ _ _ _ _ Ec
                (joinContinuations_raw _ _ _ _ Ej Hc1))
      as (Hsh & Hn1 & Hl1 & Hbl & Hdef).
    match type of H with
    | bind (addNode ?q ?x) _ = _ =>
        destruct (addNode q x) as [p3 |] eqn:Ea; cbn [bind] in H;
          [| discriminate];
        assert (Hq : nodes q = nodes p /\ lineNum q = lineNum p + (c - 1)
                     /\ inDefine q = inDefine p1)
    end.
    { destruct (c >? 1) eqn:Ec1; cbn; boolz; repeat split; auto; lia. }
    destruct Hq as (Hqn & Hql & Hqd).
    eapply addNode_chunks with (raw := Join rawLines [NL]) in Ea.
    2: { destruct Hsh. split; assumption. }
    2: { exact Hbl. }
    destruct Ea as (Ha1 & Ha2 & Ha3 & Ha5).
    apply (IH _ _ _ ) in H; [exact H |].
    unfold chunkInvariant. cbn [lineNum nodes inDefine setLineNum].
    rewrite Ha1, Hql. split; [lia |].
    exists (blocks ++ [unlines rawLines]).
    split; [| split; [| split]].
    + rewrite (unlines_firstn lines (lineNum p) (lineNum p + (c - 1) + 1))
        by lia.
      replace (lineNum p + (c - 1) + 1 - lineNum p) with c by lia.
      fold rawLines. rewrite concat_app, Hc. cbn [concat].
      rewrite app_nil_r. reflexivity.
    + apply Forall_app. split; [exact Hw |].
      constructor; [apply wholeLines_unlines; exact Hne | constructor].
    + rewrite <- Join_unlines by exact Hne.
      eapply Permutation_trans; [| exact Ha3]. rewrite Hqn.
      apply Permutation_app_tail. exact Hp.
    + rewrite Ha2, Hqd. intros X.
      destruct (Hdef X) as [Y | [Y1 Y2]]; [congruence |].
      exists (nodes p), (setLine n (lineNum p1 + 1)), blocks.
      split; [| split; [| split; [| split]]].
      * rewrite <- Hqn. apply Ha5. cbn. rewrite Y1. discriminate.
      * destruct Hsh as [_ Hch]. exact Hch.
      * destruct Hsh as [Hr _]. change (Raw n <> []). rewrite Hr. exact Y2.
      * destruct Hsh as [Hr _]. cbn [Raw setLine]. rewrite Hr.
        rewrite Join_unlines by exact Hne. reflexivity.
      * exact Hp.
Qed.

Lemma Parse_chunks : forall src ns,
  Parse src = Some ns ->
  exists blocks,
    concat blocks = unlines (splitLines src)
    /\ Forall wholeLines blocks
    /\ Permutation blocks (chunks ns).
Proof.
  intros src ns H. unfold Parse, parse in H. cbv zeta in H.
  match type of H with
  | bind (parseLoop ?f ?l ?q) _ = _ =>
      destruct (parseLoop f l q) as [p' |] eqn:E; cbn [bind] in H;
        [| discriminate]
  end.
  injection H as <-.
  apply parseLoop_chunks in E as [(H0 & blocks & Hc & Hw & Hp & _) Hlen].
  - exists blocks. split; [| split; assumption].
    rewrite Hc, firstn_all2 by (unfold len in Hlen; lia). reflexivity.
  - unfold chunkInvariant. cbn [lineNum nodes inDefine setNodes].
    split; [lia |]. exists [].
    split; [reflexivity |]. split; [constructor |].
    split; [apply Permutation_refl | intros; discriminate].
Qed.

End ChunkFacts.

Module WriterProps.

Import Strings Parser Spec WriterSpec.
Import ParserTotal RoundTrip ChunkFacts.

(** X24.  Parsing and writing back keep every line: for every text,
    [Parse] returns nodes [ns]; the writer emits for them the pieces
    [chunks ns], one after the other; and these pieces are the text
    (its lines, each ended by a newline) cut into blocks of whole
    lines, in some order.  No line is lost, added or changed; lines
    can only move (a recipe line moves up to its rule). *)
Theorem parse_write_keeps_lines : forall src,
  exists ns blocks,
    Parse src = Some ns
    /\ Formatter.Write ns = concat (chunks ns)
    /\ Permutation blocks (chunks ns)
    /\ Forall wholeLines blocks
    /\ concat blocks = unlines (splitLines src)
    /\ (newlineTerminated src -> concat blocks = src).
Proof.
  intros src. destruct (Parse_total src) as [ns H].
  destruct (Parse_chunks src ns H) as (blocks & Hc & Hw & Hp).
  exists ns, blocks. split; [exact H |].
  split; [apply Write_chunks |]. split; [exact Hp |].
  split; [exact Hw |]. split; [exact Hc |].
  intros Ht. rewrite Hc. apply splitLines_unlines. exact Ht.
Qed.

End WriterProps.
